(** * lickle-bin: binary codecs over byte cursors

    A shallow embedding of [src/index.ts] (the current version of the
    library, the first of the two copies in that file) and the properties
    its specification states about it.

    Conventions of the embedding.
    - A [Uint8Array] is a [list byte]; its length never changes.
    - Sizes, offsets and cursor positions are [nat]: the library only ever
      adds sizes to a position that starts at an offset.
    - An integer-valued JavaScript number and a bigint are a [Z]; any
      other number (a fraction, an infinity, NaN, the negative zero) is the
      64 bits of its IEEE 754 representation.
    - An object is a plain one: the list of its own properties, with
      [Object.prototype] as its prototype.
    - A JavaScript string is a Rocq [string] holding its UTF-8 bytes, the
      representation Rocq itself uses for string literals, so
      [TextEncoder.encode] is [list_byte_of_string].
    - Mutable objects (readers, writers) are threaded as explicit state; a
      [throw] keeps the state reached so far, as an exception does. *)

From Stdlib Require Import String Ascii ZArith Bool Lia Arith List.
From Stdlib Require Import Strings.Byte.
From Stdlib Require Import DecimalString.
Import ListNotations.

Local Open Scope nat_scope.
Local Open Scope list_scope.

(** ** Exceptions and the state-and-exception monad *)

(** The three kinds of error the library can meet: its own
    [new Error(message)], and the platform's [RangeError] (typed arrays,
    [DataView]) and [TypeError] ([TextDecoder] in fatal mode, property
    access on [undefined]).  [IllTyped] marks a step that leaves what
    the embedding represents: a call whose argument is outside the
    TypeScript type of the parameter (the compiler rejects such a call,
    and JavaScript's run-time coercions for it are not modelled, but for
    the number that a member of [Object.prototype] is converted to), or
    an assignment that replaces the prototype of an object (the result is
    no plain object). *)
Inductive exn : Type :=
| Error (message : string)
| RangeError (message : string)
| TypeError (message : string)
| IllTyped.

Inductive outcome (A : Type) : Type :=
| Ok (a : A)
| Throw (x : exn).
Arguments Ok {A} a.
Arguments Throw {A} x.

(** A computation over a mutable object of type [S]. *)
Definition M (S A : Type) : Type := S -> outcome A * S.

Definition ret {S A} (a : A) : M S A := fun s => (Ok a, s).
Definition throw {S A} (x : exn) : M S A := fun s => (Throw x, s).
Definition bind {S A B} (m : M S A) (k : A -> M S B) : M S B :=
  fun s => match m s with
           | (Ok a, s') => k a s'
           | (Throw x, s') => (Throw x, s')
           end.
(** A pure computation that may throw, run without touching the state. *)
Definition lift {S A} (o : outcome A) : M S A := fun s => (o, s).

Declare Scope js_scope.
Delimit Scope js_scope with js.
Notation "x <- m ;; k" := (bind m (fun x => k))
  (at level 61, m at next level, right associativity) : js_scope.
Notation "m ;;; k" := (bind m (fun _ => k))
  (at level 61, right associativity) : js_scope.
Local Open Scope js_scope.

Definition obind {A B} (o : outcome A) (k : A -> outcome B) : outcome B :=
  match o with Ok a => k a | Throw x => Throw x end.

(** The message of a caught exception, [e?.message ?? String(e)]. *)
Definition exn_message (x : exn) : string :=
  match x with
  | Error m | RangeError m | TypeError m => m
  | IllTyped => "ill-typed argument"%string
  end.

(** Template-literal rendering of a non-negative integer, [`${n}`]. *)
Definition dec (n : nat) : string := NilZero.string_of_uint (Nat.to_uint n).
Definition decZ (z : Z) : string := NilZero.string_of_int (Z.to_int z).

(** ** Typed arrays *)

Definition bytes : Type := list byte.

(** [new Uint8Array(n)]: [n] zero bytes. *)
Definition zeros (n : nat) : bytes := repeat x00 n.

(** [target.set(src, o)]: copies [src] into [target] at offset [o];
    a [RangeError] when it does not fit. *)
Definition u8_set (target src : bytes) (o : nat) : outcome bytes :=
  if o + length src <=? length target
  then Ok (firstn o target ++ src ++ skipn (o + length src) target)
  else Throw (RangeError "offset is out of bounds"%string).

(** [b.slice(o, e)]: a copy of the bytes from [o] up to [e], both clamped
    to the length of [b]. *)
Definition u8_slice (b : bytes) (o e : nat) : bytes :=
  firstn (e - o) (skipn o b).

(** ** Readers (index.ts 484-513) *)

(** [Reader & Cursor]: the buffer, the position, and whether [read] is the
    bounds-checking one of [checkedReader].  In [checkedReader] the field
    [r.pos] is set to the closure variable [pos] after every read, so one
    position stands for both. *)
Record Reader : Type := mkReader {
  checked : bool;
  buf : bytes;
  pos : nat
}.

Definition reader (b : bytes) (offset : nat) : Reader := mkReader false b offset.
Definition checkedReader (b : bytes) (offset : nat) : Reader := mkReader true b offset.

(** The callback of [read]: it receives the buffer, the start offset and
    the end offset, and returns a result or throws. *)
Definition ReadFn (R : Type) : Type := bytes -> nat -> nat -> outcome R.

Definition out_of_bounds (n p len : nat) : exn :=
  Error ("Out of bounds: need " ++ dec n ++ " at " ++ dec p ++ ", len=" ++ dec len)%string.

(** [ensure(n)] of [checkedReader]. *)
Definition ensure (r : Reader) (n : nat) : outcome unit :=
  if length (buf r) <? pos r + n
  then Throw (out_of_bounds n (pos r) (length (buf r)))
  else Ok tt.

Definition advance (r : Reader) (size : nat) : Reader :=
  mkReader (checked r) (buf r) (pos r + size).

(** [r.read(size, fn)] for both readers. *)
Definition read {R} (size : nat) (fn : ReadFn R) : M Reader R :=
  fun r =>
    match (if checked r then ensure r size else Ok tt) with
    | Throw x => (Throw x, r)
    | Ok _ =>
        match fn (buf r) (pos r) (pos r + size) with
        | Ok out => (Ok out, advance r size)
        | Throw x => (Throw x, r)
        end
    end.

(** ** Writers (index.ts 544-576) *)

(** The two writers of [writer(size?)]: the fixed one holds one buffer and
    a position, the growable one the chunks written so far and their total
    length. *)
Inductive Writer : Type :=
| FixedWriter (buf : bytes) (pos : nat)
| GrowableWriter (bufs : list bytes) (len : nat).

Definition writer (size : option nat) : Writer :=
  match size with
  | Some n => FixedWriter (zeros n) 0
  | None => GrowableWriter [] 0
  end.

(** The callback of [write]: it receives the buffer and the offset and
    mutates the buffer; the result is the buffer after the call. *)
Definition WriteFn : Type := bytes -> nat -> outcome bytes.

Definition write (size : nat) (fn : WriteFn) : M Writer unit :=
  fun w =>
    match w with
    | FixedWriter b p =>
        match fn b p with
        | Ok b' => (Ok tt, FixedWriter b' (p + size))
        | Throw x => (Throw x, w)
        end
    | GrowableWriter bufs len =>
        match fn (zeros size) 0 with
        | Ok chunk => (Ok tt, GrowableWriter (bufs ++ [chunk]) (len + size))
        | Throw x => (Throw x, w)
        end
    end.

(** The copy loop of the growable [flush]. *)
Fixpoint flush_loop (out : bytes) (offset : nat) (bufs : list bytes) : outcome bytes :=
  match bufs with
  | [] => Ok out
  | b :: rest =>
      match u8_set out b offset with
      | Ok out' => flush_loop out' (offset + length b) rest
      | Throw x => Throw x
      end
  end.

Definition flush (w : Writer) : outcome bytes :=
  match w with
  | FixedWriter b _ => Ok b
  | GrowableWriter bufs len => flush_loop (zeros len) 0 bufs
  end.

(** A sequence of [write] calls on one writer, stopping at the first that
    throws. *)
Fixpoint write_all (ops : list (nat * WriteFn)) : M Writer unit :=
  match ops with
  | [] => ret tt
  | (size, fn) :: rest => write size fn ;;; write_all rest
  end.

Definition total_size (ops : list (nat * WriteFn)) : nat :=
  fold_right (fun op acc => fst op + acc) 0 ops.

(** ** DataView accessors *)

Definition Z_of_byte (b : byte) : Z := Z.of_N (Byte.to_N b).
Definition byte_of_Z (z : Z) : byte :=
  match Byte.of_N (Z.to_N (z mod 256)) with
  | Some b => b
  | None => x00
  end.

(** The [n] low-order bytes of [v], least significant first: the integer
    conversions of [DataView] keep [v] modulo [2^(8n)]. *)
Fixpoint le_bytes (n : nat) (v : Z) : bytes :=
  match n with
  | O => []
  | S k => byte_of_Z (v mod 256) :: le_bytes k (v / 256)
  end.

Fixpoint le_value (bs : bytes) : Z :=
  match bs with
  | [] => 0%Z
  | b :: rest => (Z_of_byte b + 256 * le_value rest)%Z
  end.

Definition int_bytes (n : nat) (littleEndian : bool) (v : Z) : bytes :=
  if littleEndian then le_bytes n v else rev (le_bytes n v).

Definition uint_value (littleEndian : bool) (bs : bytes) : Z :=
  le_value (if littleEndian then bs else rev bs).

Definition int_value (littleEndian : bool) (bs : bytes) : Z :=
  let u := uint_value littleEndian bs in
  if (u <? 2 ^ (8 * Z.of_nat (length bs) - 1))%Z then u
  else (u - 2 ^ (8 * Z.of_nat (length bs)))%Z.

Definition dv_range : exn := RangeError "Offset is outside the bounds of the DataView"%string.

(** [view.setUintN(o, v, le)] and [view.setIntN(o, v, le)] store the same
    bytes. *)
Definition dv_set (n : nat) (b : bytes) (o : nat) (v : Z) (littleEndian : bool) : outcome bytes :=
  if o + n <=? length b
  then Ok (firstn o b ++ int_bytes n littleEndian v ++ skipn (o + n) b)
  else Throw dv_range.

Definition dv_getUint (n : nat) (b : bytes) (o : nat) (littleEndian : bool) : outcome Z :=
  if o + n <=? length b
  then Ok (uint_value littleEndian (u8_slice b o (o + n)))
  else Throw dv_range.

Definition dv_getInt (n : nat) (b : bytes) (o : nat) (littleEndian : bool) : outcome Z :=
  if o + n <=? length b
  then Ok (int_value littleEndian (u8_slice b o (o + n)))
  else Throw dv_range.

(** ** Floating point numbers (IEEE 754) *)

(** A binary interchange format: the widths of the exponent and of the
    fraction.  [setFloat32] and [getFloat32] use [binary32]; [setFloat64]
    and [getFloat64], and the numbers of JavaScript themselves,
    [binary64]. *)
Record Format : Type := { ebits : Z; fbits : Z }.
Definition binary32 : Format := {| ebits := 8; fbits := 23 |}.
Definition binary64 : Format := {| ebits := 11; fbits := 52 |}.

(** The exponent of the last bit of the subnormal numbers: [-149] and
    [-1074]. *)
Definition emin (fmt : Format) : Z := (2 - 2 ^ (ebits fmt - 1) - fbits fmt)%Z.

(** The sign bit; the bits of the infinity; the bits of the NaN that the
    setters store. *)
Definition sign_mask (fmt : Format) : Z := (2 ^ (ebits fmt + fbits fmt))%Z.
Definition infinity (fmt : Format) : Z := ((2 ^ ebits fmt - 1) * 2 ^ fbits fmt)%Z.
Definition quiet_nan (fmt : Format) : Z := (infinity fmt + 2 ^ (fbits fmt - 1))%Z.

(** A number: not a number, an infinity, or [(-1)^negative * m * 2^x]
    with [0 <= m]. *)
Inductive Number : Type :=
| NaN
| Infinite (negative : bool)
| Finite (negative : bool) (m : Z) (x : Z).

(** The number that the bits [b] stand for in a format: the sign, the
    exponent field and the fraction field. *)
Definition number_of_bits (fmt : Format) (b : Z) : Number :=
  let negative := (sign_mask fmt <=? b)%Z in
  let ex := ((b / 2 ^ fbits fmt) mod 2 ^ ebits fmt)%Z in
  let f := (b mod 2 ^ fbits fmt)%Z in
  if (ex =? 2 ^ ebits fmt - 1)%Z
  then (if (f =? 0)%Z then Infinite negative else NaN)
  else if (ex =? 0)%Z then Finite negative f (emin fmt)
  else Finite negative (2 ^ fbits fmt + f) (ex - 1 + emin fmt).

(** [m / 2^k] rounded to the nearest integer, and to the even one of the
    two when it is half way. *)
Definition round_shift (m k : Z) : Z :=
  let q := (m / 2 ^ k)%Z in
  let r := (m mod 2 ^ k)%Z in
  let half := (2 ^ (k - 1))%Z in
  if ((half <? r) || ((r =? half) && Z.odd q))%Z then (q + 1)%Z else q.

(** The bits, in a format, of the number of that format nearest to a
    number (roundTiesToEven): [unit] is the exponent of the last bit kept,
    [q] the significand at that exponent; a carry out of the significand
    moves into the exponent field, and what reaches the exponent of the
    infinity is the infinity. *)
Definition bits_of_number (fmt : Format) (v : Number) : Z :=
  match v with
  | NaN => quiet_nan fmt
  | Infinite negative =>
      ((if negative then sign_mask fmt else 0) + infinity fmt)%Z
  | Finite negative m x =>
      ((if negative then sign_mask fmt else 0) +
       if m <=? 0 then 0
       else
         let unit := Z.max (Z.log2 m + x - fbits fmt) (emin fmt) in
         let q := if unit <=? x then m * 2 ^ (x - unit)
                  else round_shift m (unit - x) in
         Z.min ((unit - emin fmt) * 2 ^ fbits fmt + q) (infinity fmt))%Z
  end.

(** The integer part of a number, as the conversions to the integer
    types take it: towards zero, and 0 for NaN and the infinities. *)
Definition truncate (v : Number) : Z :=
  match v with
  | Finite negative m x =>
      let n := (if 0 <=? x then m * 2 ^ x else m / 2 ^ (- x))%Z in
      if negative then (- n)%Z else n
  | _ => 0%Z
  end.

(** ** Values *)

(** The JavaScript values the codecs exchange.  A number is [VNum] when
    it is an integer other than the negative zero, and [VFloat] of its 64
    bits otherwise.  An object is the list of its own properties in
    insertion order, its prototype being [Object.prototype]; an array the
    list of its items.  [VBuiltin name] is what [Object.prototype] holds
    under [name]: a built-in function, and for [__proto__] the object
    [Object.prototype] itself. *)
#[warnings="-register-all"]
Inductive Value : Type :=
| VUndefined
| VNull
| VBool (b : bool)
| VNum (n : Z)
| VBigInt (n : Z)
| VStr (str : string)
| VBytes (b : bytes)
| VArr (items : list Value)
| VObj (props : list (string * Value))
| VFloat (bits : Z)
| VBuiltin (name : string).

(** The number a value is: [ToNumber], which makes NaN of a built-in
    function and of [Object.prototype]. *)
Definition to_number (v : Value) : outcome Number :=
  match v with
  | VNum n => Ok (Finite (n <? 0)%Z (Z.abs n) 0)
  | VFloat bits => Ok (number_of_bits binary64 bits)
  | VBuiltin _ => Ok NaN
  | _ => Throw IllTyped
  end.

(** The value that is a number. *)
Definition of_number (v : Number) : Value :=
  match v with
  | Finite negative m x =>
      if (m =? 0)%Z then (if negative then VFloat (sign_mask binary64) else VNum 0)
      else if (0 <=? x)%Z
      then VNum (if negative then - (m * 2 ^ x) else m * 2 ^ x)
      else if (m mod 2 ^ (- x) =? 0)%Z
      then VNum (if negative then - (m / 2 ^ (- x)) else m / 2 ^ (- x))
      else VFloat (bits_of_number binary64 v)
  | _ => VFloat (bits_of_number binary64 v)
  end.

(** The value a number becomes when it is stored in a format and read
    back: [Math.fround(v)] for [binary32]. *)
Definition rounded (fmt : Format) (v : Value) : outcome Value :=
  obind (to_number v) (fun x =>
  Ok (of_number (number_of_bits fmt (bits_of_number fmt x)))).

(** *** Objects *)

Definition obj (A : Type) : Type := list (string * A).

(** [o[k]], on own properties. *)
Fixpoint obj_get {A} (o : obj A) (k : string) : option A :=
  match o with
  | [] => None
  | (k', a) :: rest => if String.eqb k k' then Some a else obj_get rest k
  end.

(** [o[k] = a]: an existing property keeps its place, a new one is added
    last. *)
Fixpoint obj_set {A} (o : obj A) (k : string) (a : A) : obj A :=
  match o with
  | [] => [(k, a)]
  | (k', a') :: rest =>
      if String.eqb k k' then (k', a) :: rest else (k', a') :: obj_set rest k a
  end.

Definition digit_of (c : ascii) : option N :=
  let n := N_of_ascii c in
  if ((48 <=? n) && (n <=? 57))%N then Some (n - 48)%N else None.

Fixpoint digits_value (k : string) (acc : N) : option N :=
  match k with
  | EmptyString => Some acc
  | String c rest =>
      match digit_of c with
      | Some dg => digits_value rest (10 * acc + dg)%N
      | None => None
      end
  end.

(** A property name that is an array index: a canonical decimal numeral
    below [2^32 - 1]. *)
Definition array_index (k : string) : option N :=
  match k with
  | EmptyString => None
  | String "0"%char EmptyString => Some 0%N
  | String "0"%char _ => None
  | _ =>
      match digits_value k 0 with
      | Some n => if (n <? 4294967295)%N then Some n else None
      | None => None
      end
  end.

Fixpoint insert_index (n : N) (k : string) (l : list (N * string)) : list (N * string) :=
  match l with
  | [] => [(n, k)]
  | (m, k') :: rest =>
      if (n <=? m)%N then (n, k) :: l else (m, k') :: insert_index n k rest
  end.

Fixpoint index_keys (ks : list string) : list (N * string) :=
  match ks with
  | [] => []
  | k :: rest =>
      match array_index k with
      | Some n => insert_index n k (index_keys rest)
      | None => index_keys rest
      end
  end.

Definition is_name (k : string) : bool :=
  match array_index k with None => true | Some _ => false end.

(** [Object.keys(o)], also the order of [for (const key in o)]: the array
    indices in ascending order, then the other names in insertion order. *)
Definition own_keys {A} (o : obj A) : list string :=
  map snd (index_keys (map fst o)) ++ filter is_name (map fst o).

(** [Object.entries(o)]. *)
Definition entries {A} (o : obj A) : list (string * A) :=
  flat_map (fun k => match obj_get o k with Some a => [(k, a)] | None => [] end)
           (own_keys o).

(** [Object.fromEntries(l)]. *)
Definition fromEntries {A} (l : list (string * A)) : obj A :=
  fold_left (fun o ka => obj_set o (fst ka) (snd ka)) l [].

(** [keys.indexOf(k)] on names; [None] is [-1]. *)
Fixpoint index_of (k : string) (keys : list string) : option nat :=
  match keys with
  | [] => None
  | k' :: rest =>
      if String.eqb k k' then Some 0
      else match index_of k rest with Some i => Some (S i) | None => None end
  end.

Definition undefined_read : exn :=
  TypeError "Cannot read properties of undefined"%string.
Definition not_a_function : exn :=
  TypeError "is not a function"%string.

(** The names of the properties of [Object.prototype], which every plain
    object inherits. *)
Definition object_prototype : list string :=
  [ "constructor"; "__defineGetter__"; "__defineSetter__"; "hasOwnProperty";
    "__lookupGetter__"; "__lookupSetter__"; "isPrototypeOf";
    "propertyIsEnumerable"; "toString"; "valueOf"; "__proto__";
    "toLocaleString" ]%string.

Definition inherited (k : string) : bool :=
  existsb (String.eqb k) object_prototype.

Definition has_own {A} (o : obj A) (k : string) : bool :=
  match obj_get o k with Some _ => true | None => false end.

(** [o[k]] on a plain object: the own property, else what
    [Object.prototype] holds under that name, else [undefined]. *)
Definition lookup (o : obj Value) (k : string) : Value :=
  match obj_get o k with
  | Some x => x
  | None => if inherited k then VBuiltin k else VUndefined
  end.

(** [(v as any)[key]]. *)
Definition prop (v : Value) (key : string) : outcome Value :=
  match v with
  | VObj o => Ok (lookup o key)
  | VUndefined | VNull => Throw undefined_read
  | _ => Throw IllTyped
  end.

(** An object, or [null]: what the setter of [__proto__] takes for a
    prototype. *)
Definition is_object_or_null (v : Value) : bool :=
  match v with
  | VNull | VBytes _ | VArr _ | VObj _ | VBuiltin _ => true
  | _ => false
  end.

(** [result[key] = x] on a plain object.  Every name makes or updates an
    own property, but [__proto__] when it is not one already: that
    assignment runs the setter of [Object.prototype], which ignores a
    value that is neither an object nor [null] and otherwise replaces the
    prototype of [result]. *)
Definition assign (result : obj Value) (key : string) (x : Value)
    : outcome (obj Value) :=
  if String.eqb key "__proto__" && negb (has_own result key)
  then (if is_object_or_null x then Throw IllTyped else Ok result)
  else Ok (obj_set result key x).

(** [v[i]] on an array. *)
Definition item (v : Value) (i : nat) : outcome Value :=
  match v with
  | VArr l => Ok (nth i l VUndefined)
  | VUndefined | VNull => Throw undefined_read
  | _ => Throw IllTyped
  end.

Definition is_nan (v : Number) : bool :=
  match v with NaN => true | _ => false end.
Definition is_zero (v : Number) : bool :=
  match v with Finite _ m _ => (m =? 0)%Z | _ => false end.

(** [a === b].  Objects, arrays and typed arrays are equal only to
    themselves as references, which values do not carry: they compare
    unequal.  NaN differs from itself, and the two zeros are equal.  A
    built-in is one object. *)
Definition strict_eq (a b : Value) : bool :=
  match a, b with
  | VUndefined, VUndefined => true
  | VNull, VNull => true
  | VBool x, VBool y => Bool.eqb x y
  | VNum x, VNum y => (x =? y)%Z
  | VFloat x, VFloat y => (x =? y)%Z && negb (is_nan (number_of_bits binary64 x))
  | VNum x, VFloat y | VFloat y, VNum x =>
      (x =? 0)%Z && is_zero (number_of_bits binary64 y)
  | VBigInt x, VBigInt y => (x =? y)%Z
  | VStr x, VStr y => String.eqb x y
  | VBuiltin x, VBuiltin y => String.eqb x y
  | _, _ => false
  end.

(** [keys.indexOf(x)] on values. *)
Fixpoint index_of_value (x : Value) (keys : list Value) : option nat :=
  match keys with
  | [] => None
  | k :: rest =>
      if strict_eq k x then Some 0
      else match index_of_value x rest with Some i => Some (S i) | None => None end
  end.

Definition as_number (v : Value) : outcome Z :=
  match v with VNum n => Ok n | _ => Throw IllTyped end.
Definition as_bigint (v : Value) : outcome Z :=
  match v with VBigInt n => Ok n | _ => Throw IllTyped end.
Definition as_boolean (v : Value) : outcome bool :=
  match v with VBool b => Ok b | _ => Throw IllTyped end.
Definition as_string (v : Value) : outcome string :=
  match v with VStr x => Ok x | _ => Throw IllTyped end.
Definition as_bytes (v : Value) : outcome bytes :=
  match v with VBytes b => Ok b | _ => Throw IllTyped end.
Definition as_array (v : Value) : outcome (list Value) :=
  match v with VArr l => Ok l | _ => Throw IllTyped end.

(** *** DataView accessors on values *)

(** The conversion of the integer setters of [DataView]. *)
Definition to_integer (v : Value) : outcome Z :=
  match v with
  | VNum n => Ok n
  | VFloat bits => Ok (truncate (number_of_bits binary64 bits))
  | VBuiltin _ => Ok (truncate NaN)
  | _ => Throw IllTyped
  end.

(** [view.getUintN(o, le)], [view.getIntN(o, le)] and
    [view.setUintN(o, v, le)], [view.setIntN(o, v, le)], which store the
    same bytes. *)
Definition getUint (n : nat) (b : bytes) (o : nat) (littleEndian : bool) : outcome Value :=
  obind (dv_getUint n b o littleEndian) (fun x => Ok (VNum x)).
Definition getInt (n : nat) (b : bytes) (o : nat) (littleEndian : bool) : outcome Value :=
  obind (dv_getInt n b o littleEndian) (fun x => Ok (VNum x)).
Definition setInt (n : nat) (b : bytes) (o : nat) (v : Value) (littleEndian : bool)
    : outcome bytes :=
  obind (to_integer v) (fun x => dv_set n b o x littleEndian).

(** [view.getFloat32(o, le)], [view.getFloat64(o, le)] and
    [view.setFloat32(o, v, le)], [view.setFloat64(o, v, le)]: the bits of
    the format on [n] bytes. *)
Definition getFloat (fmt : Format) (n : nat) (b : bytes) (o : nat) (littleEndian : bool)
    : outcome Value :=
  obind (dv_getUint n b o littleEndian) (fun bits =>
  Ok (of_number (number_of_bits fmt bits))).
Definition setFloat (fmt : Format) (n : nat) (b : bytes) (o : nat) (v : Value)
    (littleEndian : bool) : outcome bytes :=
  obind (to_number v) (fun x => dv_set n b o (bits_of_number fmt x) littleEndian).

(** [view.getBigUint64(o, le)], [view.getBigInt64(o, le)] and
    [view.setBigUint64(o, v, le)], [view.setBigInt64(o, v, le)]. *)
Definition getBigUint (n : nat) (b : bytes) (o : nat) (littleEndian : bool)
    : outcome Value :=
  obind (dv_getUint n b o littleEndian) (fun x => Ok (VBigInt x)).
Definition getBigInt (n : nat) (b : bytes) (o : nat) (littleEndian : bool)
    : outcome Value :=
  obind (dv_getInt n b o littleEndian) (fun x => Ok (VBigInt x)).
Definition setBigInt (n : nat) (b : bytes) (o : nat) (v : Value) (littleEndian : bool)
    : outcome bytes :=
  obind (as_bigint v) (fun x => dv_set n b o x littleEndian).

(** *** Text *)

Definition in_range (lo hi : N) (b : byte) : bool :=
  ((lo <=? Byte.to_N b) && (Byte.to_N b <=? hi))%N.

Definition continuation : byte -> bool := in_range 128 191.

(** The second byte of a three-byte sequence led by [b0]. *)
Definition second_of_3 (b0 b1 : byte) : bool :=
  if Byte.eqb b0 xe0 then in_range 160 191 b1
  else if Byte.eqb b0 xed then in_range 128 159 b1
  else continuation b1.

(** The second byte of a four-byte sequence led by [b0]. *)
Definition second_of_4 (b0 b1 : byte) : bool :=
  if Byte.eqb b0 xf0 then in_range 144 191 b1
  else if Byte.eqb b0 xf4 then in_range 128 143 b1
  else continuation b1.

(** Well-formed UTF-8, as the decoder of the Encoding standard accepts
    it. *)
Fixpoint utf8_valid (bs : bytes) : bool :=
  match bs with
  | [] => true
  | b0 :: r0 =>
      if in_range 0 127 b0 then utf8_valid r0
      else
        match r0 with
        | [] => false
        | b1 :: r1 =>
            if in_range 194 223 b0 then continuation b1 && utf8_valid r1
            else
              match r1 with
              | [] => false
              | b2 :: r2 =>
                  if in_range 224 239 b0
                  then second_of_3 b0 b1 && continuation b2 && utf8_valid r2
                  else
                    match r2 with
                    | [] => false
                    | b3 :: r3 =>
                        in_range 240 244 b0 && second_of_4 b0 b1
                        && continuation b2 && continuation b3 && utf8_valid r3
                    end
              end
        end
  end.

(** The input starts with the byte order mark, [EF BB BF]. *)
Definition has_bom (bs : bytes) : bool :=
  match bs with
  | b0 :: b1 :: b2 :: _ => Byte.eqb b0 xef && Byte.eqb b1 xbb && Byte.eqb b2 xbf
  | _ => false
  end.

Definition strip_bom (bs : bytes) : bytes :=
  if has_bom bs then skipn 3 bs else bs.

(** [ENC.encode(v)], [ENC = new TextEncoder()]. *)
Definition ENC_encode (v : Value) : outcome bytes :=
  match v with VStr x => Ok (list_byte_of_string x) | _ => Throw IllTyped end.

(** [DEC.decode(bs)], [DEC = new TextDecoder('utf-8', { fatal: true })]:
    a [TypeError] on malformed input; a leading byte order mark is
    dropped ([ignoreBOM] is off). *)
Definition DEC_decode (bs : bytes) : outcome string :=
  if utf8_valid bs then Ok (string_of_list_byte (strip_bom bs))
  else Throw (TypeError "The encoded data was not valid for encoding utf-8"%string).

(** [x.replace(/\0+$/, '')]. *)
Fixpoint strip_trailing_nul (x : string) : string :=
  match x with
  | EmptyString => EmptyString
  | String c rest =>
      match strip_trailing_nul rest with
      | EmptyString => if Ascii.eqb c Ascii.zero then EmptyString else String c EmptyString
      | rest' => String c rest'
      end
  end.

(** The text ends in a NUL character. *)
Fixpoint ends_in_nul (x : string) : bool :=
  match x with
  | EmptyString => false
  | String c EmptyString => Ascii.eqb c Ascii.zero
  | String _ rest => ends_in_nul rest
  end.

(** ** Codecs (index.ts 11-38) *)

(** The size descriptor [s]: a number, or a function of the value. *)
Inductive SizeDesc : Type :=
| Fixed (n : nat)
| Dynamic (f : Value -> outcome nat).

(** The [schema] of a [Schema] codec: the record of field codecs of a
    struct or tagged union, or the array of codecs of a tuple or
    discriminated union. *)
Inductive Shape (C : Type) : Type :=
| NoShape
| Fields (shape : obj C)
| Items (shape : list C).
Arguments NoShape {C}.
Arguments Fields {C} shape.
Arguments Items {C} shape.

(** A codec object: [e(w, v)] with the writer as the threaded state,
    [d(r)] with the reader as the threaded state, the size descriptor,
    and the properties some codecs add ([schema], [value],
    [optional]). *)
#[warnings="-register-all"]
Inductive Codec : Type := mkCodec {
  s : SizeDesc;
  e : Value -> M Writer unit;
  d : M Reader Value;
  schema : Shape Codec;
  value : option Value;
  is_optional : bool
}.

Definition codec (sd : SizeDesc) (enc : Value -> M Writer unit) (dcd : M Reader Value) : Codec :=
  mkCodec sd enc dcd NoShape None false.

(** [size(codec, value)]. *)
Definition size (c : Codec) (v : Value) : outcome nat :=
  match s c with
  | Dynamic f => f v
  | Fixed n => Ok n
  end.

(** [c.s] where [c] is a fixed-size codec. *)
Definition fixed_s (c : Codec) : nat :=
  match s c with Fixed n => n | Dynamic _ => 0 end.

(** [c.d(r)] used as a number. *)
Definition d_num (c : Codec) : M Reader Z :=
  v <- d c ;; lift (as_number v).

(** *** Numbers (index.ts 40-184) *)

Inductive Endian : Type := le | be.
Definition is_le (endian : Endian) : bool :=
  match endian with le => true | be => false end.

(** [numCodec(bytes, getter, setter)(endian)]: the getter and the setter
    are handed the view of the buffer, here the buffer itself. *)
Definition numCodec (nbytes : nat)
    (getter : bytes -> nat -> bool -> outcome Value)
    (setter : bytes -> nat -> Value -> bool -> outcome bytes)
    (endian : Endian) : Codec :=
  codec (Fixed nbytes)
    (fun v => write nbytes (fun b o => setter b o v (is_le endian)))
    (read nbytes (fun b o _ => getter b o (is_le endian))).

(** [bigNumCodec(bytes, getter, setter)(endian)], the same on bigints. *)
Definition bigNumCodec (nbytes : nat)
    (getter : bytes -> nat -> bool -> outcome Value)
    (setter : bytes -> nat -> Value -> bool -> outcome bytes)
    (endian : Endian) : Codec :=
  codec (Fixed nbytes)
    (fun v => write nbytes (fun b o => setter b o v (is_le endian)))
    (read nbytes (fun b o _ => getter b o (is_le endian))).

Definition uint8 : Codec :=
  numCodec 1 (fun v o _ => getUint 1 v o false) (fun v o x _ => setInt 1 v o x false) be.
Definition Uint8 : Codec := uint8.

Definition int8 : Codec :=
  numCodec 1 (fun v o _ => getInt 1 v o false) (fun v o x _ => setInt 1 v o x false) be.
Definition Int8 : Codec := int8.

Definition uint16 : Endian -> Codec := numCodec 2 (getUint 2) (setInt 2).
Definition Uint16 : Codec := uint16 be.
Definition int16 : Endian -> Codec := numCodec 2 (getInt 2) (setInt 2).
Definition Int16 : Codec := int16 be.
Definition uint32 : Endian -> Codec := numCodec 4 (getUint 4) (setInt 4).
Definition Uint32 : Codec := uint32 be.
Definition int32 : Endian -> Codec := numCodec 4 (getInt 4) (setInt 4).
Definition Int32 : Codec := int32 be.
Definition float32 : Endian -> Codec :=
  numCodec 4 (getFloat binary32 4) (setFloat binary32 4).
Definition Float32 : Codec := float32 be.
Definition float64 : Endian -> Codec :=
  numCodec 8 (getFloat binary64 8) (setFloat binary64 8).
Definition Float64 : Codec := float64 be.
Definition bigUint64 : Endian -> Codec := bigNumCodec 8 (getBigUint 8) (setBigInt 8).
Definition BigUint64 : Codec := bigUint64 be.
Definition bigInt64 : Endian -> Codec := bigNumCodec 8 (getBigInt 8) (setBigInt 8).
Definition BigInt64 : Codec := bigInt64 be.

(** [Bool], and [bool()] which returns it. *)
Definition Bool : Codec :=
  codec (s Uint8)
    (fun v => b <- lift (as_boolean v) ;; e Uint8 (VNum (if b then 1 else 0)))
    (x <- d_num Uint8 ;; ret (VBool (x =? 1)%Z)).
Definition bool_ : Codec := Bool.

(** *** Strings (index.ts 186-241) *)

(** The callback [(b, o) => b.set(src, o)]. *)
Definition set_at (src : bytes) : WriteFn := fun b o => u8_set b src o.

Definition len_value (n : nat) : Value := VNum (Z.of_nat n).

Definition Utf8 : Codec :=
  codec
    (Dynamic (fun v => obind (ENC_encode v) (fun enc => Ok (length enc + fixed_s Uint32))))
    (fun v =>
       enc <- lift (ENC_encode v) ;;
       e Uint32 (len_value (length enc)) ;;;
       write (length enc) (set_at enc))
    (n <- d_num Uint32 ;;
     read (Z.to_nat n)
       (fun b o en => obind (DEC_decode (u8_slice b o en)) (fun x => Ok (VStr x)))).

(** The parameter of [utf8]: [{ fixed?: number; maxBytes?: number }]. *)
Record Utf8Params : Type := { utf8_fixed : option nat; maxBytes : option nat }.

Definition exceeds (n : nat) (bound : option nat) : bool :=
  match bound with Some m => m <? n | None => false end.

(** [utf8(p)]; [utf8()] is [p] with neither field. *)
Definition utf8 (p : Utf8Params) : Codec :=
  match utf8_fixed p with
  | Some fixed =>
      codec (Fixed fixed)
        (fun v => write fixed (fun b o => obind (ENC_encode v) (fun enc => u8_set b enc o)))
        (read fixed
           (fun b o _ =>
              obind (DEC_decode (u8_slice b o (o + fixed)))
                    (fun x => Ok (VStr (strip_trailing_nul x)))))
  | None =>
      codec
        (Dynamic (fun v =>
           obind (ENC_encode v) (fun enc =>
           if exceeds (length enc) (maxBytes p)
           then Throw (Error ("utf8 too long: " ++ dec (length enc))%string)
           else Ok (fixed_s Uint32 + length enc))))
        (fun v =>
           enc <- lift (ENC_encode v) ;;
           if exceeds (length enc) (maxBytes p)
           then throw (Error ("utf8 too long: " ++ dec (length enc))%string)
           else
             e Uint32 (len_value (length enc)) ;;;
             write (length enc) (set_at enc))
        (n <- d_num Uint32 ;;
         if exceeds (Z.to_nat n) (maxBytes p)
         then throw (Error ("utf8 length " ++ decZ n ++ " > max "
                            ++ match maxBytes p with Some m => dec m | None => "" end)%string)
         else
           read (Z.to_nat n)
             (fun b o en => obind (DEC_decode (u8_slice b o en)) (fun x => Ok (VStr x))))
  end.

(** [json<T>()].  [JSON.stringify] and [JSON.parse] are the platform's;
    the codec is given them as arguments. *)
Definition json (JSON_stringify : Value -> outcome string)
    (JSON_parse : string -> outcome Value) : Codec :=
  codec
    (Dynamic (fun v =>
       obind (JSON_stringify v) (fun x =>
       obind (ENC_encode (VStr x)) (fun enc => Ok (length enc + fixed_s Uint32)))))
    (fun v => x <- lift (JSON_stringify v) ;; e Utf8 (VStr x))
    (x <- d Utf8 ;; y <- lift (as_string x) ;; lift (JSON_parse y)).

(** *** Byte arrays (index.ts 243-282) *)

(** The callback [(b, o, e) => b.slice(o, e)]. *)
Definition slice_fn : ReadFn Value := fun b o en => Ok (VBytes (u8_slice b o en)).

Definition Bytes : Codec :=
  codec
    (Dynamic (fun v => obind (as_bytes v) (fun x => Ok (length x + fixed_s Uint32))))
    (fun v =>
       x <- lift (as_bytes v) ;;
       e Uint32 (len_value (length x)) ;;;
       write (length x) (set_at x))
    (n <- d_num Uint32 ;; read (Z.to_nat n) slice_fn).

(** The parameter of [bytes]: [{ fixed?: number; max?: number }]. *)
Record BytesParams : Type := { bytes_fixed : option nat; max : option nat }.

(** [bytes(p)]. *)
Definition bytes_ (p : BytesParams) : Codec :=
  match bytes_fixed p with
  | Some fixed =>
      codec (Fixed fixed)
        (fun v => write fixed (fun b o => obind (as_bytes v) (fun x => u8_set b x o)))
        (read fixed slice_fn)
  | None =>
      match max p with
      | None => Bytes
      | Some mx =>
          codec
            (Dynamic (fun v =>
               obind (as_bytes v) (fun x =>
               if mx <? length x then Throw (Error "bytes too long"%string)
               else Ok (fixed_s Uint32 + length x))))
            (fun v =>
               x <- lift (as_bytes v) ;;
               if mx <? length x then throw (Error "bytes too long"%string)
               else
                 e Uint32 (len_value (length x)) ;;;
                 write (length x) (set_at x))
            (n <- d_num Uint32 ;;
             if mx <? Z.to_nat n
             then throw (Error ("bytes length " ++ decZ n ++ " > max " ++ dec mx)%string)
             else read (Z.to_nat n) slice_fn)
      end
  end.

(** *** Literal, optional, nullable, array (index.ts 284-350) *)

Definition literal (val : Value) : Codec :=
  mkCodec (Fixed 0) (fun _ => ret tt) (ret val) NoShape (Some val) false.

Definition is_undefined (v : Value) : bool :=
  match v with VUndefined => true | _ => false end.
Definition is_null (v : Value) : bool :=
  match v with VNull => true | _ => false end.

Definition optional (inner : Codec) : Codec :=
  mkCodec
    (Dynamic (fun v =>
       obind (if is_undefined v then Ok 0 else size inner v)
             (fun n => Ok (fixed_s Uint8 + n))))
    (fun v =>
       if is_undefined v then e Uint8 (VNum 0)
       else e Uint8 (VNum 1) ;;; e inner v)
    (flag <- d_num Uint8 ;;
     if (flag =? 0)%Z then ret VUndefined else d inner)
    NoShape None true.

Definition nullable (inner : Codec) : Codec :=
  codec
    (Dynamic (fun v =>
       obind (if is_null v then Ok 0 else size inner v)
             (fun n => Ok (fixed_s Uint8 + n))))
    (fun v =>
       if is_null v then e Uint8 (VNum 0)
       else e Uint8 (VNum 1) ;;; e inner v)
    (flag <- d_num Uint8 ;;
     if (flag =? 0)%Z then ret VNull else d inner).

(** [v.reduce((a, x) => a + size(inner, x), 0)]. *)
Fixpoint sum_sizes (inner : Codec) (items : list Value) (acc : nat) : outcome nat :=
  match items with
  | [] => Ok acc
  | x :: rest => obind (size inner x) (fun n => sum_sizes inner rest (acc + n))
  end.

(** [for (const x of v) inner.e(w, x)]. *)
Fixpoint encode_each (inner : Codec) (items : list Value) : M Writer unit :=
  match items with
  | [] => ret tt
  | x :: rest => e inner x ;;; encode_each inner rest
  end.

(** [for (let i = 0; i < n; i++) out[i] = inner.d(r)]. *)
Fixpoint decode_n (inner : Codec) (n : nat) : M Reader (list Value) :=
  match n with
  | O => ret []
  | S k => x <- d inner ;; rest <- decode_n inner k ;; ret (x :: rest)
  end.

(** [array(inner, options)], [options.maxLength] being [maxLength]. *)
Definition array (inner : Codec) (maxLength : option nat) : Codec :=
  match maxLength with
  | Some mx =>
      codec
        (Dynamic (fun v =>
           obind (as_array v) (fun l =>
           if mx <? length l then Throw (Error "array too long"%string)
           else obind (sum_sizes inner l 0) (fun n => Ok (fixed_s Uint32 + n)))))
        (fun v =>
           l <- lift (as_array v) ;;
           if mx <? length l then throw (Error "array too long"%string)
           else e Uint32 (len_value (length l)) ;;; encode_each inner l)
        (n <- d_num Uint32 ;;
         if mx <? Z.to_nat n
         then throw (Error ("array len " ++ decZ n ++ " > " ++ dec mx)%string)
         else out <- decode_n inner (Z.to_nat n) ;; ret (VArr out))
  | None =>
      codec
        (Dynamic (fun v =>
           obind (as_array v) (fun l =>
           obind (sum_sizes inner l 0) (fun n => Ok (fixed_s Uint32 + n)))))
        (fun v =>
           l <- lift (as_array v) ;;
           e Uint32 (len_value (length l)) ;;; encode_each inner l)
        (n <- d_num Uint32 ;;
         results <- decode_n inner (Z.to_nat n) ;; ret (VArr results))
  end.

(** *** Structs, tuples and unions (index.ts 352-459) *)

(** [shape[key]!] followed by a call of [e] or [d]: a [TypeError] when
    the record has no such field, for then the access gives [undefined],
    or, under a name of [Object.prototype], a built-in that has neither
    method. *)
Definition field (shape : obj Codec) (key : string) : outcome Codec :=
  match obj_get shape key with
  | Some c => Ok c
  | None => Throw (if inherited key then not_a_function else undefined_read)
  end.

(** [size(shape[key]!, x)]: a [TypeError] when the access gives
    [undefined]; under a name of [Object.prototype] it gives a built-in,
    whose [s] is [undefined], and the sum is the number NaN, which is no
    size. *)
Definition size_at (shape : obj Codec) (key : string) (x : Value) : outcome nat :=
  match obj_get shape key with
  | Some c => size c x
  | None => Throw (if inherited key then IllTyped else undefined_read)
  end.

(** [keys.reduce((acc, key) => acc + size(shape[key], v[key]), 0)]. *)
Fixpoint sum_fields (shape : obj Codec) (keys : list string) (v : Value) (acc : nat)
    : outcome nat :=
  match keys with
  | [] => Ok acc
  | key :: rest =>
      obind (prop v key) (fun x =>
      obind (size_at shape key x) (fun n => sum_fields shape rest v (acc + n)))
  end.

(** [for (const key in shape) shape[key].e(w, v[key])]. *)
Fixpoint encode_fields (shape : obj Codec) (keys : list string) (v : Value) : M Writer unit :=
  match keys with
  | [] => ret tt
  | key :: rest =>
      c <- lift (field shape key) ;;
      x <- lift (prop v key) ;;
      e c x ;;;
      encode_fields shape rest v
  end.

(** [for (const key in shape) result[key] = shape[key].d(r)]. *)
Fixpoint decode_fields (shape : obj Codec) (keys : list string) (result : obj Value)
    : M Reader (obj Value) :=
  match keys with
  | [] => ret result
  | key :: rest =>
      c <- lift (field shape key) ;;
      x <- d c ;;
      result' <- lift (assign result key x) ;;
      decode_fields shape rest result'
  end.

Definition struct (shape : obj Codec) : Codec :=
  mkCodec
    (Dynamic (fun v => sum_fields shape (own_keys shape) v 0))
    (fun v => encode_fields shape (own_keys shape) v)
    (result <- decode_fields shape (own_keys shape) [] ;; ret (VObj result))
    (Fields shape) None false.

(** [Object.entries(c.schema)]: of a record, or of the array of a tuple,
    whose keys are its indices. *)
Fixpoint indexed (l : list Codec) (i : nat) : list (string * Codec) :=
  match l with
  | [] => []
  | c :: rest => (dec i, c) :: indexed rest (S i)
  end.

Definition schema_entries (c : Codec) : outcome (list (string * Codec)) :=
  match schema c with
  | Fields shape => Ok (entries shape)
  | Items shape => Ok (indexed shape 0)
  | NoShape => Throw (TypeError "Cannot convert undefined or null to object"%string)
  end.

(** [partial(inner)]. *)
Definition partial (inner : Codec) : outcome Codec :=
  obind (schema_entries inner) (fun l =>
  Ok (struct (fromEntries (map (fun kc => (fst kc, optional (snd kc))) l)))).

(** [schemas.map((s) => Object.entries(s.schema)).flat()]. *)
Fixpoint all_entries (schemas : list Codec) : outcome (list (string * Codec)) :=
  match schemas with
  | [] => Ok []
  | c :: rest =>
      obind (schema_entries c) (fun l =>
      obind (all_entries rest) (fun l' => Ok (l ++ l')))
  end.

(** [intersection(schemas)]. *)
Definition intersection (schemas : list Codec) : outcome Codec :=
  obind (all_entries schemas) (fun l => Ok (struct (fromEntries l))).

(** [v.reduce((acc, item, i) => acc + size(shape[i], item), 0)]. *)
Fixpoint sum_items (shape : list Codec) (items : list Value) (i acc : nat) : outcome nat :=
  match items with
  | [] => Ok acc
  | x :: rest =>
      match nth_error shape i with
      | Some c => obind (size c x) (fun n => sum_items shape rest (S i) (acc + n))
      | None => Throw undefined_read
      end
  end.

(** [for (let i = 0; i < shape.length; i++) shape[i].e(w, v[i])], from
    index [i] on, [rest] being the codecs from [i] on. *)
Fixpoint encode_items (rest : list Codec) (v : Value) (i : nat) : M Writer unit :=
  match rest with
  | [] => ret tt
  | c :: rest' =>
      x <- lift (item v i) ;;
      e c x ;;;
      encode_items rest' v (S i)
  end.

(** [for (let i = 0; i < shape.length; i++) result.push(shape[i].d(r))]. *)
Fixpoint decode_items (shape : list Codec) : M Reader (list Value) :=
  match shape with
  | [] => ret []
  | c :: rest => x <- d c ;; xs <- decode_items rest ;; ret (x :: xs)
  end.

Definition tuple (shape : list Codec) : Codec :=
  mkCodec
    (Dynamic (fun v => obind (as_array v) (fun l => sum_items shape l 0 0)))
    (fun v => encode_items shape v 0)
    (result <- decode_items shape ;; ret (VArr result))
    (Items shape) None false.

Definition taggedUnion (shape : obj Codec) : Codec :=
  let keys := own_keys shape in
  mkCodec
    (Dynamic (fun v =>
       obind (item v 0) (fun tag =>
       obind (item v 1) (fun payload =>
       obind (as_string tag) (fun name =>
       obind (size_at shape name payload) (fun n => Ok (fixed_s Uint8 + n)))))))
    (fun v =>
       tag <- lift (item v 0) ;;
       payload <- lift (item v 1) ;;
       name <- lift (as_string tag) ;;
       match index_of name keys with
       | None => throw (Error ("bad tag " ++ name)%string)
       | Some idx =>
           e Uint8 (len_value idx) ;;;
           c <- lift (field shape name) ;;
           e c payload
       end)
    (idx <- d_num Uint8 ;;
     if ((idx <? 0) || (Z.of_nat (length keys) <=? idx))%Z
     then throw (Error ("bad tag index " ++ decZ idx)%string)
     else
       let key := nth (Z.to_nat idx) keys EmptyString in
       c <- lift (field shape key) ;;
       x <- d c ;;
       ret (VArr [VStr key; x]))
    (Fields shape) None false.

(** [s.schema[tag].value] of one candidate: the [value] of the codec at
    [tag], which is [undefined] when the codec has none; a [TypeError]
    when the schema has nothing at [tag].  Under a name of
    [Object.prototype] the schema has a built-in, whose [value] is
    [undefined].  The schema of a tuple or union is an array, with a codec
    at [tag] when [tag] is one of its indices, and its [length]; what else
    an array has under a name is not followed. *)
Definition literal_at (tag : string) (c : Codec) : outcome Value :=
  match schema c with
  | Fields shape =>
      match obj_get shape tag with
      | Some lc => Ok (match value lc with Some x => x | None => VUndefined end)
      | None => if inherited tag then Ok VUndefined else Throw undefined_read
      end
  | Items shape =>
      match array_index tag with
      | Some i =>
          match nth_error shape (N.to_nat i) with
          | Some lc => Ok (match value lc with Some x => x | None => VUndefined end)
          | None => Throw undefined_read
          end
      | None =>
          if String.eqb tag "length" || inherited tag then Ok VUndefined
          else Throw IllTyped
      end
  | NoShape => Throw undefined_read
  end.

Fixpoint literals_at (tag : string) (candidates : list Codec) : outcome (list Value) :=
  match candidates with
  | [] => Ok []
  | c :: rest =>
      obind (literal_at tag c) (fun x =>
      obind (literals_at tag rest) (fun xs => Ok (x :: xs)))
  end.

(** [schema[idx]!] followed by a property access, [idx] being the result
    of [indexOf]. *)
Definition candidate (candidates : list Codec) (idx : option nat) : outcome Codec :=
  match idx with
  | Some i =>
      match nth_error candidates i with
      | Some c => Ok c
      | None => Throw undefined_read
      end
  | None => Throw undefined_read
  end.

(** The number [idx] that [indexOf] returns. *)
Definition index_number (idx : option nat) : Z :=
  match idx with Some i => Z.of_nat i | None => (-1)%Z end.

Definition discriminatedUnion (tag : string) (candidates : list Codec) : outcome Codec :=
  obind (literals_at tag candidates) (fun keys =>
  Ok (mkCodec
    (Dynamic (fun v =>
       obind (prop v tag) (fun t =>
       let idx := index_of_value t keys in
       obind (candidate candidates idx) (fun c =>
       obind (size c v) (fun n => Ok (fixed_s Uint8 + n))))))
    (fun v =>
       t <- lift (prop v tag) ;;
       let idx := index_of_value t keys in
       e Uint8 (VNum (index_number idx)) ;;;
       c <- lift (candidate candidates idx) ;;
       e c v)
    (idx <- d_num Uint8 ;;
     c <- lift (candidate candidates (Some (Z.to_nat idx))) ;;
     d c)
    (Items candidates) None false)).

(** ** Drivers (index.ts 515-589) *)

(** [encode(bincode, value)]. *)
Definition encode (bincode : Codec) (v : Value) : outcome bytes :=
  match e bincode v (writer None) with
  | (Ok _, encoder) => flush encoder
  | (Throw x, _) => Throw x
  end.

(** [decode(bincode, value)]. *)
Definition decode (bincode : Codec) (data : bytes) : outcome Value :=
  fst (d bincode (reader data 0)).

Inductive Result : Type :=
| IsOk (val : Value)
| IsErr (error : string).

(** [tryDecode(codec, data)]. *)
Definition tryDecode (c : Codec) (data : bytes) : Result :=
  match fst (d c (checkedReader data 0)) with
  | Ok x => IsOk x
  | Throw x => IsErr (exn_message x)
  end.

(** [write(writer, codec, value)] of the driver functions. *)
Definition write_value (c : Codec) (v : Value) : M Writer unit := e c v.

(** [read(reader, ...codes)] of the driver functions. *)
Fixpoint read_values (codes : list Codec) : M Reader (list Value) :=
  match codes with
  | [] => ret []
  | c :: rest => x <- d c ;; xs <- read_values rest ;; ret (x :: xs)
  end.

(** ** Envelope (index.ts 461-482) *)

Definition HEADER : Z := 0xb16ec0de.
Definition VERSION : Z := 1.

Definition envelope (inner : Codec) : Codec :=
  codec
    (Dynamic (fun v =>
       obind (size inner v) (fun n =>
       Ok (fixed_s Uint32 + fixed_s Uint16 + fixed_s Uint32 + n))))
    (fun v =>
       e Uint32 (VNum HEADER) ;;;
       e Uint16 (VNum VERSION) ;;;
       payload <- lift (encode inner v) ;;
       e Uint32 (len_value (length payload)) ;;;
       write (length payload) (set_at payload))
    (h <- d_num Uint32 ;;
     if negb (h =? HEADER)%Z then throw (Error "Missing header"%string)
     else
       ver <- d_num Uint16 ;;
       if negb (ver =? 1)%Z
       then throw (Error ("unsupported version " ++ decZ ver)%string)
       else
         n <- d_num Uint32 ;;
         payload <- read (Z.to_nat n) (fun b o en => Ok (u8_slice b o en)) ;;
         lift (fst (d inner (reader payload 0)))).

(** ** validate and map (index.ts 591-644) *)

Definition run_check (check : option (Value -> outcome unit)) (v : Value) : outcome unit :=
  match check with
  | Some f => f v
  | None => Ok tt
  end.

(** [validate(codec, pre, post)]: the spread [...codec] keeps the size
    descriptor and the other properties of [codec]. *)
Definition validate (c : Codec) (pre post : option (Value -> outcome unit)) : Codec :=
  mkCodec (s c)
    (fun v => lift (run_check pre v) ;;; e c v)
    (out <- d c ;; lift (run_check post out) ;;; ret out)
    (schema c) (value c) (is_optional c).

(** [map(codec, encode, decode)]: as in [validate], [s] is the one of
    [codec]. *)
Definition map_ (c : Codec) (encode_ : Value -> outcome Value)
    (decode_ : Value -> outcome Value) : Codec :=
  mkCodec (s c)
    (fun v => x <- lift (encode_ v) ;; e c x)
    (x <- d c ;; lift (decode_ x))
    (schema c) (value c) (is_optional c).

(** ** Write operations that stay in their slot *)

(** A write operation [(size, fn)] whose callback, in a buffer that has
    room for [size] bytes at the offset it is given, stores some bytes
    there, at most [size] of them, and changes nothing else: as
    [b.set(bytes, o)] and the [DataView] setters do. *)
Definition stores_within (op : nat * WriteFn) : Prop :=
  exists data : bytes,
    length data <= fst op /\
    forall b o, o + fst op <= length b ->
                snd op b o = Ok (firstn o b ++ data ++ skipn (o + length data) b).

(** A write operation [(size, fn)] that acts on its slot only: in a
    buffer that has room for [size] bytes at the offset, the callback
    returns normally, changes nothing but those [size] bytes, and what it
    leaves there depends only on what was there, neither on the offset nor
    on the rest of the buffer. *)
Definition acts_on_slot (op : nat * WriteFn) : Prop :=
  exists f : bytes -> bytes,
    (forall slot, length slot = fst op -> length (f slot) = fst op) /\
    forall b o, o + fst op <= length b ->
                snd op b o
                = Ok (firstn o b ++ f (firstn (fst op) (skipn o b))
                      ++ skipn (o + fst op) b).

(** The writes of [tuple(utf8({ fixed: 2 }), Uint8)] on [["abc", 5]]. *)
Definition overlong_writes : list (nat * WriteFn) :=
  [ (2, fun b o => obind (ENC_encode (VStr "abc")) (fun enc => u8_set b enc o));
    (1, fun b o => setInt 1 b o (VNum 5) false) ].

Definition small_writes : list (nat * WriteFn) :=
  [ (3, set_at [x61; x62]); (1, set_at [x05]) ].

(** Two one-byte writes, the second of which stores the offset it is
    given: [(b, o) => b.set([o], o)]. *)
Definition offset_writes : list (nat * WriteFn) :=
  [ (1, set_at [x05]);
    (1, fun b o => u8_set b [byte_of_Z (Z.of_nat o)] o) ].

(** ** Deep equality *)

(** The own property [k] of [o]: [undefined] when [o] has none. *)
Definition get (o : obj Value) (k : string) : Value :=
  match obj_get o k with Some x => x | None => VUndefined end.

(** Deep equality as the test suite checks it,
    [expect(decoded).toEqual(value)]: primitives and typed arrays by
    content (NaN equal to itself, the negative zero different from zero),
    arrays item by item, objects own property by own property, a property
    that holds [undefined] counting as absent and the order of the
    properties not counting. *)
#[warnings="-register-all"]
Inductive deep_equal : Value -> Value -> Prop :=
| eq_undefined : deep_equal VUndefined VUndefined
| eq_null : deep_equal VNull VNull
| eq_bool b : deep_equal (VBool b) (VBool b)
| eq_num n : deep_equal (VNum n) (VNum n)
| eq_bigint n : deep_equal (VBigInt n) (VBigInt n)
| eq_str x : deep_equal (VStr x) (VStr x)
| eq_bytes b : deep_equal (VBytes b) (VBytes b)
| eq_arr l1 l2 : Forall2 deep_equal l1 l2 -> deep_equal (VArr l1) (VArr l2)
| eq_obj o1 o2 :
    (forall k, deep_equal (get o1 k) (get o2 k)) -> deep_equal (VObj o1) (VObj o2)
| eq_float bits : deep_equal (VFloat bits) (VFloat bits)
| eq_builtin name : deep_equal (VBuiltin name) (VBuiltin name).

(** ** What a codec writes and reads *)

(** The reader stands at the start of the bytes [bs] of its buffer. *)
Definition holds (r : Reader) (bs : bytes) : Prop :=
  exists pre post, buf r = pre ++ bs ++ post /\ pos r = length pre.

(** On a growable writer, the action returns normally having pushed
    chunks that concatenate to [bs]. *)
Definition pushes (m : M Writer unit) (bs : bytes) : Prop :=
  exists chunks : list bytes,
    concat chunks = bs /\
    forall bufs len,
      m (GrowableWriter bufs len)
      = (Ok tt, GrowableWriter (bufs ++ chunks) (len + length bs)).

(** On a reader, checked or not, that stands at [bs], the action returns
    a result that satisfies [P] and leaves the reader just after [bs]. *)
Definition takes {A} (m : M Reader A) (bs : bytes) (P : A -> Prop) : Prop :=
  forall r, holds r bs ->
    exists a, m r = (Ok a, advance r (length bs)) /\ P a.

(** [c.e(w, v)] writes [bs]. *)
Definition writes (c : Codec) (v : Value) (bs : bytes) : Prop :=
  pushes (e c v) bs.

(** [c.d(r)] reads [bs] as a value deep-equal to [v]. *)
Definition reads (c : Codec) (bs : bytes) (v : Value) : Prop :=
  takes (d c) bs (fun v' => deep_equal v' v).

Definition dom : Type := Value -> Prop.

(** [T] is a set of values the codec encodes, and [R] picks those among
    them it decodes back; with [sized], the size descriptor gives the
    number of bytes written. *)
Definition sound (sized : bool) (c : Codec) (T R : dom) : Prop :=
  forall v, T v ->
    exists bs,
      writes c v bs /\
      (sized = true -> size c v = Ok (length bs)) /\
      (R v -> reads c bs v).

(** ** Domains of the primitive codecs *)

Definition any_number : dom := fun v => exists n, v = VNum n.
Definition number_in (lo hi : Z) : dom :=
  fun v => exists n, v = VNum n /\ (lo <= n < hi)%Z.
Definition any_bigint : dom := fun v => exists n, v = VBigInt n.
Definition bigint_in (lo hi : Z) : dom :=
  fun v => exists n, v = VBigInt n /\ (lo <= n < hi)%Z.
Definition any_boolean : dom := fun v => exists b, v = VBool b.

(** The values that are numbers, and the ones among them that a format
    holds exactly: they come back unchanged from being stored in it.  For
    [binary64] these are the numbers of JavaScript. *)
Definition a_number : dom := fun v => exists x, to_number v = Ok x.
Definition exact_in (fmt : Format) : dom := fun v => rounded fmt v = Ok v.

(** Text that [DEC.decode(ENC.encode(x))] gives back: well-formed, and not
    starting with a byte order mark. *)
Definition plain_text (x : string) : Prop :=
  utf8_valid (list_byte_of_string x) = true /\ has_bom (list_byte_of_string x) = false.

Definition any_string : dom := fun v => exists x, v = VStr x.

(** The strings of at most [bound] bytes, when there is a bound. *)
Definition string_within (bound : option nat) : dom :=
  fun v => exists x, v = VStr x /\ exceeds (String.length x) bound = false.

Definition text_below (limit : Z) : dom :=
  fun v => exists x, v = VStr x /\ plain_text x /\ (Z.of_nat (String.length x) < limit)%Z.

(** The strings a fixed-width string codec gives back: plain text that
    does not end in NUL. *)
Definition unpadded_text : dom :=
  fun v => exists x, v = VStr x /\ plain_text x /\ ends_in_nul x = false.

Definition any_bytes : dom := fun v => exists b, v = VBytes b.
Definition bytes_within (bound : option nat) : dom :=
  fun v => exists b, v = VBytes b /\ exceeds (length b) bound = false.
Definition bytes_below (limit : Z) : dom :=
  fun v => exists b, v = VBytes b /\ (Z.of_nat (length b) < limit)%Z.
Definition bytes_of_length (n : nat) : dom :=
  fun v => exists b, v = VBytes b /\ length b = n.

(** The string of [k] NUL characters. *)
Definition nuls (k : nat) : string := string_of_list_byte (zeros k).

(** A count or length on 4 bytes followed by [data]: the layout of the
    dynamic strings, byte arrays and arrays. *)
Definition prefixed (n : nat) (data : bytes) : bytes :=
  int_bytes 4 false (Z.of_nat n) ++ data.

(** ** Domains of the combinators *)

Definition optional_of (D : dom) : dom := fun v => v = VUndefined \/ D v.
Definition nullable_of (D : dom) : dom := fun v => v = VNull \/ D v.

(** Arrays of at most [bound] items, when there is a bound, all in [D]. *)
Definition array_within (bound : option nat) (D : dom) : dom :=
  fun v => exists l, v = VArr l /\ Forall D l /\ exceeds (length l) bound = false.
Definition array_below (limit : Z) (D : dom) : dom :=
  fun v => exists l, v = VArr l /\ Forall D l /\ (Z.of_nat (length l) < limit)%Z.

(** Objects that read, at each field [k] of [shape], a value in [F k]. *)
Definition struct_of (shape : obj Codec) (F : string -> dom) : dom :=
  fun v => exists o, v = VObj o /\
    forall k, In k (own_keys shape) -> F k (lookup o k).

(** The same, when moreover no field is read from the prototype, a field
    named [__proto__] holds [undefined], and the object has no property
    outside [shape] (other than ones that hold [undefined]). *)
Definition struct_only (shape : obj Codec) (F : string -> dom) : dom :=
  fun v => exists o, v = VObj o /\
    (forall k, In k (own_keys shape) -> F k (lookup o k)) /\
    (forall k, In k (own_keys shape) -> lookup o k = get o k) /\
    (In "__proto__"%string (own_keys shape) -> get o "__proto__" = VUndefined) /\
    (forall k, ~ In k (own_keys shape) -> get o k = VUndefined).

(** Arrays with one item for each codec of [shape], item [i] in [F i]. *)
Definition tuple_of (shape : list Codec) (F : nat -> dom) : dom :=
  fun v => exists l, v = VArr l /\ length l = length shape /\
    forall i x, nth_error l i = Some x -> F i x.

(** The pairs [[name, payload]] of a tagged union over [shape], the
    payload of variant [name] in [F name]. *)
Definition tagged_of (shape : obj Codec) (F : string -> dom) : dom :=
  fun v => exists name payload,
    v = VArr [VStr name; payload] /\ In name (own_keys shape) /\ F name payload.

(** The same, for the variants whose index fits the index byte. *)
Definition tagged_below (shape : obj Codec) (F : string -> dom) : dom :=
  fun v => exists name payload idx,
    v = VArr [VStr name; payload] /\
    index_of name (own_keys shape) = Some idx /\ idx < 256 /\ F name payload.

(** The objects of a discriminated union on [tag] over [candidates]: the
    literal at [tag] selects candidate [i], and the object is in [F i]. *)
Definition union_of (tag : string) (candidates : list Codec) (F : nat -> dom) : dom :=
  fun v => exists o keys i,
    v = VObj o /\ literals_at tag candidates = Ok keys /\
    index_of_value (lookup o tag) keys = Some i /\ F i v.

Definition union_below (tag : string) (candidates : list Codec) (F : nat -> dom) : dom :=
  fun v => exists o keys i,
    v = VObj o /\ literals_at tag candidates = Ok keys /\
    index_of_value (lookup o tag) keys = Some i /\ i < 256 /\ F i v.

(** The values whose encoding with [inner] fits the 32-bit payload
    length of the envelope. *)
Definition payload_fits (inner : Codec) (D : dom) : dom :=
  fun v => D v /\
    forall bs, encode inner v = Ok bs -> (Z.of_nat (length bs) < 4294967296)%Z.

(** The layout of an envelope around the payload [bs]. *)
Definition framed (bs : bytes) : bytes :=
  int_bytes 4 false HEADER ++ int_bytes 2 false VERSION
  ++ int_bytes 4 false (Z.of_nat (length bs)) ++ bs.

Definition checked_by (check : option (Value -> outcome unit)) (D : dom) : dom :=
  fun v => run_check check v = Ok tt /\ D v.

Definition accepted_by (check : option (Value -> outcome unit)) (D : dom) : dom :=
  fun v => D v /\ forall v', deep_equal v' v -> run_check check v' = Ok tt.

Definition projected (f : Value -> outcome Value) (D : dom) : dom :=
  fun v => exists x, f v = Ok x /\ D x.

(** The values [v] that [f] projects into [D] and that [g] maps back
    from any value deep-equal to the projection. *)
Definition inverted (f g : Value -> outcome Value) (D : dom) : dom :=
  fun v => exists x, f v = Ok x /\ D x /\
    forall x', deep_equal x' x -> exists v', g x' = Ok v' /\ deep_equal v' v.

Definition stringified (JSON_stringify : Value -> outcome string) : dom :=
  fun v => exists x, JSON_stringify v = Ok x.

Definition parsed_back (JSON_stringify : Value -> outcome string)
    (JSON_parse : string -> outcome Value) : dom :=
  fun v => exists x v',
    JSON_stringify v = Ok x /\ plain_text x /\
    (Z.of_nat (String.length x) < 4294967296)%Z /\
    JSON_parse x = Ok v' /\ deep_equal v' v.

Definition is_fixed (c : Codec) : Prop := exists n, s c = Fixed n.

(** ** The codecs built from the primitives and the combinators *)

(** [Built sized c T R]: [c] is built from the library's primitives and
    combinators, [T] being values it encodes and [R] the ones among them
    it decodes back.  With
    [sized = true], [map] is only applied to fixed-size codecs.  [partial]
    and [intersection] build structs, and are covered through
    [B_struct]. *)
Inductive Built (sized : bool) : Codec -> dom -> dom -> Prop :=
| B_uint8 : Built sized uint8 any_number (number_in 0 256)
| B_int8 : Built sized int8 any_number (number_in (-128) 128)
| B_uint16 en : Built sized (uint16 en) any_number (number_in 0 65536)
| B_int16 en : Built sized (int16 en) any_number (number_in (-32768) 32768)
| B_uint32 en : Built sized (uint32 en) any_number (number_in 0 4294967296)
| B_int32 en :
    Built sized (int32 en) any_number (number_in (-2147483648) 2147483648)
| B_float32 en : Built sized (float32 en) a_number (exact_in binary32)
| B_float64 en : Built sized (float64 en) a_number (exact_in binary64)
| B_bigUint64 en :
    Built sized (bigUint64 en) any_bigint (bigint_in 0 18446744073709551616)
| B_bigInt64 en :
    Built sized (bigInt64 en) any_bigint
          (bigint_in (-9223372036854775808) 9223372036854775808)
| B_Bool : Built sized Bool any_boolean any_boolean
| B_Utf8 : Built sized Utf8 any_string (text_below 4294967296)
| B_utf8_fixed p fixed :
    utf8_fixed p = Some fixed ->
    Built sized (utf8 p) (string_within (Some fixed)) unpadded_text
| B_utf8_dynamic p :
    utf8_fixed p = None ->
    Built sized (utf8 p) (string_within (maxBytes p)) (text_below 4294967296)
| B_json stringify parse :
    Built sized (json stringify parse) (stringified stringify)
          (parsed_back stringify parse)
| B_Bytes : Built sized Bytes any_bytes (bytes_below 4294967296)
| B_bytes_fixed p fixed :
    bytes_fixed p = Some fixed ->
    Built sized (bytes_ p) (bytes_within (Some fixed)) (bytes_of_length fixed)
| B_bytes_dynamic p :
    bytes_fixed p = None ->
    Built sized (bytes_ p) (bytes_within (max p)) (bytes_below 4294967296)
| B_literal val :
    Built sized (literal val) (fun _ => True) (fun v => deep_equal val v)
| B_optional inner T R :
    Built sized inner T R ->
    Built sized (optional inner) (optional_of T) (optional_of R)
| B_nullable inner T R :
    Built sized inner T R ->
    Built sized (nullable inner) (nullable_of T) (nullable_of R)
| B_array inner maxLength T R :
    Built sized inner T R ->
    Built sized (array inner maxLength)
          (array_within maxLength T) (array_below 4294967296 R)
| B_struct shape FT FR :
    (forall k c, obj_get shape k = Some c -> Built sized c (FT k) (FR k)) ->
    Built sized (struct shape) (struct_of shape FT) (struct_only shape FR)
| B_tuple shape FT FR :
    (forall i c, nth_error shape i = Some c -> Built sized c (FT i) (FR i)) ->
    Built sized (tuple shape) (tuple_of shape FT) (tuple_of shape FR)
| B_taggedUnion shape FT FR :
    (forall k c, obj_get shape k = Some c -> Built sized c (FT k) (FR k)) ->
    Built sized (taggedUnion shape) (tagged_of shape FT) (tagged_below shape FR)
| B_discriminatedUnion tag candidates c FT FR :
    discriminatedUnion tag candidates = Ok c ->
    (forall i cand, nth_error candidates i = Some cand ->
                    Built sized cand (FT i) (FR i)) ->
    Built sized c (union_of tag candidates FT) (union_below tag candidates FR)
| B_envelope inner T R :
    Built sized inner T R ->
    Built sized (envelope inner) T (payload_fits inner R)
| B_validate inner pre post T R :
    Built sized inner T R ->
    Built sized (validate inner pre post) (checked_by pre T) (accepted_by post R)
| B_map inner f g T R :
    Built sized inner T R ->
    (sized = true -> is_fixed inner) ->
    Built sized (map_ inner f g) (projected f T) (inverted f g R)
| B_restrict c (T R T' R' : dom) :
    Built sized c T R ->
    (forall v, T' v -> T v) -> (forall v, R' v -> R v) ->
    Built sized c T' R'.

(** ** Sample codecs and values *)

(** [utf8({ fixed: 2 })] and the string ["a\0"]. *)
Definition two_wide : Codec := utf8 {| utf8_fixed := Some 2; maxBytes := None |}.
Definition a_nul : string := String "a"%char (String Ascii.zero EmptyString).

(** [struct({ items: array(optional(taggedUnion({ a: Uint8, b: Utf8 }))) })]
    and a value of it. *)
Definition ab_shape : obj Codec := [("a"%string, Uint8); ("b"%string, Utf8)].
Definition ab_union : Codec := taggedUnion ab_shape.
Definition items_shape : obj Codec :=
  [("items"%string, array (optional ab_union) None)].
Definition items_struct : Codec := struct items_shape.
Definition items_value : Value :=
  VObj [("items"%string,
         VArr [VArr [VStr "a"; VNum 7]; VUndefined; VArr [VStr "b"; VStr "hi"]])].

Definition ab_T (k : string) : dom :=
  if String.eqb k "a" then any_number else any_string.
Definition ab_R (k : string) : dom :=
  if String.eqb k "a" then number_in 0 256 else text_below 4294967296.
Definition items_T (_ : string) : dom :=
  array_within None (optional_of (tagged_of ab_shape ab_T)).
Definition items_R (_ : string) : dom :=
  array_below 4294967296 (optional_of (tagged_below ab_shape ab_R)).

(** [map(Utf8, (x) => x + "!", ...)], a projection that changes the
    length of the string. *)
Definition exclaim (v : Value) : outcome Value :=
  match v with
  | VStr x => Ok (VStr (x ++ "!"))
  | _ => Throw IllTyped
  end.
Definition exclaimed : Codec := map_ Utf8 exclaim (fun v => Ok v).

(** [envelope(Utf8)] and buffers for it: a wrong header, a wrong version,
    and the frame of ["hi"]. *)
Definition framed_text : Codec := envelope Utf8.
Definition bad_header : bytes := [x00; x00; x00; x00; x00; x01].
Definition bad_version : bytes := [xb1; x6e; xc0; xde; x00; x02].
Definition hi_frame : bytes :=
  [xb1; x6e; xc0; xde; x00; x01; x00; x00; x00; x06; x00; x00; x00; x02; x68; x69].

(** [array(Uint8, { maxLength: 2 })] and a buffer whose count is 3. *)
Definition at_most_two : Codec := array Uint8 (Some 2).
Definition three_items : bytes := [x00; x00; x00; x03; x01; x02; x03].

(** The byte [setUint8] stores for the index [idx]. *)
Definition index_byte (idx : nat) : byte := byte_of_Z (Z.of_nat idx).

(** [taggedUnion({ b: Uint8, 1: Uint8 })]: the name ["1"] is an array
    index. *)
Definition b1_shape : obj Codec := [("b"%string, Uint8); ("1"%string, Uint8)].

(** A tagged union of 257 variants, [v0] to [v256]. *)
Definition many_shape : obj Codec :=
  map (fun i => (("v" ++ dec i)%string, Uint8)) (seq 0 257).

(** [utf8({ fixed: 5 })]. *)
Definition five_wide : Codec := utf8 {| utf8_fixed := Some 5; maxBytes := None |}.

(** ** Storage: decoders over a heap of array buffers

    The embedding above identifies a [Uint8Array] with its content.  To
    tell which arrays share storage, this module runs the decoders of the
    same source over an explicit heap: an [ArrayBuffer] is a location of
    the heap, a [Uint8Array] is a view of a buffer, [slice] allocates a
    new buffer unless the array is a [Buffer] of Node.js, and a callback
    of [read] receives the heap it may read, extend or mutate. *)
Module Store.

Definition Heap : Type := list bytes.

(** A [Uint8Array]: its [buffer], [byteOffset] and [length];
    [node_buffer] tells a [Buffer] of Node.js, the subclass of
    [Uint8Array] whose [slice] does not copy. *)
Record U8 : Type := mkU8 {
  buffer : nat;
  byteOffset : nat;
  byteLength : nat;
  node_buffer : bool
}.

(** The bytes a view shows. *)
Definition contents (h : Heap) (a : U8) : bytes :=
  firstn (byteLength a) (skipn (byteOffset a) (nth (buffer a) h [])).

(** [b.slice(o, e)], both ends clamped to the length of [b]: on a
    [Uint8Array], a view of a new buffer that holds a copy; on a [Buffer],
    a view of the same buffer, as [subarray] gives. *)
Definition slice (b : U8) (o e : nat) : M Heap U8 :=
  fun h =>
    if node_buffer b
    then
      let start := Nat.min o (byteLength b) in
      let stop := Nat.min e (byteLength b) in
      (Ok (mkU8 (buffer b) (byteOffset b + start) (stop - start) true), h)
    else
      let data := u8_slice (contents h b) o e in
      (Ok (mkU8 (length h) 0 (length data) false), h ++ [data]).

Fixpoint update {A} (l : list A) (i : nat) (x : A) : list A :=
  match l, i with
  | [], _ => []
  | _ :: rest, O => x :: rest
  | y :: rest, S j => y :: update rest j x
  end.

(** [a[i] = x]: a store through a view, ignored out of range. *)
Definition poke (h : Heap) (a : U8) (i : nat) (x : byte) : Heap :=
  if i <? byteLength a
  then update h (buffer a) (update (nth (buffer a) h []) (byteOffset a + i) x)
  else h.

(** Values, a typed array being a view. *)
#[warnings="-register-all"]
Inductive SValue : Type :=
| SUndefined
| SNull
| SBool (b : bool)
| SNum (n : Z)
| SBigInt (n : Z)
| SStr (str : string)
| SBytes (a : U8)
| SArr (items : list SValue)
| SObj (props : list (string * SValue))
| SFloat (bits : Z).

(** The number or bigint that an accessor of [DataView] returns. *)
Definition of_scalar (v : Value) : outcome SValue :=
  match v with
  | VNum n => Ok (SNum n)
  | VFloat bits => Ok (SFloat bits)
  | VBigInt n => Ok (SBigInt n)
  | _ => Throw IllTyped
  end.

(** The reader and the heap it reads. *)
Record SReader : Type := mkSReader { schecked : bool; sbuf : U8; spos : nat }.
Definition State : Type := (Heap * SReader)%type.

Definition reader (b : U8) (offset : nat) : SReader := mkSReader false b offset.
Definition checkedReader (b : U8) (offset : nat) : SReader := mkSReader true b offset.

(** The callback of [read], run on the heap. *)
Definition SReadFn (R : Type) : Type := U8 -> nat -> nat -> M Heap R.

Definition read {R} (size : nat) (fn : SReadFn R) : M State R :=
  fun st =>
    let (h, r) := st in
    if schecked r && (byteLength (sbuf r) <? spos r + size)
    then (Throw (out_of_bounds size (spos r) (byteLength (sbuf r))), st)
    else
      match fn (sbuf r) (spos r) (spos r + size) h with
      | (Ok out, h') => (Ok out, (h', mkSReader (schecked r) (sbuf r) (spos r + size)))
      | (Throw x, h') => (Throw x, (h', r))
      end.

(** A callback of the caller's, which gets no reader: it runs on the
    heap. *)
Definition on_heap {A} (m : M Heap A) : M State A :=
  fun st =>
    match m (fst st) with
    | (res, h') => (res, (h', snd st))
    end.

(** The decoding half of a codec, with its [schema]. *)
#[warnings="-register-all"]
Inductive Decoder : Type := mkDecoder {
  d : M State SValue;
  schema : Shape Decoder
}.

Definition decoder (dcd : M State SValue) : Decoder := mkDecoder dcd NoShape.

Definition d_num (c : Decoder) : M State Z :=
  v <- d c ;; lift (match v with SNum n => Ok n | _ => Throw IllTyped end).

(** The decoder of [numCodec] and of [bigNumCodec]. *)
Definition numDecoder (nbytes : nat) (getter : bytes -> nat -> bool -> outcome Value)
    (endian : Endian) : Decoder :=
  decoder
    (read nbytes
       (fun b o _ h =>
          (obind (getter (contents h b) o (is_le endian)) of_scalar, h))).

Definition uint8 : Decoder := numDecoder 1 (fun v o _ => getUint 1 v o false) be.
Definition Uint8 : Decoder := uint8.
Definition int8 : Decoder := numDecoder 1 (fun v o _ => getInt 1 v o false) be.
Definition uint16 : Endian -> Decoder := numDecoder 2 (getUint 2).
Definition Uint16 : Decoder := uint16 be.
Definition int16 : Endian -> Decoder := numDecoder 2 (getInt 2).
Definition uint32 : Endian -> Decoder := numDecoder 4 (getUint 4).
Definition Uint32 : Decoder := uint32 be.
Definition int32 : Endian -> Decoder := numDecoder 4 (getInt 4).
Definition float32 : Endian -> Decoder := numDecoder 4 (getFloat binary32 4).
Definition float64 : Endian -> Decoder := numDecoder 8 (getFloat binary64 8).
Definition bigUint64 : Endian -> Decoder := numDecoder 8 (getBigUint 8).
Definition bigInt64 : Endian -> Decoder := numDecoder 8 (getBigInt 8).

Definition Bool : Decoder :=
  decoder (x <- d_num Uint8 ;; ret (SBool (x =? 1)%Z)).

(** [(b, o, e) => DEC.decode(b.slice(o, e))]. *)
Definition decode_text : SReadFn SValue :=
  fun b o en =>
    a <- slice b o en ;;
    (fun h => (obind (DEC_decode (contents h a)) (fun x => Ok (SStr x)), h)).

Definition Utf8 : Decoder :=
  decoder (n <- d_num Uint32 ;; read (Z.to_nat n) decode_text).

(** The decoder of [utf8(p)]. *)
Definition utf8 (p : Utf8Params) : Decoder :=
  match utf8_fixed p with
  | Some fixed =>
      decoder
        (read fixed
           (fun b o _ =>
              a <- slice b o (o + fixed) ;;
              (fun h => (obind (DEC_decode (contents h a))
                               (fun x => Ok (SStr (strip_trailing_nul x))), h))))
  | None =>
      decoder
        (n <- d_num Uint32 ;;
         if exceeds (Z.to_nat n) (maxBytes p)
         then throw (Error ("utf8 length " ++ decZ n ++ " > max "
                            ++ match maxBytes p with Some m => dec m | None => "" end)%string)
         else read (Z.to_nat n) decode_text)
  end.

(** The decoder of [json()], [JSON.parse] being given. *)
Definition json (JSON_parse : string -> outcome SValue) : Decoder :=
  decoder
    (x <- d Utf8 ;;
     y <- lift (match x with SStr y => Ok y | _ => Throw IllTyped end) ;;
     lift (JSON_parse y)).

(** [(b, o, e) => b.slice(o, e)]. *)
Definition slice_fn : SReadFn SValue :=
  fun b o en => a <- slice b o en ;; ret (SBytes a).

Definition Bytes : Decoder :=
  decoder (n <- d_num Uint32 ;; read (Z.to_nat n) slice_fn).

Definition bytes_ (p : BytesParams) : Decoder :=
  match bytes_fixed p with
  | Some fixed => decoder (read fixed slice_fn)
  | None =>
      match max p with
      | None => Bytes
      | Some mx =>
          decoder
            (n <- d_num Uint32 ;;
             if mx <? Z.to_nat n
             then throw (Error ("bytes length " ++ decZ n ++ " > max " ++ dec mx)%string)
             else read (Z.to_nat n) slice_fn)
      end
  end.

Definition literal (val : SValue) : Decoder := decoder (ret val).

Definition optional (inner : Decoder) : Decoder :=
  decoder
    (flag <- d_num Uint8 ;;
     if (flag =? 0)%Z then ret SUndefined else d inner).

Definition nullable (inner : Decoder) : Decoder :=
  decoder
    (flag <- d_num Uint8 ;;
     if (flag =? 0)%Z then ret SNull else d inner).

Fixpoint decode_n (inner : Decoder) (n : nat) : M State (list SValue) :=
  match n with
  | O => ret []
  | S k => x <- d inner ;; rest <- decode_n inner k ;; ret (x :: rest)
  end.

Definition array (inner : Decoder) (maxLength : option nat) : Decoder :=
  match maxLength with
  | Some mx =>
      decoder
        (n <- d_num Uint32 ;;
         if mx <? Z.to_nat n
         then throw (Error ("array len " ++ decZ n ++ " > " ++ dec mx)%string)
         else out <- decode_n inner (Z.to_nat n) ;; ret (SArr out))
  | None =>
      decoder
        (n <- d_num Uint32 ;;
         results <- decode_n inner (Z.to_nat n) ;; ret (SArr results))
  end.

Definition field (shape : obj Decoder) (key : string) : outcome Decoder :=
  match obj_get shape key with
  | Some c => Ok c
  | None => Throw (if inherited key then not_a_function else undefined_read)
  end.

Definition is_object_or_null (v : SValue) : bool :=
  match v with
  | SNull | SBytes _ | SArr _ | SObj _ => true
  | _ => false
  end.

(** [result[key] = x] on a plain object, as in the embedding above. *)
Definition assign (result : obj SValue) (key : string) (x : SValue)
    : outcome (obj SValue) :=
  if String.eqb key "__proto__" && negb (has_own result key)
  then (if is_object_or_null x then Throw IllTyped else Ok result)
  else Ok (obj_set result key x).

Fixpoint decode_fields (shape : obj Decoder) (keys : list string) (result : obj SValue)
    : M State (obj SValue) :=
  match keys with
  | [] => ret result
  | key :: rest =>
      c <- lift (field shape key) ;;
      x <- d c ;;
      result' <- lift (assign result key x) ;;
      decode_fields shape rest result'
  end.

Definition struct (shape : obj Decoder) : Decoder :=
  mkDecoder
    (result <- decode_fields shape (own_keys shape) [] ;; ret (SObj result))
    (Fields shape).

Fixpoint indexed (l : list Decoder) (i : nat) : list (string * Decoder) :=
  match l with
  | [] => []
  | c :: rest => (dec i, c) :: indexed rest (S i)
  end.

Definition schema_entries (c : Decoder) : outcome (list (string * Decoder)) :=
  match schema c with
  | Fields shape => Ok (entries shape)
  | Items shape => Ok (indexed shape 0)
  | NoShape => Throw (TypeError "Cannot convert undefined or null to object"%string)
  end.

Definition partial (inner : Decoder) : outcome Decoder :=
  obind (schema_entries inner) (fun l =>
  Ok (struct (fromEntries (map (fun kc => (fst kc, optional (snd kc))) l)))).

Fixpoint all_entries (schemas : list Decoder) : outcome (list (string * Decoder)) :=
  match schemas with
  | [] => Ok []
  | c :: rest =>
      obind (schema_entries c) (fun l =>
      obind (all_entries rest) (fun l' => Ok (l ++ l')))
  end.

Definition intersection (schemas : list Decoder) : outcome Decoder :=
  obind (all_entries schemas) (fun l => Ok (struct (fromEntries l))).

Fixpoint decode_items (shape : list Decoder) : M State (list SValue) :=
  match shape with
  | [] => ret []
  | c :: rest => x <- d c ;; xs <- decode_items rest ;; ret (x :: xs)
  end.

Definition tuple (shape : list Decoder) : Decoder :=
  mkDecoder (result <- decode_items shape ;; ret (SArr result)) (Items shape).

Definition taggedUnion (shape : obj Decoder) : Decoder :=
  let keys := own_keys shape in
  mkDecoder
    (idx <- d_num Uint8 ;;
     if ((idx <? 0) || (Z.of_nat (length keys) <=? idx))%Z
     then throw (Error ("bad tag index " ++ decZ idx)%string)
     else
       let key := nth (Z.to_nat idx) keys EmptyString in
       c <- lift (field shape key) ;;
       x <- d c ;;
       ret (SArr [SStr key; x]))
    (Fields shape).

(** The decoder of a [discriminatedUnion(tag, schema)] that was built:
    [schema[Uint8.d(r)]!.d(r)]. *)
Definition discriminatedUnion (candidates : list Decoder) : Decoder :=
  mkDecoder
    (idx <- d_num Uint8 ;;
     match nth_error candidates (Z.to_nat idx) with
     | Some c => d c
     | None => throw undefined_read
     end)
    (Items candidates).

(** [inner.d(reader(r.read(n, (b, o, e) => b.slice(o, e))))]. *)
Definition envelope (inner : Decoder) : Decoder :=
  decoder
    (h <- d_num Uint32 ;;
     if negb (h =? HEADER)%Z then throw (Error "Missing header"%string)
     else
       ver <- d_num Uint16 ;;
       if negb (ver =? 1)%Z
       then throw (Error ("unsupported version " ++ decZ ver)%string)
       else
         n <- d_num Uint32 ;;
         payload <- read (Z.to_nat n) slice ;;
         (fun st =>
            match d inner (fst st, reader payload 0) with
            | (res, (h', _)) => (res, (h', snd st))
            end)).

(** The decoder of [validate(codec, pre, post)]; [post] runs on the
    heap. *)
Definition validate (c : Decoder) (post : option (SValue -> M Heap unit)) : Decoder :=
  mkDecoder
    (out <- d c ;;
     match post with
     | Some f => on_heap (f out)
     | None => ret tt
     end ;;;
     ret out)
    (schema c).

(** The decoder of [map(codec, encode, decode)]; [decode] runs on the
    heap. *)
Definition map_ (c : Decoder) (decode_ : SValue -> M Heap SValue) : Decoder :=
  mkDecoder (x <- d c ;; on_heap (decode_ x)) (schema c).

(** [decode(bincode, value)] on the heap [h]: the result and the heap
    after the call. *)
Definition decode (bincode : Decoder) (data : U8) (h : Heap) : outcome SValue * Heap :=
  match d bincode (h, reader data 0) with
  | (res, (h', _)) => (res, h')
  end.

(** [tryDecode(codec, data)] on the heap [h]; a caught exception is
    [None]. *)
Definition tryDecode (c : Decoder) (data : U8) (h : Heap) : option SValue * Heap :=
  match d c (h, checkedReader data 0) with
  | (Ok x, (h', _)) => (Some x, h')
  | (Throw _, (h', _)) => (None, h')
  end.

(** Every typed array inside the value lives in a buffer allocated at
    location [n] or later. *)
#[warnings="-register-all"]
Inductive fresh (n : nat) : SValue -> Prop :=
| fresh_undefined : fresh n SUndefined
| fresh_null : fresh n SNull
| fresh_bool b : fresh n (SBool b)
| fresh_num x : fresh n (SNum x)
| fresh_bigint x : fresh n (SBigInt x)
| fresh_str x : fresh n (SStr x)
| fresh_bytes a : n <= buffer a -> node_buffer a = false -> fresh n (SBytes a)
| fresh_arr l : Forall (fresh n) l -> fresh n (SArr l)
| fresh_obj o : Forall (fun kv => fresh n (snd kv)) o -> fresh n (SObj o)
| fresh_float x : fresh n (SFloat x).

(** The heap [h'] is [h] with new buffers after it. *)
Definition grows (h h' : Heap) : Prop := exists ext, h' = h ++ ext.

(** On a reader of a [Uint8Array] that is no [Buffer], the action only
    adds buffers to the heap, keeps the reader on its array, and its
    result satisfies [P n] for every [n] up to the size of the heap it
    started from. *)
Definition safe {A} (m : M State A) (P : nat -> A -> Prop) : Prop :=
  forall (n : nat) (h : Heap) (r : SReader),
    n <= length h -> node_buffer (sbuf r) = false ->
    grows h (fst (snd (m (h, r)))) /\
    sbuf (snd (snd (m (h, r)))) = sbuf r /\
    forall a, fst (m (h, r)) = Ok a -> P n a.

(** A callback that only adds buffers to the heap. *)
Definition allocates_only {A} (m : M Heap A) : Prop :=
  forall h, grows h (snd (m h)).

(** A projection that only adds buffers to the heap, and whose result
    holds no typed array of an earlier buffer unless its argument does. *)
Definition projects_freshly (f : SValue -> M Heap SValue) : Prop :=
  forall (x : SValue) (h : Heap),
    grows h (snd (f x h)) /\
    forall n y, n <= length h -> fresh n x -> fst (f x h) = Ok y -> fresh n y.

(** The decoders of the library's codecs.  [literal] is bound to a value
    that holds no typed array; [JSON.parse] returns none; the checks of
    [validate] and the projections of [map] only allocate. *)
Inductive Made : Decoder -> Prop :=
| M_num nbytes getter endian : Made (numDecoder nbytes getter endian)
| M_Bool : Made Bool
| M_Utf8 : Made Utf8
| M_utf8 p : Made (utf8 p)
| M_json parse :
    (forall x v, parse x = Ok v -> forall n, fresh n v) -> Made (json parse)
| M_Bytes : Made Bytes
| M_bytes p : Made (bytes_ p)
| M_literal val : (forall n, fresh n val) -> Made (literal val)
| M_optional inner : Made inner -> Made (optional inner)
| M_nullable inner : Made inner -> Made (nullable inner)
| M_array inner maxLength : Made inner -> Made (array inner maxLength)
| M_struct shape :
    (forall k c, obj_get shape k = Some c -> Made c) -> Made (struct shape)
| M_tuple shape :
    (forall c, In c shape -> Made c) -> Made (tuple shape)
| M_taggedUnion shape :
    (forall k c, obj_get shape k = Some c -> Made c) -> Made (taggedUnion shape)
| M_discriminatedUnion candidates :
    (forall c, In c candidates -> Made c) -> Made (discriminatedUnion candidates)
| M_envelope inner : Made inner -> Made (envelope inner)
| M_validate inner post :
    Made inner ->
    (forall f v, post = Some f -> allocates_only (f v)) ->
    Made (validate inner post)
| M_map inner decode_ :
    Made inner -> projects_freshly decode_ -> Made (map_ inner decode_)
| M_partial inner c :
    Made inner -> partial inner = Ok c -> Made c
| M_intersection schemas c :
    (forall s, In s schemas -> Made s) -> intersection schemas = Ok c -> Made c.

End Store.

(** The decoder only allocates and returns fresh arrays; so do the
    decoders that its [schema] lists. *)
Definition Safe (c : Store.Decoder) : Prop := Store.safe (Store.d c) Store.fresh.

Definition parts_safe (c : Store.Decoder) : Prop :=
  forall l, Store.schema_entries c = Ok l -> forall kc, In kc l -> Safe (snd kc).

(** A heap with one buffer, the encoding of a 2-byte array by [Bytes],
    and the view of all of it: as a [Uint8Array], and as a [Buffer]. *)
Definition one_buffer : Store.Heap := [[x00; x00; x00; x02; xaa; xbb]].
Definition whole_buffer : Store.U8 := Store.mkU8 0 0 6 false.
Definition node_whole_buffer : Store.U8 := Store.mkU8 0 0 6 true.

(** ** Notions used by the further properties *)

(** [decode(c, encode(c, v))]. *)
Definition recode (c : Codec) (v : Value) : outcome Value :=
  obind (encode c v) (decode c).

(** The integer conversions of the [DataView] setters and getters on [n]
    bytes: the unsigned ones keep the value modulo [2^(8n)], the signed
    ones read that as two's complement. *)
Definition wrap_unsigned (n : nat) (v : Z) : Z := (v mod 2 ^ (8 * Z.of_nat n))%Z.
Definition wrap_signed (n : nat) (v : Z) : Z :=
  let u := wrap_unsigned n v in
  if (u <? 2 ^ (8 * Z.of_nat n - 1))%Z then u else (u - 2 ^ (8 * Z.of_nat n))%Z.

(** Induction on values that reaches the items of an array and the
    properties of an object. *)
Section Value_nested.
Variable P : Value -> Prop.
Hypothesis P_undefined : P VUndefined.
Hypothesis P_null : P VNull.
Hypothesis P_bool : forall b, P (VBool b).
Hypothesis P_num : forall n, P (VNum n).
Hypothesis P_bigint : forall n, P (VBigInt n).
Hypothesis P_str : forall x, P (VStr x).
Hypothesis P_bytes : forall b, P (VBytes b).
Hypothesis P_arr : forall l, Forall P l -> P (VArr l).
Hypothesis P_obj : forall o, Forall (fun kv => P (snd kv)) o -> P (VObj o).
Hypothesis P_float : forall bits, P (VFloat bits).
Hypothesis P_builtin : forall name, P (VBuiltin name).

Fixpoint Value_nested_ind (v : Value) : P v :=
  match v with
  | VUndefined => P_undefined
  | VNull => P_null
  | VBool b => P_bool b
  | VNum n => P_num n
  | VBigInt n => P_bigint n
  | VStr x => P_str x
  | VBytes b => P_bytes b
  | VArr l =>
      P_arr l
        ((fix items (l : list Value) : Forall P l :=
            match l with
            | [] => Forall_nil P
            | x :: rest => Forall_cons x (Value_nested_ind x) (items rest)
            end) l)
  | VObj o =>
      P_obj o
        ((fix props (o : list (string * Value)) : Forall (fun kv => P (snd kv)) o :=
            match o with
            | [] => Forall_nil _
            | (k, x) :: rest =>
                Forall_cons (P := fun kv => P (snd kv)) (k, x)
                            (Value_nested_ind x) (props rest)
            end) o)
  | VFloat bits => P_float bits
  | VBuiltin name => P_builtin name
  end.
End Value_nested.

(** The calls [write(write(...write(w, c1, v1)..., cn, vn)] of the driver
    [write], which returns its writer, on a list of codecs and values. *)
Fixpoint write_values (items : list (Codec * Value)) : M Writer unit :=
  match items with
  | [] => ret tt
  | (c, v) :: rest => write_value c v ;;; write_values rest
  end.

(** The codec of key [k] in the last of the shapes that has that key. *)
Fixpoint last_field (shapes : list (obj Codec)) (k : string) : option Codec :=
  match shapes with
  | [] => None
  | shape :: rest =>
      match last_field rest k with
      | Some c => Some c
      | None => obj_get shape k
      end
  end.



(** On a checked reader whose buffer ends inside [bs], after a proper
    prefix of it, the action throws the out-of-bounds error of the
    reader. *)
Definition starves {A} (m : M Reader A) (bs : bytes) : Prop :=
  forall (r : Reader) (pre p q : bytes),
    checked r = true -> buf r = pre ++ p -> pos r = length pre ->
    bs = p ++ q -> q <> [] ->
    exists (n at_ : nat) (r' : Reader),
      m r = (Throw (out_of_bounds n at_ (length (buf r))), r').

(** On the values of [T] and [R], the decoder of [c] reads back what the
    encoder writes, and starves on less. *)
Definition tight (c : Codec) (T R : dom) : Prop :=
  forall v : Value, T v -> R v ->
    exists bs : bytes, writes c v bs /\ reads c bs v /\ starves (d c) bs.

(** The same, without the reading back. *)
Definition starving (c : Codec) (T R : dom) : Prop :=
  forall v : Value, T v -> R v ->
    exists bs : bytes, writes c v bs /\ starves (d c) bs.

(** A decoding action that, whenever it returns normally on a checked
    reader, returns the same result on the unchecked reader at the same
    place, and leaves both at the same position of the same buffer. *)
Definition agrees {A} (m : M Reader A) : Prop :=
  forall (b : bytes) (p : nat) (a : A) (r' : Reader),
    m (checkedReader b p) = (Ok a, r') ->
    exists p' : nat,
      r' = checkedReader b p' /\ m (reader b p) = (Ok a, reader b p').

(** ** Further sample codecs and values *)

(** [utf8({ maxBytes: 2 })] and [bytes({ max: 2 })], with a buffer whose
    length field is 3. *)
Definition two_bytes_text : Codec := utf8 {| utf8_fixed := None; maxBytes := Some 2 |}.
Definition two_bytes_most : Codec := bytes_ {| bytes_fixed := None; max := Some 2 |}.
Definition three_announced : bytes := [x00; x00; x00; x03; x61; x62; x63].

(** [bytes({ fixed: 4 })]. *)
Definition four_wide : Codec := bytes_ {| bytes_fixed := Some 4; max := None |}.

(** The text ["hi"] after a byte order mark. *)
Definition bom_hi : string := string_of_list_byte [xef; xbb; xbf; x68; x69].

(** [struct({ a: optional(Uint8) })]. *)
Definition maybe_a_shape : obj Codec := [("a"%string, optional Uint8)].
Definition maybe_a : Codec := struct maybe_a_shape.

(** [struct({ toString: optional(Uint8) })]: a field named like a
    property of [Object.prototype]. *)
Definition maybe_toString : Codec :=
  struct [("toString"%string, optional Uint8)].

(** [envelope(Bytes)]. *)
Definition framed_bytes : Codec := envelope Bytes.

(** A check that accepts the numbers below 10 only. *)
Definition below_ten (v : Value) : outcome unit :=
  match v with
  | VNum n => if (n <? 10)%Z then Ok tt else Throw (Error "too big"%string)
  | _ => Throw IllTyped
  end.

(** [validate(Uint8, check, check)] with that check. *)
Definition small_number : Codec := validate Uint8 (Some below_ten) (Some below_ten).

(** [struct({ a: Uint8, b: Utf8 })] and the struct that [partial] makes
    of it. *)
Definition ab_struct : Codec := struct ab_shape.
Definition ab_partial : Codec :=
  struct [("a"%string, optional Uint8); ("b"%string, optional Utf8)].

(** [struct({ a: Uint16, c: Bool })], to intersect with
    [struct({ a: Uint8, b: Utf8 })]. *)
Definition ac_shape : obj Codec := [("a"%string, Uint16); ("c"%string, Bool)].
Definition ac_struct : Codec := struct ac_shape.


(** [array(Uint8, { maxLength: 2 })] is [at_most_two]; a buffer that
    announces 2 items. *)
Definition two_items : bytes := [x00; x00; x00; x02; x01; x02; xff].

(** * Properties *)

(** ** The monad *)

Lemma bind_ok {S A B} (m : M S A) (k : A -> M S B) st a st' :
  m st = (Ok a, st') -> bind m k st = k a st'.
Proof. unfold bind. intros ->. reflexivity. Qed.

Lemma bind_throw {S A B} (m : M S A) (k : A -> M S B) st x st' :
  m st = (Throw x, st') -> bind m k st = (Throw x, st').
Proof. unfold bind. intros ->. reflexivity. Qed.

Lemma bind_inv_ok {S A B} (m : M S A) (k : A -> M S B) st b st2 :
  bind m k st = (Ok b, st2) ->
  exists a st1, m st = (Ok a, st1) /\ k a st1 = (Ok b, st2).
Proof.
  unfold bind. destruct (m st) as [[a | x] st1]; intros H.
  - exists a, st1. split; [reflexivity | exact H].
  - discriminate H.
Qed.

(** ** Typed arrays *)

Lemma zeros_length n : length (zeros n) = n.
Proof. apply repeat_length. Qed.

Lemma zeros_app n m : zeros (n + m) = zeros n ++ zeros m.
Proof. apply repeat_app. Qed.

Lemma u8_set_at (pre src post gap : bytes) :
  length gap = length src ->
  u8_set (pre ++ gap ++ post) src (length pre) = Ok (pre ++ src ++ post).
Proof.
  intros Hg. unfold u8_set.
  rewrite !length_app.
  destruct (Nat.leb_spec (length pre + length src)
              (length pre + (length gap + length post))) as [_ | H]; [| lia].
  f_equal.
  rewrite firstn_app, firstn_all, Nat.sub_diag, firstn_O, app_nil_r.
  rewrite skipn_app.
  rewrite (skipn_all2 pre) by lia.
  replace (length pre + length src - length pre) with (length gap) by lia.
  rewrite skipn_app, skipn_all, Nat.sub_diag, skipn_O. reflexivity.
Qed.

Lemma u8_set_zeros (src : bytes) (n : nat) :
  length src <= n ->
  u8_set (zeros n) src 0 = Ok (src ++ zeros (n - length src)).
Proof.
  intros H.
  replace n with (length src + (n - length src)) at 1 by lia.
  rewrite zeros_app.
  apply (u8_set_at [] src (zeros (n - length src)) (zeros (length src))).
  apply zeros_length.
Qed.

Lemma u8_slice_at (pre mid post : bytes) :
  u8_slice (pre ++ mid ++ post) (length pre) (length pre + length mid) = mid.
Proof.
  unfold u8_slice.
  rewrite skipn_app, skipn_all, Nat.sub_diag, skipn_O. simpl.
  replace (length pre + length mid - length pre) with (length mid) by lia.
  rewrite firstn_app, firstn_all, Nat.sub_diag, firstn_O, app_nil_r. reflexivity.
Qed.

(** ** Readers *)

Lemma read_unchecked {R} (n : nat) (fn : ReadFn R) (b : bytes) (p : nat) :
  read n fn (reader b p) =
  match fn b p (p + n) with
  | Ok out => (Ok out, reader b (p + n))
  | Throw x => (Throw x, reader b p)
  end.
Proof. reflexivity. Qed.

Lemma read_in_bounds {R} (n : nat) (fn : ReadFn R) (r : Reader) :
  pos r + n <= length (buf r) ->
  read n fn r =
  match fn (buf r) (pos r) (pos r + n) with
  | Ok out => (Ok out, advance r n)
  | Throw x => (Throw x, r)
  end.
Proof.
  intros H. unfold read, ensure.
  destruct (checked r); [| reflexivity].
  destruct (Nat.ltb_spec (length (buf r)) (pos r + n)); [lia | reflexivity].
Qed.

Lemma read_ok_inv {R} (n : nat) (fn : ReadFn R) (r r' : Reader) (out : R) :
  read n fn r = (Ok out, r') ->
  fn (buf r) (pos r) (pos r + n) = Ok out /\ r' = advance r n.
Proof.
  unfold read. intros H.
  destruct (if checked r then ensure r n else Ok tt); [| discriminate H].
  destruct (fn (buf r) (pos r) (pos r + n)); inversion H; subst. split; reflexivity.
Qed.

(** C9.  A [read] that returns normally leaves the reader on the same
    buffer with the position advanced by exactly the requested size,
    whatever the callback is, for the unchecked and for the checked reader;
    so the next successful [read] hands its callback the byte range that
    starts where this one ended. *)
Theorem read_advances_by_size :
  forall (R : Type) (r r' : Reader) (n : nat) (fn : ReadFn R) (out : R),
    read n fn r = (Ok out, r') ->
    pos r' = pos r + n /\ buf r' = buf r /\ checked r' = checked r /\
    fn (buf r) (pos r) (pos r + n) = Ok out /\
    forall (R2 : Type) (m : nat) (fn2 : ReadFn R2) (out2 : R2) (r2 : Reader),
      read m fn2 r' = (Ok out2, r2) ->
      fn2 (buf r) (pos r + n) (pos r + n + m) = Ok out2 /\
      pos r2 = pos r + n + m.
Proof.
  intros R r r' n fn out H.
  apply read_ok_inv in H. destruct H as [Hfn ->].
  repeat split; try reflexivity; try exact Hfn.
  - apply read_ok_inv in H. destruct H as [H2 _]. exact H2.
  - apply read_ok_inv in H. destruct H as [_ ->]. reflexivity.
Qed.

Lemma read_advances_by_size_witness :
  let r := checkedReader [x01; x02; x03] 0 in
  let r' := checkedReader [x01; x02; x03] 2 in
  read 2 slice_fn r = (Ok (VBytes [x01; x02]), r') /\ pos r' = pos r + 2.
Proof.
  simpl. split; [reflexivity |].
  apply (read_advances_by_size Value (checkedReader [x01; x02; x03] 0)
           (checkedReader [x01; x02; x03] 2) 2 slice_fn (VBytes [x01; x02])).
  reflexivity.
Defined.

(** C5, amended.  When [position + n] exceeds the buffer length, [read]
    on a checked reader throws the bounds error whose message gives [n],
    the position and the buffer length, and leaves the position where it
    was; on an unchecked reader the same request performs no check: its
    outcome is the callback's, so it throws only what the callback throws
    and otherwise returns the callback's result and advances by [n]. *)
Theorem checked_read_out_of_bounds :
  forall (R : Type) (b : bytes) (p n : nat) (fn : ReadFn R),
    length b < p + n ->
    read n fn (checkedReader b p) =
      (Throw (Error ("Out of bounds: need " ++ dec n ++ " at " ++ dec p
                     ++ ", len=" ++ dec (length b))%string),
       checkedReader b p)
    /\ fst (read n fn (reader b p)) = fn b p (p + n)
    /\ forall out, fn b p (p + n) = Ok out ->
                   read n fn (reader b p) = (Ok out, reader b (p + n)).
Proof.
  intros R b p n fn H. split; [| split].
  - unfold read, ensure, checkedReader. simpl.
    destruct (Nat.ltb_spec (length b) (p + n)); [reflexivity | lia].
  - rewrite read_unchecked. destruct (fn b p (p + n)); reflexivity.
  - intros out Hout. rewrite read_unchecked, Hout. reflexivity.
Qed.

Lemma checked_read_out_of_bounds_witness :
  read 4 slice_fn (checkedReader [x01; x02] 0) =
    (Throw (Error "Out of bounds: need 4 at 0, len=2"), checkedReader [x01; x02] 0)
  /\ read 4 slice_fn (reader [x01; x02] 0) = (Ok (VBytes [x01; x02]), reader [x01; x02] 4).
Proof.
  destruct (checked_read_out_of_bounds Value [x01; x02] 0 4 slice_fn) as [H1 [_ H3]].
  - simpl. lia.
  - split; [exact H1 | apply H3; reflexivity].
Defined.

(** The claim of C5 about the unchecked reader fails as stated: asked for
    4 bytes of a 2-byte buffer with the callback of [Uint32], the
    unchecked [read] throws the [RangeError] of the [DataView] accessor. *)
Lemma unchecked_read_can_raise :
  length [x01; x02] < 0 + 4 /\
  read 4 (fun b o _ => obind (dv_getUint 4 b o false) (fun x => Ok (VNum x)))
       (reader [x01; x02] 0)
  = (Throw dv_range, reader [x01; x02] 0).
Proof. split; [simpl; lia | reflexivity]. Qed.

(** ** Writers *)

Lemma flush_loop_concat (chunks : list bytes) (done : bytes) :
  flush_loop (done ++ zeros (length (concat chunks))) (length done) chunks
  = Ok (done ++ concat chunks).
Proof.
  revert done. induction chunks as [| c rest IH]; intros done; simpl.
  - unfold zeros. simpl. reflexivity.
  - rewrite length_app, zeros_app.
    rewrite (u8_set_at done c (zeros (length (concat rest))) (zeros (length c)))
      by apply zeros_length.
    replace (length done + length c) with (length (done ++ c))
      by (rewrite length_app; reflexivity).
    rewrite app_assoc. rewrite IH. rewrite <- app_assoc. reflexivity.
Qed.

Lemma flush_growable (chunks : list bytes) :
  flush (GrowableWriter chunks (length (concat chunks))) = Ok (concat chunks).
Proof. apply (flush_loop_concat chunks []). Qed.

Lemma store_at (pre data post gap : bytes) :
  length gap = length data ->
  firstn (length pre) (pre ++ gap ++ post) ++ data
    ++ skipn (length pre + length data) (pre ++ gap ++ post)
  = pre ++ data ++ post.
Proof.
  intros Hg.
  rewrite firstn_app, firstn_all, Nat.sub_diag, firstn_O, app_nil_r.
  rewrite skipn_app.
  rewrite (skipn_all2 pre) by lia.
  replace (length pre + length data - length pre) with (length gap) by lia.
  rewrite skipn_app, skipn_all, Nat.sub_diag, skipn_O. reflexivity.
Qed.

Lemma slot_at (pre slot post : bytes) :
  firstn (length slot) (skipn (length pre) (pre ++ slot ++ post)) = slot.
Proof.
  rewrite skipn_app, skipn_all, Nat.sub_diag, skipn_O. simpl.
  rewrite firstn_app, firstn_all, Nat.sub_diag, firstn_O, app_nil_r. reflexivity.
Qed.

Lemma write_all_slots (ops : list (nat * WriteFn)) :
  Forall acts_on_slot ops ->
  exists chunks : list bytes,
    length (concat chunks) = total_size ops /\
    (forall pre k,
        write_all ops (FixedWriter (pre ++ zeros (total_size ops + k)) (length pre))
        = (Ok tt, FixedWriter (pre ++ concat chunks ++ zeros k)
                              (length pre + total_size ops))) /\
    (forall bufs len,
        write_all ops (GrowableWriter bufs len)
        = (Ok tt, GrowableWriter (bufs ++ chunks) (len + total_size ops))).
Proof.
  induction 1 as [| [n fn] ops [f [Hlen Hfn]] _ [chunks [Hsize [Hfix Hgrow]]]].
  - exists []. simpl. split; [reflexivity | split]; intros.
    + rewrite Nat.add_0_r. reflexivity.
    + rewrite app_nil_r, Nat.add_0_r. reflexivity.
  - cbn [fst snd] in Hlen, Hfn.
    pose proof (Hlen (zeros n) (zeros_length n)) as Hslot.
    exists (f (zeros n) :: chunks).
    split; [| split].
    + simpl. rewrite length_app, Hslot, Hsize. reflexivity.
    + intros pre k. simpl.
      unfold bind, write at 1.
      rewrite Hfn by (rewrite length_app, zeros_length; lia).
      replace (n + total_size ops + k) with (n + (total_size ops + k)) by lia.
      rewrite zeros_app.
      pose proof (slot_at pre (zeros n) (zeros (total_size ops + k))) as Hs.
      rewrite zeros_length in Hs. rewrite Hs.
      pose proof (store_at pre (f (zeros n)) (zeros (total_size ops + k)) (zeros n)) as Hst.
      rewrite Hslot in Hst. rewrite Hst by apply zeros_length.
      replace (pre ++ f (zeros n) ++ zeros (total_size ops + k))
        with ((pre ++ f (zeros n)) ++ zeros (total_size ops + k))
        by (rewrite <- !app_assoc; reflexivity).
      replace (length pre + n) with (length (pre ++ f (zeros n)))
        by (rewrite length_app, Hslot; reflexivity).
      rewrite Hfix. f_equal. f_equal.
      * rewrite <- !app_assoc. reflexivity.
      * rewrite length_app, Hslot. lia.
    + intros bufs len. simpl.
      unfold bind, write at 1.
      rewrite Hfn by (rewrite zeros_length; lia).
      pose proof (slot_at [] (zeros n) []) as Hs.
      rewrite zeros_length, app_nil_r in Hs. cbn [length app] in Hs. rewrite Hs.
      cbn [firstn app Nat.add].
      rewrite skipn_all2 by (rewrite zeros_length; lia).
      rewrite app_nil_r.
      rewrite Hgrow. f_equal. f_equal.
      * rewrite <- app_assoc. reflexivity.
      * lia.
Qed.

(** Storing data fixed in advance that fits the slot, as [b.set(data, o)]
    and the [DataView] setters do, is acting on the slot only. *)
Lemma stores_within_acts (op : nat * WriteFn) : stores_within op -> acts_on_slot op.
Proof.
  destruct op as [n fn]. intros [data [Hlen Hfn]]. cbn [fst snd] in *.
  exists (fun slot => data ++ skipn (length data) slot). cbn [fst snd].
  split.
  - intros slot Hs. rewrite length_app, length_skipn. lia.
  - intros b o Hb. rewrite (Hfn b o Hb). f_equal. f_equal.
    rewrite <- app_assoc. f_equal.
    rewrite skipn_firstn_comm, skipn_skipn.
    replace (length data + o) with (o + length data) by lia.
    rewrite <- (firstn_skipn (n - length data) (skipn (o + length data) b)) at 1.
    f_equal. rewrite skipn_skipn. f_equal. lia.
Qed.


(** A callback of the library stays in its slot: [b.set(data, o)] for
    data that fits. *)
Lemma set_at_stores (n : nat) (data : bytes) :
  length data <= n -> stores_within (n, set_at data).
Proof.
  intros H. exists data. split; [exact H |].
  intros b o Hb. cbn [fst snd] in *. unfold set_at, u8_set.
  destruct (Nat.leb_spec (o + length data) (length b)); [reflexivity | lia].
Qed.

(** C8, amended.  For every sequence of write operations that each act
    on their slot only (in a buffer with room for [size] bytes at the
    offset, the callback returns normally, changes only those bytes, and
    leaves there bytes that depend only on the ones that were there), the
    fixed writer allocated with the total size of the sequence and the
    growable writer both complete the sequence and flush to the same
    buffer, of that total size. *)
Theorem fixed_and_growable_writers_agree :
  forall ops : list (nat * WriteFn),
    Forall acts_on_slot ops ->
    exists out : bytes,
      fst (write_all ops (writer (Some (total_size ops)))) = Ok tt /\
      fst (write_all ops (writer None)) = Ok tt /\
      flush (snd (write_all ops (writer (Some (total_size ops))))) = Ok out /\
      flush (snd (write_all ops (writer None))) = Ok out /\
      length out = total_size ops.
Proof.
  intros ops H.
  destruct (write_all_slots ops H) as [chunks [Hsize [Hfix Hgrow]]].
  exists (concat chunks).
  specialize (Hfix [] 0). specialize (Hgrow [] 0).
  rewrite Nat.add_0_r in Hfix. simpl in Hfix, Hgrow.
  unfold writer. rewrite Hfix, Hgrow. simpl.
  rewrite app_nil_r, <- Hsize.
  repeat split; try reflexivity.
  apply flush_growable.
Qed.

Lemma small_writes_store : Forall stores_within small_writes.
Proof.
  unfold small_writes.
  repeat (apply Forall_cons; [apply set_at_stores; simpl; lia |]).
  apply Forall_nil.
Qed.

Lemma small_writes_act : Forall acts_on_slot small_writes.
Proof.
  apply Forall_impl with (2 := small_writes_store). exact stores_within_acts.
Qed.

Lemma fixed_and_growable_writers_agree_witness :
  exists out : bytes,
    fst (write_all small_writes (writer (Some (total_size small_writes)))) = Ok tt /\
    fst (write_all small_writes (writer None)) = Ok tt /\
    flush (snd (write_all small_writes (writer (Some (total_size small_writes))))) = Ok out /\
    flush (snd (write_all small_writes (writer None))) = Ok out /\
    length out = total_size small_writes.
Proof.
  exact (fixed_and_growable_writers_agree small_writes small_writes_act).
Defined.

(** The claim of C8 fails as stated: the writes of
    [tuple(utf8({ fixed: 2 }), Uint8)] on [["abc", 5]], total size 3.  The
    fixed writer lets the three bytes of ["abc"] run over the 2-byte slot
    and flushes [61 62 05]; the growable writer throws the [RangeError]
    of [set] on its 2-byte chunk and flushes nothing. *)
Lemma writers_disagree_on_overlong_write :
  total_size overlong_writes = 3 /\
  fst (write_all overlong_writes (writer (Some 3))) = Ok tt /\
  flush (snd (write_all overlong_writes (writer (Some 3)))) = Ok [x61; x62; x05] /\
  fst (write_all overlong_writes (writer None)) = Throw (RangeError "offset is out of bounds") /\
  flush (snd (write_all overlong_writes (writer None))) = Ok [].
Proof. repeat split; reflexivity. Qed.

(** Staying in the slot is not enough: a callback that stores the offset
    it is given writes 1 in the fixed buffer, where its slot is at
    offset 1, and 0 in its own chunk of the growable writer. *)
Lemma writers_disagree_on_offset_dependent_write :
  total_size offset_writes = 2 /\
  fst (write_all offset_writes (writer (Some 2))) = Ok tt /\
  flush (snd (write_all offset_writes (writer (Some 2)))) = Ok [x05; x01] /\
  fst (write_all offset_writes (writer None)) = Ok tt /\
  flush (snd (write_all offset_writes (writer None))) = Ok [x05; x00].
Proof. repeat split; reflexivity. Qed.

(** ** Bytes and integers *)

Lemma Z_of_byte_of_Z (z : Z) : Z_of_byte (byte_of_Z z) = (z mod 256)%Z.
Proof.
  unfold Z_of_byte, byte_of_Z.
  assert (Hr : (0 <= z mod 256 < 256)%Z) by (apply Z.mod_pos_bound; lia).
  destruct (Byte.of_N (Z.to_N (z mod 256))) as [b |] eqn:Hb.
  - apply Byte.to_of_N in Hb. rewrite Hb. lia.
  - apply Byte.of_N_None_iff in Hb. lia.
Qed.

Lemma Z_of_byte_range (b : byte) : (0 <= Z_of_byte b < 256)%Z.
Proof.
  unfold Z_of_byte. pose proof (Byte.to_N_bounded b). lia.
Qed.

Lemma le_bytes_length (n : nat) (v : Z) : length (le_bytes n v) = n.
Proof. revert v. induction n; intros v; simpl; [| rewrite IHn]; reflexivity. Qed.

Lemma int_bytes_length (n : nat) (le_ : bool) (v : Z) : length (int_bytes n le_ v) = n.
Proof.
  unfold int_bytes. destruct le_; [| rewrite length_rev]; apply le_bytes_length.
Qed.


Lemma le_value_le_bytes (n : nat) (v : Z) :
  le_value (le_bytes n v) = (v mod 256 ^ Z.of_nat n)%Z.
Proof.
  revert v. induction n as [| k IH]; intros v.
  - simpl. rewrite Z.mod_1_r. reflexivity.
  - cbn [le_bytes le_value]. rewrite Z_of_byte_of_Z, IH.
    rewrite Nat2Z.inj_succ, Z.pow_succ_r by lia.
    rewrite Z.rem_mul_r by lia.
    rewrite Z.mod_mod by lia. reflexivity.
Qed.

Lemma uint_value_int_bytes (n : nat) (le_ : bool) (v : Z) :
  uint_value le_ (int_bytes n le_ v) = (v mod 256 ^ Z.of_nat n)%Z.
Proof.
  unfold uint_value, int_bytes. destruct le_.
  - apply le_value_le_bytes.
  - rewrite rev_involutive. apply le_value_le_bytes.
Qed.

Lemma pow256 (n : nat) : (256 ^ Z.of_nat n = 2 ^ (8 * Z.of_nat n))%Z.
Proof.
  change 256%Z with (2 ^ 8)%Z. rewrite <- Z.pow_mul_r by lia. reflexivity.
Qed.

Lemma uint_roundtrip (n : nat) (le_ : bool) (v : Z) :
  (0 <= v < 256 ^ Z.of_nat n)%Z ->
  uint_value le_ (int_bytes n le_ v) = v.
Proof.
  intros H. rewrite uint_value_int_bytes. apply Z.mod_small. exact H.
Qed.

Lemma int_roundtrip (n : nat) (le_ : bool) (v : Z) :
  0 < n ->
  (- 2 ^ (8 * Z.of_nat n - 1) <= v < 2 ^ (8 * Z.of_nat n - 1))%Z ->
  int_value le_ (int_bytes n le_ v) = v.
Proof.
  intros Hn H. unfold int_value.
  rewrite uint_value_int_bytes, int_bytes_length, pow256.
  assert (Hp : (2 ^ (8 * Z.of_nat n) = 2 * 2 ^ (8 * Z.of_nat n - 1))%Z).
  { rewrite <- Z.pow_succ_r by lia. f_equal. lia. }
  assert (Hpos : (0 < 2 ^ (8 * Z.of_nat n - 1))%Z) by (apply Z.pow_pos_nonneg; lia).
  destruct (Z.ltb_spec (v mod 2 ^ (8 * Z.of_nat n)) (2 ^ (8 * Z.of_nat n - 1))) as [Hlt | Hge].
  - destruct (Z.lt_ge_cases v 0) as [Hneg | Hnn].
    + exfalso.
      rewrite <- (Z.mod_add v 1) in Hlt by lia.
      rewrite Z.mod_small in Hlt by lia. lia.
    + apply Z.mod_small. lia.
  - destruct (Z.lt_ge_cases v 0) as [Hneg | Hnn].
    + rewrite <- (Z.mod_add v 1) by lia.
      rewrite Z.mod_small by lia. lia.
    + exfalso. rewrite Z.mod_small in Hge by lia. lia.
Qed.

(** ** Readers that hold bytes *)

Lemma holds_app_l (r : Reader) (a b : bytes) : holds r (a ++ b) -> holds r a.
Proof.
  intros [pre [post [Hb Hp]]]. exists pre, (b ++ post).
  rewrite Hb, <- app_assoc. split; [reflexivity | exact Hp].
Qed.

Lemma holds_app_r (r : Reader) (a b : bytes) :
  holds r (a ++ b) -> holds (advance r (length a)) b.
Proof.
  intros [pre [post [Hb Hp]]]. exists (pre ++ a), post. simpl.
  rewrite Hb, Hp, length_app, <- !app_assoc. split; reflexivity.
Qed.

Lemma holds_nil_after (r : Reader) (a : bytes) :
  holds r a -> holds (advance r (length a)) [].
Proof.
  intros H. apply (holds_app_r r a []). rewrite app_nil_r. exact H.
Qed.

Lemma holds_start (bs : bytes) (chk : bool) : holds (mkReader chk bs 0) bs.
Proof. exists [], []. simpl. rewrite app_nil_r. split; reflexivity. Qed.

Lemma advance_advance (r : Reader) (n m : nat) :
  advance (advance r n) m = advance r (n + m).
Proof. unfold advance. simpl. rewrite Nat.add_assoc. reflexivity. Qed.

Lemma advance_0 (r : Reader) : advance r 0 = r.
Proof. destruct r. unfold advance. simpl. rewrite Nat.add_0_r. reflexivity. Qed.

Lemma holds_bounds (r : Reader) (bs : bytes) :
  holds r bs -> pos r + length bs <= length (buf r).
Proof.
  intros [pre [post [Hb Hp]]]. rewrite Hb, Hp, !length_app. lia.
Qed.

Lemma holds_slice (r : Reader) (bs : bytes) :
  holds r bs -> u8_slice (buf r) (pos r) (pos r + length bs) = bs.
Proof.
  intros [pre [post [Hb Hp]]]. rewrite Hb, Hp. apply u8_slice_at.
Qed.

(** A [read] of [length bs] bytes on a reader that holds [bs]. *)
Lemma read_holds {R} (fn : ReadFn R) (r : Reader) (bs : bytes) (out : R) :
  holds r bs ->
  fn (buf r) (pos r) (pos r + length bs) = Ok out ->
  read (length bs) fn r = (Ok out, advance r (length bs)).
Proof.
  intros H Hfn. rewrite read_in_bounds by (apply holds_bounds; exact H).
  rewrite Hfn. reflexivity.
Qed.

Lemma read_holds_n {R} (fn : ReadFn R) (r : Reader) (bs : bytes) (n : nat) (out : R) :
  holds r bs -> length bs = n ->
  fn (buf r) (pos r) (pos r + n) = Ok out ->
  read n fn r = (Ok out, advance r n).
Proof. intros H <-. apply read_holds. exact H. Qed.

Lemma holds_slice_n (r : Reader) (bs : bytes) (n : nat) :
  holds r bs -> length bs = n -> u8_slice (buf r) (pos r) (pos r + n) = bs.
Proof. intros H <-. apply holds_slice. exact H. Qed.

(** ** The growable writer *)

Lemma write_growable (n : nat) (data : bytes) (bufs : list bytes) (len : nat) :
  length data <= n ->
  write n (set_at data) (GrowableWriter bufs len)
  = (Ok tt, GrowableWriter (bufs ++ [data ++ zeros (n - length data)]) (len + n)).
Proof.
  intros H. unfold write, set_at. rewrite u8_set_zeros by exact H. reflexivity.
Qed.

Lemma encode_writes (c : Codec) (v : Value) (bs : bytes) :
  writes c v bs -> encode c v = Ok bs.
Proof.
  intros [chunks [Hc He]]. unfold encode, writer.
  rewrite (He [] 0). simpl. rewrite <- Hc. apply flush_growable.
Qed.

Lemma decode_reads (c : Codec) (bs : bytes) (v : Value) :
  reads c bs v -> exists v', decode c bs = Ok v' /\ deep_equal v' v.
Proof.
  intros H. destruct (H (reader bs 0) (holds_start bs false)) as [v' [Hd He]].
  exists v'. unfold decode. rewrite Hd. split; [reflexivity | exact He].
Qed.

(** ** Number codecs *)

Lemma dv_set_zeros (n : nat) (v : Z) (le_ : bool) :
  dv_set n (zeros n) 0 v le_ = Ok (int_bytes n le_ v).
Proof.
  unfold dv_set. rewrite zeros_length. simpl.
  rewrite Nat.leb_refl.
  rewrite skipn_all2 by (rewrite zeros_length; lia).
  rewrite app_nil_r. reflexivity.
Qed.

Lemma dv_getUint_holds (n : nat) (r : Reader) (bs : bytes) (le_ : bool) :
  holds r bs -> length bs = n ->
  dv_getUint n (buf r) (pos r) le_ = Ok (uint_value le_ bs).
Proof.
  intros H Hn. unfold dv_getUint.
  pose proof (holds_bounds r bs H) as Hb. rewrite Hn in Hb.
  destruct (Nat.leb_spec (pos r + n) (length (buf r))); [| lia].
  rewrite <- Hn, (holds_slice r bs H). reflexivity.
Qed.

Lemma dv_getInt_holds (n : nat) (r : Reader) (bs : bytes) (le_ : bool) :
  holds r bs -> length bs = n ->
  dv_getInt n (buf r) (pos r) le_ = Ok (int_value le_ bs).
Proof.
  intros H Hn. unfold dv_getInt.
  pose proof (holds_bounds r bs H) as Hb. rewrite Hn in Hb.
  destruct (Nat.leb_spec (pos r + n) (length (buf r))); [| lia].
  rewrite <- Hn, (holds_slice r bs H). reflexivity.
Qed.

Lemma setInt_zeros (n : nat) (v : Z) (le_ : bool) :
  setInt n (zeros n) 0 (VNum v) le_ = Ok (int_bytes n le_ v).
Proof. unfold setInt. cbn [to_integer obind]. apply dv_set_zeros. Qed.

Lemma setBigInt_zeros (n : nat) (v : Z) (le_ : bool) :
  setBigInt n (zeros n) 0 (VBigInt v) le_ = Ok (int_bytes n le_ v).
Proof. unfold setBigInt. cbn [as_bigint obind]. apply dv_set_zeros. Qed.

Lemma getUint_holds (n : nat) (r : Reader) (bs : bytes) (le_ : bool) :
  holds r bs -> length bs = n ->
  getUint n (buf r) (pos r) le_ = Ok (VNum (uint_value le_ bs)).
Proof. intros H Hn. unfold getUint. rewrite (dv_getUint_holds n r bs le_ H Hn). reflexivity. Qed.

Lemma getInt_holds (n : nat) (r : Reader) (bs : bytes) (le_ : bool) :
  holds r bs -> length bs = n ->
  getInt n (buf r) (pos r) le_ = Ok (VNum (int_value le_ bs)).
Proof. intros H Hn. unfold getInt. rewrite (dv_getInt_holds n r bs le_ H Hn). reflexivity. Qed.

Lemma getBigUint_holds (n : nat) (r : Reader) (bs : bytes) (le_ : bool) :
  holds r bs -> length bs = n ->
  getBigUint n (buf r) (pos r) le_ = Ok (VBigInt (uint_value le_ bs)).
Proof.
  intros H Hn. unfold getBigUint. rewrite (dv_getUint_holds n r bs le_ H Hn). reflexivity.
Qed.

Lemma getBigInt_holds (n : nat) (r : Reader) (bs : bytes) (le_ : bool) :
  holds r bs -> length bs = n ->
  getBigInt n (buf r) (pos r) le_ = Ok (VBigInt (int_value le_ bs)).
Proof.
  intros H Hn. unfold getBigInt. rewrite (dv_getInt_holds n r bs le_ H Hn). reflexivity.
Qed.

(** A number codec whose setter stores [image v] for the values [v] of
    [T] and whose getter reads [back bs] is sound on the values that
    [back] restores. *)
Lemma numCodec_sound (sized : bool) (n : nat)
    (getter : bytes -> nat -> bool -> outcome Value)
    (setter : bytes -> nat -> Value -> bool -> outcome bytes)
    (endian : Endian) (T R : dom) (image : Value -> bytes) (back : bytes -> Value) :
  (forall v, T v -> setter (zeros n) 0 v (is_le endian) = Ok (image v)) ->
  (forall v, T v -> length (image v) = n) ->
  (forall r bs, holds r bs -> length bs = n ->
                getter (buf r) (pos r) (is_le endian) = Ok (back bs)) ->
  (forall v, T v -> R v -> deep_equal (back (image v)) v) ->
  sound sized (numCodec n getter setter endian) T R.
Proof.
  intros Hset Hlen Hget Hback v HT. exists (image v). split; [| split].
  - exists [image v]. split; [simpl; apply app_nil_r |].
    intros bufs len. simpl. unfold write.
    rewrite (Hset v HT), (Hlen v HT). reflexivity.
  - intros _. unfold size. simpl. rewrite (Hlen v HT). reflexivity.
  - intros HR r Hhold.
    exists (back (image v)). split; [| apply Hback; assumption].
    simpl. rewrite <- (Hlen v HT) at 1. apply read_holds; [exact Hhold |].
    apply (Hget r (image v) Hhold (Hlen v HT)).
Qed.

Lemma intCodec_sound (sized : bool) (n : nat)
    (getter : bytes -> nat -> bool -> outcome Value)
    (setter : bytes -> nat -> Value -> bool -> outcome bytes)
    (endian : Endian) (image : Z -> bytes) (back : bytes -> Z) (lo hi : Z) :
  (forall x, setter (zeros n) 0 (VNum x) (is_le endian) = Ok (image x)) ->
  (forall x, length (image x) = n) ->
  (forall r bs, holds r bs -> length bs = n ->
                getter (buf r) (pos r) (is_le endian) = Ok (VNum (back bs))) ->
  (forall x, (lo <= x < hi)%Z -> back (image x) = x) ->
  sound sized (numCodec n getter setter endian) any_number (number_in lo hi).
Proof.
  intros Hset Hlen Hget Hback.
  apply (numCodec_sound sized n getter setter endian _ _
           (fun v => match v with VNum x => image x | _ => [] end)
           (fun bs => VNum (back bs))).
  - intros v [x ->]. apply Hset.
  - intros v [x ->]. apply Hlen.
  - exact Hget.
  - intros v [x ->] [x' [Hx Hr]]. injection Hx as <-.
    rewrite (Hback x Hr). constructor.
Qed.

Lemma bigintCodec_sound (sized : bool) (n : nat)
    (getter : bytes -> nat -> bool -> outcome Value)
    (setter : bytes -> nat -> Value -> bool -> outcome bytes)
    (endian : Endian) (image : Z -> bytes) (back : bytes -> Z) (lo hi : Z) :
  (forall x, setter (zeros n) 0 (VBigInt x) (is_le endian) = Ok (image x)) ->
  (forall x, length (image x) = n) ->
  (forall r bs, holds r bs -> length bs = n ->
                getter (buf r) (pos r) (is_le endian) = Ok (VBigInt (back bs))) ->
  (forall x, (lo <= x < hi)%Z -> back (image x) = x) ->
  sound sized (bigNumCodec n getter setter endian) any_bigint (bigint_in lo hi).
Proof.
  intros Hset Hlen Hget Hback.
  apply (numCodec_sound sized n getter setter endian _ _
           (fun v => match v with VBigInt x => image x | _ => [] end)
           (fun bs => VBigInt (back bs))).
  - intros v [x ->]. apply Hset.
  - intros v [x ->]. apply Hlen.
  - exact Hget.
  - intros v [x ->] [x' [Hx Hr]]. injection Hx as <-.
    rewrite (Hback x Hr). constructor.
Qed.

Lemma uint8_sound sized : sound sized uint8 any_number (number_in 0 256).
Proof.
  apply (intCodec_sound sized 1 _ _ be (int_bytes 1 false) (uint_value false)).
  - intros x. apply setInt_zeros.
  - intros x. apply int_bytes_length.
  - intros r bs. apply getUint_holds.
  - intros x Hx. apply (uint_roundtrip 1). exact Hx.
Qed.

Lemma int8_sound sized : sound sized int8 any_number (number_in (-128) 128).
Proof.
  apply (intCodec_sound sized 1 _ _ be (int_bytes 1 false) (int_value false)).
  - intros x. apply setInt_zeros.
  - intros x. apply int_bytes_length.
  - intros r bs. apply getInt_holds.
  - intros x Hx. apply (int_roundtrip 1); [lia | exact Hx].
Qed.

Lemma uint16_sound sized en : sound sized (uint16 en) any_number (number_in 0 65536).
Proof.
  apply (intCodec_sound sized 2 _ _ en (int_bytes 2 (is_le en)) (uint_value (is_le en))).
  - intros x. apply setInt_zeros.
  - intros x. apply int_bytes_length.
  - intros r bs. apply getUint_holds.
  - intros x Hx. apply (uint_roundtrip 2). exact Hx.
Qed.

Lemma int16_sound sized en : sound sized (int16 en) any_number (number_in (-32768) 32768).
Proof.
  apply (intCodec_sound sized 2 _ _ en (int_bytes 2 (is_le en)) (int_value (is_le en))).
  - intros x. apply setInt_zeros.
  - intros x. apply int_bytes_length.
  - intros r bs. apply getInt_holds.
  - intros x Hx. apply (int_roundtrip 2); [lia | exact Hx].
Qed.

Lemma uint32_sound sized en : sound sized (uint32 en) any_number (number_in 0 4294967296).
Proof.
  apply (intCodec_sound sized 4 _ _ en (int_bytes 4 (is_le en)) (uint_value (is_le en))).
  - intros x. apply setInt_zeros.
  - intros x. apply int_bytes_length.
  - intros r bs. apply getUint_holds.
  - intros x Hx. apply (uint_roundtrip 4). exact Hx.
Qed.

Lemma int32_sound sized en :
  sound sized (int32 en) any_number (number_in (-2147483648) 2147483648).
Proof.
  apply (intCodec_sound sized 4 _ _ en (int_bytes 4 (is_le en)) (int_value (is_le en))).
  - intros x. apply setInt_zeros.
  - intros x. apply int_bytes_length.
  - intros r bs. apply getInt_holds.
  - intros x Hx. apply (int_roundtrip 4); [lia | exact Hx].
Qed.

Lemma bigUint64_sound sized en :
  sound sized (bigUint64 en) any_bigint (bigint_in 0 18446744073709551616).
Proof.
  apply (bigintCodec_sound sized 8 _ _ en (int_bytes 8 (is_le en)) (uint_value (is_le en))).
  - intros x. apply setBigInt_zeros.
  - intros x. apply int_bytes_length.
  - intros r bs. apply getBigUint_holds.
  - intros x Hx. apply (uint_roundtrip 8). exact Hx.
Qed.

Lemma bigInt64_sound sized en :
  sound sized (bigInt64 en) any_bigint
        (bigint_in (-9223372036854775808) 9223372036854775808).
Proof.
  apply (bigintCodec_sound sized 8 _ _ en (int_bytes 8 (is_le en)) (int_value (is_le en))).
  - intros x. apply setBigInt_zeros.
  - intros x. apply int_bytes_length.
  - intros r bs. apply getBigInt_holds.
  - intros x Hx. apply (int_roundtrip 8); [lia | exact Hx].
Qed.

(** ** Floating point codecs *)

Lemma round_shift_nonneg (m k : Z) : (0 <= m)%Z -> (0 <= round_shift m k)%Z.
Proof.
  intros Hm. unfold round_shift.
  assert (Hq : (0 <= m / 2 ^ k)%Z).
  { destruct (Z.lt_ge_cases k 0) as [Hk | Hk].
    - rewrite Z.pow_neg_r by exact Hk. rewrite Z.div_0_r. lia.
    - apply Z.div_pos; [exact Hm | apply Z.pow_pos_nonneg; lia]. }
  destruct (_ || _); lia.
Qed.

Lemma infinity_range (fmt : Format) :
  (0 < ebits fmt)%Z -> (0 < fbits fmt)%Z ->
  (0 <= infinity fmt /\ quiet_nan fmt < sign_mask fmt /\ infinity fmt < sign_mask fmt)%Z.
Proof.
  intros He Hf. unfold quiet_nan, infinity, sign_mask.
  rewrite Z.pow_add_r by lia.
  assert (H1 : (0 < 2 ^ ebits fmt)%Z) by (apply Z.pow_pos_nonneg; lia).
  assert (H2 : (0 < 2 ^ (fbits fmt - 1))%Z) by (apply Z.pow_pos_nonneg; lia).
  assert (H3 : (2 ^ fbits fmt = 2 * 2 ^ (fbits fmt - 1))%Z).
  { rewrite <- Z.pow_succ_r by lia. f_equal. lia. }
  rewrite H3.
  generalize dependent (2 ^ ebits fmt)%Z. intros a Ha.
  generalize dependent (2 ^ (fbits fmt - 1))%Z. intros h Hh _.
  rewrite !Z.mul_sub_distr_r.
  assert (0 < a * (2 * h))%Z by nia.
  assert (a * (2 * h) >= 1 * (2 * h))%Z by nia.
  lia.
Qed.

(** The bits of a number fit the width of the format. *)
Lemma bits_of_number_range (fmt : Format) (v : Number) :
  (0 < ebits fmt)%Z -> (0 < fbits fmt)%Z ->
  (0 <= bits_of_number fmt v < 2 * sign_mask fmt)%Z.
Proof.
  intros He Hf.
  destruct (infinity_range fmt He Hf) as [Hi0 [Hnan Hinf]].
  assert (Hs : (0 < sign_mask fmt)%Z) by (apply Z.pow_pos_nonneg; lia).
  destruct v as [| negative | negative m x]; cbn [bits_of_number].
  - unfold quiet_nan in *.
    assert (0 < 2 ^ (fbits fmt - 1))%Z by (apply Z.pow_pos_nonneg; lia). lia.
  - destruct negative; lia.
  - destruct (Z.leb_spec m 0) as [Hm | Hm]; [destruct negative; lia |].
    cbv zeta.
    set (unit := Z.max (Z.log2 m + x - fbits fmt) (emin fmt)).
    assert (Hunit : (emin fmt <= unit)%Z) by (unfold unit; lia).
    set (q := if (unit <=? x)%Z then (m * 2 ^ (x - unit))%Z
              else round_shift m (unit - x)).
    assert (Hq : (0 <= q)%Z).
    { unfold q. destruct (Z.leb_spec unit x).
      - apply Z.mul_nonneg_nonneg; [lia | apply Z.pow_nonneg; lia].
      - apply round_shift_nonneg. lia. }
    assert (Hmag : (0 <= (unit - emin fmt) * 2 ^ fbits fmt + q)%Z).
    { assert (0 <= 2 ^ fbits fmt)%Z by (apply Z.pow_nonneg; lia). nia. }
    destruct negative; lia.
Qed.

Lemma float_sound sized (fmt : Format) (n : nat) (en : Endian) :
  (0 < ebits fmt)%Z -> (0 < fbits fmt)%Z ->
  (2 * sign_mask fmt = 256 ^ Z.of_nat n)%Z ->
  sound sized (numCodec n (getFloat fmt n) (setFloat fmt n) en)
        a_number (exact_in fmt).
Proof.
  intros He Hf Hwidth.
  apply (numCodec_sound sized n _ _ en _ _
           (fun v => match to_number v with
                     | Ok x => int_bytes n (is_le en) (bits_of_number fmt x)
                     | Throw _ => zeros n
                     end)
           (fun bs => of_number (number_of_bits fmt (uint_value (is_le en) bs)))).
  - intros v [x Hx]. unfold setFloat. rewrite Hx. cbn [obind]. apply dv_set_zeros.
  - intros v [x Hx]. rewrite Hx. apply int_bytes_length.
  - intros r bs Hr Hn. unfold getFloat.
    rewrite (dv_getUint_holds n r bs _ Hr Hn). reflexivity.
  - intros v [x Hx] HR. unfold exact_in, rounded in HR. rewrite Hx in *. cbn [obind] in HR.
    rewrite uint_roundtrip
      by (rewrite <- Hwidth; apply bits_of_number_range; assumption).
    injection HR as ->.
    destruct v; try discriminate Hx; constructor.
Qed.

Lemma float32_sound sized en : sound sized (float32 en) a_number (exact_in binary32).
Proof. apply (float_sound sized binary32 4 en); reflexivity. Qed.

Lemma float64_sound sized en : sound sized (float64 en) a_number (exact_in binary64).
Proof. apply (float_sound sized binary64 8 en); reflexivity. Qed.

(** The bits of a format, field by field: the sign, the exponent field
    [ex] and the fraction field [f]. *)
Lemma number_of_bits_fields (fmt : Format) (negative : bool) (ex f : Z) :
  (0 < ebits fmt)%Z -> (0 < fbits fmt)%Z ->
  (0 <= ex < 2 ^ ebits fmt)%Z -> (0 <= f < 2 ^ fbits fmt)%Z ->
  number_of_bits fmt ((if negative then sign_mask fmt else 0) + (ex * 2 ^ fbits fmt + f))
  = if (ex =? 2 ^ ebits fmt - 1)%Z
    then (if (f =? 0)%Z then Infinite negative else NaN)
    else if (ex =? 0)%Z then Finite negative f (emin fmt)
    else Finite negative (2 ^ fbits fmt + f) (ex - 1 + emin fmt).
Proof.
  intros He Hf Hex Hfr. unfold number_of_bits, sign_mask.
  rewrite Z.pow_add_r by lia.
  set (P := (2 ^ fbits fmt)%Z) in *. set (Q := (2 ^ ebits fmt)%Z) in *.
  assert (HP : (0 < P)%Z) by (apply Z.pow_pos_nonneg; lia).
  assert (HQ : (0 < Q)%Z) by (apply Z.pow_pos_nonneg; lia).
  set (s := if negative then 1%Z else 0%Z).
  assert (Hb : ((if negative then Q * P else 0) + (ex * P + f) = (s * Q + ex) * P + f)%Z)
    by (unfold s; destruct negative; ring).
  rewrite Hb.
  assert (Hdiv : (((s * Q + ex) * P + f) / P = s * Q + ex)%Z).
  { symmetry. apply (Z.div_unique_pos _ _ _ f); [lia | ring]. }
  assert (Hmod : (((s * Q + ex) * P + f) mod P = f)%Z).
  { symmetry. apply (Z.mod_unique_pos _ _ (s * Q + ex)); [lia | ring]. }
  assert (Hex' : ((s * Q + ex) mod Q = ex)%Z).
  { symmetry. apply (Z.mod_unique_pos _ _ s); [lia | ring]. }
  rewrite Hdiv, Hmod, Hex'.
  assert (Hsign : (Q * P <=? (s * Q + ex) * P + f)%Z = negative).
  { unfold s. destruct negative.
    - apply Z.leb_le. nia.
    - apply Z.leb_gt. nia. }
  rewrite Hsign. reflexivity.
Qed.

(** The bits of a format split into their fields. *)
Lemma bits_fields (fmt : Format) (b : Z) :
  (0 < ebits fmt)%Z -> (0 < fbits fmt)%Z ->
  (0 <= b < 2 * sign_mask fmt)%Z ->
  exists (negative : bool) (ex f : Z),
    (0 <= ex < 2 ^ ebits fmt)%Z /\ (0 <= f < 2 ^ fbits fmt)%Z /\
    b = ((if negative then sign_mask fmt else 0) + (ex * 2 ^ fbits fmt + f))%Z.
Proof.
  intros He Hf Hb. unfold sign_mask in *. rewrite Z.pow_add_r in * by lia.
  set (P := (2 ^ fbits fmt)%Z) in *. set (Q := (2 ^ ebits fmt)%Z) in *.
  assert (HP : (0 < P)%Z) by (apply Z.pow_pos_nonneg; lia).
  assert (HQ : (0 < Q)%Z) by (apply Z.pow_pos_nonneg; lia).
  exists (Q * P <=? b)%Z.
  set (b0 := (b - if (Q * P <=? b)%Z then Q * P else 0)%Z).
  assert (Hb0 : (0 <= b0 < Q * P)%Z).
  { unfold b0. destruct (Z.leb_spec (Q * P) b); lia. }
  exists (b0 / P)%Z, (b0 mod P)%Z.
  pose proof (Z.div_mod b0 P ltac:(lia)) as Hdm.
  pose proof (Z.mod_pos_bound b0 P HP) as Hm.
  split; [| split; [exact Hm |]].
  - split; [apply Z.div_pos; lia |].
    apply Z.div_lt_upper_bound; lia.
  - unfold b0 in *. destruct (Z.leb_spec (Q * P) b); lia.
Qed.

(** Storing a number of a format in that format changes nothing: the
    bits of the number that bits stand for are those bits, but for the
    bits of a NaN, which become the ones of the NaN that the setters
    store. *)
Lemma bits_of_number_of_bits (fmt : Format) (b : Z) :
  (1 < ebits fmt)%Z -> (0 < fbits fmt)%Z ->
  (0 <= b < 2 * sign_mask fmt)%Z ->
  bits_of_number fmt (number_of_bits fmt b)
  = if is_nan (number_of_bits fmt b) then quiet_nan fmt else b.
Proof.
  intros He Hf Hb.
  destruct (bits_fields fmt b ltac:(lia) Hf Hb) as [negative [ex [f [Hex [Hfr ->]]]]].
  rewrite number_of_bits_fields by (assumption || lia).
  unfold infinity.
  set (P := (2 ^ fbits fmt)%Z) in *. set (Q := (2 ^ ebits fmt)%Z) in *.
  assert (HP : (0 < P)%Z) by (apply Z.pow_pos_nonneg; lia).
  assert (HQ : (4 <= Q)%Z).
  { unfold Q. change 4%Z with (2 ^ 2)%Z. apply Z.pow_le_mono_r; lia. }
  destruct (Z.eqb_spec ex (Q - 1)) as [-> | Hne].
  - destruct (Z.eqb_spec f 0) as [-> | Hf0]; [| reflexivity].
    cbn [bits_of_number is_nan]. unfold infinity. fold P Q. lia.
  - destruct (Z.eqb_spec ex 0) as [-> | Hne0]; cbn [bits_of_number is_nan].
    + f_equal. destruct (Z.leb_spec f 0) as [Hle | Hlt]; [lia |].
      cbv zeta. unfold infinity. fold P Q.
      assert (Hlog : (Z.log2 f < fbits fmt)%Z) by (apply Z.log2_lt_pow2; [lia | apply Hfr]).
      rewrite Z.max_r by lia.
      rewrite Z.leb_refl, Z.sub_diag, Z.pow_0_r, Z.mul_1_r.
      rewrite Z.min_l by nia. lia.
    + f_equal. destruct (Z.leb_spec (P + f) 0) as [Hle | Hlt]; [lia |].
      cbv zeta. unfold infinity. fold P Q.
      assert (Hlog : Z.log2 (P + f) = fbits fmt).
      { apply Z.log2_unique; [lia |]. rewrite Z.pow_succ_r by lia. fold P. lia. }
      rewrite Hlog.
      rewrite Z.max_l by lia.
      replace (fbits fmt + (ex - 1 + emin fmt) - fbits fmt)%Z
        with (ex - 1 + emin fmt)%Z by ring.
      rewrite Z.leb_refl, Z.sub_diag, Z.pow_0_r, Z.mul_1_r.
      rewrite Z.min_l by nia. ring.
Qed.

(** Rounding what needs no rounding, and rounding a number written
    with [k] more bits. *)
Lemma round_shift_exact (a j : Z) :
  (0 < j)%Z -> round_shift (a * 2 ^ j) j = a.
Proof.
  intros Hj. unfold round_shift.
  assert (H2 : (0 < 2 ^ j)%Z) by (apply Z.pow_pos_nonneg; lia).
  assert (Hh : (0 < 2 ^ (j - 1))%Z) by (apply Z.pow_pos_nonneg; lia).
  rewrite Z.div_mul by lia. rewrite Z.mod_mul by lia.
  destruct (Z.ltb_spec (2 ^ (j - 1)) 0) as [H | _]; [lia |].
  destruct (Z.eqb_spec 0 (2 ^ (j - 1))) as [H | _]; [lia |].
  reflexivity.
Qed.

Lemma round_shift_scale (m d k : Z) :
  (0 < d)%Z -> (0 <= k)%Z ->
  round_shift (m * 2 ^ k) (d + k) = round_shift m d.
Proof.
  intros Hd Hk. unfold round_shift.
  assert (HK : (0 < 2 ^ k)%Z) by (apply Z.pow_pos_nonneg; lia).
  assert (HD : (0 < 2 ^ d)%Z) by (apply Z.pow_pos_nonneg; lia).
  rewrite Z.pow_add_r by lia.
  replace (d + k - 1)%Z with ((d - 1) + k)%Z by ring.
  rewrite (Z.pow_add_r 2 (d - 1) k) by lia.
  rewrite Z.div_mul_cancel_r by lia.
  rewrite Z.mul_mod_distr_r by lia.
  set (r := (m mod 2 ^ d)%Z). set (h := (2 ^ (d - 1))%Z). set (K := (2 ^ k)%Z) in *.
  assert (Hlt : (h * K <? r * K)%Z = (h <? r)%Z).
  { destruct (Z.ltb_spec h r); [apply Z.ltb_lt | apply Z.ltb_ge]; nia. }
  assert (Heq : (r * K =? h * K)%Z = (r =? h)%Z).
  { destruct (Z.eqb_spec r h); [apply Z.eqb_eq | apply Z.eqb_neq]; nia. }
  rewrite Hlt, Heq. reflexivity.
Qed.

(** The bits of a number do not depend on how it is written: [m * 2^x]
    written with [k] more bits has the same. *)
Lemma bits_of_number_scale (fmt : Format) (negative : bool) (m x k : Z) :
  (0 < m)%Z -> (0 <= k)%Z ->
  bits_of_number fmt (Finite negative (m * 2 ^ k) (x - k))
  = bits_of_number fmt (Finite negative m x).
Proof.
  intros Hm Hk. cbn [bits_of_number].
  assert (HK : (0 < 2 ^ k)%Z) by (apply Z.pow_pos_nonneg; lia).
  destruct (Z.leb_spec (m * 2 ^ k) 0) as [H | _]; [nia |].
  destruct (Z.leb_spec m 0) as [H | _]; [lia |].
  cbv zeta. rewrite Z.log2_mul_pow2 by lia.
  replace (k + Z.log2 m + (x - k) - fbits fmt)%Z with (Z.log2 m + x - fbits fmt)%Z by ring.
  set (unit := Z.max (Z.log2 m + x - fbits fmt) (emin fmt)).
  f_equal. f_equal. f_equal.
  destruct (Z.leb_spec unit (x - k)) as [H1 | H1].
  - destruct (Z.leb_spec unit x) as [_ | H2]; [| lia].
    rewrite <- Z.mul_assoc. f_equal. rewrite <- Z.pow_add_r by lia. f_equal. ring.
  - destruct (Z.leb_spec unit x) as [H2 | H2].
    + replace (m * 2 ^ k)%Z with (m * 2 ^ (x - unit) * 2 ^ (unit - (x - k)))%Z.
      * apply round_shift_exact. lia.
      * rewrite <- Z.mul_assoc. f_equal. rewrite <- Z.pow_add_r by lia. f_equal. ring.
    + replace (unit - (x - k))%Z with (unit - x + k)%Z by ring.
      apply round_shift_scale; lia.
Qed.

(** A number of at most [fbits + 1] bits whose exponent is in the range
    of the normal numbers of the format is a number of the format: its
    bits stand for it, written with all the bits of the significand. *)
Lemma number_of_bits_of_number (fmt : Format) (negative : bool) (m x : Z) :
  (1 < ebits fmt)%Z -> (0 < fbits fmt)%Z ->
  (0 < m < 2 ^ (fbits fmt + 1))%Z ->
  (emin fmt <= Z.log2 m + x - fbits fmt < emin fmt + 2 ^ ebits fmt - 2)%Z ->
  number_of_bits fmt (bits_of_number fmt (Finite negative m x))
  = Finite negative (m * 2 ^ (fbits fmt - Z.log2 m)) (x - (fbits fmt - Z.log2 m)).
Proof.
  intros He Hf Hm Hx.
  assert (HP : (0 < 2 ^ fbits fmt)%Z) by (apply Z.pow_pos_nonneg; lia).
  set (L := Z.log2 m) in *.
  assert (HL : (0 <= L <= fbits fmt)%Z).
  { split; [apply Z.log2_nonneg |].
    assert (L < fbits fmt + 1)%Z; [| lia].
    apply Z.log2_lt_pow2; lia. }
  destruct (Z.log2_spec m ltac:(lia)) as [Hlo Hhi]. fold L in Hlo, Hhi.
  cbn [bits_of_number].
  destruct (Z.leb_spec m 0) as [Hle | _]; [lia |]. cbv zeta. fold L.
  rewrite Z.max_l by lia.
  destruct (Z.leb_spec (L + x - fbits fmt) x) as [_ | Hgt]; [| lia].
  replace (x - (L + x - fbits fmt))%Z with (fbits fmt - L)%Z by ring.
  set (K := (2 ^ (fbits fmt - L))%Z).
  assert (HK : (0 < K)%Z) by (apply Z.pow_pos_nonneg; lia).
  assert (HKL : (2 ^ L * K = 2 ^ fbits fmt)%Z).
  { unfold K. rewrite <- Z.pow_add_r by lia. f_equal. lia. }
  assert (HKL' : (2 ^ Z.succ L * K = 2 * 2 ^ fbits fmt)%Z).
  { rewrite Z.pow_succ_r by lia. rewrite <- HKL. ring. }
  set (P := (2 ^ fbits fmt)%Z) in *.
  assert (Hq : (P <= m * K < 2 * P)%Z) by nia.
  set (ex := (L + x - fbits fmt - emin fmt + 1)%Z).
  assert (Hex : (1 <= ex < 2 ^ ebits fmt - 1)%Z) by (unfold ex; lia).
  replace ((L + x - fbits fmt - emin fmt) * P + m * K)%Z
    with (ex * P + (m * K - P))%Z by (unfold ex; ring).
  unfold infinity. fold P.
  rewrite Z.min_l by nia.
  rewrite number_of_bits_fields by (fold P; lia).
  destruct (Z.eqb_spec ex (2 ^ ebits fmt - 1)) as [H | _]; [lia |].
  destruct (Z.eqb_spec ex 0) as [H | _]; [lia |].
  fold P. f_equal; [ring | unfold ex; ring].
Qed.

(** An integer of at most [fbits + 1] bits keeps its value in the
    format. *)
Lemma rounded_integer (fmt : Format) (z : Z) :
  (1 < ebits fmt)%Z -> (0 < fbits fmt)%Z -> (fbits fmt < 2 ^ (ebits fmt - 1))%Z ->
  (Z.abs z < 2 ^ (fbits fmt + 1))%Z ->
  rounded fmt (VNum z) = Ok (VNum z).
Proof.
  intros He Hf Hwide Hz. unfold rounded. cbn [to_number obind]. f_equal.
  assert (HQ : (2 ^ ebits fmt = 2 * 2 ^ (ebits fmt - 1))%Z).
  { rewrite <- Z.pow_succ_r by lia. f_equal. lia. }
  assert (HP : (0 < 2 ^ fbits fmt)%Z) by (apply Z.pow_pos_nonneg; lia).
  destruct (Z.eq_dec z 0) as [-> | Hz0].
  - cbn [bits_of_number Z.abs Z.ltb Z.compare Z.leb].
    pose proof (number_of_bits_fields fmt false 0 0 ltac:(lia) Hf ltac:(lia) ltac:(lia)) as H.
    cbn [Z.mul Z.add] in H. cbn [Z.add]. rewrite H.
    destruct (Z.eqb_spec 0 (2 ^ ebits fmt - 1)) as [H' | _]; [lia |].
    reflexivity.
  - set (m := Z.abs z) in *. assert (Hm : (0 < m)%Z) by (unfold m; lia).
    set (L := Z.log2 m).
    assert (HL : (0 <= L <= fbits fmt)%Z).
    { split; [apply Z.log2_nonneg |].
      assert (L < fbits fmt + 1)%Z; [| lia].
      apply Z.log2_lt_pow2; [exact Hm | exact Hz]. }
    destruct (Z.log2_spec m Hm) as [Hlo Hhi]. fold L in Hlo, Hhi.
    cbn [bits_of_number].
    destruct (Z.leb_spec m 0) as [Hle | _]; [lia |]. cbv zeta. fold L.
    assert (Hunit : Z.max (L + 0 - fbits fmt) (emin fmt) = (L - fbits fmt)%Z).
    { unfold emin. lia. }
    rewrite Hunit.
    destruct (Z.leb_spec (L - fbits fmt) 0) as [_ | Hgt]; [| lia].
    replace (0 - (L - fbits fmt))%Z with (fbits fmt - L)%Z by ring.
    set (K := (2 ^ (fbits fmt - L))%Z).
    assert (HK : (0 < K)%Z) by (apply Z.pow_pos_nonneg; lia).
    assert (HKL : (2 ^ L * K = 2 ^ fbits fmt)%Z).
    { unfold K. rewrite <- Z.pow_add_r by lia. f_equal. lia. }
    assert (HKL' : (2 ^ Z.succ L * K = 2 * 2 ^ fbits fmt)%Z).
    { rewrite Z.pow_succ_r by lia. rewrite <- HKL. ring. }
    set (P := (2 ^ fbits fmt)%Z) in *.
    assert (Hq : (P <= m * K < 2 * P)%Z) by nia.
    set (ex := (L - fbits fmt - emin fmt + 1)%Z).
    assert (Hex : (1 <= ex < 2 ^ ebits fmt - 1)%Z) by (unfold ex, emin; lia).
    replace ((L - fbits fmt - emin fmt) * P + m * K)%Z
      with (ex * P + (m * K - P))%Z by (unfold ex; ring).
    unfold infinity. fold P.
    rewrite Z.min_l by nia.
    rewrite number_of_bits_fields by (fold P; lia).
    destruct (Z.eqb_spec ex (2 ^ ebits fmt - 1)) as [H | _]; [lia |].
    destruct (Z.eqb_spec ex 0) as [H | _]; [lia |].
    fold P.
    replace (P + (m * K - P))%Z with (m * K)%Z by ring.
    replace (ex - 1 + emin fmt)%Z with (L - fbits fmt)%Z by (unfold ex; ring).
    cbn [of_number].
    destruct (Z.eqb_spec (m * K) 0) as [H | _]; [lia |].
    assert (Hsign : (if (z <? 0)%Z then (- m)%Z else m) = z).
    { unfold m. destruct (Z.ltb_spec z 0); lia. }
    destruct (Z.leb_spec 0 (L - fbits fmt)) as [Hge | Hlt].
    + assert (HLf : L = fbits fmt) by lia.
      assert (HK1 : K = 1%Z) by (unfold K; rewrite HLf, Z.sub_diag; reflexivity).
      rewrite HLf, Z.sub_diag, Z.pow_0_r, HK1, !Z.mul_1_r. f_equal. exact Hsign.
    + replace (- (L - fbits fmt))%Z with (fbits fmt - L)%Z by ring. fold K.
      rewrite Z.mod_mul by lia. cbn [Z.eqb].
      rewrite Z.div_mul by lia. f_equal. exact Hsign.
Qed.

(** A number of the range of [binary64] keeps its bits, in any format,
    when it is written as a value and read again. *)
Lemma embedded_bits (fmt : Format) (negative : bool) (m x : Z) :
  (0 < m < 2 ^ 53)%Z -> (-1074 <= Z.log2 m + x - 52 < 972)%Z ->
  bits_of_number fmt (number_of_bits binary64 (bits_of_number binary64 (Finite negative m x)))
  = bits_of_number fmt (Finite negative m x).
Proof.
  intros Hm Hx.
  rewrite (number_of_bits_of_number binary64) by (cbn; lia).
  apply bits_of_number_scale; [lia |].
  assert (Z.log2 m < 53)%Z by (apply Z.log2_lt_pow2; lia).
  change (fbits binary64) with 52%Z. lia.
Qed.

Lemma to_number_of_number (x : Number) : exists x', to_number (of_number x) = Ok x'.
Proof.
  destruct x as [| negative | negative m e]; cbn [of_number];
    repeat match goal with
           | |- context [if ?c then _ else _] => destruct c
           end;
    eexists; reflexivity.
Qed.

(** Reading a number back from the value it makes gives a number of the
    same bits, when that holds for the values that are given by their 64
    bits. *)
Lemma bits_of_written_number (fmt : Format) (x x' : Number) :
  match x with Finite _ m _ => (0 <= m)%Z | _ => True end ->
  bits_of_number fmt (number_of_bits binary64 (bits_of_number binary64 x))
  = bits_of_number fmt x ->
  to_number (of_number x) = Ok x' ->
  bits_of_number fmt x' = bits_of_number fmt x.
Proof.
  intros Hm H64 Hx.
  destruct x as [| negative | negative m e].
  - cbn [of_number to_number] in Hx. injection Hx as <-. exact H64.
  - cbn [of_number to_number] in Hx. injection Hx as <-. exact H64.
  - cbn [of_number] in Hx.
    destruct (Z.eqb_spec m 0) as [-> | Hm0].
    + destruct negative.
      * vm_compute in Hx. injection Hx as <-. reflexivity.
      * cbn in Hx. injection Hx as <-. reflexivity.
    + assert (Hpos : (0 < m)%Z) by lia.
      destruct (Z.leb_spec 0 e) as [He | He].
      * assert (Hn : (0 < m * 2 ^ e)%Z).
        { apply Z.mul_pos_pos; [lia | apply Z.pow_pos_nonneg; lia]. }
        assert (Hx' : x' = Finite negative (m * 2 ^ e) (e - e)).
        { rewrite Z.sub_diag. destruct negative; cbn [to_number] in Hx;
            injection Hx as <-; f_equal.
          - apply Z.ltb_lt. lia.
          - lia.
          - apply Z.ltb_ge. lia.
          - lia. }
        rewrite Hx'. apply bits_of_number_scale; lia.
      * destruct (Z.eqb_spec (m mod 2 ^ (- e)) 0) as [Hdiv | Hdiv].
        -- set (k := (- e)%Z) in *.
           assert (HK : (0 < 2 ^ k)%Z) by (apply Z.pow_pos_nonneg; lia).
           set (q := (m / 2 ^ k)%Z) in *.
           assert (Hmq : m = (q * 2 ^ k)%Z).
           { unfold q. pose proof (Z.div_mod m (2 ^ k) ltac:(lia)). lia. }
           assert (Hq : (0 < q)%Z) by nia.
           assert (Hx' : x' = Finite negative q (e - - k)).
           { replace (e - - k)%Z with 0%Z by (unfold k; ring).
             destruct negative; cbn [to_number] in Hx; injection Hx as <-; f_equal.
             - apply Z.ltb_lt. lia.
             - lia.
             - apply Z.ltb_ge. lia.
             - lia. }
           rewrite Hx'.
           rewrite <- (bits_of_number_scale fmt negative q (e - - k) k) by lia.
           f_equal. f_equal; [symmetry; exact Hmq | unfold k; ring].
        -- cbn [to_number] in Hx. injection Hx as <-. exact H64.
Qed.

(** The numbers that bits of a format stand for: a significand of at
    most [fbits + 1] bits at an exponent of the format. *)
Lemma number_of_bits_shape (fmt : Format) (b : Z) :
  (1 < ebits fmt)%Z -> (0 < fbits fmt)%Z ->
  (0 <= b < 2 * sign_mask fmt)%Z ->
  match number_of_bits fmt b with
  | Finite _ m x =>
      (0 <= m < 2 ^ (fbits fmt + 1))%Z /\
      (emin fmt <= x <= emin fmt + 2 ^ ebits fmt - 3)%Z
  | _ => True
  end.
Proof.
  intros He Hf Hb.
  destruct (bits_fields fmt b ltac:(lia) Hf Hb) as [negative [ex [f [Hex [Hfr ->]]]]].
  rewrite number_of_bits_fields by (assumption || lia).
  assert (HQ : (4 <= 2 ^ ebits fmt)%Z).
  { change 4%Z with (2 ^ 2)%Z. apply Z.pow_le_mono_r; lia. }
  assert (HP : (2 ^ (fbits fmt + 1) = 2 * 2 ^ fbits fmt)%Z).
  { rewrite <- Z.pow_succ_r by lia. f_equal. }
  destruct (Z.eqb_spec ex (2 ^ ebits fmt - 1)) as [_ | Hne].
  - destruct (f =? 0)%Z; exact I.
  - destruct (Z.eqb_spec ex 0) as [_ | Hne0]; lia.
Qed.

(** A number of a format, as a value, comes back unchanged from being
    stored in the format, when writing it as a value keeps its bits. *)
Lemma written_number_exact (fmt : Format) (b : Z) :
  (1 < ebits fmt)%Z -> (0 < fbits fmt)%Z ->
  (0 <= b < 2 * sign_mask fmt)%Z ->
  number_of_bits fmt (quiet_nan fmt) = NaN ->
  bits_of_number fmt
    (number_of_bits binary64 (bits_of_number binary64 (number_of_bits fmt b)))
  = bits_of_number fmt (number_of_bits fmt b) ->
  exact_in fmt (of_number (number_of_bits fmt b)).
Proof.
  intros He Hf Hb Hnan H64. unfold exact_in, rounded.
  destruct (to_number_of_number (number_of_bits fmt b)) as [x' Hx'].
  rewrite Hx'. cbn [obind]. f_equal. f_equal.
  assert (Hm : match number_of_bits fmt b with
               | Finite _ m _ => (0 <= m)%Z
               | _ => True
               end).
  { pose proof (number_of_bits_shape fmt b He Hf Hb) as Hs.
    destruct (number_of_bits fmt b); [exact I | exact I | apply Hs]. }
  rewrite (bits_of_written_number fmt _ x' Hm H64 Hx').
  rewrite bits_of_number_of_bits by assumption.
  destruct (number_of_bits fmt b) as [| negative | negative m x] eqn:Hn; cbn [is_nan];
    [exact Hnan | exact Hn | exact Hn].
Qed.

(** Every number of JavaScript, a number of [binary64], is encoded and
    decoded back by [float64]; and every number of [binary32] by
    [float32]. *)
Lemma numbers_of_binary64_exact (b : Z) :
  (0 <= b < 2 ^ 64)%Z -> exact_in binary64 (of_number (number_of_bits binary64 b)).
Proof.
  intros Hb.
  apply written_number_exact; [cbn; lia | cbn; lia | exact Hb | reflexivity |].
  pose proof (bits_of_number_of_bits binary64 b ltac:(cbn; lia) ltac:(cbn; lia) Hb) as Hbb.
  destruct (number_of_bits binary64 b) as [| negative | negative m x] eqn:Hn;
    cbn [is_nan] in Hbb.
  - reflexivity.
  - rewrite Hbb, Hn. exact Hbb.
  - rewrite Hbb, Hn. exact Hbb.
Qed.

Lemma numbers_of_binary32_exact (b : Z) :
  (0 <= b < 2 ^ 32)%Z -> exact_in binary32 (of_number (number_of_bits binary32 b)).
Proof.
  intros Hb.
  apply written_number_exact; [cbn; lia | cbn; lia | exact Hb | reflexivity |].
  pose proof (number_of_bits_shape binary32 b ltac:(cbn; lia) ltac:(cbn; lia) Hb) as Hs.
  destruct (number_of_bits binary32 b) as [| negative | negative m x].
  - reflexivity.
  - destruct negative; reflexivity.
  - destruct Hs as [Hm Hx]. change (emin binary32) with (-149)%Z in Hx.
    change (2 ^ (fbits binary32 + 1))%Z with 16777216%Z in Hm.
    change (2 ^ ebits binary32)%Z with 256%Z in Hx.
    destruct (Z.eq_dec m 0) as [-> | Hm0].
    + destruct negative; reflexivity.
    + assert (HL : (0 <= Z.log2 m < 24)%Z).
      { split; [apply Z.log2_nonneg | apply Z.log2_lt_pow2; lia]. }
      apply embedded_bits; lia.
Qed.

(** So the values that a format holds exactly are the numbers of the
    format. *)
Lemma exact_in_binary64 (v : Value) :
  exact_in binary64 v <->
  exists b, (0 <= b < 2 ^ 64)%Z /\ v = of_number (number_of_bits binary64 b).
Proof.
  split.
  - unfold exact_in, rounded. destruct (to_number v) as [x |]; [| discriminate].
    cbn [obind]. intros H. injection H as H.
    exists (bits_of_number binary64 x). split; [| symmetry; exact H].
    apply (bits_of_number_range binary64 x); reflexivity.
  - intros [b [Hb ->]]. apply numbers_of_binary64_exact, Hb.
Qed.

Lemma exact_in_binary32 (v : Value) :
  exact_in binary32 v <->
  exists b, (0 <= b < 2 ^ 32)%Z /\ v = of_number (number_of_bits binary32 b).
Proof.
  split.
  - unfold exact_in, rounded. destruct (to_number v) as [x |]; [| discriminate].
    cbn [obind]. intros H. injection H as H.
    exists (bits_of_number binary32 x). split; [| symmetry; exact H].
    apply (bits_of_number_range binary32 x); reflexivity.
  - intros [b [Hb ->]]. apply numbers_of_binary32_exact, Hb.
Qed.

(** The integers that JavaScript calls safe are numbers of [binary64],
    and the ones below [2^24] numbers of [binary32]. *)
Lemma safe_integers_exact (z : Z) :
  (Z.abs z < 2 ^ 53)%Z -> exact_in binary64 (VNum z).
Proof. intros Hz. apply (rounded_integer binary64); cbn; lia. Qed.

Lemma small_integers_exact (z : Z) :
  (Z.abs z < 2 ^ 24)%Z -> exact_in binary32 (VNum z).
Proof. intros Hz. apply (rounded_integer binary32); cbn; lia. Qed.

(** A number that is no integer, given by its 64 bits, is a number of
    [binary64]: so is the negative zero, each infinity, and NaN. *)
Lemma floats_exact (b : Z) :
  (0 <= b < 2 ^ 64)%Z ->
  of_number (number_of_bits binary64 b) = VFloat b ->
  exact_in binary64 (VFloat b).
Proof.
  intros Hb Hcanon. unfold exact_in, rounded. cbn [to_number obind]. f_equal.
  rewrite bits_of_number_of_bits by (cbn; lia).
  destruct (number_of_bits binary64 b) as [| negative | negative m x] eqn:Hn;
    cbn [is_nan]; [| rewrite Hn; exact Hcanon | rewrite Hn; exact Hcanon].
  cbn [of_number bits_of_number] in Hcanon. injection Hcanon as <-. reflexivity.
Qed.

(** The unsigned codecs the other codecs use for flags, counts and
    lengths. *)

Lemma e_Uint8 (x : Z) (bufs : list bytes) (len : nat) :
  e Uint8 (VNum x) (GrowableWriter bufs len)
  = (Ok tt, GrowableWriter (bufs ++ [int_bytes 1 false x]) (len + 1)).
Proof. reflexivity. Qed.

Lemma e_Uint16 (x : Z) (bufs : list bytes) (len : nat) :
  e Uint16 (VNum x) (GrowableWriter bufs len)
  = (Ok tt, GrowableWriter (bufs ++ [int_bytes 2 false x]) (len + 2)).
Proof. reflexivity. Qed.

Lemma e_Uint32 (x : Z) (bufs : list bytes) (len : nat) :
  e Uint32 (VNum x) (GrowableWriter bufs len)
  = (Ok tt, GrowableWriter (bufs ++ [int_bytes 4 false x]) (len + 4)).
Proof. reflexivity. Qed.

Lemma d_num_ok (c : Codec) (r r' : Reader) (x : Z) :
  d c r = (Ok (VNum x), r') -> d_num c r = (Ok x, r').
Proof. intros H. unfold d_num. rewrite (bind_ok _ _ _ _ _ H). reflexivity. Qed.

Lemma d_num_uint (n : nat) (en : Endian) (r : Reader) (bs : bytes) :
  holds r bs -> length bs = n ->
  d_num (numCodec n (getUint n) (setInt n) en) r
  = (Ok (uint_value (is_le en) bs), advance r n).
Proof.
  intros H Hn. apply d_num_ok. simpl d.
  rewrite <- Hn. apply read_holds; [exact H |].
  apply (getUint_holds (length bs) r bs _ H eq_refl).
Qed.

Lemma d_num_Uint8 (r : Reader) (bs : bytes) :
  holds r bs -> length bs = 1 ->
  d_num Uint8 r = (Ok (uint_value false bs), advance r 1).
Proof.
  intros H Hn. apply d_num_ok. simpl d.
  rewrite <- Hn. apply read_holds; [exact H |].
  apply (getUint_holds (length bs) r bs _ H eq_refl).
Qed.

Lemma d_num_Uint16 (r : Reader) (bs : bytes) :
  holds r bs -> length bs = 2 ->
  d_num Uint16 r = (Ok (uint_value false bs), advance r 2).
Proof. apply (d_num_uint 2 be). Qed.

Lemma d_num_Uint32 (r : Reader) (bs : bytes) :
  holds r bs -> length bs = 4 ->
  d_num Uint32 r = (Ok (uint_value false bs), advance r 4).
Proof. apply (d_num_uint 4 be). Qed.

Lemma uint_value_range (le_ : bool) (bs : bytes) :
  (0 <= uint_value le_ bs < 256 ^ Z.of_nat (length bs))%Z.
Proof.
  assert (Hle : forall l, (0 <= le_value l < 256 ^ Z.of_nat (length l))%Z).
  { induction l as [| b t IH]; [simpl; lia |].
    cbn [le_value length]. rewrite Nat2Z.inj_succ, Z.pow_succ_r by lia.
    pose proof (Z_of_byte_range b). lia. }
  unfold uint_value. destruct le_; [apply Hle |].
  rewrite <- (length_rev bs). apply Hle.
Qed.

(** ** Text *)

Lemma list_byte_of_string_length (x : string) :
  length (list_byte_of_string x) = String.length x.
Proof. induction x as [| c r IH]; simpl; [| rewrite <- IH]; reflexivity. Qed.

Lemma utf8_valid_app (a b : bytes) :
  utf8_valid a = true -> utf8_valid b = true -> utf8_valid (a ++ b) = true.
Proof.
  remember (length a) as n eqn:Hn. revert a Hn.
  induction n as [n IH] using lt_wf_ind. intros a Hn Ha Hb.
  destruct a as [| b0 r0]; [exact Hb |].
  simpl in Ha |- *.
  destruct (in_range 0 127 b0).
  { apply (IH (length r0)); [subst n; simpl; lia | reflexivity | exact Ha | exact Hb]. }
  destruct r0 as [| b1 r1]; [discriminate Ha |].
  simpl in Ha |- *.
  destruct (in_range 194 223 b0).
  { apply andb_true_iff in Ha. destruct Ha as [H1 H2]. rewrite H1. simpl.
    apply (IH (length r1)); [subst n; simpl; lia | reflexivity | exact H2 | exact Hb]. }
  destruct r1 as [| b2 r2]; [discriminate Ha |].
  simpl in Ha |- *.
  destruct (in_range 224 239 b0).
  { apply andb_true_iff in Ha. destruct Ha as [H1 H2]. rewrite H1. simpl.
    apply (IH (length r2)); [subst n; simpl; lia | reflexivity | exact H2 | exact Hb]. }
  destruct r2 as [| b3 r3]; [discriminate Ha |].
  simpl in Ha |- *.
  apply andb_true_iff in Ha. destruct Ha as [H1 H2]. rewrite H1. simpl.
  apply (IH (length r3)); [subst n; simpl; lia | reflexivity | exact H2 | exact Hb].
Qed.

Lemma utf8_valid_zeros (k : nat) : utf8_valid (zeros k) = true.
Proof. induction k as [| k IH]; [reflexivity | exact IH]. Qed.

Lemma has_bom_app_zeros (a : bytes) (k : nat) :
  has_bom a = false -> has_bom (a ++ zeros k) = false.
Proof.
  intros H.
  destruct a as [| b0 [| b1 [| b2 r]]]; simpl in *.
  - destruct k as [| [| [| k]]]; reflexivity.
  - destruct k as [| [| k]]; simpl; try reflexivity.
    rewrite andb_false_r. reflexivity.
  - destruct k as [| k]; simpl; try reflexivity.
    rewrite andb_false_r. reflexivity.
  - exact H.
Qed.

Lemma string_of_list_byte_app (a b : bytes) :
  string_of_list_byte (a ++ b)
  = (string_of_list_byte a ++ string_of_list_byte b)%string.
Proof.
  unfold string_of_list_byte. rewrite map_app.
  induction (map ascii_of_byte a) as [| x r IH]; simpl; [| rewrite IH]; reflexivity.
Qed.

Lemma strip_trailing_nul_nuls (k : nat) : strip_trailing_nul (nuls k) = EmptyString.
Proof.
  induction k as [| k IH]; [reflexivity |].
  change (nuls (S k)) with (String Ascii.zero (nuls k)).
  cbn [strip_trailing_nul]. rewrite IH. reflexivity.
Qed.

Lemma strip_trailing_nul_app_nuls (x : string) (k : nat) :
  strip_trailing_nul (x ++ nuls k) = strip_trailing_nul x.
Proof.
  induction x as [| c r IH]; simpl.
  - apply strip_trailing_nul_nuls.
  - rewrite IH. reflexivity.
Qed.

Lemma nuls_S (k : nat) : nuls (S k) = String Ascii.zero (nuls k).
Proof. reflexivity. Qed.

(** What [replace(/\0+$/, '')] returns: the text is the result followed
    by NULs only, and the result does not end in NUL. *)
Lemma strip_trailing_nul_spec (y : string) :
  exists k : nat,
    y = (strip_trailing_nul y ++ nuls k)%string /\
    ends_in_nul (strip_trailing_nul y) = false.
Proof.
  induction y as [| c rest [k [Heq Hend]]].
  - exists 0. split; reflexivity.
  - cbn [strip_trailing_nul].
    destruct (strip_trailing_nul rest) as [| c' rest'] eqn:Hs.
    + destruct (Ascii.eqb_spec c Ascii.zero) as [-> | Hc].
      * exists (S k). split; [| reflexivity].
        rewrite nuls_S. simpl. f_equal. exact Heq.
      * exists k. split.
        -- simpl. f_equal. exact Heq.
        -- simpl. apply Ascii.eqb_neq. exact Hc.
    + exists k. split.
      * simpl. f_equal. exact Heq.
      * exact Hend.
Qed.

Lemma strip_trailing_nul_unpadded (x : string) :
  ends_in_nul x = false -> strip_trailing_nul x = x.
Proof.
  induction x as [| c rest IH]; intros H; [reflexivity |].
  cbn [strip_trailing_nul].
  destruct rest as [| c' rest'].
  - simpl in *. rewrite H. reflexivity.
  - rewrite IH by exact H. reflexivity.
Qed.

Lemma DEC_decode_plain (x : string) :
  plain_text x -> DEC_decode (list_byte_of_string x) = Ok x.
Proof.
  intros [Hv Hb]. unfold DEC_decode, strip_bom. rewrite Hv, Hb.
  rewrite string_of_list_byte_of_string. reflexivity.
Qed.

Lemma DEC_decode_plain_padded (x : string) (k : nat) :
  plain_text x ->
  DEC_decode (list_byte_of_string x ++ zeros k) = Ok (x ++ nuls k)%string.
Proof.
  intros [Hv Hb]. unfold DEC_decode, strip_bom.
  rewrite (utf8_valid_app _ _ Hv (utf8_valid_zeros k)).
  rewrite (has_bom_app_zeros _ k Hb).
  rewrite string_of_list_byte_app, string_of_list_byte_of_string. reflexivity.
Qed.

(** ** Length-prefixed layouts *)

Lemma prefixed_length (n : nat) (data : bytes) : length (prefixed n data) = 4 + length data.
Proof. unfold prefixed. rewrite length_app, int_bytes_length. reflexivity. Qed.

Lemma write_prefixed (data : bytes) (bufs : list bytes) (len : nat) :
  (e Uint32 (len_value (length data)) ;;; write (length data) (set_at data))
    (GrowableWriter bufs len)
  = (Ok tt, GrowableWriter (bufs ++ [int_bytes 4 false (Z.of_nat (length data)); data])
                           (len + length (prefixed (length data) data))).
Proof.
  unfold bind, len_value. rewrite e_Uint32.
  rewrite write_growable by lia.
  rewrite Nat.sub_diag. unfold zeros at 1. simpl repeat. rewrite app_nil_r.
  rewrite <- app_assoc, prefixed_length, Nat.add_assoc. reflexivity.
Qed.

Lemma concat_prefixed (n : nat) (data : bytes) :
  concat [int_bytes 4 false (Z.of_nat n); data] = prefixed n data.
Proof. simpl. rewrite app_nil_r. reflexivity. Qed.

(** Reading the count of a prefixed layout. *)
Lemma read_count {A} (n : nat) (rest : bytes) (k : Z -> M Reader A) (r : Reader) :
  (Z.of_nat n < 4294967296)%Z ->
  holds r (prefixed n rest) ->
  bind (d_num Uint32) k r = k (Z.of_nat n) (advance r 4)
  /\ holds (advance r 4) rest.
Proof.
  intros Hn H. unfold prefixed in H. split.
  - rewrite (bind_ok _ _ _ (Z.of_nat n) (advance r 4)); [reflexivity |].
    rewrite (d_num_Uint32 r (int_bytes 4 false (Z.of_nat n))).
    + rewrite (uint_roundtrip 4) by (change (256 ^ Z.of_nat 4)%Z with 4294967296%Z; lia).
      reflexivity.
    + apply (holds_app_l _ _ rest). exact H.
    + apply int_bytes_length.
  - pose proof (holds_app_r r _ _ H) as H'. rewrite int_bytes_length in H'. exact H'.
Qed.

(** Reading the one-byte flag or index [x] that starts a layout. *)
Lemma read_flag {A} (x : Z) (rest : bytes) (k : Z -> M Reader A) (r : Reader) :
  (0 <= x < 256)%Z ->
  holds r (int_bytes 1 false x ++ rest) ->
  bind (d_num Uint8) k r = k x (advance r 1)
  /\ holds (advance r 1) rest.
Proof.
  intros Hx H. split.
  - rewrite (bind_ok _ _ _ x (advance r 1)); [reflexivity |].
    rewrite (d_num_Uint8 r (int_bytes 1 false x)).
    + rewrite (uint_roundtrip 1) by (change (256 ^ Z.of_nat 1)%Z with 256%Z; lia).
      reflexivity.
    + apply (holds_app_l _ _ rest). exact H.
    + apply int_bytes_length.
  - pose proof (holds_app_r r _ _ H) as H'. rewrite int_bytes_length in H'. exact H'.
Qed.

Lemma bind_count {A} (n : nat) (rest : bytes) (k : Z -> M Reader A) (r : Reader)
    (res : outcome A * Reader) :
  (Z.of_nat n < 4294967296)%Z ->
  holds r (prefixed n rest) ->
  k (Z.of_nat n) (advance r 4) = res ->
  bind (d_num Uint32) k r = res.
Proof.
  intros Hn H <-. apply (read_count n rest k r Hn H).
Qed.

Lemma holds_after_count (n : nat) (rest : bytes) (r : Reader) :
  holds r (prefixed n rest) -> holds (advance r 4) rest.
Proof.
  intros H. unfold prefixed in H.
  pose proof (holds_app_r r _ _ H) as H'. rewrite int_bytes_length in H'. exact H'.
Qed.

Lemma bind_flag {A} (x : Z) (rest : bytes) (k : Z -> M Reader A) (r : Reader)
    (res : outcome A * Reader) :
  (0 <= x < 256)%Z ->
  holds r (int_bytes 1 false x ++ rest) ->
  k x (advance r 1) = res ->
  bind (d_num Uint8) k r = res.
Proof.
  intros Hx H <-. apply (read_flag x rest k r Hx H).
Qed.

Lemma holds_after_flag (x : Z) (rest : bytes) (r : Reader) :
  holds r (int_bytes 1 false x ++ rest) -> holds (advance r 1) rest.
Proof.
  intros H.
  pose proof (holds_app_r r _ _ H) as H'. rewrite int_bytes_length in H'. exact H'.
Qed.

(** The decoder of the dynamic strings and byte arrays on a prefixed
    layout. *)
Lemma read_prefixed {A} (fn : ReadFn A) (data : bytes) (out : A) (r : Reader) :
  (Z.of_nat (length data) < 4294967296)%Z ->
  holds r (prefixed (length data) data) ->
  (forall b o, u8_slice b o (o + length data) = data -> fn b o (o + length data) = Ok out) ->
  (n <- d_num Uint32 ;; read (Z.to_nat n) fn) r
  = (Ok out, advance r (length (prefixed (length data) data))).
Proof.
  intros Hn H Hfn.
  destruct (read_count (length data) data (fun n => read (Z.to_nat n) fn) r Hn H)
    as [-> H'].
  rewrite Nat2Z.id.
  rewrite (read_holds fn _ data out H').
  - rewrite advance_advance, prefixed_length. reflexivity.
  - apply Hfn. apply holds_slice. exact H'.
Qed.

(** ** String codecs *)

Lemma Utf8_sound sized : sound sized Utf8 any_string (text_below 4294967296).
Proof.
  intros v [x ->].
  exists (prefixed (String.length x) (list_byte_of_string x)).
  rewrite <- (list_byte_of_string_length x).
  split; [| split].
  - eexists. split; [apply concat_prefixed |].
    intros bufs len. simpl e. unfold bind at 1, lift. simpl ENC_encode.
    apply write_prefixed.
  - intros _. rewrite prefixed_length. unfold size. simpl.
    change (fixed_s Uint32) with 4. f_equal. lia.
  - intros [x' [Hx [Hp Hlen]]] r Hr. injection Hx as <-.
    exists (VStr x). split; [| constructor].
    simpl d. apply read_prefixed.
    + rewrite list_byte_of_string_length. exact Hlen.
    + exact Hr.
    + intros b o ->. rewrite (DEC_decode_plain x Hp). reflexivity.
Qed.

Lemma write_chunk (n : nat) (fn : WriteFn) (chunk : bytes) (bufs : list bytes) (len : nat) :
  fn (zeros n) 0 = Ok chunk ->
  write n fn (GrowableWriter bufs len) = (Ok tt, GrowableWriter (bufs ++ [chunk]) (len + n)).
Proof. intros H. unfold write. rewrite H. reflexivity. Qed.

Lemma writes_chunk (c : Codec) (v : Value) (bs : bytes) :
  (forall bufs len,
      e c v (GrowableWriter bufs len)
      = (Ok tt, GrowableWriter (bufs ++ [bs]) (len + length bs))) ->
  writes c v bs.
Proof. intros H. exists [bs]. split; [simpl; apply app_nil_r | exact H]. Qed.

Lemma exceeds_false (n m : nat) : exceeds n (Some m) = false -> n <= m.
Proof. simpl. intros H. apply Nat.ltb_ge in H. exact H. Qed.

Lemma padded_length (data : bytes) (n : nat) :
  length data <= n -> length (data ++ zeros (n - length data)) = n.
Proof. intros H. rewrite length_app, zeros_length. lia. Qed.

Lemma utf8_fixed_sound sized (p : Utf8Params) (fixed : nat) :
  utf8_fixed p = Some fixed ->
  sound sized (utf8 p) (string_within (Some fixed)) unpadded_text.
Proof.
  intros Hp v [x [-> Hx]]. apply exceeds_false in Hx.
  rewrite <- list_byte_of_string_length in Hx.
  set (enc := list_byte_of_string x) in *.
  exists (enc ++ zeros (fixed - length enc)).
  unfold utf8. rewrite Hp.
  split; [| split].
  - apply writes_chunk.
    intros bufs len. simpl e. rewrite padded_length by exact Hx.
    fold enc. rewrite (u8_set_zeros enc fixed Hx). reflexivity.
  - intros _. rewrite padded_length by exact Hx. reflexivity.
  - intros [x' [Hx' [Hplain Hstrip]]] r Hr. injection Hx' as <-.
    exists (VStr x). split; [| constructor].
    simpl d. rewrite padded_length in * by exact Hx.
    pose proof (padded_length enc fixed Hx) as Hlen.
    apply (read_holds_n _ r _ fixed _ Hr Hlen).
    rewrite (holds_slice_n r _ fixed Hr Hlen).
    subst enc. rewrite (DEC_decode_plain_padded x _ Hplain).
    simpl. rewrite strip_trailing_nul_app_nuls.
    rewrite (strip_trailing_nul_unpadded x Hstrip). reflexivity.
Qed.

Lemma utf8_dynamic_sound sized (p : Utf8Params) :
  utf8_fixed p = None ->
  sound sized (utf8 p) (string_within (maxBytes p)) (text_below 4294967296).
Proof.
  intros Hp v [x [-> Hx]].
  exists (prefixed (String.length x) (list_byte_of_string x)).
  rewrite <- (list_byte_of_string_length x) in *.
  unfold utf8. rewrite Hp.
  split; [| split].
  - eexists. split; [apply concat_prefixed |].
    intros bufs len. simpl e. unfold bind at 1, lift. simpl ENC_encode. cbv iota beta.
    rewrite Hx. apply write_prefixed.
  - intros _. rewrite prefixed_length. unfold size. simpl. rewrite Hx. reflexivity.
  - intros [x' [Hx' [Hplain Hlen]]] r Hr. injection Hx' as <-.
    rewrite <- list_byte_of_string_length in Hlen.
    exists (VStr x). split; [| constructor].
    pose proof (holds_after_count _ _ _ Hr) as H'.
    simpl d. eapply bind_count; [exact Hlen | exact Hr |]. cbv beta.
    rewrite Nat2Z.id, Hx.
    rewrite (read_holds _ _ _ (VStr x) H').
    + rewrite advance_advance, prefixed_length. reflexivity.
    + rewrite (holds_slice _ _ H'), (DEC_decode_plain x Hplain). reflexivity.
Qed.

(** ** Byte array codecs *)

Lemma Bytes_sound sized : sound sized Bytes any_bytes (bytes_below 4294967296).
Proof.
  intros v [b ->]. exists (prefixed (length b) b).
  split; [| split].
  - eexists. split; [apply concat_prefixed |].
    intros bufs len. simpl e. unfold bind at 1, lift. simpl as_bytes.
    apply write_prefixed.
  - intros _. rewrite prefixed_length. unfold size. simpl.
    change (fixed_s Uint32) with 4. f_equal. lia.
  - intros [b' [Hb Hlen]] r Hr. injection Hb as <-.
    exists (VBytes b). split; [| constructor].
    simpl d. apply read_prefixed; [exact Hlen | exact Hr |].
    intros b0 o Hs. unfold slice_fn. rewrite Hs. reflexivity.
Qed.

Lemma bytes_fixed_sound sized (p : BytesParams) (fixed : nat) :
  bytes_fixed p = Some fixed ->
  sound sized (bytes_ p) (bytes_within (Some fixed)) (bytes_of_length fixed).
Proof.
  intros Hp v [b [-> Hb]]. apply exceeds_false in Hb.
  exists (b ++ zeros (fixed - length b)).
  unfold bytes_. rewrite Hp.
  split; [| split].
  - apply writes_chunk.
    intros bufs len. simpl e. rewrite padded_length by exact Hb.
    rewrite (u8_set_zeros b fixed Hb). reflexivity.
  - intros _. rewrite padded_length by exact Hb. reflexivity.
  - intros [b' [Hb' Hlen]] r Hr. injection Hb' as <-.
    exists (VBytes b). split; [| constructor].
    subst fixed. rewrite Nat.sub_diag in *. unfold zeros in *. simpl repeat in *.
    rewrite app_nil_r in *. simpl d.
    apply (read_holds _ r b _ Hr).
    unfold slice_fn. rewrite (holds_slice r b Hr). reflexivity.
Qed.

Lemma bytes_dynamic_sound sized (p : BytesParams) :
  bytes_fixed p = None ->
  sound sized (bytes_ p) (bytes_within (max p)) (bytes_below 4294967296).
Proof.
  intros Hp. unfold bytes_. rewrite Hp.
  destruct (max p) as [mx |] eqn:Hmax.
  2:{ intros v [b [-> _]]. apply Bytes_sound. exists b. reflexivity. }
  intros v [b [-> Hb]]. exists (prefixed (length b) b).
  split; [| split].
  - eexists. split; [apply concat_prefixed |].
    intros bufs len. simpl e. unfold bind at 1, lift. simpl as_bytes. cbv iota beta.
    simpl in Hb. rewrite Hb. apply write_prefixed.
  - intros _. rewrite prefixed_length. unfold size. simpl. simpl in Hb. rewrite Hb.
    reflexivity.
  - intros [b' [Hb' Hlen]] r Hr. injection Hb' as <-.
    exists (VBytes b). split; [| constructor].
    pose proof (holds_after_count _ _ _ Hr) as H'.
    simpl d. eapply bind_count; [exact Hlen | exact Hr |]. cbv beta.
    rewrite Nat2Z.id. simpl in Hb. rewrite Hb.
    rewrite (read_holds _ _ _ (VBytes b) H').
    + rewrite advance_advance, prefixed_length. reflexivity.
    + unfold slice_fn. rewrite (holds_slice _ _ H'). reflexivity.
Qed.

(** ** Bool *)

Lemma Bool_sound sized : sound sized Bool any_boolean any_boolean.
Proof.
  intros v [b ->]. exists (int_bytes 1 false (if b then 1 else 0)%Z).
  split; [| split].
  - apply writes_chunk. intros bufs len. reflexivity.
  - intros _. reflexivity.
  - intros _ r Hr. exists (VBool b). split; [| constructor].
    simpl d. eapply (bind_flag (if b then 1 else 0)%Z []).
    + destruct b; lia.
    + rewrite app_nil_r. exact Hr.
    + destruct b; reflexivity.
Qed.

(** ** Sequencing *)

Lemma pushes_ret : pushes (ret tt) [].
Proof.
  exists []. split; [reflexivity |]. intros bufs len.
  unfold ret. rewrite app_nil_r. simpl. rewrite Nat.add_0_r. reflexivity.
Qed.

Lemma pushes_bind (m1 : M Writer unit) (k : unit -> M Writer unit) (bs1 bs2 : bytes) :
  pushes m1 bs1 -> pushes (k tt) bs2 -> pushes (bind m1 k) (bs1 ++ bs2).
Proof.
  intros [c1 [H1 E1]] [c2 [H2 E2]]. exists (c1 ++ c2). split.
  - rewrite concat_app, H1, H2. reflexivity.
  - intros bufs len. unfold bind. rewrite E1, E2.
    rewrite length_app, <- app_assoc, Nat.add_assoc. reflexivity.
Qed.

Lemma pushes_lift {A} (o : outcome A) (a : A) (k : A -> M Writer unit) (bs : bytes) :
  o = Ok a -> pushes (k a) bs -> pushes (bind (lift o) k) bs.
Proof.
  intros -> [c [H E]]. exists c. split; [exact H |].
  intros bufs len. unfold bind, lift. apply E.
Qed.

Lemma pushes_chunk (m : M Writer unit) (bs : bytes) :
  (forall bufs len,
      m (GrowableWriter bufs len) = (Ok tt, GrowableWriter (bufs ++ [bs]) (len + length bs))) ->
  pushes m bs.
Proof. intros H. exists [bs]. split; [simpl; apply app_nil_r | exact H]. Qed.

Lemma pushes_Uint8 (x : Z) : pushes (e Uint8 (VNum x)) (int_bytes 1 false x).
Proof. apply pushes_chunk. intros. reflexivity. Qed.

Lemma pushes_Uint16 (x : Z) : pushes (e Uint16 (VNum x)) (int_bytes 2 false x).
Proof. apply pushes_chunk. intros. reflexivity. Qed.

Lemma pushes_Uint32 (x : Z) : pushes (e Uint32 (VNum x)) (int_bytes 4 false x).
Proof. apply pushes_chunk. intros. reflexivity. Qed.

Lemma pushes_set (data : bytes) : pushes (write (length data) (set_at data)) data.
Proof.
  apply pushes_chunk. intros bufs len.
  rewrite write_growable by lia.
  rewrite Nat.sub_diag. unfold zeros. simpl repeat. rewrite app_nil_r. reflexivity.
Qed.

Lemma pushes_length (n : nat) :
  pushes (e Uint32 (len_value n)) (int_bytes 4 false (Z.of_nat n)).
Proof. apply pushes_Uint32. Qed.

(** What the library's own write steps push. *)
Create HintDb pushes.
#[local] Hint Resolve pushes_ret pushes_Uint8 pushes_Uint16 pushes_Uint32
  pushes_length pushes_set : pushes.

(** Splits a sequence of write steps and closes the steps that the hint
    database knows. *)
Ltac push_steps :=
  repeat (first [ apply pushes_bind; [solve [auto with pushes] |]
                | eapply pushes_lift; [solve [reflexivity | eassumption] |] ]);
  auto with pushes.

Lemma pushes_encode (m : M Writer unit) (bs : bytes) :
  pushes m bs ->
  match m (writer None) with
  | (Ok _, w) => flush w
  | (Throw x, _) => Throw x
  end = Ok bs.
Proof.
  intros [chunks [Hc He]]. unfold writer.
  rewrite (He [] 0). simpl. rewrite <- Hc. apply flush_growable.
Qed.

Lemma takes_ret {A} (a : A) (P : A -> Prop) : P a -> takes (ret a) [] P.
Proof.
  intros H r _. exists a. split; [| exact H].
  unfold ret. simpl. rewrite advance_0. reflexivity.
Qed.

Lemma takes_bind {A B} (m : M Reader A) (k : A -> M Reader B)
    (bs1 bs2 : bytes) (P : A -> Prop) (Q : B -> Prop) :
  takes m bs1 P -> (forall a, P a -> takes (k a) bs2 Q) ->
  takes (bind m k) (bs1 ++ bs2) Q.
Proof.
  intros H1 H2 r Hr.
  destruct (H1 r (holds_app_l _ _ _ Hr)) as [a [E1 Pa]].
  destruct (H2 a Pa _ (holds_app_r _ _ _ Hr)) as [b [E2 Qb]].
  exists b. split; [| exact Qb].
  unfold bind. rewrite E1, E2, advance_advance, length_app. reflexivity.
Qed.

Lemma takes_lift {A B} (o : outcome A) (a : A) (k : A -> M Reader B)
    (bs : bytes) (Q : B -> Prop) :
  o = Ok a -> takes (k a) bs Q -> takes (bind (lift o) k) bs Q.
Proof.
  intros -> H r Hr. destruct (H r Hr) as [b [E Qb]].
  exists b. split; [| exact Qb]. unfold bind, lift. exact E.
Qed.

Lemma takes_weaken {A} (m : M Reader A) (bs : bytes) (P Q : A -> Prop) :
  takes m bs P -> (forall a, P a -> Q a) -> takes m bs Q.
Proof.
  intros H HPQ r Hr. destruct (H r Hr) as [a [E Pa]].
  exists a. split; [exact E | apply HPQ; exact Pa].
Qed.

Lemma takes_flag (x : Z) :
  (0 <= x < 256)%Z -> takes (d_num Uint8) (int_bytes 1 false x) (eq x).
Proof.
  intros Hx r Hr. exists x. split; [| reflexivity].
  rewrite (d_num_Uint8 r _ Hr (int_bytes_length 1 false x)).
  rewrite (uint_roundtrip 1) by (change (256 ^ Z.of_nat 1)%Z with 256%Z; lia).
  rewrite int_bytes_length. reflexivity.
Qed.

Lemma takes_Uint16 (x : Z) :
  (0 <= x < 65536)%Z -> takes (d_num Uint16) (int_bytes 2 false x) (eq x).
Proof.
  intros Hx r Hr. exists x. split; [| reflexivity].
  rewrite (d_num_Uint16 r _ Hr (int_bytes_length 2 false x)).
  rewrite (uint_roundtrip 2) by (change (256 ^ Z.of_nat 2)%Z with 65536%Z; lia).
  rewrite int_bytes_length. reflexivity.
Qed.

Lemma takes_count (x : Z) :
  (0 <= x < 4294967296)%Z -> takes (d_num Uint32) (int_bytes 4 false x) (eq x).
Proof.
  intros Hx r Hr. exists x. split; [| reflexivity].
  rewrite (d_num_Uint32 r _ Hr (int_bytes_length 4 false x)).
  rewrite (uint_roundtrip 4) by (change (256 ^ Z.of_nat 4)%Z with 4294967296%Z; lia).
  rewrite int_bytes_length. reflexivity.
Qed.

Lemma takes_slice {A} (fn : ReadFn A) (data : bytes) (out : A) (P : A -> Prop) :
  (forall b o, u8_slice b o (o + length data) = data -> fn b o (o + length data) = Ok out) ->
  P out ->
  takes (read (length data) fn) data P.
Proof.
  intros Hfn HP r Hr. exists out. split; [| exact HP].
  apply read_holds; [exact Hr |]. apply Hfn. apply holds_slice. exact Hr.
Qed.

(** ** literal, optional, nullable *)

Lemma literal_sound sized (val : Value) :
  sound sized (literal val) (fun _ => True) (fun v => deep_equal val v).
Proof.
  intros v _. exists []. split; [| split].
  - apply pushes_ret.
  - intros _. reflexivity.
  - intros H. apply takes_ret. exact H.
Qed.

Lemma is_undefined_true (v : Value) : is_undefined v = true -> v = VUndefined.
Proof. destruct v; simpl; intros H; try discriminate H; reflexivity. Qed.

Lemma is_undefined_false (v : Value) : is_undefined v = false -> v <> VUndefined.
Proof. intros H ->. discriminate H. Qed.

Lemma is_null_true (v : Value) : is_null v = true -> v = VNull.
Proof. destruct v; simpl; intros H; try discriminate H; reflexivity. Qed.

Lemma is_null_false (v : Value) : is_null v = false -> v <> VNull.
Proof. intros H ->. discriminate H. Qed.

Lemma optional_sound sized (inner : Codec) (T R : dom) :
  sound sized inner T R ->
  sound sized (optional inner) (optional_of T) (optional_of R).
Proof.
  intros Hin v HT.
  destruct (is_undefined v) eqn:Hu.
  - apply is_undefined_true in Hu. subst v.
    exists (int_bytes 1 false 0). split; [| split].
    + apply pushes_Uint8.
    + intros _. reflexivity.
    + intros _. unfold reads. simpl d.
      rewrite <- (app_nil_r (int_bytes 1 false 0)).
      apply (takes_bind _ _ _ _ (eq 0%Z)); [apply takes_flag; lia |].
      intros a <-. simpl. apply takes_ret. constructor.
  - pose proof (is_undefined_false v Hu) as Hne.
    destruct HT as [-> | HT]; [congruence |].
    destruct (Hin v HT) as [bs [Hw [Hs Hr]]].
    exists (int_bytes 1 false 1 ++ bs). split; [| split].
    + unfold writes. simpl e. rewrite Hu.
      apply pushes_bind; [apply pushes_Uint8 | exact Hw].
    + intros Hsz. unfold size. simpl s. cbv beta iota. rewrite Hu, (Hs Hsz).
      rewrite length_app, int_bytes_length. reflexivity.
    + intros [-> | HR]; [congruence |].
      unfold reads. simpl d.
      apply (takes_bind _ _ _ _ (eq 1%Z)); [apply takes_flag; lia |].
      intros a <-. simpl. apply Hr. exact HR.
Qed.

Lemma nullable_sound sized (inner : Codec) (T R : dom) :
  sound sized inner T R ->
  sound sized (nullable inner) (nullable_of T) (nullable_of R).
Proof.
  intros Hin v HT.
  destruct (is_null v) eqn:Hu.
  - apply is_null_true in Hu. subst v.
    exists (int_bytes 1 false 0). split; [| split].
    + apply pushes_Uint8.
    + intros _. reflexivity.
    + intros _. unfold reads. simpl d.
      rewrite <- (app_nil_r (int_bytes 1 false 0)).
      apply (takes_bind _ _ _ _ (eq 0%Z)); [apply takes_flag; lia |].
      intros a <-. simpl. apply takes_ret. constructor.
  - pose proof (is_null_false v Hu) as Hne.
    destruct HT as [-> | HT]; [congruence |].
    destruct (Hin v HT) as [bs [Hw [Hs Hr]]].
    exists (int_bytes 1 false 1 ++ bs). split; [| split].
    + unfold writes. simpl e. rewrite Hu.
      apply pushes_bind; [apply pushes_Uint8 | exact Hw].
    + intros Hsz. unfold size. simpl s. cbv beta iota. rewrite Hu, (Hs Hsz).
      rewrite length_app, int_bytes_length. reflexivity.
    + intros [-> | HR]; [congruence |].
      unfold reads. simpl d.
      apply (takes_bind _ _ _ _ (eq 1%Z)); [apply takes_flag; lia |].
      intros a <-. simpl. apply Hr. exact HR.
Qed.

Lemma takes_map {A B} (m : M Reader A) (f : A -> B) (bs : bytes)
    (P : A -> Prop) (Q : B -> Prop) :
  takes m bs P -> (forall a, P a -> Q (f a)) ->
  takes (bind m (fun a => ret (f a))) bs Q.
Proof.
  intros H HPQ. rewrite <- (app_nil_r bs).
  apply (takes_bind _ _ _ _ P); [exact H |].
  intros a Pa. apply takes_ret. apply HPQ. exact Pa.
Qed.

(** ** array *)

Lemma each_sound sized (inner : Codec) (T R : dom) (l : list Value) :
  sound sized inner T R -> Forall T l ->
  exists bs,
    pushes (encode_each inner l) bs /\
    (sized = true -> forall acc, sum_sizes inner l acc = Ok (acc + length bs)) /\
    (Forall R l ->
     takes (decode_n inner (length l)) bs (fun out => Forall2 deep_equal out l)).
Proof.
  intros Hin. induction 1 as [| x rest Hx _ [bs' [Hw' [Hs' Hr']]]].
  - exists []. split; [apply pushes_ret | split].
    + intros _ acc. simpl. rewrite Nat.add_0_r. reflexivity.
    + intros _. apply takes_ret. constructor.
  - destruct (Hin x Hx) as [bs [Hw [Hs Hr]]].
    exists (bs ++ bs'). split; [| split].
    + simpl. apply pushes_bind; assumption.
    + intros Hsz acc. simpl. rewrite (Hs Hsz). simpl.
      rewrite (Hs' Hsz), length_app, Nat.add_assoc. reflexivity.
    + intros HR. inversion HR as [| ? ? HRx HRrest]; subst.
      simpl. apply (takes_bind _ _ _ _ (fun x' => deep_equal x' x)).
      * apply Hr. exact HRx.
      * intros x' Hx'. apply (takes_map _ _ _ (fun out => Forall2 deep_equal out rest)).
        -- apply Hr'. exact HRrest.
        -- intros out Hout. constructor; assumption.
Qed.

Lemma array_sound sized (inner : Codec) (maxLength : option nat) (T R : dom) :
  sound sized inner T R ->
  sound sized (array inner maxLength)
        (array_within maxLength T) (array_below 4294967296 R).
Proof.
  intros Hin v [l [-> [HT Hmax]]].
  destruct (each_sound sized inner T R l Hin HT) as [bs [Hw [Hs Hr]]].
  exists (prefixed (length l) bs).
  destruct maxLength as [mx |]; simpl in Hmax.
  - split; [| split].
    + unfold writes. simpl e. eapply pushes_lift; [reflexivity |].
      rewrite Hmax. apply pushes_bind; [apply pushes_Uint32 | exact Hw].
    + intros Hsz. unfold size. simpl s. cbv beta iota. simpl as_array.
      unfold obind at 1. rewrite Hmax, (Hs Hsz 0), prefixed_length. reflexivity.
    + intros [l' [Hl [HR Hlen]]]. injection Hl as <-.
      unfold reads. simpl d.
      apply (takes_bind _ _ _ _ (eq (Z.of_nat (length l)))); [apply takes_count; lia |].
      intros a <-. rewrite Nat2Z.id, Hmax.
      apply (takes_map _ _ _ (fun out => Forall2 deep_equal out l)).
      * apply Hr. exact HR.
      * intros out Hout. constructor. exact Hout.
  - split; [| split].
    + unfold writes. simpl e. eapply pushes_lift; [reflexivity |].
      apply pushes_bind; [apply pushes_Uint32 | exact Hw].
    + intros Hsz. unfold size. simpl s. cbv beta iota. simpl as_array.
      unfold obind at 1. rewrite (Hs Hsz 0), prefixed_length. reflexivity.
    + intros [l' [Hl [HR Hlen]]]. injection Hl as <-.
      unfold reads. simpl d.
      apply (takes_bind _ _ _ _ (eq (Z.of_nat (length l)))); [apply takes_count; lia |].
      intros a <-. rewrite Nat2Z.id.
      apply (takes_map _ _ _ (fun out => Forall2 deep_equal out l)).
      * apply Hr. exact HR.
      * intros out Hout. constructor. exact Hout.
Qed.

(** ** Objects *)

Lemma obj_get_In {A} (o : obj A) (k : string) :
  In k (map fst o) -> exists a, obj_get o k = Some a.
Proof.
  induction o as [| [k' a] rest IH]; simpl; [intros [] |].
  intros [-> | H].
  - rewrite String.eqb_refl. eexists. reflexivity.
  - destruct (String.eqb k k'); [eexists; reflexivity | apply IH; exact H].
Qed.

Lemma obj_get_Some_In {A} (o : obj A) (k : string) (a : A) :
  obj_get o k = Some a -> In (k, a) o.
Proof.
  induction o as [| [k' a'] rest IH]; simpl; [discriminate |].
  destruct (String.eqb_spec k k') as [-> | Hne].
  - intros H. injection H as ->. left. reflexivity.
  - intros H. right. apply IH. exact H.
Qed.

Lemma get_obj_set (o : obj Value) (k k' : string) (x : Value) :
  get (obj_set o k x) k' = if String.eqb k' k then x else get o k'.
Proof.
  unfold get. induction o as [| [k0 a0] rest IH]; simpl.
  - destruct (String.eqb k' k); reflexivity.
  - destruct (String.eqb_spec k k0) as [-> | Hne]; simpl.
    + destruct (String.eqb k' k0); reflexivity.
    + destruct (String.eqb_spec k' k0) as [-> | Hne'].
      * destruct (String.eqb_spec k0 k) as [-> | _]; [congruence | reflexivity].
      * exact IH.
Qed.

Lemma In_insert_index (n : N) (k : string) (l : list (N * string)) (x : N * string) :
  In x (insert_index n k l) <-> x = (n, k) \/ In x l.
Proof.
  induction l as [| [m k'] rest IH]; simpl.
  - split; intros [H | H]; auto; contradiction.
  - destruct (n <=? m)%N; simpl.
    + split; intros [H | H]; auto.
    + rewrite IH. split; intros H; intuition auto.
Qed.

Lemma In_index_keys (ks : list string) (n : N) (k : string) :
  In (n, k) (index_keys ks) <-> In k ks /\ array_index k = Some n.
Proof.
  induction ks as [| k0 rest IH]; simpl; [tauto |].
  destruct (array_index k0) as [m |] eqn:Hk0.
  - rewrite In_insert_index, IH. split.
    + intros [H | [H1 H2]]; [injection H as -> ->; auto | auto].
    + intros [[-> | H1] H2]; [left; congruence | auto].
  - rewrite IH. split.
    + intros [H1 H2]; auto.
    + intros [[-> | H1] H2]; [congruence | auto].
Qed.

Lemma In_own_keys {A} (o : obj A) (k : string) :
  In k (own_keys o) <-> In k (map fst o).
Proof.
  unfold own_keys. rewrite in_app_iff, in_map_iff, filter_In. split.
  - intros [[[n k'] [Hk H]] | [H _]]; [| exact H].
    simpl in Hk. subst k'. apply In_index_keys in H. apply H.
  - intros H. unfold is_name. destruct (array_index k) as [n |] eqn:Hk.
    + left. exists (n, k). split; [reflexivity |]. apply In_index_keys. auto.
    + right. auto.
Qed.

Lemma own_keys_field (shape : obj Codec) (k : string) :
  In k (own_keys shape) -> exists c, obj_get shape k = Some c.
Proof. intros H. apply obj_get_In, In_own_keys. exact H. Qed.

(** ** struct *)

Lemma undefined_of_deep_equal (x : Value) : deep_equal x VUndefined -> x = VUndefined.
Proof. intros H. inversion H. reflexivity. Qed.

Lemma get_not_own (o : obj Value) (k : string) : has_own o k = false -> get o k = VUndefined.
Proof. unfold has_own, get. destruct (obj_get o k); [discriminate | reflexivity]. Qed.

(** An assignment that does not replace the prototype sets the own
    property, as far as reading own properties tells: nothing changes
    when [undefined] is assigned to [__proto__]. *)
Lemma assign_get (res : obj Value) (key : string) (x : Value) :
  (key = "__proto__"%string -> x = VUndefined) ->
  exists res',
    assign res key x = Ok res' /\
    forall k, get res' k = if String.eqb k key then x else get res k.
Proof.
  intros Hx. unfold assign.
  destruct (String.eqb_spec key "__proto__") as [Hkey | Hkey]; cbn [andb].
  - destruct (has_own res key) eqn:Hown; cbn [negb].
    + eexists. split; [reflexivity |]. intros k. apply get_obj_set.
    + rewrite (Hx Hkey). cbn [is_object_or_null].
      exists res. split; [reflexivity |]. intros k.
      destruct (String.eqb_spec k key) as [-> | _]; [| reflexivity].
      apply get_not_own. exact Hown.
  - eexists. split; [reflexivity |]. intros k. apply get_obj_set.
Qed.

Lemma size_at_field (shape : obj Codec) (key : string) (c : Codec) (x : Value) :
  obj_get shape key = Some c -> size_at shape key x = size c x.
Proof. intros H. unfold size_at. rewrite H. reflexivity. Qed.

Lemma fields_sound sized (shape : obj Codec) (FT FR : string -> dom)
    (o : obj Value) (ks : list string) :
  (forall k c, obj_get shape k = Some c -> sound sized c (FT k) (FR k)) ->
  (forall k, In k ks -> exists c, obj_get shape k = Some c) ->
  (forall k, In k ks -> FT k (lookup o k)) ->
  exists bs,
    pushes (encode_fields shape ks (VObj o)) bs /\
    (sized = true -> forall acc, sum_fields shape ks (VObj o) acc = Ok (acc + length bs)) /\
    ((forall k, In k ks -> FR k (lookup o k)) ->
     (forall k, In k ks -> lookup o k = get o k) ->
     (In "__proto__"%string ks -> get o "__proto__" = VUndefined) ->
     forall res0,
       takes (decode_fields shape ks res0) bs
             (fun res => forall k,
                  (In k ks -> deep_equal (get res k) (get o k)) /\
                  (~ In k ks -> get res k = get res0 k))).
Proof.
  intros Hshape. induction ks as [| key rest IH]; intros Hks HT.
  - exists []. split; [apply pushes_ret | split].
    + intros _ acc. simpl. rewrite Nat.add_0_r. reflexivity.
    + intros _ _ _ res0. apply takes_ret. intros k. split; [intros [] | reflexivity].
  - destruct (Hks key (or_introl eq_refl)) as [c Hc].
    destruct (Hshape key c Hc (lookup o key) (HT key (or_introl eq_refl)))
      as [bs [Hw [Hs Hr]]].
    destruct IH as [bs' [Hw' [Hs' Hr']]].
    { intros k Hk. apply Hks. right. exact Hk. }
    { intros k Hk. apply HT. right. exact Hk. }
    exists (bs ++ bs'). split; [| split].
    + simpl. unfold field. rewrite Hc.
      eapply pushes_lift; [reflexivity |].
      eapply pushes_lift; [reflexivity |].
      apply pushes_bind; [exact Hw | exact Hw'].
    + intros Hsz acc. simpl. rewrite (size_at_field shape key c _ Hc).
      rewrite (Hs Hsz). simpl.
      rewrite (Hs' Hsz), length_app, Nat.add_assoc. reflexivity.
    + intros HR Hown Hproto res0. simpl. unfold field. rewrite Hc.
      eapply takes_lift; [reflexivity |].
      apply (takes_bind _ _ _ _ (fun x => deep_equal x (get o key))).
      * rewrite <- (Hown key (or_introl eq_refl)).
        apply Hr. apply HR. left. reflexivity.
      * intros x Hx.
        destruct (assign_get res0 key x) as [res1 [Hassign Hget]].
        { intros ->. apply undefined_of_deep_equal.
          rewrite <- (Hproto (or_introl eq_refl)). exact Hx. }
        eapply takes_lift; [exact Hassign |].
        eapply takes_weaken.
        { apply Hr'.
          - intros k Hk. apply HR. right. exact Hk.
          - intros k Hk. apply Hown. right. exact Hk.
          - intros Hk. apply Hproto. right. exact Hk. }
        intros res Hres k. simpl.
        destruct (Hres k) as [Hin Hout].
        destruct (in_dec string_dec k rest) as [Hk | Hk].
        -- split; [intros _; apply Hin; exact Hk | intros Hn; exfalso; apply Hn; auto].
        -- rewrite (Hout Hk), Hget. split.
           ++ intros [<- | Hk']; [| contradiction].
              rewrite String.eqb_refl. exact Hx.
           ++ intros Hn. destruct (String.eqb_spec k key) as [-> | _]; [| reflexivity].
              exfalso. apply Hn. left. reflexivity.
Qed.

Lemma struct_sound sized (shape : obj Codec) (FT FR : string -> dom) :
  (forall k c, obj_get shape k = Some c -> sound sized c (FT k) (FR k)) ->
  sound sized (struct shape) (struct_of shape FT) (struct_only shape FR).
Proof.
  intros Hshape v [o [-> HT]].
  destruct (fields_sound sized shape FT FR o (own_keys shape) Hshape
              (own_keys_field shape) HT) as [bs [Hw [Hs Hr]]].
  exists bs. split; [exact Hw | split].
  - intros Hsz. unfold size. simpl s. cbv beta iota.
    rewrite (Hs Hsz 0). reflexivity.
  - intros [o' [Ho [HR [Hown [Hproto Hout]]]]]. injection Ho as <-.
    unfold reads. simpl d.
    apply (takes_map _ _ _ _ _ (Hr HR Hown Hproto [])).
    intros res Hres. constructor. intros k.
    destruct (in_dec string_dec k (own_keys shape)) as [Hk | Hk].
    + apply Hres. exact Hk.
    + destruct (Hres k) as [_ Hn]. rewrite (Hn Hk), (Hout k Hk). constructor.
Qed.

(** ** tuple *)

Lemma items_sound sized (shape : list Codec) (FT FR : nat -> dom) (l : list Value) :
  forall (rest : list Codec) (xs : list Value) (i : nat),
    length xs = length rest ->
    (forall j c, nth_error rest j = Some c ->
                 nth_error shape (i + j) = Some c /\
                 sound sized c (FT (i + j)) (FR (i + j))) ->
    (forall j x, nth_error xs j = Some x ->
                 nth (i + j) l VUndefined = x /\ FT (i + j) x) ->
    exists bs,
      pushes (encode_items rest (VArr l) i) bs /\
      (sized = true -> forall acc, sum_items shape xs i acc = Ok (acc + length bs)) /\
      ((forall j x, nth_error xs j = Some x -> FR (i + j) x) ->
       takes (decode_items rest) bs (fun out => Forall2 deep_equal out xs)).
Proof.
  induction rest as [| c rest IH]; intros xs i Hlen Hshape HT.
  - destruct xs; [| discriminate Hlen].
    exists []. split; [apply pushes_ret | split].
    + intros _ acc. simpl. rewrite Nat.add_0_r. reflexivity.
    + intros _. apply takes_ret. constructor.
  - destruct xs as [| x xs]; [discriminate Hlen |].
    destruct (Hshape 0 c eq_refl) as [Hc Hsound].
    destruct (HT 0 x eq_refl) as [Hx HTx].
    rewrite Nat.add_0_r in Hc, Hsound, Hx, HTx.
    destruct (Hsound x HTx) as [bs [Hw [Hs Hr]]].
    destruct (IH xs (S i)) as [bs' [Hw' [Hs' Hr']]].
    { simpl in Hlen. lia. }
    { intros j c' Hj. rewrite Nat.add_succ_comm. apply (Hshape (S j)). exact Hj. }
    { intros j x' Hj. rewrite Nat.add_succ_comm. apply (HT (S j)). exact Hj. }
    exists (bs ++ bs'). split; [| split].
    + simpl. rewrite Hx. eapply pushes_lift; [reflexivity |].
      apply pushes_bind; [exact Hw | exact Hw'].
    + intros Hsz acc. simpl. rewrite Hc, (Hs Hsz). simpl.
      rewrite (Hs' Hsz), length_app, Nat.add_assoc. reflexivity.
    + intros HR. simpl.
      apply (takes_bind _ _ _ _ (fun x' => deep_equal x' x)).
      * apply Hr. specialize (HR 0 x eq_refl). rewrite Nat.add_0_r in HR. exact HR.
      * intros x' Hx'. apply (takes_map _ _ _ (fun out => Forall2 deep_equal out xs)).
        -- apply Hr'. intros j y Hj. rewrite Nat.add_succ_comm. apply (HR (S j)). exact Hj.
        -- intros out Hout. constructor; assumption.
Qed.

Lemma tuple_sound sized (shape : list Codec) (FT FR : nat -> dom) :
  (forall i c, nth_error shape i = Some c -> sound sized c (FT i) (FR i)) ->
  sound sized (tuple shape) (tuple_of shape FT) (tuple_of shape FR).
Proof.
  intros Hshape v [l [-> [Hlen HT]]].
  destruct (items_sound sized shape FT FR l shape l 0 Hlen) as [bs [Hw [Hs Hr]]].
  { intros j c Hj. split; [exact Hj | apply Hshape; exact Hj]. }
  { intros j x Hj. split; [apply nth_error_nth; exact Hj | apply HT; exact Hj]. }
  exists bs. split; [exact Hw | split].
  - intros Hsz. unfold size. simpl s. cbv beta iota. simpl.
    rewrite (Hs Hsz 0). reflexivity.
  - intros [l' [Hl [_ HR]]]. injection Hl as <-.
    unfold reads. simpl d.
    apply (takes_map _ _ _ (fun out => Forall2 deep_equal out l)).
    + apply Hr. intros j x Hj. apply HR. exact Hj.
    + intros out Hout. constructor. exact Hout.
Qed.

(** ** taggedUnion *)

Lemma index_of_In (name : string) (keys : list string) :
  In name keys -> exists idx, index_of name keys = Some idx.
Proof.
  induction keys as [| k rest IH]; simpl; [intros [] |].
  intros H. destruct (String.eqb_spec name k) as [-> | Hne].
  - eexists. reflexivity.
  - destruct H as [-> | H]; [congruence |].
    destruct (IH H) as [i ->]. eexists. reflexivity.
Qed.

Lemma index_of_nth (name : string) (keys : list string) (idx : nat) :
  index_of name keys = Some idx ->
  idx < length keys /\ nth idx keys EmptyString = name.
Proof.
  revert idx. induction keys as [| k rest IH]; simpl; intros idx; [discriminate |].
  destruct (String.eqb_spec name k) as [-> | Hne].
  - intros H. injection H as <-. split; [lia | reflexivity].
  - destruct (index_of name rest) as [i |]; [| discriminate].
    intros H. injection H as <-. destruct (IH i eq_refl) as [H1 H2].
    split; [lia | exact H2].
Qed.

Lemma index_in_range (idx n : nat) :
  idx < n -> ((Z.of_nat idx <? 0) || (Z.of_nat n <=? Z.of_nat idx))%Z = false.
Proof.
  intros H. apply orb_false_iff. split; [apply Z.ltb_ge | apply Z.leb_gt]; lia.
Qed.

Lemma taggedUnion_sound sized (shape : obj Codec) (FT FR : string -> dom) :
  (forall k c, obj_get shape k = Some c -> sound sized c (FT k) (FR k)) ->
  sound sized (taggedUnion shape) (tagged_of shape FT) (tagged_below shape FR).
Proof.
  intros Hshape v [name [payload [-> [Hin HT]]]].
  destruct (own_keys_field shape name Hin) as [c Hc].
  destruct (index_of_In name _ Hin) as [idx Hidx].
  destruct (Hshape name c Hc payload HT) as [bs [Hw [Hs Hr]]].
  exists (int_bytes 1 false (Z.of_nat idx) ++ bs). split; [| split].
  - unfold writes, taggedUnion. cbn [e].
    do 3 (eapply pushes_lift; [reflexivity |]). rewrite Hidx.
    apply pushes_bind; [apply pushes_Uint8 |].
    unfold field. rewrite Hc. eapply pushes_lift; [reflexivity | exact Hw].
  - intros Hsz. unfold size, taggedUnion. cbn [s]. cbn [item nth obind as_string].
    rewrite (size_at_field shape name c _ Hc). rewrite (Hs Hsz). cbn [obind].
    rewrite length_app, int_bytes_length. reflexivity.
  - intros [name' [payload' [idx' [Hv [Hidx' [Hlt HR]]]]]].
    injection Hv as <- <-. rewrite Hidx in Hidx'. injection Hidx' as <-.
    destruct (index_of_nth name _ idx Hidx) as [Hlen Hnth].
    unfold reads, taggedUnion. cbn [d].
    apply (takes_bind _ _ _ _ (eq (Z.of_nat idx))); [apply takes_flag; lia |].
    intros a <-. rewrite (index_in_range idx _ Hlen), Nat2Z.id. cbv zeta. rewrite Hnth.
    unfold field. rewrite Hc. eapply takes_lift; [reflexivity |].
    apply (takes_map _ _ _ (fun x => deep_equal x payload)).
    + apply Hr. exact HR.
    + intros x Hx. repeat constructor. exact Hx.
Qed.

(** ** discriminatedUnion *)

Lemma literals_at_length (tag : string) (candidates : list Codec) (keys : list Value) :
  literals_at tag candidates = Ok keys -> length keys = length candidates.
Proof.
  revert keys. induction candidates as [| c rest IH]; simpl; intros keys H.
  - injection H as <-. reflexivity.
  - destruct (literal_at tag c); [| discriminate H]. simpl in H.
    destruct (literals_at tag rest) as [xs |]; [| discriminate H]. simpl in H.
    injection H as <-. simpl. rewrite (IH xs eq_refl). reflexivity.
Qed.

Lemma index_of_value_lt (x : Value) (keys : list Value) (i : nat) :
  index_of_value x keys = Some i -> i < length keys.
Proof.
  revert i. induction keys as [| k rest IH]; simpl; intros i; [discriminate |].
  destruct (strict_eq k x).
  - intros H. injection H as <-. lia.
  - destruct (index_of_value x rest) as [j |]; [| discriminate].
    intros H. injection H as <-. specialize (IH j eq_refl). lia.
Qed.

Lemma discriminatedUnion_sound sized (tag : string) (candidates : list Codec)
    (c : Codec) (FT FR : nat -> dom) :
  discriminatedUnion tag candidates = Ok c ->
  (forall i cand, nth_error candidates i = Some cand -> sound sized cand (FT i) (FR i)) ->
  sound sized c (union_of tag candidates FT) (union_below tag candidates FR).
Proof.
  unfold discriminatedUnion. intros Hc Hcands v [o [keys [i [-> [Hkeys [Hi HT]]]]]].
  rewrite Hkeys in Hc. simpl in Hc. injection Hc as <-.
  pose proof (index_of_value_lt _ _ _ Hi) as Hlt.
  rewrite (literals_at_length _ _ _ Hkeys) in Hlt.
  destruct (nth_error candidates i) as [cand |] eqn:Hcand;
    [| apply nth_error_None in Hcand; lia].
  destruct (Hcands i cand Hcand _ HT) as [bs [Hw [Hs Hr]]].
  exists (int_bytes 1 false (Z.of_nat i) ++ bs). split; [| split].
  - unfold writes. cbn [e].
    eapply pushes_lift; [reflexivity |]. rewrite Hi. cbv zeta.
    apply pushes_bind; [apply pushes_Uint8 |].
    unfold candidate. rewrite Hcand. eapply pushes_lift; [reflexivity | exact Hw].
  - intros Hsz. unfold size at 1. cbn [s]. cbn [prop obind].
    rewrite Hi. cbv zeta.
    unfold candidate. rewrite Hcand. cbn [obind]. rewrite (Hs Hsz). cbn [obind].
    rewrite length_app, int_bytes_length. reflexivity.
  - intros [o' [keys' [i' [Hv [Hkeys' [Hi' [Hlt' HR]]]]]]].
    injection Hv as <-. rewrite Hkeys in Hkeys'. injection Hkeys' as <-.
    rewrite Hi in Hi'. injection Hi' as <-.
    unfold reads. cbn [d].
    apply (takes_bind _ _ _ _ (eq (Z.of_nat i))); [apply takes_flag; lia |].
    intros a <-. rewrite Nat2Z.id. unfold candidate. rewrite Hcand.
    eapply takes_lift; [reflexivity |]. apply Hr. exact HR.
Qed.

(** ** envelope *)

Lemma envelope_sound sized (inner : Codec) (T R : dom) :
  sound sized inner T R ->
  sound sized (envelope inner) T (payload_fits inner R).
Proof.
  intros Hin v HT.
  destruct (Hin v HT) as [bs [Hw [Hs Hr]]].
  pose proof (pushes_encode _ _ Hw) as Henc. fold (encode inner v) in Henc.
  exists (framed bs). split; [| split].
  - unfold writes, envelope, framed. cbn [e codec]. push_steps.
  - intros Hsz. unfold size at 1, envelope. cbn [s codec]. rewrite (Hs Hsz).
    unfold framed. rewrite !length_app, !int_bytes_length. reflexivity.
  - intros [HR Hfit]. specialize (Hfit bs Henc).
    unfold reads, envelope, framed. cbn [d codec].
    apply (takes_bind _ _ _ _ (eq HEADER)); [apply takes_count; unfold HEADER; lia |].
    intros a <-. rewrite Z.eqb_refl. cbn [negb].
    apply (takes_bind _ _ _ _ (eq VERSION)); [apply takes_Uint16; unfold VERSION; lia |].
    intros a <-. unfold VERSION. cbn [Z.eqb Pos.eqb negb].
    apply (takes_bind _ _ _ _ (eq (Z.of_nat (length bs)))); [apply takes_count; lia |].
    intros a <-. rewrite Nat2Z.id.
    rewrite <- (app_nil_r bs) at 2.
    apply (takes_bind _ _ _ _ (eq bs)).
    + apply (takes_slice _ bs bs); [| reflexivity]. intros b o ->. reflexivity.
    + intros payload <-.
      destruct (Hr HR (reader bs 0) (holds_start bs false)) as [v' [Hd He]].
      rewrite Hd. cbn [fst]. apply takes_ret. exact He.
Qed.

(** ** validate and map *)

Lemma validate_sound sized (c : Codec) (pre post : option (Value -> outcome unit))
    (T R : dom) :
  sound sized c T R ->
  sound sized (validate c pre post) (checked_by pre T) (accepted_by post R).
Proof.
  intros Hc v [Hpre HT].
  destruct (Hc v HT) as [bs [Hw [Hs Hr]]].
  exists bs. split; [| split].
  - unfold writes, validate. cbn [e].
    eapply pushes_lift; [exact Hpre | exact Hw].
  - intros Hsz. rewrite <- (Hs Hsz). reflexivity.
  - intros [HR Hpost]. unfold reads, validate. cbn [d].
    rewrite <- (app_nil_r bs).
    apply (takes_bind _ _ _ _ (fun v' => deep_equal v' v)); [apply Hr; exact HR |].
    intros out Hout. eapply takes_lift; [apply Hpost; exact Hout |].
    apply takes_ret. exact Hout.
Qed.

Lemma map_sound sized (c : Codec) (f g : Value -> outcome Value) (T R : dom) :
  sound sized c T R ->
  (sized = true -> is_fixed c) ->
  sound sized (map_ c f g) (projected f T) (inverted f g R).
Proof.
  intros Hc Hfix v [x [Hf HT]].
  destruct (Hc x HT) as [bs [Hw [Hs Hr]]].
  exists bs. split; [| split].
  - unfold writes, map_. cbn [e].
    eapply pushes_lift; [exact Hf | exact Hw].
  - intros Hsz. rewrite <- (Hs Hsz).
    destruct (Hfix Hsz) as [n Hn]. unfold size, map_. cbn [s]. rewrite Hn. reflexivity.
  - intros [x' [Hf' [HR Hg]]]. rewrite Hf in Hf'. injection Hf' as <-.
    unfold reads, map_. cbn [d].
    rewrite <- (app_nil_r bs).
    apply (takes_bind _ _ _ _ (fun x' => deep_equal x' x)); [apply Hr; exact HR |].
    intros x' Hx'. destruct (Hg x' Hx') as [v' [Hv' He]].
    rewrite Hv'. apply takes_ret. exact He.
Qed.

(** ** json *)

Lemma json_sound sized (JSON_stringify : Value -> outcome string)
    (JSON_parse : string -> outcome Value) :
  sound sized (json JSON_stringify JSON_parse)
        (stringified JSON_stringify) (parsed_back JSON_stringify JSON_parse).
Proof.
  intros v [x Hx].
  destruct (Utf8_sound sized (VStr x)) as [bs [Hw [Hs Hr]]]; [exists x; reflexivity |].
  exists bs. split; [| split].
  - unfold writes, json. cbn [e codec].
    eapply pushes_lift; [exact Hx | exact Hw].
  - intros Hsz. rewrite <- (Hs Hsz). unfold size, json. cbn [s codec].
    rewrite Hx. reflexivity.
  - intros [x' [v' [Hx' [Hplain [Hlen [Hparse He]]]]]].
    rewrite Hx in Hx'. injection Hx' as <-.
    unfold reads, json. cbn [d codec].
    rewrite <- (app_nil_r bs).
    apply (takes_bind _ _ _ _ (fun y => deep_equal y (VStr x))).
    + apply Hr. exists x. auto.
    + intros y Hy. inversion Hy; subst.
      eapply takes_lift; [reflexivity |]. rewrite Hparse. apply takes_ret. exact He.
Qed.

(** ** Every built codec is sound *)

Lemma Built_sound sized (c : Codec) (T R : dom) :
  Built sized c T R -> sound sized c T R.
Proof.
  induction 1.
  - apply uint8_sound.
  - apply int8_sound.
  - apply uint16_sound.
  - apply int16_sound.
  - apply uint32_sound.
  - apply int32_sound.
  - apply float32_sound.
  - apply float64_sound.
  - apply bigUint64_sound.
  - apply bigInt64_sound.
  - apply Bool_sound.
  - apply Utf8_sound.
  - apply utf8_fixed_sound; assumption.
  - apply utf8_dynamic_sound; assumption.
  - apply json_sound.
  - apply Bytes_sound.
  - apply bytes_fixed_sound; assumption.
  - apply bytes_dynamic_sound; assumption.
  - apply literal_sound.
  - apply optional_sound; assumption.
  - apply nullable_sound; assumption.
  - apply array_sound; assumption.
  - apply struct_sound; assumption.
  - apply tuple_sound; assumption.
  - apply taggedUnion_sound; assumption.
  - eapply discriminatedUnion_sound; eassumption.
  - apply envelope_sound; assumption.
  - apply validate_sound; assumption.
  - apply map_sound; assumption.
  - intros v HT'. destruct (IHBuilt v (H0 v HT')) as [bs [Hw [Hs Hr]]].
    exists bs. split; [exact Hw | split; [exact Hs |]].
    intros HR'. apply Hr. apply H1. exact HR'.
Qed.

(** ** partial and intersection build structs *)

Lemma obj_get_set {A} (o : obj A) (k k' : string) (a : A) :
  obj_get (obj_set o k a) k' = if String.eqb k' k then Some a else obj_get o k'.
Proof.
  induction o as [| [k0 a0] rest IH]; simpl.
  - destruct (String.eqb k' k); reflexivity.
  - destruct (String.eqb_spec k k0) as [-> | Hne]; simpl.
    + destruct (String.eqb k' k0); reflexivity.
    + destruct (String.eqb_spec k' k0) as [-> | Hne'].
      * destruct (String.eqb_spec k0 k) as [-> | _]; [congruence | reflexivity].
      * exact IH.
Qed.

Lemma fromEntries_get {A} (l : list (string * A)) (k : string) (a : A) :
  obj_get (fromEntries l) k = Some a -> In (k, a) l.
Proof.
  unfold fromEntries.
  assert (H : forall o0, obj_get (fold_left (fun o ka => obj_set o (fst ka) (snd ka)) l o0) k
                         = Some a -> In (k, a) l \/ obj_get o0 k = Some a).
  { induction l as [| [k' a'] rest IH]; intros o0 Hget; simpl in *.
    - right. exact Hget.
    - destruct (IH _ Hget) as [Hin | Hset]; [left; right; exact Hin |].
      rewrite obj_get_set in Hset.
      destruct (String.eqb_spec k k') as [-> | _].
      + injection Hset as ->. left. left. reflexivity.
      + right. exact Hset. }
  intros Hget. destruct (H [] Hget) as [Hin | Hnil]; [exact Hin | discriminate Hnil].
Qed.

Lemma entries_In {A} (o : obj A) (k : string) (a : A) :
  In (k, a) (entries o) -> obj_get o k = Some a.
Proof.
  unfold entries. rewrite in_flat_map. intros [k' [_ Hin]].
  destruct (obj_get o k') as [a' |] eqn:Hget; [| contradiction].
  destruct Hin as [Heq | []]. injection Heq as -> ->. exact Hget.
Qed.

Lemma partial_built sized (inner : Codec) (shape : obj Codec) (FT FR : string -> dom)
    (c' : Codec) :
  schema inner = Fields shape ->
  (forall k c, obj_get shape k = Some c -> Built sized c (FT k) (FR k)) ->
  partial inner = Ok c' ->
  exists shape',
    c' = struct shape' /\
    Built sized c' (struct_of shape' (fun k => optional_of (FT k)))
                   (struct_only shape' (fun k => optional_of (FR k))).
Proof.
  intros Hschema Hshape Hpartial.
  unfold partial, schema_entries in Hpartial. rewrite Hschema in Hpartial.
  cbn [obind] in Hpartial. injection Hpartial as <-.
  eexists. split; [reflexivity |].
  apply B_struct. intros k c Hget.
  apply fromEntries_get, in_map_iff in Hget.
  destruct Hget as [[k0 c0] [Heq Hin]]. cbn [fst snd] in Heq.
  assert (Hk : k0 = k) by congruence.
  assert (Hc : c = optional c0) by congruence. subst k0 c.
  apply B_optional, Hshape, entries_In. exact Hin.
Qed.

Lemma intersection_built sized (schemas : list Codec) (l : list (string * Codec))
    (FT FR : string -> dom) (c' : Codec) :
  all_entries schemas = Ok l ->
  (forall k c, In (k, c) l -> Built sized c (FT k) (FR k)) ->
  intersection schemas = Ok c' ->
  Built sized c' (struct_of (fromEntries l) FT) (struct_only (fromEntries l) FR).
Proof.
  intros Hall Hl Hint. unfold intersection in Hint. rewrite Hall in Hint.
  cbn [obind] in Hint. injection Hint as <-.
  apply B_struct. intros k c Hget. apply Hl, fromEntries_get. exact Hget.
Qed.

(** ** Round trip and size *)

(** C1, amended.  For every codec built from the primitives and the
    combinators, with [T] values it encodes and [R] the ones among them
    it decodes back, encoding a value of both and decoding the result,
    with [decode] or with [tryDecode], gives a value deep-equal to it.
    [R] holds: for an integer codec, the integers of its range; for
    [float32] and [float64], the numbers that the format holds exactly
    (for [float32], those that [Math.fround] leaves as they are); for the
    string codecs, well-formed text without byte order mark, of fewer
    than [2^32] bytes, within the configured bounds and, at fixed width,
    not ending in NUL; for [json], the values that [JSON.parse] gives
    back from such a text of [JSON.stringify]; for the byte array codecs,
    arrays of exactly the fixed width, or within the maximum and of fewer
    than [2^32] bytes; for [literal], the values deep-equal to the bound
    one; for [array], fewer than [2^32] items; for [struct], [partial]
    and [intersection], objects with no property outside the shape
    (unless it holds [undefined]), whose fields named like a property of
    [Object.prototype] are own properties, and whose field [__proto__],
    if the shape has one, holds [undefined]; for [tuple], arrays of as
    many items as codecs; for the two unions, a variant of index below
    256; for [envelope], a payload of fewer than [2^32] bytes; for
    [validate], values that both checks accept; for [map], projections
    that are inverse to each other. *)
Theorem roundtrip_of_built_codecs :
  forall (c : Codec) (T R : dom) (v : Value),
    Built false c T R -> T v -> R v ->
    exists (bs : bytes) (v1 v2 : Value),
      encode c v = Ok bs /\
      decode c bs = Ok v1 /\ deep_equal v1 v /\
      tryDecode c bs = IsOk v2 /\ deep_equal v2 v.
Proof.
  intros c T R v HB HT HR.
  destruct (Built_sound false c T R HB v HT) as [bs [Hw [_ Hr]]].
  specialize (Hr HR).
  destruct (Hr (reader bs 0) (holds_start bs false)) as [v1 [Hd1 He1]].
  destruct (Hr (checkedReader bs 0) (holds_start bs true)) as [v2 [Hd2 He2]].
  exists bs, v1, v2.
  split; [apply pushes_encode; exact Hw | split; [| split; [exact He1 | split; [| exact He2]]]].
  - unfold decode. rewrite Hd1. reflexivity.
  - unfold tryDecode. rewrite Hd2. reflexivity.
Qed.

Lemma ab_shape_built sized :
  forall k c, obj_get ab_shape k = Some c -> Built sized c (ab_T k) (ab_R k).
Proof.
  intros k c. unfold ab_shape, ab_T, ab_R. cbn [obj_get].
  destruct (String.eqb k "a").
  - intros H. assert (Hc : c = Uint8) by congruence. subst c. apply B_uint8.
  - destruct (String.eqb k "b"); [| discriminate].
    intros H. assert (Hc : c = Utf8) by congruence. subst c. apply B_Utf8.
Qed.

Lemma items_struct_built sized :
  Built sized items_struct (struct_of items_shape items_T) (struct_only items_shape items_R).
Proof.
  apply B_struct. intros k c. unfold items_shape. cbn [obj_get].
  destruct (String.eqb k "items"); [| discriminate].
  intros H.
  assert (Hc : c = array (optional ab_union) None) by congruence. subst c.
  apply B_array, B_optional, B_taggedUnion, ab_shape_built.
Qed.

Lemma plain_hi : plain_text "hi".
Proof. split; reflexivity. Qed.

Lemma items_value_T : struct_of items_shape items_T items_value.
Proof.
  eexists. split; [reflexivity |].
  intros k [<- | []]. unfold items_T, get. simpl.
  eexists. split; [reflexivity | split; [| reflexivity]].
  apply Forall_cons; [| apply Forall_cons; [| apply Forall_cons; [| apply Forall_nil]]].
  - right. exists "a"%string, (VNum 7).
    split; [reflexivity | split; [left; reflexivity |]].
    exists 7%Z. reflexivity.
  - left. reflexivity.
  - right. exists "b"%string, (VStr "hi").
    split; [reflexivity | split; [right; left; reflexivity |]].
    exists "hi"%string. reflexivity.
Qed.

Lemma items_value_R : struct_only items_shape items_R items_value.
Proof.
  eexists. split; [reflexivity | split; [| split; [| split]]].
  2: { intros k [<- | []]. reflexivity. }
  2: { intros [H | []]. discriminate H. }
  - intros k [<- | []]. unfold items_R, get. simpl.
    eexists. split; [reflexivity | split; [| simpl; lia]].
    apply Forall_cons; [| apply Forall_cons; [| apply Forall_cons; [| apply Forall_nil]]].
    + right. exists "a"%string, (VNum 7), 0.
      split; [reflexivity | split; [reflexivity | split; [lia |]]].
      exists 7%Z. split; [reflexivity | lia].
    + left. reflexivity.
    + right. exists "b"%string, (VStr "hi"), 1.
      split; [reflexivity | split; [reflexivity | split; [lia |]]].
      exists "hi"%string. split; [reflexivity | split; [apply plain_hi | simpl; lia]].
  - intros k Hk. unfold get. simpl.
    destruct (String.eqb_spec k "items") as [-> | _]; [| reflexivity].
    exfalso. apply Hk. left. reflexivity.
Qed.

Lemma roundtrip_of_built_codecs_witness :
  Built false items_struct (struct_of items_shape items_T) (struct_only items_shape items_R) /\
  struct_of items_shape items_T items_value /\
  struct_only items_shape items_R items_value /\
  exists (bs : bytes) (v1 v2 : Value),
    encode items_struct items_value = Ok bs /\
    decode items_struct bs = Ok v1 /\ deep_equal v1 items_value /\
    tryDecode items_struct bs = IsOk v2 /\ deep_equal v2 items_value.
Proof.
  split; [apply items_struct_built | split; [apply items_value_T | split; [apply items_value_R |]]].
  exact (roundtrip_of_built_codecs items_struct _ _ items_value
           (items_struct_built false) items_value_T items_value_R).
Defined.

(** The round trip of C1 fails as stated: [utf8({ fixed: 2 })] encodes
    the string ["a\0"] without error, as [61 00], and decodes those bytes
    to ["a"], which is not deep-equal to ["a\0"]. *)
Lemma roundtrip_loses_trailing_nul :
  encode two_wide (VStr a_nul) = Ok [x61; x00] /\
  decode two_wide [x61; x00] = Ok (VStr "a") /\
  ~ deep_equal (VStr "a") (VStr a_nul).
Proof.
  split; [reflexivity | split; [reflexivity |]].
  intros H. inversion H.
Qed.

(** Each condition of the round-trip domain is needed.  What is encoded
    and decoded again is not deep-equal to the value: for an integer out
    of the range of the codec; for a value of [literal] other than the
    bound one; for a tuple with more items than codecs; for an object
    with a property that the shape does not name; for an object that
    lacks a field named like a property of [Object.prototype], which is
    read from there; and for an object with an own property [__proto__],
    which the decoder, assigning to [result.__proto__], does not store. *)
Lemma roundtrip_domain_is_needed :
  (recode Uint8 (VNum 256) = Ok (VNum 0) /\
   ~ deep_equal (VNum 0) (VNum 256)) /\
  (recode (literal (VNum 1)) (VNum 2) = Ok (VNum 1) /\
   ~ deep_equal (VNum 1) (VNum 2)) /\
  (recode (tuple [Uint8]) (VArr [VNum 1; VNum 2]) = Ok (VArr [VNum 1]) /\
   ~ deep_equal (VArr [VNum 1]) (VArr [VNum 1; VNum 2])) /\
  (recode (struct [("a"%string, Uint8)]) (VObj [("a"%string, VNum 1); ("b"%string, VNum 2)])
     = Ok (VObj [("a"%string, VNum 1)]) /\
   ~ deep_equal (VObj [("a"%string, VNum 1)])
                (VObj [("a"%string, VNum 1); ("b"%string, VNum 2)])) /\
  (recode maybe_toString (VObj []) = Ok (VObj [("toString"%string, VNum 0)]) /\
   ~ deep_equal (VObj [("toString"%string, VNum 0)]) (VObj [])) /\
  (recode (struct (fromEntries [("__proto__"%string, Uint8)]))
          (VObj [("__proto__"%string, VNum 5)]) = Ok (VObj []) /\
   ~ deep_equal (VObj []) (VObj [("__proto__"%string, VNum 5)])).
Proof.
  repeat split; try reflexivity; intros H; inversion H as [| | | | | | | l1 l2 Hl | o1 o2 Ho | |];
    subst.
  - inversion Hl as [| x y l l' Hxy Hrest]; subst. inversion Hrest.
  - specialize (Ho "b"%string). inversion Ho.
  - specialize (Ho "toString"%string). inversion Ho.
  - specialize (Ho "__proto__"%string). inversion Ho.
Qed.

(** Size and encoded length agree for every codec built without [map] over
    a dynamic-size codec, on every value it encodes. *)
Lemma size_of_built_codecs :
  forall (c : Codec) (T R : dom) (v : Value),
    Built true c T R -> T v ->
    exists bs : bytes, encode c v = Ok bs /\ size c v = Ok (length bs).
Proof.
  intros c T R v HB HT.
  destruct (Built_sound true c T R HB v HT) as [bs [Hw [Hs _]]].
  exists bs. split; [apply pushes_encode; exact Hw | apply Hs; reflexivity].
Qed.

(** C2 at its failing input: [map(Utf8, (x) => x + "!", ...)] keeps the
    size descriptor of [Utf8] and applies it to the value before the
    projection, so for ["a"] it answers 5 while the encoding has 6
    bytes. *)
Theorem map_size_ignores_projection :
  size exclaimed (VStr "a") = Ok 5 /\
  encode exclaimed (VStr "a") = Ok [x00; x00; x00; x02; x61; x21] /\
  length [x00; x00; x00; x02; x61; x21] = 6.
Proof. repeat split; reflexivity. Qed.

(** ** Bytes of a number *)

Lemma byte_of_Z_of_byte (b : byte) : byte_of_Z (Z_of_byte b) = b.
Proof.
  unfold byte_of_Z, Z_of_byte.
  pose proof (Byte.to_N_bounded b) as Hb.
  rewrite Z.mod_small by lia.
  rewrite N2Z.id, Byte.of_to_N. reflexivity.
Qed.

Lemma le_bytes_le_value (l : bytes) : le_bytes (length l) (le_value l) = l.
Proof.
  induction l as [| b t IH]; [reflexivity |].
  cbn [length le_value le_bytes].
  pose proof (Z_of_byte_range b) as Hb.
  replace (Z_of_byte b + 256 * le_value t)%Z
    with (Z_of_byte b + le_value t * 256)%Z by lia.
  rewrite Z.mod_add, Z.div_add by lia.
  rewrite Z.mod_small, Z.div_small by lia. simpl.
  rewrite byte_of_Z_of_byte, IH. reflexivity.
Qed.

Lemma int_bytes_uint_value (le_ : bool) (bs : bytes) :
  int_bytes (length bs) le_ (uint_value le_ bs) = bs.
Proof.
  unfold int_bytes, uint_value. destruct le_.
  - apply le_bytes_le_value.
  - rewrite <- (length_rev bs), le_bytes_le_value. apply rev_involutive.
Qed.

Lemma uint_value_neq (n : nat) (le_ : bool) (bs : bytes) (x : Z) :
  length bs = n -> bs <> int_bytes n le_ x -> uint_value le_ bs <> x.
Proof.
  intros Hn Hne Heq. apply Hne. rewrite <- Heq, <- Hn.
  symmetry. apply int_bytes_uint_value.
Qed.

(** ** Envelope decoding *)

Lemma bind_d_num {A} (c : Codec) (k : Z -> M Reader A) (r r' : Reader) (x : Z) :
  d_num c r = (Ok x, r') -> bind (d_num c) k r = k x r'.
Proof. intros H. apply bind_ok. exact H. Qed.

(** C3.  On a reader, checked or not, whose next 4 bytes are not the
    magic header, the envelope decoder throws "Missing header" having read
    those 4 bytes only; after a correct header and 2 bytes that are not the
    supported version, it throws "unsupported version" with the version
    read, having read those 6 bytes only: in both cases the position stays
    before the payload, which starts 10 bytes in.  After a correct header
    and version and a 4-byte length [n] followed by [n] payload bytes, it
    reads the length, takes exactly those [n] bytes, and its result is the
    inner decoder's on a fresh unchecked reader over the slice of them. *)
Theorem envelope_decode_checks :
  forall (inner : Codec) (r : Reader),
    (forall hdr : bytes,
        holds r hdr -> length hdr = 4 -> hdr <> int_bytes 4 false HEADER ->
        d (envelope inner) r = (Throw (Error "Missing header"), advance r 4)) /\
    (forall ver : bytes,
        holds r (int_bytes 4 false HEADER ++ ver) -> length ver = 2 ->
        ver <> int_bytes 2 false VERSION ->
        d (envelope inner) r =
        (Throw (Error ("unsupported version " ++ decZ (uint_value false ver))%string),
         advance r 6)) /\
    (forall len4 payload : bytes,
        holds r (int_bytes 4 false HEADER ++ int_bytes 2 false VERSION ++ len4 ++ payload) ->
        length len4 = 4 ->
        uint_value false len4 = Z.of_nat (length payload) ->
        d (envelope inner) r =
        (fst (d inner (reader payload 0)), advance r (10 + length payload))).
Proof.
  intros inner r. split; [| split].
  - intros hdr Hr Hlen Hne.
    unfold envelope. cbn [d codec].
    rewrite (bind_d_num _ _ _ _ _ (d_num_Uint32 r hdr Hr Hlen)).
    pose proof (uint_value_neq 4 false hdr HEADER Hlen Hne) as Hv.
    apply Z.eqb_neq in Hv. rewrite Hv. reflexivity.
  - intros ver Hr Hlen Hne.
    unfold envelope. cbn [d codec].
    pose proof (holds_app_l _ _ _ Hr) as H1.
    pose proof (holds_app_r _ _ _ Hr) as H2. rewrite int_bytes_length in H2.
    rewrite (bind_d_num _ _ _ _ _ (d_num_Uint32 r _ H1 (int_bytes_length 4 false HEADER))).
    rewrite (uint_roundtrip 4) by (unfold HEADER; simpl; lia).
    rewrite Z.eqb_refl. cbn [negb].
    rewrite (bind_d_num _ _ _ _ _ (d_num_Uint16 _ ver H2 Hlen)).
    pose proof (uint_value_neq 2 false ver VERSION Hlen Hne) as Hv.
    apply Z.eqb_neq in Hv. unfold VERSION in Hv. rewrite Hv. cbn [negb].
    unfold throw. rewrite advance_advance. reflexivity.
  - intros len4 payload Hr Hlen Hn.
    unfold envelope. cbn [d codec].
    pose proof (holds_app_l _ _ _ Hr) as H1.
    pose proof (holds_app_r _ _ _ Hr) as H2. rewrite int_bytes_length in H2.
    pose proof (holds_app_l _ _ _ H2) as H3.
    pose proof (holds_app_r _ _ _ H2) as H4. rewrite int_bytes_length in H4.
    pose proof (holds_app_l _ _ _ H4) as H5.
    pose proof (holds_app_r _ _ _ H4) as H6. rewrite Hlen in H6.
    rewrite (bind_d_num _ _ _ _ _ (d_num_Uint32 r _ H1 (int_bytes_length 4 false HEADER))).
    rewrite (uint_roundtrip 4) by (unfold HEADER; simpl; lia).
    rewrite Z.eqb_refl. cbn [negb].
    rewrite (bind_d_num _ _ _ _ _ (d_num_Uint16 _ _ H3 (int_bytes_length 2 false VERSION))).
    rewrite (uint_roundtrip 2) by (unfold VERSION; simpl; lia).
    unfold VERSION. cbn [Z.eqb Pos.eqb negb].
    rewrite (bind_d_num _ _ _ _ _ (d_num_Uint32 _ _ H5 Hlen)).
    rewrite Hn, Nat2Z.id.
    rewrite <- (app_nil_r payload) in H6. apply holds_app_l in H6.
    rewrite (bind_ok _ _ _ payload _
               (read_holds (fun b o en => Ok (u8_slice b o en)) _ payload payload H6
                           (f_equal Ok (holds_slice _ _ H6)))).
    unfold lift. rewrite !advance_advance. reflexivity.
Qed.

Lemma envelope_decode_checks_witness :
  d framed_text (checkedReader bad_header 0)
    = (Throw (Error "Missing header"), checkedReader bad_header 4) /\
  d framed_text (reader bad_version 0)
    = (Throw (Error "unsupported version 2"), reader bad_version 6) /\
  d framed_text (reader hi_frame 0) = (Ok (VStr "hi"), reader hi_frame 16).
Proof.
  split; [| split].
  - apply (proj1 (envelope_decode_checks Utf8 (checkedReader bad_header 0))
             [x00; x00; x00; x00]).
    + exists [], [x00; x01]. split; reflexivity.
    + reflexivity.
    + discriminate.
  - apply (proj1 (proj2 (envelope_decode_checks Utf8 (reader bad_version 0)))
             [x00; x02]).
    + exists [], []. split; reflexivity.
    + reflexivity.
    + discriminate.
  - apply (proj2 (proj2 (envelope_decode_checks Utf8 (reader hi_frame 0)))
             [x00; x00; x00; x06] [x00; x00; x00; x02; x68; x69]).
    + exists [], []. split; reflexivity.
    + reflexivity.
    + reflexivity.
Defined.

(** ** Array length limit *)

(** C4, amended.  With [maxLength] set, encoding an array longer than it
    throws "array too long" and leaves the writer, fixed or growable, as
    it was; decoding at a 4-byte count that exceeds it throws
    "array len n > max" having read the count only: the position has
    moved past those 4 bytes and no element has been decoded. *)
Theorem array_maxLength_enforced :
  forall (inner : Codec) (mx : nat),
    (forall (l : list Value) (w : Writer),
        mx < length l ->
        e (array inner (Some mx)) (VArr l) w = (Throw (Error "array too long"), w)) /\
    (forall (r : Reader) (cnt : bytes),
        holds r cnt -> length cnt = 4 ->
        mx < Z.to_nat (uint_value false cnt) ->
        d (array inner (Some mx)) r =
        (Throw (Error ("array len " ++ decZ (uint_value false cnt) ++ " > " ++ dec mx)%string),
         advance r 4)).
Proof.
  intros inner mx. split.
  - intros l w Hlen. unfold array. cbn [e codec].
    unfold bind, lift. cbn [as_array].
    apply Nat.ltb_lt in Hlen. rewrite Hlen. reflexivity.
  - intros r cnt Hr Hlen Hmax. unfold array. cbn [d codec].
    rewrite (bind_d_num _ _ _ _ _ (d_num_Uint32 r cnt Hr Hlen)).
    apply Nat.ltb_lt in Hmax. rewrite Hmax. reflexivity.
Qed.

Lemma array_maxLength_enforced_witness :
  e at_most_two (VArr [VNum 1; VNum 2; VNum 3]) (writer None)
    = (Throw (Error "array too long"), writer None) /\
  d at_most_two (reader three_items 0)
    = (Throw (Error "array len 3 > 2"), reader three_items 4).
Proof.
  split.
  - apply (proj1 (array_maxLength_enforced Uint8 2)). simpl. lia.
  - apply (proj2 (array_maxLength_enforced Uint8 2) (reader three_items 0)
             [x00; x00; x00; x03]).
    + exists [], [x01; x02; x03]. split; reflexivity.
    + reflexivity.
    + simpl. lia.
Defined.

(** The claim of C4 about decoding fails as stated: the failed decode
    has consumed part of the buffer, the 4 bytes of the count. *)
Lemma array_decode_consumes_count :
  fst (d at_most_two (reader three_items 0)) = Throw (Error "array len 3 > 2") /\
  pos (snd (d at_most_two (reader three_items 0))) = 4 /\
  pos (snd (d at_most_two (reader three_items 0))) <> pos (reader three_items 0).
Proof. repeat split; try reflexivity. simpl. discriminate. Qed.

(** ** Tagged union layout *)

Lemma insert_index_length (n : N) (k : string) (l : list (N * string)) :
  length (insert_index n k l) = S (length l).
Proof.
  induction l as [| [m k'] rest IH]; simpl; [reflexivity |].
  destruct (n <=? m)%N; simpl; [| rewrite IH]; reflexivity.
Qed.

Lemma own_keys_length {A} (o : obj A) : length (own_keys o) = length o.
Proof.
  unfold own_keys. rewrite length_app, length_map, <- (length_map fst o).
  induction (map fst o) as [| k rest IH]; [reflexivity |].
  simpl. unfold is_name at 1.
  destruct (array_index k); simpl.
  - rewrite insert_index_length. simpl. rewrite IH. reflexivity.
  - rewrite Nat.add_succ_r, IH. reflexivity.
Qed.

Lemma own_keys_names {A} (o : obj A) :
  Forall (fun k => is_name k = true) (map fst o) -> own_keys o = map fst o.
Proof.
  unfold own_keys. induction (map fst o) as [| k rest IH]; [reflexivity |].
  intros H. inversion H as [| ? ? Hk Hrest]; subst.
  specialize (IH Hrest). simpl. rewrite Hk.
  unfold is_name in Hk. destruct (array_index k); [discriminate |].
  assert (Hnil : index_keys rest = []).
  { clear IH H. induction rest as [| k' rest' IH']; [reflexivity |].
    inversion Hrest as [| ? ? Hk' Hrest']; subst. simpl.
    unfold is_name in Hk'. destruct (array_index k'); [discriminate |].
    apply IH'. exact Hrest'. }
  rewrite Hnil in *. simpl in *. rewrite IH. reflexivity.
Qed.

Lemma index_of_None (name : string) (keys : list string) :
  ~ In name keys -> index_of name keys = None.
Proof.
  induction keys as [| k rest IH]; simpl; [reflexivity |].
  intros H. destruct (String.eqb_spec name k) as [-> | _].
  - exfalso. apply H. left. reflexivity.
  - rewrite IH; [reflexivity |]. intros Hin. apply H. right. exact Hin.
Qed.

Lemma int_bytes_1 (z : Z) : int_bytes 1 false z = [byte_of_Z z].
Proof.
  unfold int_bytes. simpl. f_equal.
  unfold byte_of_Z. rewrite Z.mod_mod by lia. reflexivity.
Qed.

Lemma uint_value_1 (b : byte) : uint_value false [b] = Z_of_byte b.
Proof. unfold uint_value. simpl. lia. Qed.

(** C6, amended.  [taggedUnion(shape)] encodes a pair [[name, payload]]
    as one index byte followed by the encoding of the payload with the
    codec of that variant.  The index is the position of the name in
    [Object.keys(shape)], stored modulo 256: it is the position itself in a
    union of at most 256 variants, and [Object.keys] is the declaration
    order when no variant name is an array index.  Encoding throws
    "bad tag" for a name that is no variant and leaves the writer as it
    was.  Decoding throws "bad tag index" for an index byte that is not
    below the number of variants, having read that byte only; otherwise it
    decodes the payload with the codec of the variant at that index and
    returns the pair of its name and the payload. *)
Theorem taggedUnion_layout :
  forall shape : obj Codec,
    (forall name payload c idx bs,
        index_of name (own_keys shape) = Some idx ->
        obj_get shape name = Some c ->
        writes c payload bs ->
        encode (taggedUnion shape) (VArr [VStr name; payload])
        = Ok (index_byte idx :: bs) /\
        Z_of_byte (index_byte idx) = (Z.of_nat idx mod 256)%Z /\
        (idx < 256 -> Z_of_byte (index_byte idx) = Z.of_nat idx)) /\
    (Forall (fun k => is_name k = true) (map fst shape) ->
     own_keys shape = map fst shape) /\
    (forall name payload w,
        ~ In name (map fst shape) ->
        e (taggedUnion shape) (VArr [VStr name; payload]) w
        = (Throw (Error ("bad tag " ++ name)%string), w)) /\
    (forall r b,
        holds r [b] -> length shape <= Z.to_nat (Z_of_byte b) ->
        d (taggedUnion shape) r
        = (Throw (Error ("bad tag index " ++ decZ (Z_of_byte b))%string), advance r 1)) /\
    (forall r b c,
        holds r [b] -> Z.to_nat (Z_of_byte b) < length shape ->
        obj_get shape (nth (Z.to_nat (Z_of_byte b)) (own_keys shape) EmptyString) = Some c ->
        d (taggedUnion shape) r
        = match d c (advance r 1) with
          | (Ok x, r') =>
              (Ok (VArr [VStr (nth (Z.to_nat (Z_of_byte b)) (own_keys shape) EmptyString); x]),
               r')
          | (Throw x, r') => (Throw x, r')
          end).
Proof.
  intros shape. split; [| split; [| split; [| split]]].
  - intros name payload c idx bs Hidx Hc Hw. split; [| split].
    + apply pushes_encode. change (index_byte idx :: bs) with ([index_byte idx] ++ bs).
      unfold index_byte. rewrite <- int_bytes_1.
      unfold taggedUnion. cbn [e].
      do 3 (eapply pushes_lift; [reflexivity |]). rewrite Hidx.
      apply pushes_bind; [apply pushes_Uint8 |].
      unfold field. rewrite Hc. eapply pushes_lift; [reflexivity | exact Hw].
    + apply Z_of_byte_of_Z.
    + intros Hlt. unfold index_byte. rewrite Z_of_byte_of_Z. apply Z.mod_small. lia.
  - apply own_keys_names.
  - intros name payload w Hnot.
    unfold taggedUnion. cbn [e]. unfold bind, lift. cbn [item nth as_string].
    rewrite index_of_None; [reflexivity |].
    intros Hin. apply Hnot. apply In_own_keys. exact Hin.
  - intros r b Hr Hlen.
    unfold taggedUnion. cbn [d].
    rewrite (bind_d_num _ _ _ _ _ (d_num_Uint8 r [b] Hr eq_refl)).
    rewrite uint_value_1, own_keys_length.
    pose proof (Z_of_byte_range b) as Hb.
    replace ((Z_of_byte b <? 0) || (Z.of_nat (length shape) <=? Z_of_byte b))%Z with true.
    + reflexivity.
    + symmetry. apply orb_true_iff. right. apply Z.leb_le. lia.
  - intros r b c Hr Hlen Hc.
    unfold taggedUnion. cbn [d].
    rewrite (bind_d_num _ _ _ _ _ (d_num_Uint8 r [b] Hr eq_refl)).
    rewrite uint_value_1, own_keys_length.
    pose proof (Z_of_byte_range b) as Hb.
    replace ((Z_of_byte b <? 0) || (Z.of_nat (length shape) <=? Z_of_byte b))%Z with false.
    + cbv zeta. unfold field. rewrite Hc. unfold bind, lift, ret.
      destruct (d c (advance r 1)) as [[x | x] r']; reflexivity.
    + symmetry. apply orb_false_iff. split; [apply Z.ltb_ge | apply Z.leb_gt]; lia.
Qed.

Lemma Utf8_writes (x : string) :
  writes Utf8 (VStr x) (prefixed (String.length x) (list_byte_of_string x)).
Proof.
  rewrite <- (list_byte_of_string_length x).
  eexists. split; [apply concat_prefixed |].
  intros bufs len. simpl e. unfold bind at 1, lift. simpl ENC_encode.
  apply write_prefixed.
Qed.

Lemma taggedUnion_layout_witness :
  encode ab_union (VArr [VStr "a"; VNum 7]) = Ok [x00; x07] /\
  encode ab_union (VArr [VStr "b"; VStr "hi"]) = Ok [x01; x00; x00; x00; x02; x68; x69] /\
  own_keys ab_shape = ["a"%string; "b"%string] /\
  e ab_union (VArr [VStr "c"; VNum 7]) (writer None)
    = (Throw (Error "bad tag c"), writer None) /\
  d ab_union (reader [x02; x07] 0) = (Throw (Error "bad tag index 2"), reader [x02; x07] 1) /\
  d ab_union (reader [x00; x07] 0) = (Ok (VArr [VStr "a"; VNum 7]), reader [x00; x07] 2).
Proof.
  destruct (taggedUnion_layout ab_shape) as [Henc [Hkeys [Hbad [Hrange Hdec]]]].
  split; [| split; [| split; [| split; [| split]]]].
  - apply (Henc "a"%string (VNum 7) Uint8 0 [x07]); [reflexivity | reflexivity |].
    apply (pushes_Uint8 7).
  - apply (Henc "b"%string (VStr "hi") Utf8 1 [x00; x00; x00; x02; x68; x69]);
      [reflexivity | reflexivity |].
    apply (Utf8_writes "hi").
  - apply Hkeys. repeat constructor.
  - apply Hbad. simpl. intros [H | [H | []]]; discriminate H.
  - apply (Hrange (reader [x02; x07] 0) x02).
    + exists [], [x07]. split; reflexivity.
    + simpl. lia.
  - apply (Hdec (reader [x00; x07] 0) x00 Uint8).
    + exists [], [x07]. split; reflexivity.
    + simpl. lia.
    + reflexivity.
Defined.

(** The claim of C6 about the index fails as stated.  In
    [taggedUnion({ b: Uint8, 1: Uint8 })] the variant [b] is declared
    first, at position 0, and is encoded with index 1, because
    [Object.keys] lists the array index ["1"] before it.  In a union of
    257 variants the one at position 256 is encoded with index byte 0. *)
Lemma taggedUnion_index_is_not_declared_position :
  index_of "b" (map fst b1_shape) = Some 0 /\
  encode (taggedUnion b1_shape) (VArr [VStr "b"; VNum 7]) = Ok [x01; x07] /\
  index_of "v256" (map fst many_shape) = Some 256 /\
  encode (taggedUnion many_shape) (VArr [VStr "v256"; VNum 7]) = Ok [x00; x07].
Proof. repeat split; vm_compute; reflexivity. Qed.

(** ** Fixed-width strings *)

(** C7.  At width [N], a string of at most [N] UTF-8 bytes is encoded as
    those bytes followed by zero bytes up to [N]; the decoder reads
    exactly [N] bytes, decodes them as UTF-8 (throwing on malformed input)
    and returns the text without its trailing NULs: the decoded text is
    the result followed by NULs only, and the result does not end in NUL;
    so decoding the encoding of plain text gives it back without its
    trailing NULs. *)
Theorem fixed_width_utf8 :
  forall (p : Utf8Params) (N : nat) (x : string),
    utf8_fixed p = Some N ->
    String.length x <= N ->
    encode (utf8 p) (VStr x)
    = Ok (list_byte_of_string x ++ zeros (N - String.length x)) /\
    (forall (r : Reader) (bs : bytes),
        holds r bs -> length bs = N ->
        match DEC_decode bs with
        | Ok y =>
            exists (y' : string) (k : nat),
              d (utf8 p) r = (Ok (VStr y'), advance r N) /\
              y = (y' ++ nuls k)%string /\ ends_in_nul y' = false
        | Throw er => d (utf8 p) r = (Throw er, r)
        end) /\
    (plain_text x ->
     exists (x' : string) (k : nat),
       decode (utf8 p) (list_byte_of_string x ++ zeros (N - String.length x))
       = Ok (VStr x') /\
       x = (x' ++ nuls k)%string /\ ends_in_nul x' = false).
Proof.
  intros p N x Hp Hlen.
  rewrite <- list_byte_of_string_length in *.
  assert (Hread : forall (r : Reader) (bs : bytes),
             holds r bs -> length bs = N ->
             d (utf8 p) r =
             match DEC_decode bs with
             | Ok y => (Ok (VStr (strip_trailing_nul y)), advance r N)
             | Throw er => (Throw er, r)
             end).
  { intros r bs Hr HN. unfold utf8. rewrite Hp. cbn [d codec].
    rewrite read_in_bounds by (rewrite <- HN; apply holds_bounds; exact Hr).
    rewrite (holds_slice_n r bs N Hr HN).
    destruct (DEC_decode bs); reflexivity. }
  split; [| split].
  - apply pushes_encode. unfold utf8. rewrite Hp. cbn [e codec].
    apply pushes_chunk. intros bufs len. rewrite padded_length by exact Hlen.
    unfold write. cbn [ENC_encode obind].
    rewrite (u8_set_zeros _ N Hlen). reflexivity.
  - intros r bs Hr HN. rewrite (Hread r bs Hr HN).
    destruct (DEC_decode bs) as [y | er]; [| reflexivity].
    destruct (strip_trailing_nul_spec y) as [k [Hy Hend]].
    exists (strip_trailing_nul y), k.
    split; [reflexivity | split; [exact Hy | exact Hend]].
  - intros Hplain. unfold decode, reader.
    rewrite (Hread _ _ (holds_start _ false) (padded_length _ N Hlen)).
    rewrite (DEC_decode_plain_padded x _ Hplain).
    rewrite strip_trailing_nul_app_nuls.
    destruct (strip_trailing_nul_spec x) as [k [Hx Hend]].
    exists (strip_trailing_nul x), k.
    split; [reflexivity | split; [exact Hx | exact Hend]].
Qed.

(** A text has one such decomposition only. *)
Lemma unpadded_unique (x y : string) (j k : nat) :
  (x ++ nuls j)%string = (y ++ nuls k)%string ->
  ends_in_nul x = false -> ends_in_nul y = false -> x = y.
Proof.
  intros Heq Hx Hy.
  rewrite <- (strip_trailing_nul_unpadded x Hx), <- (strip_trailing_nul_unpadded y Hy).
  rewrite <- (strip_trailing_nul_app_nuls x j), <- (strip_trailing_nul_app_nuls y k).
  rewrite Heq. reflexivity.
Qed.

Lemma fixed_width_utf8_witness :
  encode five_wide (VStr "abc") = Ok [x61; x62; x63; x00; x00] /\
  decode five_wide [x61; x62; x63; x00; x00] = Ok (VStr "abc").
Proof.
  destruct (fixed_width_utf8 {| utf8_fixed := Some 5; maxBytes := None |} 5 "abc")
    as [Henc [_ Hdec]].
  - reflexivity.
  - simpl. lia.
  - split; [exact Henc |].
    destruct Hdec as [x' [k [Hd [Hx Hend]]]]; [split; reflexivity |].
    assert (Hx' : x' = "abc"%string).
    { symmetry. apply (unpadded_unique "abc" x' 0 k); [exact Hx | reflexivity | exact Hend]. }
    rewrite Hx' in Hd. exact Hd.
Defined.

(** ** Storage *)

Lemma grows_refl (h : Store.Heap) : Store.grows h h.
Proof. exists []. symmetry. apply app_nil_r. Qed.

Lemma grows_trans (h1 h2 h3 : Store.Heap) :
  Store.grows h1 h2 -> Store.grows h2 h3 -> Store.grows h1 h3.
Proof.
  intros [e1 ->] [e2 ->]. exists (e1 ++ e2). rewrite app_assoc. reflexivity.
Qed.

Lemma grows_length (h h' : Store.Heap) : Store.grows h h' -> length h <= length h'.
Proof. intros [ext ->]. rewrite length_app. lia. Qed.

Lemma grows_nth (h h' : Store.Heap) (l : nat) :
  Store.grows h h' -> l < length h -> nth l h' [] = nth l h [].
Proof. intros [ext ->] Hl. apply app_nth1. exact Hl. Qed.

Lemma safe_ret {A} (a : A) (P : nat -> A -> Prop) :
  (forall n, P n a) -> Store.safe (ret a) P.
Proof.
  intros H n h r _ _. unfold ret. simpl.
  split; [apply grows_refl | split; [reflexivity |]].
  intros a' Ha. injection Ha as <-. apply H.
Qed.

Lemma safe_throw {A} (x : exn) (P : nat -> A -> Prop) : Store.safe (throw x) P.
Proof.
  intros n h r _ _. unfold throw. simpl.
  split; [apply grows_refl | split; [reflexivity |]]. intros a Ha. discriminate Ha.
Qed.

Lemma safe_lift {A} (o : outcome A) (P : nat -> A -> Prop) :
  (forall n a, o = Ok a -> P n a) -> Store.safe (lift o) P.
Proof.
  intros H n h r _ _. unfold lift. simpl.
  split; [apply grows_refl | split; [reflexivity |]]. intros a Ha. apply H. exact Ha.
Qed.

Lemma safe_bind {A B} (m : M Store.State A) (k : A -> M Store.State B)
    (P : nat -> A -> Prop) (Q : nat -> B -> Prop) :
  Store.safe m P ->
  (forall a, Store.safe (k a) (fun n b => P n a -> Q n b)) ->
  Store.safe (bind m k) Q.
Proof.
  intros Hm Hk n h r Hn Hplain. unfold bind.
  destruct (Hm n h r Hn Hplain) as [Hg [Hb HP]].
  destruct (m (h, r)) as [[a | x] [h1 r1]]; simpl in *.
  - destruct (Hk a n h1 r1) as [Hg' [Hb' HQ]].
    { pose proof (grows_length _ _ Hg). lia. }
    { rewrite Hb. exact Hplain. }
    split; [exact (grows_trans _ _ _ Hg Hg') | split; [exact (eq_trans Hb' Hb) |]].
    intros b Hb0. apply (HQ b Hb0). apply HP. reflexivity.
  - split; [exact Hg | split; [exact Hb |]]. intros b Hb0. discriminate Hb0.
Qed.

Lemma safe_bind_lift {A B} (o : outcome A) (k : A -> M Store.State B)
    (Q : nat -> B -> Prop) :
  (forall a, o = Ok a -> Store.safe (k a) Q) -> Store.safe (bind (lift o) k) Q.
Proof.
  intros H. destruct o as [a | x].
  - intros n h r Hn Hplain. apply (H a eq_refl n h r Hn Hplain).
  - intros n h r Hn Hplain. unfold bind, lift. simpl.
    split; [apply grows_refl | split; [reflexivity |]]. intros b Hb. discriminate Hb.
Qed.

Lemma safe_weaken {A} (m : M Store.State A) (P Q : nat -> A -> Prop) :
  Store.safe m P -> (forall n a, P n a -> Q n a) -> Store.safe m Q.
Proof.
  intros Hm HPQ n h r Hn Hplain. destruct (Hm n h r Hn Hplain) as [Hg [Hb HP]].
  split; [exact Hg | split; [exact Hb |]]. intros a Ha. apply HPQ, HP, Ha.
Qed.

Lemma safe_read {R} (size : nat) (fn : Store.SReadFn R) (P : nat -> R -> Prop) :
  (forall b o en n h,
      n <= length h -> Store.node_buffer b = false ->
      Store.grows h (snd (fn b o en h)) /\
      forall a, fst (fn b o en h) = Ok a -> P n a) ->
  Store.safe (Store.read size fn) P.
Proof.
  intros Hfn n h r Hn Hplain. unfold Store.read.
  destruct (Store.schecked r && (Store.byteLength (Store.sbuf r) <? Store.spos r + size)).
  - simpl. split; [apply grows_refl | split; [reflexivity |]].
    intros a Ha. discriminate Ha.
  - destruct (Hfn (Store.sbuf r) (Store.spos r) (Store.spos r + size) n h Hn Hplain)
      as [Hg HP].
    destruct (fn (Store.sbuf r) (Store.spos r) (Store.spos r + size) h) as [[out | x] h'];
      simpl in *.
    + split; [exact Hg | split; [reflexivity | exact HP]].
    + split; [exact Hg | split; [reflexivity |]]. intros a Ha. discriminate Ha.
Qed.

Lemma safe_on_heap {A} (m : M Store.Heap A) (P : nat -> A -> Prop) :
  (forall n h, n <= length h ->
               Store.grows h (snd (m h)) /\ forall a, fst (m h) = Ok a -> P n a) ->
  Store.safe (Store.on_heap m) P.
Proof.
  intros Hm n h r Hn _. unfold Store.on_heap. cbn [fst snd].
  destruct (Hm n h Hn) as [Hg HP].
  destruct (m h) as [res h']. cbn [fst snd] in *.
  split; [exact Hg | split; [reflexivity | exact HP]].
Qed.

Lemma fresh_scalar (v : Value) (x : Store.SValue) (n : nat) :
  Store.of_scalar v = Ok x -> Store.fresh n x.
Proof.
  destruct v; simpl; intros H; try discriminate H; injection H as <-; constructor.
Qed.

Lemma safe_numDecoder (nbytes : nat) (getter : bytes -> nat -> bool -> outcome Value)
    (endian : Endian) :
  Store.safe (Store.d (Store.numDecoder nbytes getter endian)) Store.fresh.
Proof.
  apply safe_read. intros b o en n h _ _. simpl.
  split; [apply grows_refl |].
  intros a Ha. destruct (getter (Store.contents h b) o (is_le endian)); simpl in Ha.
  - apply (fresh_scalar _ _ _ Ha).
  - discriminate Ha.
Qed.

Lemma safe_d_num (c : Store.Decoder) (P : nat -> Store.SValue -> Prop) :
  Store.safe (Store.d c) P -> Store.safe (Store.d_num c) (fun _ _ => True).
Proof.
  intros H. unfold Store.d_num. apply (safe_bind _ _ P); [exact H |].
  intros a. apply safe_lift. intros; exact I.
Qed.

(** The slice of an array that is no [Buffer] is a new array, no
    [Buffer] either. *)
Lemma slice_copies (b : Store.U8) (o en n : nat) (h : Store.Heap) :
  n <= length h -> Store.node_buffer b = false ->
  Store.grows h (snd (Store.slice b o en h)) /\
  forall a, fst (Store.slice b o en h) = Ok a ->
            n <= Store.buffer a /\ Store.node_buffer a = false.
Proof.
  intros Hn Hplain. unfold Store.slice. rewrite Hplain. cbn [fst snd].
  split; [eexists; reflexivity |].
  intros a Ha. injection Ha as <-. cbn. split; [exact Hn | reflexivity].
Qed.

Lemma safe_slice_fn (size : nat) :
  Store.safe (Store.read size Store.slice_fn) Store.fresh.
Proof.
  apply safe_read. intros b o en n h Hn Hplain.
  destruct (slice_copies b o en n h Hn Hplain) as [Hg Ha].
  unfold Store.slice_fn, bind, ret.
  destruct (Store.slice b o en h) as [[a | x] h'] eqn:Hs; cbn [fst snd] in *.
  - split; [exact Hg |]. intros v Hv. injection Hv as <-.
    destruct (Ha a eq_refl) as [Hb Hp]. constructor; assumption.
  - split; [exact Hg |]. intros v Hv. discriminate Hv.
Qed.

Lemma safe_flagged (c : Store.Decoder) (k : Z -> M Store.State Store.SValue) :
  Store.safe (Store.d c) Store.fresh ->
  (forall x, Store.safe (k x) Store.fresh) ->
  Store.safe (bind (Store.d_num c) k) Store.fresh.
Proof.
  intros Hc Hk. apply (safe_bind _ _ (fun _ _ => True)).
  - apply (safe_d_num c Store.fresh Hc).
  - intros x. eapply safe_weaken; [apply Hk |]. intros n a Ha _. exact Ha.
Qed.

Lemma safe_sliced_text (size : nat) (shift : nat -> nat -> nat) (f : string -> string) :
  Store.safe
    (Store.read size
       (fun b o en =>
          a <- Store.slice b o (shift o en) ;;
          (fun h => (obind (DEC_decode (Store.contents h a))
                           (fun x => Ok (Store.SStr (f x))), h))))
    Store.fresh.
Proof.
  apply safe_read. intros b o en n h Hn Hplain.
  destruct (slice_copies b o (shift o en) n h Hn Hplain) as [Hg _].
  unfold bind.
  destruct (Store.slice b o (shift o en) h) as [[a | x] h'] eqn:Hs; cbn [fst snd] in *.
  - split; [exact Hg |]. intros v Hv.
    destruct (DEC_decode _); simpl in Hv; [| discriminate Hv].
    injection Hv as <-. constructor.
  - split; [exact Hg |]. intros v Hv. discriminate Hv.
Qed.

Lemma safe_decode_text (size : nat) :
  Store.safe (Store.read size Store.decode_text) Store.fresh.
Proof. exact (safe_sliced_text size (fun _ en => en) (fun x => x)). Qed.

Lemma safe_decode_n (inner : Store.Decoder) (n : nat) :
  Store.safe (Store.d inner) Store.fresh ->
  Store.safe (Store.decode_n inner n) (fun m l => Forall (Store.fresh m) l).
Proof.
  intros Hin. induction n as [| k IH]; simpl.
  - apply safe_ret. intros; constructor.
  - apply (safe_bind _ _ Store.fresh); [exact Hin |]. intros x.
    apply (safe_bind _ _ (fun m l => Forall (Store.fresh m) l)); [exact IH |]. intros rest.
    apply safe_ret. intros m Hrest Hx. constructor; assumption.
Qed.

Lemma safe_decode_items (shape : list Store.Decoder) :
  (forall c, In c shape -> Store.safe (Store.d c) Store.fresh) ->
  Store.safe (Store.decode_items shape) (fun m l => Forall (Store.fresh m) l).
Proof.
  induction shape as [| c rest IH]; intros H; simpl.
  - apply safe_ret. intros; constructor.
  - apply (safe_bind _ _ Store.fresh); [apply H; left; reflexivity |]. intros x.
    apply (safe_bind _ _ (fun m l => Forall (Store.fresh m) l)).
    + apply IH. intros c' Hc'. apply H. right. exact Hc'.
    + intros xs. apply safe_ret. intros m Hxs Hx. constructor; assumption.
Qed.

Lemma Forall_obj_set {A} (P : A -> Prop) (o : obj A) (k : string) (a : A) :
  Forall (fun kv => P (snd kv)) o -> P a ->
  Forall (fun kv => P (snd kv)) (obj_set o k a).
Proof.
  intros Ho Ha. induction Ho as [| [k' a'] rest Hx Hrest IH]; simpl.
  - constructor; [exact Ha | constructor].
  - destruct (String.eqb k k'); constructor; auto.
Qed.

Lemma Forall_assign (P : Store.SValue -> Prop) (o o' : obj Store.SValue) (k : string)
    (a : Store.SValue) :
  Forall (fun kv => P (snd kv)) o -> P a -> Store.assign o k a = Ok o' ->
  Forall (fun kv => P (snd kv)) o'.
Proof.
  intros Ho Ha. unfold Store.assign.
  destruct (String.eqb k "__proto__" && negb (has_own o k)).
  - destruct (Store.is_object_or_null a); [discriminate |].
    intros H. injection H as <-. exact Ho.
  - intros H. injection H as <-. apply Forall_obj_set; assumption.
Qed.

Lemma safe_decode_fields (shape : obj Store.Decoder) (keys : list string) :
  (forall k c, obj_get shape k = Some c -> Store.safe (Store.d c) Store.fresh) ->
  forall result,
    Store.safe (Store.decode_fields shape keys result)
      (fun m res => Forall (fun kv => Store.fresh m (snd kv)) result ->
                    Forall (fun kv => Store.fresh m (snd kv)) res).
Proof.
  intros Hshape. induction keys as [| key rest IH]; intros result; simpl.
  - apply safe_ret. intros m H. exact H.
  - apply safe_bind_lift. intros c Hc. unfold Store.field in Hc.
    destruct (obj_get shape key) as [c' |] eqn:Hget; [| discriminate Hc].
    injection Hc as ->.
    apply (safe_bind _ _ Store.fresh); [apply (Hshape key c Hget) |]. intros x.
    apply safe_bind_lift. intros result' Hassign.
    eapply safe_weaken; [apply IH |].
    intros m res H Hx Hresult. apply H.
    apply (Forall_assign _ _ _ _ _ Hresult Hx Hassign).
Qed.

Lemma safe_struct (shape : obj Store.Decoder) :
  (forall k c, obj_get shape k = Some c -> Store.safe (Store.d c) Store.fresh) ->
  Store.safe (Store.d (Store.struct shape)) Store.fresh.
Proof.
  intros H. simpl.
  apply (safe_bind _ _ (fun m res => Forall (fun kv => Store.fresh m (snd kv)) res)).
  - eapply safe_weaken; [apply safe_decode_fields; assumption |].
    intros m res Hres. apply Hres. constructor.
  - intros res. apply safe_ret. intros m Hres. constructor. exact Hres.
Qed.

Lemma safe_payload (inner : Store.Decoder) (size : nat) :
  Store.safe (Store.d inner) Store.fresh ->
  Store.safe
    (payload <- Store.read size Store.slice ;;
     (fun st =>
        match Store.d inner (fst st, Store.reader payload 0) with
        | (res, (h', _)) => (res, (h', snd st))
        end))
    Store.fresh.
Proof.
  intros Hin n h r Hn Hplain. unfold bind, Store.read.
  destruct (Store.schecked r && (Store.byteLength (Store.sbuf r) <? Store.spos r + size)).
  - cbn [fst snd]. split; [apply grows_refl | split; [reflexivity |]].
    intros a Ha. discriminate Ha.
  - unfold Store.slice. rewrite Hplain. cbn [fst snd].
    match goal with
    | |- context [Store.d inner ?st] =>
        assert (H : Store.grows (fst st) (fst (snd (Store.d inner st))) /\
                    forall a, fst (Store.d inner st) = Ok a -> Store.fresh n a);
        [ split; apply (Hin n (fst st) (snd st));
          solve [reflexivity | cbn [fst]; rewrite length_app; lia]
        | assert (Hg1 : Store.grows h (fst st)) by (eexists; reflexivity);
          set (x := Store.d inner st) in *; clearbody x; cbn [fst snd] in H, Hg1 ]
    end.
    destruct x as [res [h' r']]. cbn [fst snd] in *. destruct H as [Hg HP].
    split; [| split; [reflexivity | exact HP]].
    apply (grows_trans _ _ _ Hg1 Hg).
Qed.

Lemma decoder_parts (dcd : M Store.State Store.SValue) : parts_safe (Store.decoder dcd).
Proof. intros l Hl. discriminate Hl. Qed.

Lemma indexed_In (l : list Store.Decoder) (i : nat) (kc : string * Store.Decoder) :
  In kc (Store.indexed l i) -> In (snd kc) l.
Proof.
  revert i. induction l as [| c rest IH]; intros i; simpl; [intros [] |].
  intros [<- | H]; [left; reflexivity | right; apply (IH _ H)].
Qed.

Lemma fields_parts (dcd : M Store.State Store.SValue) (shape : obj Store.Decoder) :
  (forall k c, obj_get shape k = Some c -> Safe c) ->
  parts_safe (Store.mkDecoder dcd (Fields shape)).
Proof.
  intros H l Hl [k c] Hin. injection Hl as <-. apply (H k c). apply entries_In, Hin.
Qed.

Lemma items_parts (dcd : M Store.State Store.SValue) (shape : list Store.Decoder) :
  (forall c, In c shape -> Safe c) ->
  parts_safe (Store.mkDecoder dcd (Items shape)).
Proof.
  intros H l Hl kc Hin. injection Hl as <-. apply H. apply (indexed_In _ _ _ Hin).
Qed.

Lemma safe_optional (inner : Store.Decoder) : Safe inner -> Safe (Store.optional inner).
Proof.
  intros H. apply safe_flagged; [apply safe_numDecoder |]. intros x. simpl.
  destruct (x =? 0)%Z; [apply safe_ret; intros; constructor | exact H].
Qed.

Lemma all_entries_In (schemas : list Store.Decoder) (l : list (string * Store.Decoder))
    (kc : string * Store.Decoder) :
  Store.all_entries schemas = Ok l -> In kc l ->
  exists s l', In s schemas /\ Store.schema_entries s = Ok l' /\ In kc l'.
Proof.
  revert l. induction schemas as [| s rest IH]; intros l; simpl.
  - intros H. injection H as <-. intros [].
  - destruct (Store.schema_entries s) as [l1 |] eqn:H1; [| discriminate].
    simpl. destruct (Store.all_entries rest) as [l2 |]; [| discriminate].
    simpl. intros H. injection H as <-. rewrite in_app_iff. intros [Hin | Hin].
    + exists s, l1. auto.
    + destruct (IH l2 eq_refl Hin) as [s' [l' [Hs' [Hl' Hkc]]]].
      exists s', l'. auto.
Qed.

Lemma Made_deep (c : Store.Decoder) : Store.Made c -> Safe c /\ parts_safe c.
Proof.
  unfold Safe at 1.
  induction 1 as
    [ nbytes getter endian | | | p | parse Hparse | | p | val Hval
    | inner _ [IH _] | inner _ [IH _] | inner maxLength _ [IH _]
    | shape _ IH | shape _ IH | shape _ IH | candidates _ IH
    | inner _ [IH _] | inner post _ [IH IHp] Hpost
    | inner decode_ _ [IH IHp] Hproj
    | inner c _ [IH IHp] Hc | schemas c _ IH Hc ].
  - split; [apply safe_numDecoder | apply decoder_parts].
  - split; [| apply decoder_parts].
    apply safe_flagged; [apply safe_numDecoder |].
    intros x. apply safe_ret. intros; constructor.
  - split; [| apply decoder_parts].
    apply safe_flagged; [apply safe_numDecoder |]. intros x. apply safe_decode_text.
  - unfold Store.utf8. destruct (utf8_fixed p) as [fixed |]; (split; [| apply decoder_parts]).
    + exact (safe_sliced_text fixed (fun o _ => o + fixed) strip_trailing_nul).
    + apply safe_flagged; [apply safe_numDecoder |]. intros x. simpl.
      destruct (exceeds (Z.to_nat x) (maxBytes p)); [apply safe_throw | apply safe_decode_text].
  - split; [| apply decoder_parts].
    unfold Store.json. cbn [Store.d Store.decoder].
    apply (safe_bind _ _ (fun _ _ => True)).
    + eapply safe_weaken.
      * apply safe_flagged; [apply safe_numDecoder |]. intros x. apply safe_decode_text.
      * intros; exact I.
    + intros x. apply safe_bind_lift. intros y _.
      apply safe_lift. intros n v Hv _. apply (Hparse y v Hv).
  - split; [| apply decoder_parts].
    apply safe_flagged; [apply safe_numDecoder |]. intros x. apply safe_slice_fn.
  - unfold Store.bytes_. destruct (bytes_fixed p) as [fixed |];
      [| destruct (max p) as [mx |]]; (split; [| apply decoder_parts]).
    + apply safe_slice_fn.
    + apply safe_flagged; [apply safe_numDecoder |]. intros x. simpl.
      destruct (mx <? Z.to_nat x); [apply safe_throw | apply safe_slice_fn].
    + apply safe_flagged; [apply safe_numDecoder |]. intros x. apply safe_slice_fn.
  - split; [| apply decoder_parts]. apply safe_ret. assumption.
  - split; [| apply decoder_parts]. apply safe_optional. exact IH.
  - split; [| apply decoder_parts].
    apply safe_flagged; [apply safe_numDecoder |]. intros x. simpl.
    destruct (x =? 0)%Z; [apply safe_ret; intros; constructor | exact IH].
  - assert (Hitems : forall n,
               Store.safe (out <- Store.decode_n inner n ;; ret (Store.SArr out)) Store.fresh).
    { intros n. apply (safe_bind _ _ (fun m l => Forall (Store.fresh m) l)).
      - apply safe_decode_n. exact IH.
      - intros l. apply safe_ret. intros m Hl. constructor. exact Hl. }
    destruct maxLength as [mx |]; (split; [| apply decoder_parts]); simpl.
    + apply safe_flagged; [apply safe_numDecoder |]. intros x.
      destruct (mx <? Z.to_nat x); [apply safe_throw | apply Hitems].
    + apply safe_flagged; [apply safe_numDecoder |]. intros x. apply Hitems.
  - assert (Hs : forall k c, obj_get shape k = Some c -> Safe c)
      by (intros k c Hk; apply (IH k c Hk)).
    split; [apply safe_struct; exact Hs | apply fields_parts; exact Hs].
  - assert (Hs : forall c, In c shape -> Safe c) by (intros c Hc; apply (IH c Hc)).
    split; [| apply items_parts; exact Hs].
    simpl. apply (safe_bind _ _ (fun m l => Forall (Store.fresh m) l)).
    + apply safe_decode_items. exact Hs.
    + intros l. apply safe_ret. intros m Hl. constructor. exact Hl.
  - assert (Hs : forall k c, obj_get shape k = Some c -> Safe c)
      by (intros k c Hk; apply (IH k c Hk)).
    split; [| apply fields_parts; exact Hs].
    simpl. apply safe_flagged; [apply safe_numDecoder |]. intros x.
    destruct ((x <? 0) || (Z.of_nat (length (own_keys shape)) <=? x))%Z;
      [apply safe_throw |].
    cbv zeta. apply safe_bind_lift. intros c Hc. unfold Store.field in Hc.
    destruct (obj_get shape (nth (Z.to_nat x) (own_keys shape) EmptyString))
      as [c' |] eqn:Hget; [| discriminate Hc].
    injection Hc as ->.
    apply (safe_bind _ _ Store.fresh); [apply (Hs _ c Hget) |].
    intros y. apply safe_ret. intros m Hy. repeat constructor. exact Hy.
  - assert (Hs : forall c, In c candidates -> Safe c) by (intros c Hc; apply (IH c Hc)).
    split; [| apply items_parts; exact Hs].
    simpl. apply safe_flagged; [apply safe_numDecoder |]. intros x.
    destruct (nth_error candidates (Z.to_nat x)) as [c |] eqn:Hc; [| apply safe_throw].
    apply Hs. apply nth_error_In with (1 := Hc).
  - split; [| apply decoder_parts].
    simpl. apply safe_flagged; [apply safe_numDecoder |]. intros x.
    destruct (negb (x =? HEADER)%Z); [apply safe_throw |].
    apply safe_flagged; [apply safe_numDecoder |]. intros ver.
    destruct (negb (ver =? 1)%Z); [apply safe_throw |].
    apply safe_flagged; [apply safe_numDecoder |]. intros n.
    apply safe_payload. exact IH.
  - split; [| exact IHp].
    simpl. apply (safe_bind _ _ Store.fresh); [exact IH |]. intros out.
    apply (safe_bind _ _ (fun _ _ => True)).
    + destruct post as [f |]; [| apply safe_ret; intros; exact I].
      apply safe_on_heap. intros n h _. split; [apply (Hpost f out eq_refl) | intros; exact I].
    + intros u. apply safe_ret. intros n _ Hout. exact Hout.
  - split; [| exact IHp].
    simpl. apply (safe_bind _ _ Store.fresh); [exact IH |]. intros x.
    intros n h r Hn Hplain. unfold Store.on_heap. cbn [fst snd].
    destruct (Hproj x h) as [Hg Hfresh].
    destruct (decode_ x h) as [res h'] eqn:Hd. cbn [fst snd] in *.
    split; [exact Hg | split; [reflexivity |]].
    intros y Hy Hx. apply (Hfresh n y Hn Hx Hy).
  - unfold Store.partial in Hc.
    destruct (Store.schema_entries inner) as [l |] eqn:Hl; [| discriminate Hc].
    simpl in Hc. injection Hc as <-.
    assert (Hs : forall k c, obj_get (fromEntries (map (fun kc => (fst kc, Store.optional (snd kc))) l)) k
                             = Some c -> Safe c).
    { intros k c Hk. apply fromEntries_get in Hk. apply in_map_iff in Hk.
      destruct Hk as [kc [Heq Hin]]. injection Heq as _ <-.
      apply safe_optional. apply (IHp l Hl kc Hin). }
    split; [apply safe_struct; exact Hs | apply fields_parts; exact Hs].
  - unfold Store.intersection in Hc.
    destruct (Store.all_entries schemas) as [l |] eqn:Hl; [| discriminate Hc].
    simpl in Hc. injection Hc as <-.
    assert (Hs : forall k c, obj_get (fromEntries l) k = Some c -> Safe c).
    { intros k c Hk. apply fromEntries_get in Hk.
      destruct (all_entries_In schemas l (k, c) Hl Hk) as [s [l' [Hs [Hl' Hin]]]].
      destruct (IH s Hs) as [_ Hp]. apply (Hp l' Hl' (k, c) Hin). }
    split; [apply safe_struct; exact Hs | apply fields_parts; exact Hs].
Qed.

Lemma Made_safe (c : Store.Decoder) : Store.Made c -> Store.safe (Store.d c) Store.fresh.
Proof. intros H. apply (Made_deep c H). Qed.

Lemma safe_run {A} (m : M Store.State A) (P : nat -> A -> Prop)
    (n : nat) (h h' : Store.Heap) (r r' : Store.SReader) (res : outcome A) :
  Store.safe m P -> n <= length h -> Store.node_buffer (Store.sbuf r) = false ->
  m (h, r) = (res, (h', r')) ->
  Store.grows h h' /\ Store.sbuf r' = Store.sbuf r /\ forall a, res = Ok a -> P n a.
Proof.
  intros Hm Hn Hplain Heq. pose proof (Hm n h r Hn Hplain) as H. rewrite Heq in H. exact H.
Qed.

Lemma nth_update_other {A} (l : list A) (i j : nat) (x dflt : A) :
  i <> j -> nth j (Store.update l i x) dflt = nth j l dflt.
Proof.
  revert i j. induction l as [| y rest IH]; intros i j Hij; [reflexivity |].
  destruct i as [| i], j as [| j]; simpl; try reflexivity; try lia.
  apply IH. lia.
Qed.

Lemma poke_other (h : Store.Heap) (a b : Store.U8) (i : nat) (x : byte) :
  Store.buffer a <> Store.buffer b ->
  Store.contents (Store.poke h a i x) b = Store.contents h b.
Proof.
  intros Hne. unfold Store.poke, Store.contents.
  destruct (i <? Store.byteLength a); [| reflexivity].
  rewrite nth_update_other by exact Hne. reflexivity.
Qed.

(** C10, amended.  Let the input be a [Uint8Array] that is no [Buffer] of
    Node.js.  For every decoder of the library: the number, boolean,
    string, [json] and byte array decoders, alone or under [optional],
    [nullable], [array], [struct], [partial], [intersection], [tuple],
    [taggedUnion], [discriminatedUnion], [envelope], [validate] and [map],
    where a [literal] is bound to a value that holds no typed array,
    [JSON.parse] returns none, a check given to [validate] only allocates,
    and a projection given to [map] only allocates and returns no array
    of an existing buffer unless its argument holds one; [decode] and
    [tryDecode] leave every buffer that existed before the call as it
    was, the input's among them: they only add buffers; every typed array
    in their result is a view of a buffer added during the call, so none
    shares storage with the input, and a store through such an array
    does not change what the input shows, nor a store through the input
    what the array shows. *)
Theorem decoders_return_copies :
  forall (c : Store.Decoder) (input : Store.U8) (h : Store.Heap),
    Store.Made c ->
    Store.node_buffer input = false ->
    Store.buffer input < length h ->
    (Store.grows h (snd (Store.decode c input h)) /\
     Store.contents (snd (Store.decode c input h)) input = Store.contents h input /\
     forall v, fst (Store.decode c input h) = Ok v -> Store.fresh (length h) v) /\
    (Store.grows h (snd (Store.tryDecode c input h)) /\
     Store.contents (snd (Store.tryDecode c input h)) input = Store.contents h input /\
     forall v, fst (Store.tryDecode c input h) = Some v -> Store.fresh (length h) v) /\
    (forall (a : Store.U8) (h' : Store.Heap) (i : nat) (x : byte),
        length h <= Store.buffer a ->
        Store.contents (Store.poke h' a i x) input = Store.contents h' input /\
        Store.contents (Store.poke h' input i x) a = Store.contents h' a).
Proof.
  intros c input h HM Hplain Hin.
  pose proof (Made_safe c HM) as Hsafe.
  assert (Hkeep : forall h', Store.grows h h' ->
                             Store.contents h' input = Store.contents h input).
  { intros h' Hg. unfold Store.contents. rewrite (grows_nth h h' _ Hg Hin). reflexivity. }
  split; [| split].
  - unfold Store.decode.
    destruct (Store.d c (h, Store.reader input 0)) as [res [h' r']] eqn:Heq.
    destruct (safe_run _ _ (length h) h h' (Store.reader input 0) r' res Hsafe (le_n _) Hplain Heq)
      as [Hg [_ HP]].
    cbn [fst snd].
    split; [exact Hg | split; [apply Hkeep; exact Hg | exact HP]].
  - unfold Store.tryDecode.
    destruct (Store.d c (h, Store.checkedReader input 0)) as [res [h' r']] eqn:Heq.
    destruct (safe_run _ _ (length h) h h' (Store.checkedReader input 0) r' res Hsafe (le_n _)
                Hplain Heq) as [Hg [_ HP]].
    destruct res as [v' | x']; cbn [fst snd].
    + split; [exact Hg | split; [apply Hkeep; exact Hg |]].
      intros v Hv. injection Hv as <-. apply HP. reflexivity.
    + split; [exact Hg | split; [apply Hkeep; exact Hg |]].
      intros v Hv. discriminate Hv.
  - intros a h' i x Ha. split; apply poke_other; lia.
Qed.

Lemma decoders_return_copies_witness :
  Store.decode Store.Bytes whole_buffer one_buffer
    = (Ok (Store.SBytes (Store.mkU8 1 0 2 false)), one_buffer ++ [[xaa; xbb]]) /\
  Store.fresh 1 (Store.SBytes (Store.mkU8 1 0 2 false)) /\
  Store.contents (snd (Store.decode Store.Bytes whole_buffer one_buffer)) whole_buffer
    = Store.contents one_buffer whole_buffer.
Proof.
  destruct (decoders_return_copies Store.Bytes whole_buffer one_buffer Store.M_Bytes)
    as [[_ [Hkeep Hfresh]] _].
  - reflexivity.
  - simpl. lia.
  - split; [reflexivity | split; [| exact Hkeep]].
    apply Hfresh. reflexivity.
Defined.

(** The claim of C10 fails as stated for a codec that returns a value of
    the caller's: [decode(literal(input), input)] returns the input array
    itself, so a store through the decoded array changes what the input
    shows. *)
Lemma literal_returns_its_value :
  Store.decode (Store.literal (Store.SBytes whole_buffer)) whole_buffer one_buffer
    = (Ok (Store.SBytes whole_buffer), one_buffer) /\
  Store.contents (Store.poke one_buffer whole_buffer 0 xff) whole_buffer
    <> Store.contents one_buffer whole_buffer.
Proof. split; [reflexivity | discriminate]. Qed.

(** It fails too when the input is a [Buffer] of Node.js, whose [slice]
    copies nothing: the array that [Bytes] decodes is a view of the
    input's buffer, no buffer is added, and a store through the decoded
    array changes what the input shows. *)
Lemma buffer_slices_share_storage :
  Store.decode Store.Bytes node_whole_buffer one_buffer
    = (Ok (Store.SBytes (Store.mkU8 0 4 2 true)), one_buffer) /\
  Store.contents (Store.poke one_buffer (Store.mkU8 0 4 2 true) 0 xff) node_whole_buffer
    = [x00; x00; x00; x02; xff; xbb] /\
  Store.contents one_buffer node_whole_buffer = [x00; x00; x00; x02; xaa; xbb].
Proof. repeat split. Qed.

(** The conditions on the callbacks are needed: a projection of [map]
    can return the input array itself, and a check of [validate] can
    store into it. *)
Lemma callbacks_can_share_or_mutate :
  Store.decode (Store.map_ Store.Uint8 (fun _ => ret (Store.SBytes whole_buffer)))
               whole_buffer one_buffer
    = (Ok (Store.SBytes whole_buffer), one_buffer) /\
  Store.contents
    (snd (Store.decode
            (Store.validate Store.Uint8
               (Some (fun _ h => (Ok tt, Store.poke h whole_buffer 0 xff))))
            whole_buffer one_buffer))
    whole_buffer
  = [xff; x00; x00; x02; xaa; xbb].
Proof. split; reflexivity. Qed.

(** The combinators on samples: decoders that the theorem covers. *)
Lemma made_samples :
  Store.Made (Store.map_ Store.Bytes (fun x => ret x)) /\
  Store.Made (Store.validate Store.Bytes (Some (fun _ => ret tt))) /\
  Store.Made (Store.discriminatedUnion [Store.struct [("data"%string, Store.Bytes)]]) /\
  Store.Made (Store.json (fun x => Ok (Store.SStr x))) /\
  (exists c, Store.partial (Store.struct [("data"%string, Store.Bytes)]) = Ok c /\
             Store.Made c) /\
  (exists c, Store.intersection [Store.struct [("data"%string, Store.Bytes)];
                                 Store.tuple [Store.float64 le]] = Ok c /\
             Store.Made c).
Proof.
  assert (Hs : Store.Made (Store.struct [("data"%string, Store.Bytes)])).
  { apply Store.M_struct. intros k c. simpl.
    destruct (String.eqb k "data"); [| discriminate].
    intros H. injection H as <-. apply Store.M_Bytes. }
  split; [| split; [| split; [| split; [| split]]]].
  - apply Store.M_map; [apply Store.M_Bytes |].
    intros x h. split; [apply grows_refl |].
    intros n y _ Hx Hy. injection Hy as <-. exact Hx.
  - apply Store.M_validate; [apply Store.M_Bytes |].
    intros f v Hf h. injection Hf as <-. apply grows_refl.
  - apply Store.M_discriminatedUnion. intros c [<- | []]. exact Hs.
  - apply Store.M_json. intros x v H n. injection H as <-. constructor.
  - eexists. split; [reflexivity |].
    apply (Store.M_partial (Store.struct [("data"%string, Store.Bytes)])); [exact Hs | reflexivity].
  - eexists. split; [reflexivity |].
    apply (Store.M_intersection
             [Store.struct [("data"%string, Store.Bytes)]; Store.tuple [Store.float64 le]]);
      [| reflexivity].
    intros c [<- | [<- | []]]; [exact Hs |].
    apply Store.M_tuple. intros c [<- | []]. apply Store.M_num.
Qed.

(** * Further properties of the code *)

(** ** Number codecs on every integer *)

Lemma recode_numCodec (n : nat)
    (getter : bytes -> nat -> bool -> outcome Value)
    (setter : bytes -> nat -> Value -> bool -> outcome bytes)
    (endian : Endian) (image : Z -> bytes) (back : bytes -> Z) (x : Z) :
  (forall y, setter (zeros n) 0 (VNum y) (is_le endian) = Ok (image y)) ->
  (forall y, length (image y) = n) ->
  (forall r bs, holds r bs -> length bs = n ->
                getter (buf r) (pos r) (is_le endian) = Ok (VNum (back bs))) ->
  recode (numCodec n getter setter endian) (VNum x) = Ok (VNum (back (image x))).
Proof.
  intros Hset Hlen Hget. unfold recode.
  assert (He : encode (numCodec n getter setter endian) (VNum x) = Ok (image x)).
  { apply encode_writes, writes_chunk. intros bufs len. simpl. unfold write.
    rewrite Hset, Hlen. reflexivity. }
  rewrite He. cbn [obind]. unfold decode. simpl d.
  rewrite <- (Hlen x) at 1.
  rewrite (read_holds _ _ (image x) (VNum (back (image x))) (holds_start _ false)).
  - reflexivity.
  - apply (Hget _ (image x) (holds_start _ false) (Hlen x)).
Qed.

Lemma recode_bigNumCodec (n : nat)
    (getter : bytes -> nat -> bool -> outcome Value)
    (setter : bytes -> nat -> Value -> bool -> outcome bytes)
    (endian : Endian) (image : Z -> bytes) (back : bytes -> Z) (x : Z) :
  (forall y, setter (zeros n) 0 (VBigInt y) (is_le endian) = Ok (image y)) ->
  (forall y, length (image y) = n) ->
  (forall r bs, holds r bs -> length bs = n ->
                getter (buf r) (pos r) (is_le endian) = Ok (VBigInt (back bs))) ->
  recode (bigNumCodec n getter setter endian) (VBigInt x) = Ok (VBigInt (back (image x))).
Proof.
  intros Hset Hlen Hget. unfold recode.
  assert (He : encode (bigNumCodec n getter setter endian) (VBigInt x) = Ok (image x)).
  { apply encode_writes, writes_chunk. intros bufs len. simpl. unfold write.
    rewrite Hset, Hlen. reflexivity. }
  rewrite He. cbn [obind]. unfold decode. simpl d.
  rewrite <- (Hlen x) at 1.
  rewrite (read_holds _ _ (image x) (VBigInt (back (image x))) (holds_start _ false)).
  - reflexivity.
  - apply (Hget _ (image x) (holds_start _ false) (Hlen x)).
Qed.

(** Whatever number is encoded with a floating point codec, decoding
    gives it as the format holds it: [Math.fround(v)] for [float32]. *)
Lemma recode_float (fmt : Format) (n : nat) (en : Endian) (v : Value) (x : Number) :
  (0 < ebits fmt)%Z -> (0 < fbits fmt)%Z ->
  (2 * sign_mask fmt = 256 ^ Z.of_nat n)%Z ->
  to_number v = Ok x ->
  encode (numCodec n (getFloat fmt n) (setFloat fmt n) en) v
    = Ok (int_bytes n (is_le en) (bits_of_number fmt x)) /\
  recode (numCodec n (getFloat fmt n) (setFloat fmt n) en) v = rounded fmt v.
Proof.
  intros He Hf Hwidth Hx.
  set (image := int_bytes n (is_le en) (bits_of_number fmt x)).
  assert (Hlen : length image = n) by apply int_bytes_length.
  assert (Henc : encode (numCodec n (getFloat fmt n) (setFloat fmt n) en) v = Ok image).
  { apply encode_writes, writes_chunk. intros bufs len. simpl. unfold write, setFloat.
    rewrite Hx. cbn [obind]. rewrite dv_set_zeros. fold image. rewrite Hlen. reflexivity. }
  split; [exact Henc |].
  unfold recode. rewrite Henc. cbn [obind]. unfold decode. simpl d.
  rewrite <- Hlen at 1.
  rewrite (read_holds _ _ image (of_number (number_of_bits fmt (bits_of_number fmt x)))
             (holds_start _ false)).
  - unfold rounded. rewrite Hx. reflexivity.
  - unfold getFloat.
    rewrite (dv_getUint_holds n _ image _ (holds_start _ false) Hlen). cbn [obind].
    unfold image. rewrite uint_roundtrip
      by (rewrite <- Hwidth; apply bits_of_number_range; assumption).
    reflexivity.
Qed.

(** The number 0.1, of bits [0x3FB999999999999A], comes back from
    [Float64] as it is, and from [Float32] as another number, the nearest
    that [binary32] has; 1.5 and the integers below [2^24] come back from
    both; [2^24 + 1], half way between two numbers of [binary32], comes
    back from [Float32] as the even one, [2^24]; a number too large for
    [binary32] becomes the infinity. *)
Lemma float_examples :
  encode Float64 (VFloat 0x3FB999999999999A)
    = Ok [x3f; xb9; x99; x99; x99; x99; x99; x9a] /\
  recode Float64 (VFloat 0x3FB999999999999A) = Ok (VFloat 0x3FB999999999999A) /\
  encode Float32 (VFloat 0x3FB999999999999A) = Ok [x3d; xcc; xcc; xcd] /\
  recode Float32 (VFloat 0x3FB999999999999A) = Ok (VFloat 0x3FB99999A0000000) /\
  encode Float32 (VFloat 0x3FF8000000000000) = Ok [x3f; xc0; x00; x00] /\
  recode Float32 (VFloat 0x3FF8000000000000) = Ok (VFloat 0x3FF8000000000000) /\
  encode (float32 le) (VNum (-2)) = Ok [x00; x00; x00; xc0] /\
  recode (float32 le) (VNum (-2)) = Ok (VNum (-2)) /\
  recode Float32 (VNum 16777217) = Ok (VNum 16777216) /\
  encode Float32 (VNum (10 ^ 39)) = Ok [x7f; x80; x00; x00] /\
  recode Float32 (VNum (10 ^ 39)) = Ok (VFloat 0x7FF0000000000000).
Proof. repeat split; vm_compute; reflexivity. Qed.

Lemma uint_value_wraps (n : nat) (le_ : bool) (v : Z) :
  uint_value le_ (int_bytes n le_ v) = wrap_unsigned n v.
Proof. rewrite uint_value_int_bytes, pow256. reflexivity. Qed.

Lemma int_value_wraps (n : nat) (le_ : bool) (v : Z) :
  int_value le_ (int_bytes n le_ v) = wrap_signed n v.
Proof.
  unfold int_value, wrap_signed. rewrite uint_value_wraps, int_bytes_length. reflexivity.
Qed.

(** X1.  The integer codecs accept every integer and never throw on one
    that is out of range: the value is stored modulo [2^(8n)], so decoding
    the encoding gives the value wrapped into the range of the codec, in
    either byte order. *)
Theorem integer_codecs_wrap :
  forall (v : Z) (en : Endian),
    recode uint8 (VNum v) = Ok (VNum (wrap_unsigned 1 v)) /\
    recode int8 (VNum v) = Ok (VNum (wrap_signed 1 v)) /\
    recode (uint16 en) (VNum v) = Ok (VNum (wrap_unsigned 2 v)) /\
    recode (int16 en) (VNum v) = Ok (VNum (wrap_signed 2 v)) /\
    recode (uint32 en) (VNum v) = Ok (VNum (wrap_unsigned 4 v)) /\
    recode (int32 en) (VNum v) = Ok (VNum (wrap_signed 4 v)) /\
    recode (bigUint64 en) (VBigInt v) = Ok (VBigInt (wrap_unsigned 8 v)) /\
    recode (bigInt64 en) (VBigInt v) = Ok (VBigInt (wrap_signed 8 v)).
Proof.
  intros v en.
  repeat split.
  - rewrite <- (uint_value_wraps 1 false).
    apply (recode_numCodec 1 _ _ be (int_bytes 1 false) (uint_value false)).
    + intros y. apply setInt_zeros.
    + intros y. apply int_bytes_length.
    + intros r bs. apply getUint_holds.
  - rewrite <- (int_value_wraps 1 false).
    apply (recode_numCodec 1 _ _ be (int_bytes 1 false) (int_value false)).
    + intros y. apply setInt_zeros.
    + intros y. apply int_bytes_length.
    + intros r bs. apply getInt_holds.
  - rewrite <- (uint_value_wraps 2 (is_le en)).
    apply (recode_numCodec 2 _ _ en (int_bytes 2 (is_le en)) (uint_value (is_le en))).
    + intros y. apply setInt_zeros.
    + intros y. apply int_bytes_length.
    + intros r bs. apply getUint_holds.
  - rewrite <- (int_value_wraps 2 (is_le en)).
    apply (recode_numCodec 2 _ _ en (int_bytes 2 (is_le en)) (int_value (is_le en))).
    + intros y. apply setInt_zeros.
    + intros y. apply int_bytes_length.
    + intros r bs. apply getInt_holds.
  - rewrite <- (uint_value_wraps 4 (is_le en)).
    apply (recode_numCodec 4 _ _ en (int_bytes 4 (is_le en)) (uint_value (is_le en))).
    + intros y. apply setInt_zeros.
    + intros y. apply int_bytes_length.
    + intros r bs. apply getUint_holds.
  - rewrite <- (int_value_wraps 4 (is_le en)).
    apply (recode_numCodec 4 _ _ en (int_bytes 4 (is_le en)) (int_value (is_le en))).
    + intros y. apply setInt_zeros.
    + intros y. apply int_bytes_length.
    + intros r bs. apply getInt_holds.
  - rewrite <- (uint_value_wraps 8 (is_le en)).
    apply (recode_bigNumCodec 8 _ _ en (int_bytes 8 (is_le en)) (uint_value (is_le en))).
    + intros y. apply setBigInt_zeros.
    + intros y. apply int_bytes_length.
    + intros r bs. apply getBigUint_holds.
  - rewrite <- (int_value_wraps 8 (is_le en)).
    apply (recode_bigNumCodec 8 _ _ en (int_bytes 8 (is_le en)) (int_value (is_le en))).
    + intros y. apply setBigInt_zeros.
    + intros y. apply int_bytes_length.
    + intros r bs. apply getBigInt_holds.
Qed.

(** ** Bool *)

Lemma one_byte_value (b : byte) : (Z_of_byte b =? 1)%Z = Byte.eqb b x01.
Proof. destruct b; reflexivity. Qed.

Lemma zero_byte_value (b : byte) : (Z_of_byte b =? 0)%Z = Byte.eqb b x00.
Proof. destruct b; reflexivity. Qed.

(** X2.  [Bool] writes [true] as the byte 1 and [false] as the byte 0,
    and reads one byte: the byte 1 is [true] and every other byte, not
    only 0, is [false]; the bytes after it are left alone. *)
Theorem Bool_layout :
  forall (t : bool) (b : byte) (rest : bytes),
    encode Bool (VBool t) = Ok [if t then x01 else x00] /\
    d Bool (reader (b :: rest) 0) = (Ok (VBool (Byte.eqb b x01)), reader (b :: rest) 1) /\
    tryDecode Bool (b :: rest) = IsOk (VBool (Byte.eqb b x01)).
Proof.
  intros t b rest.
  assert (Hr : forall chk, holds (mkReader chk (b :: rest) 0) [b])
    by (intros chk; exists [], rest; split; reflexivity).
  split; [destruct t; reflexivity | split].
  - unfold Bool. cbn [d codec].
    rewrite (bind_d_num _ _ _ _ _ (d_num_Uint8 _ [b] (Hr false) eq_refl)).
    rewrite uint_value_1, one_byte_value. reflexivity.
  - unfold tryDecode, Bool. cbn [d codec].
    rewrite (bind_d_num _ _ _ _ _ (d_num_Uint8 _ [b] (Hr true) eq_refl)).
    rewrite uint_value_1, one_byte_value. reflexivity.
Qed.

(** ** Length limits of strings and byte arrays *)

Lemma set_prefixed_encode (m : M Writer unit) (data : bytes) :
  (forall w, m w = (e Uint32 (len_value (length data)) ;;; write (length data) (set_at data)) w) ->
  match m (writer None) with
  | (Ok _, w) => flush w
  | (Throw x, _) => Throw x
  end = Ok (prefixed (length data) data).
Proof.
  intros H. apply pushes_encode.
  exists [int_bytes 4 false (Z.of_nat (length data)); data].
  split; [apply concat_prefixed |].
  intros bufs len. rewrite H. apply write_prefixed.
Qed.

(** X3.  [utf8({ maxBytes })] measures the UTF-8 bytes of the string: a
    string within the limit is encoded as its byte length on 4 bytes and
    its bytes; for a longer one, [size] and the encoder both throw
    "utf8 too long" with the byte length, and the writer is left as it
    was.  The decoder compares the length field with the limit before it
    reads the text: a larger one throws "utf8 length n > max m" with only
    the 4 bytes of the field consumed. *)
Theorem utf8_maxBytes_enforced :
  forall (p : Utf8Params) (m : nat),
    utf8_fixed p = None -> maxBytes p = Some m ->
    (forall x : string,
        length (list_byte_of_string x) <= m ->
        encode (utf8 p) (VStr x)
        = Ok (prefixed (length (list_byte_of_string x)) (list_byte_of_string x))) /\
    (forall x : string,
        m < length (list_byte_of_string x) ->
        size (utf8 p) (VStr x)
        = Throw (Error ("utf8 too long: " ++ dec (length (list_byte_of_string x)))%string) /\
        forall w : Writer,
          e (utf8 p) (VStr x) w
          = (Throw (Error ("utf8 too long: " ++ dec (length (list_byte_of_string x)))%string),
             w)) /\
    (forall (r : Reader) (cnt : bytes),
        holds r cnt -> length cnt = 4 ->
        m < Z.to_nat (uint_value false cnt) ->
        d (utf8 p) r
        = (Throw (Error ("utf8 length " ++ decZ (uint_value false cnt)
                         ++ " > max " ++ dec m)%string),
           advance r 4)).
Proof.
  intros p m Hfixed Hmax. unfold utf8. rewrite Hfixed, Hmax.
  split; [| split].
  - intros x Hx. unfold encode. apply set_prefixed_encode.
    intros w. cbn [e codec]. unfold bind at 1, lift. cbn [ENC_encode].
    unfold exceeds. destruct (Nat.ltb_spec m (length (list_byte_of_string x))); [lia |].
    reflexivity.
  - intros x Hx. apply Nat.ltb_lt in Hx. split.
    + unfold size. cbn [s codec ENC_encode obind]. unfold exceeds. rewrite Hx. reflexivity.
    + intros w. cbn [e codec]. unfold bind, lift. cbn [ENC_encode].
      unfold exceeds. rewrite Hx. reflexivity.
  - intros r cnt Hr Hlen Hm. cbn [d codec].
    rewrite (bind_d_num _ _ _ _ _ (d_num_Uint32 r cnt Hr Hlen)).
    unfold exceeds. apply Nat.ltb_lt in Hm. rewrite Hm. reflexivity.
Qed.

Lemma utf8_maxBytes_enforced_witness :
  encode two_bytes_text (VStr "ab") = Ok [x00; x00; x00; x02; x61; x62] /\
  size two_bytes_text (VStr "abc") = Throw (Error "utf8 too long: 3") /\
  e two_bytes_text (VStr "abc") (writer None)
    = (Throw (Error "utf8 too long: 3"), writer None) /\
  d two_bytes_text (reader three_announced 0)
    = (Throw (Error "utf8 length 3 > max 2"), reader three_announced 4).
Proof.
  pose proof (utf8_maxBytes_enforced {| utf8_fixed := None; maxBytes := Some 2 |} 2
                eq_refl eq_refl) as [Hin [Hout Hdec]].
  split; [| split; [| split]].
  - apply (Hin "ab"%string). simpl. lia.
  - apply (Hout "abc"%string). simpl. lia.
  - apply (Hout "abc"%string). simpl. lia.
  - apply (Hdec (reader three_announced 0) [x00; x00; x00; x03]).
    + exists [], [x61; x62; x63]. split; reflexivity.
    + reflexivity.
    + simpl. lia.
Defined.

(** X4.  [bytes({ max })] does the same for byte arrays: within the
    limit the array is encoded as its length on 4 bytes and its bytes;
    beyond it [size] and the encoder throw "bytes too long" and nothing is
    written; the decoder throws "bytes length n > max m" on a larger
    length field, with only the 4 bytes of the field consumed. *)
Theorem bytes_max_enforced :
  forall (p : BytesParams) (m : nat),
    bytes_fixed p = None -> max p = Some m ->
    (forall b : bytes,
        length b <= m ->
        encode (bytes_ p) (VBytes b) = Ok (prefixed (length b) b)) /\
    (forall b : bytes,
        m < length b ->
        size (bytes_ p) (VBytes b) = Throw (Error "bytes too long") /\
        forall w : Writer,
          e (bytes_ p) (VBytes b) w = (Throw (Error "bytes too long"), w)) /\
    (forall (r : Reader) (cnt : bytes),
        holds r cnt -> length cnt = 4 ->
        m < Z.to_nat (uint_value false cnt) ->
        d (bytes_ p) r
        = (Throw (Error ("bytes length " ++ decZ (uint_value false cnt)
                         ++ " > max " ++ dec m)%string),
           advance r 4)).
Proof.
  intros p m Hfixed Hmax. unfold bytes_. rewrite Hfixed, Hmax.
  split; [| split].
  - intros b Hb. unfold encode. apply set_prefixed_encode.
    intros w. cbn [e codec]. unfold bind at 1, lift. cbn [as_bytes].
    destruct (Nat.ltb_spec m (length b)); [lia | reflexivity].
  - intros b Hb. apply Nat.ltb_lt in Hb. split.
    + unfold size. cbn [s codec as_bytes obind]. rewrite Hb. reflexivity.
    + intros w. cbn [e codec]. unfold bind, lift. cbn [as_bytes].
      rewrite Hb. reflexivity.
  - intros r cnt Hr Hlen Hm. cbn [d codec].
    rewrite (bind_d_num _ _ _ _ _ (d_num_Uint32 r cnt Hr Hlen)).
    apply Nat.ltb_lt in Hm. rewrite Hm. reflexivity.
Qed.

Lemma bytes_max_enforced_witness :
  encode two_bytes_most (VBytes [x61; x62]) = Ok [x00; x00; x00; x02; x61; x62] /\
  size two_bytes_most (VBytes [x61; x62; x63]) = Throw (Error "bytes too long") /\
  e two_bytes_most (VBytes [x61; x62; x63]) (writer None)
    = (Throw (Error "bytes too long"), writer None) /\
  d two_bytes_most (reader three_announced 0)
    = (Throw (Error "bytes length 3 > max 2"), reader three_announced 4).
Proof.
  pose proof (bytes_max_enforced {| bytes_fixed := None; max := Some 2 |} 2
                eq_refl eq_refl) as [Hin [Hout Hdec]].
  split; [| split; [| split]].
  - apply (Hin [x61; x62]). simpl. lia.
  - apply (Hout [x61; x62; x63]). simpl. lia.
  - apply (Hout [x61; x62; x63]). simpl. lia.
  - apply (Hdec (reader three_announced 0) [x00; x00; x00; x03]).
    + exists [], [x61; x62; x63]. split; reflexivity.
    + reflexivity.
    + simpl. lia.
Defined.

(** ** Fixed-width byte arrays *)

(** X5.  [bytes({ fixed: N })] writes an array of at most [N] bytes
    followed by zero bytes up to [N], and no length; [encode] throws the
    [RangeError] of [set] for a longer array.  The decoder returns the
    next [N] bytes whatever they are, so a shorter array comes back with
    the padding: decoding the encoding of [b] gives [b] followed by
    [N - length b] zero bytes. *)
Theorem fixed_width_bytes :
  forall (p : BytesParams) (N : nat),
    bytes_fixed p = Some N ->
    (forall b : bytes,
        length b <= N ->
        encode (bytes_ p) (VBytes b) = Ok (b ++ zeros (N - length b)) /\
        recode (bytes_ p) (VBytes b) = Ok (VBytes (b ++ zeros (N - length b)))) /\
    (forall b : bytes,
        N < length b ->
        encode (bytes_ p) (VBytes b) = Throw (RangeError "offset is out of bounds")) /\
    (forall (r : Reader) (bs : bytes),
        holds r bs -> length bs = N ->
        d (bytes_ p) r = (Ok (VBytes bs), advance r N)).
Proof.
  intros p N Hp.
  assert (Hd : forall (r : Reader) (bs : bytes),
             holds r bs -> length bs = N ->
             d (bytes_ p) r = (Ok (VBytes bs), advance r N)).
  { intros r bs Hr Hlen. unfold bytes_. rewrite Hp. cbn [d codec].
    apply (read_holds_n _ r bs N _ Hr Hlen).
    unfold slice_fn. rewrite (holds_slice_n r bs N Hr Hlen). reflexivity. }
  assert (He : forall b : bytes,
             length b <= N ->
             encode (bytes_ p) (VBytes b) = Ok (b ++ zeros (N - length b))).
  { intros b Hb. apply encode_writes, writes_chunk. intros bufs len.
    unfold bytes_. rewrite Hp. cbn [e codec].
    rewrite padded_length by exact Hb.
    apply write_chunk. cbn [as_bytes obind]. apply u8_set_zeros. exact Hb. }
  split; [| split; [| exact Hd]].
  - intros b Hb. split; [apply He; exact Hb |].
    unfold recode. rewrite (He b Hb). cbn [obind]. unfold decode.
    rewrite (Hd (reader (b ++ zeros (N - length b)) 0) (b ++ zeros (N - length b))
                (holds_start _ false) (padded_length b N Hb)).
    reflexivity.
  - intros b Hb. unfold encode, bytes_. rewrite Hp. cbn [e codec].
    unfold writer, write. cbn [as_bytes obind]. unfold u8_set.
    rewrite zeros_length.
    destruct (Nat.leb_spec (0 + length b) N); [simpl in *; lia | reflexivity].
Qed.

Lemma fixed_width_bytes_witness :
  encode four_wide (VBytes [x01; x02]) = Ok [x01; x02; x00; x00] /\
  recode four_wide (VBytes [x01; x02]) = Ok (VBytes [x01; x02; x00; x00]) /\
  encode four_wide (VBytes [x01; x02; x03; x04; x05])
    = Throw (RangeError "offset is out of bounds") /\
  d four_wide (reader [x09; x08; x07; x06; x05] 0)
    = (Ok (VBytes [x09; x08; x07; x06]), reader [x09; x08; x07; x06; x05] 4).
Proof.
  pose proof (fixed_width_bytes {| bytes_fixed := Some 4; max := None |} 4 eq_refl)
    as [Hin [Hout Hdec]].
  split; [| split; [| split]].
  - apply (Hin [x01; x02]). simpl. lia.
  - apply (Hin [x01; x02]). simpl. lia.
  - apply (Hout [x01; x02; x03; x04; x05]). simpl. lia.
  - apply (Hdec (reader [x09; x08; x07; x06; x05] 0) [x09; x08; x07; x06]).
    + exists [], [x05]. split; reflexivity.
    + reflexivity.
Defined.

(** ** Truncated input and the unchecked reader *)

Lemma u8_slice_short (pre data : bytes) (n : nat) :
  length data <= n ->
  u8_slice (pre ++ data) (length pre) (length pre + n) = data.
Proof.
  intros H. unfold u8_slice.
  rewrite skipn_app, skipn_all, Nat.sub_diag, skipn_O. simpl.
  replace (length pre + n - length pre) with n by lia.
  apply firstn_all2. exact H.
Qed.

Lemma holds_count (chk : bool) (n : nat) (data : bytes) :
  holds (mkReader chk (prefixed n data) 0) (int_bytes 4 false (Z.of_nat n)).
Proof. exists [], data. split; reflexivity. Qed.

Lemma count_value (n : nat) :
  (Z.of_nat n < 4294967296)%Z ->
  Z.to_nat (uint_value false (int_bytes 4 false (Z.of_nat n))) = n.
Proof.
  intros H. rewrite (uint_roundtrip 4) by (change (256 ^ Z.of_nat 4)%Z with 4294967296%Z; lia).
  apply Nat2Z.id.
Qed.

(** X6.  [decode] uses the unchecked reader, and [slice] clamps its end
    to the buffer: when the length field of a byte array or a string
    announces more bytes than the buffer has left, [decode] does not fail
    but returns the bytes that are there (for a string, when they are
    well-formed), as if the value were shorter.  [tryDecode], whose reader
    checks, reports the same input as out of bounds. *)
Theorem unchecked_decode_truncates :
  forall (n : nat) (data : bytes),
    length data < n -> (Z.of_nat n < 4294967296)%Z ->
    decode Bytes (prefixed n data) = Ok (VBytes data) /\
    tryDecode Bytes (prefixed n data)
    = IsErr (exn_message (out_of_bounds n 4 (4 + length data))) /\
    (utf8_valid data = true ->
     decode Utf8 (prefixed n data) = Ok (VStr (string_of_list_byte (strip_bom data)))) /\
    tryDecode Utf8 (prefixed n data)
    = IsErr (exn_message (out_of_bounds n 4 (4 + length data))).
Proof.
  intros n data Hshort Hn.
  assert (Hslice : u8_slice (prefixed n data) 4 (4 + n) = data).
  { unfold prefixed.
    apply (u8_slice_short (int_bytes 4 false (Z.of_nat n)) data n). lia. }
  assert (Hchecked : forall fn : ReadFn Value,
             read n fn (advance (checkedReader (prefixed n data) 0) 4)
             = (Throw (out_of_bounds n 4 (4 + length data)),
                advance (checkedReader (prefixed n data) 0) 4)).
  { intros fn. unfold read, ensure. cbn [checked advance checkedReader buf pos].
    rewrite prefixed_length.
    destruct (Nat.ltb_spec (4 + length data) (0 + 4 + n)); [reflexivity | lia]. }
  split; [| split; [| split]].
  - unfold decode, Bytes. cbn [d codec].
    rewrite (bind_d_num _ _ _ _ _
               (d_num_Uint32 _ _ (holds_count false n data) (int_bytes_length 4 false _))).
    rewrite (count_value n Hn).
    unfold read, advance, reader, slice_fn. cbn [checked buf pos].
    change (0 + 4) with 4. rewrite Hslice. reflexivity.
  - unfold tryDecode, Bytes. cbn [d codec].
    rewrite (bind_d_num _ _ _ _ _
               (d_num_Uint32 _ _ (holds_count true n data) (int_bytes_length 4 false _))).
    rewrite (count_value n Hn), Hchecked. reflexivity.
  - intros Hvalid. unfold decode, Utf8. cbn [d codec].
    rewrite (bind_d_num _ _ _ _ _
               (d_num_Uint32 _ _ (holds_count false n data) (int_bytes_length 4 false _))).
    rewrite (count_value n Hn).
    unfold read, advance, reader. cbn [checked buf pos].
    change (0 + 4) with 4. rewrite Hslice.
    unfold DEC_decode. rewrite Hvalid. reflexivity.
  - unfold tryDecode, Utf8. cbn [d codec].
    rewrite (bind_d_num _ _ _ _ _
               (d_num_Uint32 _ _ (holds_count true n data) (int_bytes_length 4 false _))).
    rewrite (count_value n Hn), Hchecked. reflexivity.
Qed.

Lemma unchecked_decode_truncates_witness :
  decode Bytes [x00; x00; x00; x05; x01; x02] = Ok (VBytes [x01; x02]) /\
  tryDecode Bytes [x00; x00; x00; x05; x01; x02] = IsErr "Out of bounds: need 5 at 4, len=6" /\
  (utf8_valid [x01; x02] = true ->
   decode Utf8 [x00; x00; x00; x05; x01; x02]
   = Ok (VStr (string_of_list_byte (strip_bom [x01; x02])))) /\
  tryDecode Utf8 [x00; x00; x00; x05; x01; x02] = IsErr "Out of bounds: need 5 at 4, len=6".
Proof.
  apply (unchecked_decode_truncates 5 [x01; x02]); simpl; lia.
Defined.

(** ** Text decoding *)

Lemma Utf8_decode_prefixed (chk : bool) (data rest : bytes) :
  (Z.of_nat (length data) < 4294967296)%Z ->
  d Utf8 (mkReader chk (prefixed (length data) data ++ rest) 0)
  = match DEC_decode data with
    | Ok x => (Ok (VStr x), mkReader chk (prefixed (length data) data ++ rest)
                                     (4 + length data))
    | Throw er => (Throw er, mkReader chk (prefixed (length data) data ++ rest) 4)
    end.
Proof.
  intros Hn.
  assert (Hr : holds (mkReader chk (prefixed (length data) data ++ rest) 0)
                     (prefixed (length data) (data ++ []))).
  { exists [], rest. rewrite app_nil_r. split; reflexivity. }
  unfold Utf8. cbn [d codec].
  destruct (read_count (length data) (data ++ [])
              (fun n => read (Z.to_nat n)
                 (fun b o en => obind (DEC_decode (u8_slice b o en)) (fun x => Ok (VStr x))))
              _ Hn Hr) as [-> Hdata].
  apply holds_app_l in Hdata.
  rewrite Nat2Z.id.
  rewrite read_in_bounds by (apply holds_bounds; exact Hdata).
  rewrite (holds_slice _ _ Hdata).
  destruct (DEC_decode data); reflexivity.
Qed.

(** X7.  The decoder of [Utf8] is a [TextDecoder] that does not keep the
    byte order mark: a well-formed string that starts with U+FEFF is
    encoded as it is, and decoding the encoding gives the string without
    that first character, three bytes shorter. *)
Theorem Utf8_drops_byte_order_mark :
  forall x : string,
    utf8_valid (list_byte_of_string x) = true ->
    has_bom (list_byte_of_string x) = true ->
    (Z.of_nat (String.length x) < 4294967296)%Z ->
    encode Utf8 (VStr x) = Ok (prefixed (String.length x) (list_byte_of_string x)) /\
    recode Utf8 (VStr x) = Ok (VStr (string_of_list_byte (skipn 3 (list_byte_of_string x)))) /\
    String.length (string_of_list_byte (skipn 3 (list_byte_of_string x))) + 3
    = String.length x.
Proof.
  intros x Hvalid Hbom Hlen.
  assert (He : encode Utf8 (VStr x)
               = Ok (prefixed (String.length x) (list_byte_of_string x))).
  { rewrite <- list_byte_of_string_length. unfold encode. apply set_prefixed_encode.
    intros w. reflexivity. }
  split; [exact He | split].
  - unfold recode. rewrite He. cbn [obind]. unfold decode, reader.
    rewrite <- (app_nil_r (prefixed _ _)).
    rewrite <- list_byte_of_string_length.
    rewrite Utf8_decode_prefixed by (rewrite list_byte_of_string_length; exact Hlen).
    unfold DEC_decode, strip_bom. rewrite Hvalid, Hbom. reflexivity.
  - rewrite <- (list_byte_of_string_length (string_of_list_byte _)).
    rewrite list_byte_of_string_of_list_byte, length_skipn.
    rewrite list_byte_of_string_length.
    assert (3 <= length (list_byte_of_string x)).
    { destruct (list_byte_of_string x) as [| b0 [| b1 [| b2 r]]];
        try discriminate Hbom. simpl. lia. }
    rewrite list_byte_of_string_length in *. lia.
Qed.

Lemma Utf8_drops_byte_order_mark_witness :
  encode Utf8 (VStr bom_hi) = Ok [x00; x00; x00; x05; xef; xbb; xbf; x68; x69] /\
  recode Utf8 (VStr bom_hi) = Ok (VStr "hi") /\
  String.length "hi" + 3 = String.length bom_hi.
Proof.
  apply (Utf8_drops_byte_order_mark bom_hi); [reflexivity | reflexivity | simpl; lia].
Defined.

(** X8.  The decoder of [Utf8] is fatal: when the bytes announced by the
    length field are not well-formed UTF-8, [decode] throws a [TypeError]
    and [tryDecode] returns an error, whatever follows them; when they are
    well-formed, both return the text. *)
Theorem Utf8_rejects_malformed_text :
  forall data rest : bytes,
    (Z.of_nat (length data) < 4294967296)%Z ->
    (utf8_valid data = false ->
     (exists message,
         decode Utf8 (prefixed (length data) data ++ rest) = Throw (TypeError message) /\
         tryDecode Utf8 (prefixed (length data) data ++ rest) = IsErr message)) /\
    (utf8_valid data = true ->
     decode Utf8 (prefixed (length data) data ++ rest)
     = Ok (VStr (string_of_list_byte (strip_bom data))) /\
     tryDecode Utf8 (prefixed (length data) data ++ rest)
     = IsOk (VStr (string_of_list_byte (strip_bom data)))).
Proof.
  intros data rest Hlen. split; intros Hvalid.
  - eexists. unfold decode, tryDecode, reader, checkedReader.
    rewrite !Utf8_decode_prefixed by exact Hlen.
    unfold DEC_decode. rewrite Hvalid. split; reflexivity.
  - unfold decode, tryDecode, reader, checkedReader.
    rewrite !Utf8_decode_prefixed by exact Hlen.
    unfold DEC_decode. rewrite Hvalid. split; reflexivity.
Qed.

Lemma Utf8_rejects_malformed_text_witness :
  (exists message,
      decode Utf8 ([x00; x00; x00; x02; xc3; x28] ++ [x61]) = Throw (TypeError message) /\
      tryDecode Utf8 ([x00; x00; x00; x02; xc3; x28] ++ [x61]) = IsErr message) /\
  decode Utf8 ([x00; x00; x00; x02; xc3; xa9] ++ [x61])
  = Ok (VStr (string_of_list_byte (strip_bom [xc3; xa9]))) /\
  tryDecode Utf8 ([x00; x00; x00; x02; xc3; xa9] ++ [x61])
  = IsOk (VStr (string_of_list_byte (strip_bom [xc3; xa9]))).
Proof.
  split.
  - apply (proj1 (Utf8_rejects_malformed_text [xc3; x28] [x61] ltac:(simpl; lia))).
    reflexivity.
  - apply (proj2 (Utf8_rejects_malformed_text [xc3; xa9] [x61] ltac:(simpl; lia))).
    reflexivity.
Defined.

(** ** Presence flags *)

(** X9.  The decoders of [optional] and [nullable] read one flag byte:
    the byte 0 gives [undefined] (or [null]) and nothing more is read;
    every other byte, not only 1, hands the reader to the inner decoder
    just after the flag. *)
Theorem presence_flag_decoding :
  forall (inner : Codec) (r : Reader) (flag : byte),
    holds r [flag] ->
    d (optional inner) r
    = (if Byte.eqb flag x00 then (Ok VUndefined, advance r 1) else d inner (advance r 1)) /\
    d (nullable inner) r
    = (if Byte.eqb flag x00 then (Ok VNull, advance r 1) else d inner (advance r 1)).
Proof.
  intros inner r flag Hr. split.
  - unfold optional. cbn [d].
    rewrite (bind_d_num _ _ _ _ _ (d_num_Uint8 r [flag] Hr eq_refl)).
    rewrite uint_value_1, zero_byte_value.
    destruct (Byte.eqb flag x00); reflexivity.
  - unfold nullable. cbn [d codec].
    rewrite (bind_d_num _ _ _ _ _ (d_num_Uint8 r [flag] Hr eq_refl)).
    rewrite uint_value_1, zero_byte_value.
    destruct (Byte.eqb flag x00); reflexivity.
Qed.

Lemma presence_flag_decoding_witness :
  d (optional Uint8) (reader [x02; x07] 0) = (Ok (VNum 7), reader [x02; x07] 2) /\
  d (nullable Uint8) (reader [x02; x07] 0) = (Ok (VNum 7), reader [x02; x07] 2).
Proof.
  apply (presence_flag_decoding Uint8 (reader [x02; x07] 0) x02).
  exists [], [x07]. split; reflexivity.
Defined.

(** ** Input after the encoding *)

(** X10.  Decoding stops at the end of the value: when the encoding of a
    value of the round-trip domain is followed by any other bytes,
    [decode] and [tryDecode] still return a value deep-equal to it, the
    reader is left just after the encoding, and the bytes that follow are
    neither read nor reported. *)
Theorem decode_ignores_trailing_bytes :
  forall (c : Codec) (T R : dom) (v : Value) (bs extra : bytes),
    Built false c T R -> T v -> R v ->
    encode c v = Ok bs ->
    exists v1 v2 : Value,
      d c (reader (bs ++ extra) 0) = (Ok v1, reader (bs ++ extra) (length bs)) /\
      decode c (bs ++ extra) = Ok v1 /\ deep_equal v1 v /\
      tryDecode c (bs ++ extra) = IsOk v2 /\ deep_equal v2 v.
Proof.
  intros c T R v bs extra HB HT HR He.
  destruct (Built_sound false c T R HB v HT) as [bs' [Hw [_ Hr]]].
  specialize (Hr HR).
  assert (Hbs : bs' = bs) by (apply encode_writes in Hw; congruence). subst bs'.
  assert (Hh : forall chk, holds (mkReader chk (bs ++ extra) 0) bs)
    by (intros chk; exists [], extra; split; reflexivity).
  destruct (Hr _ (Hh false)) as [v1 [Hd1 He1]].
  destruct (Hr _ (Hh true)) as [v2 [Hd2 He2]].
  exists v1, v2.
  split; [exact Hd1 | split; [| split; [exact He1 | split; [| exact He2]]]].
  - unfold decode, reader. rewrite Hd1. reflexivity.
  - unfold tryDecode, checkedReader. rewrite Hd2. reflexivity.
Qed.

Lemma decode_ignores_trailing_bytes_witness :
  exists v1 v2 : Value,
    d Utf8 (reader ([x00; x00; x00; x02; x68; x69] ++ [xff; xff]) 0)
    = (Ok v1, reader ([x00; x00; x00; x02; x68; x69] ++ [xff; xff]) 6) /\
    decode Utf8 ([x00; x00; x00; x02; x68; x69] ++ [xff; xff]) = Ok v1 /\
    deep_equal v1 (VStr "hi") /\
    tryDecode Utf8 ([x00; x00; x00; x02; x68; x69] ++ [xff; xff]) = IsOk v2 /\
    deep_equal v2 (VStr "hi").
Proof.
  apply (decode_ignores_trailing_bytes Utf8 any_string (text_below 4294967296)
           (VStr "hi") [x00; x00; x00; x02; x68; x69] [xff; xff]).
  - apply B_Utf8.
  - exists "hi"%string. reflexivity.
  - exists "hi"%string. split; [reflexivity | split; [apply plain_hi | simpl; lia]].
  - reflexivity.
Defined.

(** ** Deep equality is an equivalence *)

Lemma get_cases (o : obj Value) (k : string) :
  get o k = VUndefined \/ In (k, get o k) o.
Proof.
  unfold get. destruct (obj_get o k) as [x |] eqn:Hget; [right | left; reflexivity].
  apply obj_get_Some_In. exact Hget.
Qed.

Lemma deep_equal_undefined (v : Value) : deep_equal VUndefined v -> v = VUndefined.
Proof. intros H. inversion H. reflexivity. Qed.

Lemma deep_equal_sym (v w : Value) : deep_equal v w -> deep_equal w v.
Proof.
  revert w. induction v as [| | | | | | | l IH | o IH | |] using Value_nested_ind;
    intros w H; inversion H as [| | | | | | | l1 l2 Hl | o1 o2 Ho | |]; subst;
    try constructor.
  - clear H. revert IH. induction Hl as [| x y l1 l2 Hxy _ IHl]; intros IH.
    + constructor.
    + inversion IH; subst. constructor; [auto | apply IHl; assumption].
  - intros k. specialize (Ho k).
    destruct (get_cases o k) as [Hu | Hin].
    + rewrite Hu in *. rewrite (deep_equal_undefined _ Ho). constructor.
    + rewrite Forall_forall in IH. apply (IH _ Hin). exact Ho.
Qed.

Lemma deep_equal_trans (u v w : Value) :
  deep_equal u v -> deep_equal v w -> deep_equal u w.
Proof.
  revert v w. induction u as [| | | | | | | l IH | o IH | |] using Value_nested_ind;
    intros v w H1 H2; inversion H1 as [| | | | | | | l1 l2 Hl | o1 o2 Ho | |]; subst;
    inversion H2 as [| | | | | | | l3 l4 Hl' | o3 o4 Ho' | |]; subst;
    try constructor.
  - clear H1 H2. revert l4 Hl' IH. induction Hl as [| x y l1 l2 Hxy _ IHl]; intros l4 Hl' IH.
    + inversion Hl'; subst. constructor.
    + inversion Hl'; subst. inversion IH; subst.
      constructor; [eauto | apply IHl; assumption].
  - intros k. specialize (Ho k). specialize (Ho' k).
    destruct (get_cases o k) as [Hu | Hin].
    + rewrite Hu in *. rewrite (deep_equal_undefined _ Ho) in Ho'.
      rewrite (deep_equal_undefined _ Ho'). constructor.
    + rewrite Forall_forall in IH. apply (IH _ Hin _ _ Ho Ho').
Qed.

(** X11.  On the round-trip domain of a codec, the encoding determines
    the value: two values with the same encoding are deep-equal, so values
    that differ have different encodings. *)
Theorem encode_injective :
  forall (c : Codec) (T R : dom) (v1 v2 : Value) (bs : bytes),
    Built false c T R ->
    T v1 -> R v1 -> T v2 -> R v2 ->
    encode c v1 = Ok bs -> encode c v2 = Ok bs ->
    deep_equal v1 v2.
Proof.
  intros c T R v1 v2 bs HB HT1 HR1 HT2 HR2 He1 He2.
  destruct (Built_sound false c T R HB v1 HT1) as [bs1 [Hw1 [_ Hr1]]].
  destruct (Built_sound false c T R HB v2 HT2) as [bs2 [Hw2 [_ Hr2]]].
  assert (Hbs1 : bs1 = bs) by (apply encode_writes in Hw1; congruence).
  assert (Hbs2 : bs2 = bs) by (apply encode_writes in Hw2; congruence).
  subst bs1 bs2.
  destruct (Hr1 HR1 _ (holds_start bs false)) as [a1 [Hd1 Ha1]].
  destruct (Hr2 HR2 _ (holds_start bs false)) as [a2 [Hd2 Ha2]].
  assert (Ha : a1 = a2) by congruence. subst a2.
  apply (deep_equal_trans _ a1); [apply deep_equal_sym; exact Ha1 | exact Ha2].
Qed.

Lemma maybe_a_built :
  Built false maybe_a
        (struct_of maybe_a_shape (fun _ => optional_of any_number))
        (struct_only maybe_a_shape (fun _ => optional_of (number_in 0 256))).
Proof.
  apply B_struct. intros k c. unfold maybe_a_shape. cbn [obj_get].
  destruct (String.eqb k "a"); [| discriminate].
  intros H. assert (Hc : c = optional Uint8) by congruence. subst c.
  apply B_optional, B_uint8.
Qed.

Lemma encode_injective_witness :
  deep_equal (VObj []) (VObj [("a"%string, VUndefined)]).
Proof.
  apply (encode_injective maybe_a _ _ (VObj []) (VObj [("a"%string, VUndefined)]) [x00]
           maybe_a_built).
  - eexists. split; [reflexivity |]. intros k [<- | []]. left. reflexivity.
  - eexists. split; [reflexivity | split; [| split; [| split]]].
    + intros k [<- | []]. left. reflexivity.
    + intros k [<- | []]. reflexivity.
    + intros [H | []]. discriminate H.
    + intros k _. reflexivity.
  - eexists. split; [reflexivity |]. intros k [<- | []]. left. reflexivity.
  - eexists. split; [reflexivity | split; [| split; [| split]]].
    + intros k [<- | []]. left. reflexivity.
    + intros k [<- | []]. reflexivity.
    + intros [H | []]. discriminate H.
    + intros k Hk. unfold get. cbn [obj_get].
      destruct (String.eqb_spec k "a") as [-> | _]; [| reflexivity].
      exfalso. apply Hk. left. reflexivity.
  - reflexivity.
  - reflexivity.
Defined.

(** ** Layouts of the sequence codecs *)

Lemma each_pushes (inner : Codec) (l : list Value) (chunks : list bytes) :
  Forall2 (writes inner) l chunks ->
  pushes (encode_each inner l) (concat chunks).
Proof.
  intros H. induction H as [| x bs xs rest Hx Hrest IH]; simpl.
  - apply pushes_ret.
  - apply pushes_bind; [exact Hx | exact IH].
Qed.

(** X12.  [array(inner)] writes the number of items on 4 bytes, big
    endian, and then the encodings of the items one after the other, with
    nothing between them and nothing after the last; with [maxLength],
    the same for an array within the limit. *)
Theorem array_layout :
  forall (inner : Codec) (maxLength : option nat) (l : list Value) (chunks : list bytes),
    exceeds (length l) maxLength = false ->
    Forall2 (writes inner) l chunks ->
    encode (array inner maxLength) (VArr l)
    = Ok (int_bytes 4 false (Z.of_nat (length l)) ++ concat chunks).
Proof.
  intros inner maxLength l chunks Hmax Hl.
  apply encode_writes. unfold writes.
  pose proof (each_pushes inner l chunks Hl) as Heach.
  destruct maxLength as [mx |]; simpl in Hmax; unfold array; cbn [e codec].
  - eapply pushes_lift; [reflexivity |]. rewrite Hmax.
    apply pushes_bind; [apply pushes_Uint32 | exact Heach].
  - eapply pushes_lift; [reflexivity |].
    apply pushes_bind; [apply pushes_Uint32 | exact Heach].
Qed.

Lemma array_layout_witness :
  encode (array Utf8 (Some 2)) (VArr [VStr "hi"; VStr EmptyString])
  = Ok (int_bytes 4 false (Z.of_nat 2)
        ++ concat [[x00; x00; x00; x02; x68; x69]; [x00; x00; x00; x00]]).
Proof.
  apply (array_layout Utf8 (Some 2) [VStr "hi"; VStr EmptyString]
           [[x00; x00; x00; x02; x68; x69]; [x00; x00; x00; x00]]).
  - reflexivity.
  - apply Forall2_cons; [apply (Utf8_writes "hi") |].
    apply Forall2_cons; [apply (Utf8_writes EmptyString) | apply Forall2_nil].
Defined.

Lemma skipn_cons_nth {A} (l : list A) (i : nat) (x dflt : A) (xs : list A) :
  skipn i l = x :: xs -> nth i l dflt = x /\ skipn (S i) l = xs.
Proof.
  revert i. induction l as [| y l IH]; intros i H.
  - destruct i; discriminate H.
  - destruct i as [| i].
    + simpl in H. injection H as -> ->. split; reflexivity.
    + simpl in H. apply IH in H. exact H.
Qed.

Lemma items_push (l : list Value) (rest : list Codec) :
  forall (i : nat) (chunks : list bytes),
    length rest <= length (skipn i l) ->
    Forall2 (fun cx bs => writes (fst cx) (snd cx) bs) (combine rest (skipn i l)) chunks ->
    pushes (encode_items rest (VArr l) i) (concat chunks).
Proof.
  induction rest as [| c rest IH]; intros i chunks Hlen H.
  - simpl in H. inversion H; subst. apply pushes_ret.
  - destruct (skipn i l) as [| x xs] eqn:Hskip; [simpl in Hlen; lia |].
    destruct (skipn_cons_nth l i x VUndefined xs Hskip) as [Hx Hxs].
    cbn [encode_items item]. rewrite Hx. clear Hx.
    simpl in H. inversion H as [| ? bs ? chunks' Hc Hrest]; subst.
    eapply pushes_lift; [reflexivity |].
    cbn [concat]. apply pushes_bind; [exact Hc |].
    apply IH.
    + cbn [length] in Hlen. lia.
    + exact Hrest.
Qed.

(** X13.  [tuple(...shape)] writes the encodings of the items in order,
    item [i] with codec [i], with no count and nothing between them; the
    items of the value beyond the length of the shape are not written. *)
Theorem tuple_layout :
  forall (shape : list Codec) (l : list Value) (chunks : list bytes),
    length shape <= length l ->
    Forall2 (fun cx bs => writes (fst cx) (snd cx) bs) (combine shape l) chunks ->
    encode (tuple shape) (VArr l) = Ok (concat chunks).
Proof.
  intros shape l chunks Hlen H.
  apply encode_writes. unfold writes, tuple. cbn [e].
  apply (items_push l shape 0 chunks); assumption.
Qed.

Lemma tuple_layout_witness :
  encode (tuple [Utf8; Uint8]) (VArr [VStr "hi"; VNum 7; VNum 9])
  = Ok (concat [[x00; x00; x00; x02; x68; x69]; [x07]]).
Proof.
  apply (tuple_layout [Utf8; Uint8] [VStr "hi"; VNum 7; VNum 9]
           [[x00; x00; x00; x02; x68; x69]; [x07]]).
  - simpl. lia.
  - apply Forall2_cons; [apply (Utf8_writes "hi") |].
    apply Forall2_cons; [apply (pushes_Uint8 7) | apply Forall2_nil].
Defined.

Lemma fields_push (shape : obj Codec) (o : obj Value) (ks : list string)
    (chunks : list bytes) :
  Forall2 (fun k bs => exists c, obj_get shape k = Some c /\ writes c (lookup o k) bs)
          ks chunks ->
  pushes (encode_fields shape ks (VObj o)) (concat chunks).
Proof.
  intros H. induction H as [| k bs keys rest [c [Hc Hw]] Hrest IH]; simpl.
  - apply pushes_ret.
  - unfold field. rewrite Hc.
    eapply pushes_lift; [reflexivity |].
    eapply pushes_lift; [reflexivity |].
    apply pushes_bind; [exact Hw | exact IH].
Qed.

(** X14.  [struct(shape)] writes the encodings of the fields in the
    order of [Object.keys(shape)], each with the codec of its key applied
    to what the value reads under that key (its own property; when it has
    none, what [Object.prototype] holds under that name, and [undefined]
    when that has none either), with no names and nothing between them.
    The order is the one of the keys of the shape, not of the value, and a
    key that is an array index comes before the others. *)
Theorem struct_layout :
  forall (shape : obj Codec) (o : obj Value) (chunks : list bytes),
    Forall2 (fun k bs => exists c, obj_get shape k = Some c /\ writes c (lookup o k) bs)
            (own_keys shape) chunks ->
    encode (struct shape) (VObj o) = Ok (concat chunks).
Proof.
  intros shape o chunks H.
  apply encode_writes. unfold writes, struct. cbn [e].
  apply fields_push. exact H.
Qed.

Lemma struct_layout_witness :
  own_keys b1_shape = ["1"%string; "b"%string] /\
  encode (struct b1_shape) (VObj [("b"%string, VNum 5); ("1"%string, VNum 7)])
  = Ok (concat [[x07]; [x05]]).
Proof.
  split; [reflexivity |].
  apply (struct_layout b1_shape [("b"%string, VNum 5); ("1"%string, VNum 7)] [[x07]; [x05]]).
  apply Forall2_cons; [exists Uint8; split; [reflexivity | apply (pushes_Uint8 7)] |].
  apply Forall2_cons; [exists Uint8; split; [reflexivity | apply (pushes_Uint8 5)] |].
  apply Forall2_nil.
Defined.

(** ** What a struct looks at *)

Lemma encode_fields_agree (shape : obj Codec) (o o' : obj Value) (ks : list string) :
  (forall k, In k ks -> lookup o k = lookup o' k) ->
  forall w, encode_fields shape ks (VObj o) w = encode_fields shape ks (VObj o') w.
Proof.
  induction ks as [| key rest IH]; intros Hks w; [reflexivity |].
  cbn [encode_fields]. unfold bind, lift.
  destruct (field shape key) as [c | x]; [| reflexivity].
  cbn [prop].
  rewrite (Hks key (or_introl eq_refl)).
  destruct (e c (lookup o' key) w) as [[[] | x] w']; [| reflexivity].
  apply IH. intros k Hk. apply Hks. right. exact Hk.
Qed.

Lemma sum_fields_agree (shape : obj Codec) (o o' : obj Value) (ks : list string) :
  (forall k, In k ks -> lookup o k = lookup o' k) ->
  forall acc, sum_fields shape ks (VObj o) acc = sum_fields shape ks (VObj o') acc.
Proof.
  induction ks as [| key rest IH]; intros Hks acc; [reflexivity |].
  cbn [sum_fields prop obind].
  rewrite (Hks key (or_introl eq_refl)).
  destruct (size_at shape key (lookup o' key)) as [n | x]; [| reflexivity]. cbn [obind].
  apply IH. intros k Hk. apply Hks. right. exact Hk.
Qed.

(** X15.  The encoder and the size of [struct(shape)] read the value
    only under the keys of the shape: two objects that read the same
    under those keys get the same size and the same encoding on every
    writer, whatever other properties they have and whatever the field
    codecs are.  So a property that the shape does not name is dropped
    without error, and a missing property counts as one that holds
    [undefined], unless [Object.prototype] has a property of that name:
    then the inherited built-in is what the field codec is given. *)
Theorem struct_reads_only_its_fields :
  forall (shape : obj Codec) (o o' : obj Value),
    (forall k, In k (own_keys shape) -> lookup o k = lookup o' k) ->
    (forall w : Writer, e (struct shape) (VObj o) w = e (struct shape) (VObj o') w) /\
    encode (struct shape) (VObj o) = encode (struct shape) (VObj o') /\
    size (struct shape) (VObj o) = size (struct shape) (VObj o').
Proof.
  intros shape o o' H.
  assert (He : forall w : Writer,
             e (struct shape) (VObj o) w = e (struct shape) (VObj o') w).
  { intros w. unfold struct. cbn [e]. apply encode_fields_agree. exact H. }
  split; [exact He | split].
  - unfold encode. rewrite He. reflexivity.
  - unfold size, struct. cbn [s]. apply sum_fields_agree. exact H.
Qed.

Lemma struct_reads_only_its_fields_witness :
  encode maybe_a (VObj [("a"%string, VNum 1); ("extra"%string, VStr "x")])
  = encode maybe_a (VObj [("a"%string, VNum 1)]) /\
  encode maybe_a (VObj []) = encode maybe_a (VObj [("a"%string, VUndefined)]).
Proof.
  split.
  - apply (struct_reads_only_its_fields maybe_a_shape
             [("a"%string, VNum 1); ("extra"%string, VStr "x")] [("a"%string, VNum 1)]).
    intros k [<- | []]. reflexivity.
  - apply (struct_reads_only_its_fields maybe_a_shape [] [("a"%string, VUndefined)]).
    intros k [<- | []]. reflexivity.
Defined.

(** A field that the value does not have is read from
    [Object.prototype] when that has a property of the name: under
    [struct({ toString: optional(Uint8) })] the empty object is encoded as
    a field that is present, the built-in function stored as the number 0
    that [setUint8] makes of it, and the object whose own [toString] holds
    [undefined] as a field that is absent. *)
Lemma struct_reads_inherited_members :
  encode maybe_toString (VObj []) = Ok [x01; x00] /\
  encode maybe_toString (VObj [("toString"%string, VUndefined)]) = Ok [x00] /\
  size maybe_toString (VObj []) = Ok 2.
Proof. repeat split; reflexivity. Qed.

(** ** partial *)

Lemma obj_set_keys {A} (o : obj A) (k k' : string) (a : A) :
  In k' (map fst (obj_set o k a)) <-> k' = k \/ In k' (map fst o).
Proof.
  induction o as [| [k0 a0] rest IH]; simpl.
  - split; intros [H | H]; auto.
  - destruct (String.eqb_spec k k0) as [-> | Hne]; simpl.
    + split; intros H; intuition congruence.
    + rewrite IH. split; intros H; intuition congruence.
Qed.

Lemma fromEntries_keys {A} (l : list (string * A)) (k : string) :
  In k (map fst (fromEntries l)) <-> In k (map fst l).
Proof.
  unfold fromEntries.
  assert (H : forall o0,
             In k (map fst (fold_left (fun o ka => obj_set o (fst ka) (snd ka)) l o0))
             <-> In k (map fst l) \/ In k (map fst o0)).
  { induction l as [| [k' a'] rest IH]; intros o0; simpl.
    - tauto.
    - rewrite IH, obj_set_keys. simpl. split; intros H; intuition auto. }
  rewrite H. simpl. tauto.
Qed.

Lemma entries_keys {A} (o : obj A) (k : string) :
  In k (map fst (entries o)) <-> In k (map fst o).
Proof.
  unfold entries. rewrite in_map_iff. split.
  - intros [[k' a] [Hk Hin]]. simpl in Hk. subst k'.
    apply in_flat_map in Hin. destruct Hin as [k0 [Hk0 Hin]].
    destruct (obj_get o k0) as [a0 |]; [| contradiction].
    destruct Hin as [Heq | []]. injection Heq as -> _.
    apply In_own_keys. exact Hk0.
  - intros Hin. destruct (obj_get_In o k Hin) as [a Ha].
    exists (k, a). split; [reflexivity |].
    apply in_flat_map. exists k. split; [apply In_own_keys; exact Hin |].
    rewrite Ha. left. reflexivity.
Qed.

Lemma pushes_absent : pushes (e Uint8 (VNum 0)) [x00].
Proof. apply (pushes_Uint8 0). Qed.

Lemma lookup_nothing (k : string) : inherited k = false -> lookup [] k = VUndefined.
Proof. intros H. unfold lookup. cbn [obj_get]. rewrite H. reflexivity. Qed.

Lemma absent_fields_push (shape : obj Codec) (ks : list string) :
  (forall k, In k ks -> exists c0, obj_get shape k = Some (optional c0)) ->
  (forall k, In k ks -> inherited k = false) ->
  pushes (encode_fields shape ks (VObj [])) (zeros (length ks)).
Proof.
  induction ks as [| key rest IH]; intros Hks Hplain.
  - apply pushes_ret.
  - destruct (Hks key (or_introl eq_refl)) as [c0 Hc].
    cbn [encode_fields]. unfold field. rewrite Hc.
    eapply pushes_lift; [reflexivity |].
    eapply pushes_lift; [reflexivity |].
    rewrite (lookup_nothing key (Hplain key (or_introl eq_refl))).
    change (zeros (length (key :: rest))) with ([x00] ++ zeros (length rest)).
    apply pushes_bind; [apply pushes_absent |].
    apply IH; intros k Hk; [apply Hks | apply Hplain]; right; exact Hk.
Qed.

Lemma takes_absent (c0 : Codec) :
  takes (d (optional c0)) [x00] (eq VUndefined).
Proof.
  unfold optional. cbn [d].
  change [x00] with (int_bytes 1 false 0 ++ []).
  apply (takes_bind _ _ _ _ (eq 0%Z)); [apply takes_flag; lia |].
  intros a <-. apply takes_ret. reflexivity.
Qed.

Lemma absent_fields_take (shape : obj Codec) (ks : list string) :
  (forall k, In k ks -> exists c0, obj_get shape k = Some (optional c0)) ->
  forall res0,
    takes (decode_fields shape ks res0) (zeros (length ks))
          (fun res => forall k,
               (In k ks -> get res k = VUndefined) /\
               (~ In k ks -> get res k = get res0 k)).
Proof.
  induction ks as [| key rest IH]; intros Hks res0.
  - apply takes_ret. intros k. split; [intros [] | reflexivity].
  - destruct (Hks key (or_introl eq_refl)) as [c0 Hc].
    cbn [decode_fields]. unfold field. rewrite Hc.
    eapply takes_lift; [reflexivity |].
    change (zeros (length (key :: rest))) with ([x00] ++ zeros (length rest)).
    apply (takes_bind _ _ _ _ (eq VUndefined)); [apply takes_absent |].
    intros x <-.
    destruct (assign_get res0 key VUndefined (fun _ => eq_refl)) as [res1 [Hassign Hget]].
    eapply takes_lift; [exact Hassign |].
    eapply takes_weaken.
    { apply IH. intros k Hk. apply Hks. right. exact Hk. }
    intros res Hres k. simpl.
    destruct (Hres k) as [Hin Hout].
    destruct (in_dec string_dec k rest) as [Hk | Hk].
    + split; [intros _; apply Hin; exact Hk | intros Hn; exfalso; apply Hn; auto].
    + rewrite (Hout Hk), Hget. split.
      * intros [<- | Hk']; [| contradiction].
        rewrite String.eqb_refl. reflexivity.
      * intros Hn. destruct (String.eqb_spec k key) as [-> | _]; [| reflexivity].
        exfalso. apply Hn. left. reflexivity.
Qed.

(** X16.  [partial(inner)] is the struct over the keys of
    [inner.schema] in which every field codec is the one of [inner]
    wrapped in [optional].  Whatever the field codecs are, when no field
    is named like a property of [Object.prototype], it encodes the empty
    object as one zero byte for each field, and decodes those bytes to an
    object deep-equal to the empty one. *)
Theorem partial_of_empty_object :
  forall (inner c : Codec) (shape : obj Codec),
    schema inner = Fields shape ->
    partial inner = Ok c ->
    (forall k, In k (map fst shape) -> inherited k = false) ->
    exists shape' : obj Codec,
      c = struct shape' /\
      (forall k, In k (map fst shape') <-> In k (map fst shape)) /\
      (forall k c', obj_get shape' k = Some c' ->
                    exists c0, obj_get shape k = Some c0 /\ c' = optional c0) /\
      encode c (VObj []) = Ok (zeros (length shape')) /\
      exists v : Value,
        decode c (zeros (length shape')) = Ok v /\ deep_equal v (VObj []).
Proof.
  intros inner c shape Hschema Hpartial Hplain.
  unfold partial, schema_entries in Hpartial. rewrite Hschema in Hpartial.
  cbn [obind] in Hpartial. injection Hpartial as <-.
  set (shape' := fromEntries (map (fun kc => (fst kc, optional (snd kc))) (entries shape))).
  assert (Hfield : forall k c', obj_get shape' k = Some c' ->
                                exists c0, obj_get shape k = Some c0 /\ c' = optional c0).
  { intros k c' Hget. apply fromEntries_get, in_map_iff in Hget.
    destruct Hget as [[k0 c0] [Heq Hin]]. cbn [fst snd] in Heq.
    exists c0. split; [| congruence].
    assert (Hk : k0 = k) by congruence. subst k0.
    apply entries_In. exact Hin. }
  assert (Hkeys : forall k, In k (own_keys shape') ->
                            exists c0, obj_get shape' k = Some (optional c0)).
  { intros k Hk. destruct (own_keys_field shape' k Hk) as [c' Hc'].
    destruct (Hfield k c' Hc') as [c0 [_ ->]]. exists c0. exact Hc'. }
  assert (Hsame : forall k, In k (map fst shape') <-> In k (map fst shape)).
  { intros k. unfold shape'. rewrite fromEntries_keys, map_map. cbn [fst].
    apply entries_keys. }
  assert (Hplain' : forall k, In k (own_keys shape') -> inherited k = false).
  { intros k Hk. apply Hplain, Hsame, In_own_keys. exact Hk. }
  exists shape'. split; [reflexivity | split; [exact Hsame | split; [exact Hfield | split]]].
  - apply encode_writes. unfold writes, struct. cbn [e].
    rewrite <- (own_keys_length shape').
    apply absent_fields_push; assumption.
  - rewrite <- (own_keys_length shape').
    destruct (absent_fields_take shape' (own_keys shape') Hkeys []
                (reader (zeros (length (own_keys shape'))) 0) (holds_start _ false))
      as [res [Hd Hres]].
    exists (VObj res). split.
    + unfold decode, struct. cbn [d]. unfold reader.
      rewrite (bind_ok _ _ _ _ _ Hd). reflexivity.
    + constructor. intros k.
      destruct (in_dec string_dec k (own_keys shape')) as [Hk | Hk].
      * rewrite (proj1 (Hres k) Hk). constructor.
      * rewrite (proj2 (Hres k) Hk). constructor.
Qed.

Lemma partial_of_empty_object_witness :
  partial ab_struct = Ok ab_partial /\
  exists shape' : obj Codec,
    ab_partial = struct shape' /\
    (forall k, In k (map fst shape') <-> In k (map fst ab_shape)) /\
    (forall k c', obj_get shape' k = Some c' ->
                  exists c0, obj_get ab_shape k = Some c0 /\ c' = optional c0) /\
    encode ab_partial (VObj []) = Ok (zeros (length shape')) /\
    exists v : Value,
      decode ab_partial (zeros (length shape')) = Ok v /\ deep_equal v (VObj []).
Proof.
  split; [reflexivity |].
  apply (partial_of_empty_object ab_struct ab_partial ab_shape eq_refl eq_refl).
  intros k [<- | [<- | []]]; reflexivity.
Defined.

(** With a field named like a property of [Object.prototype] the empty
    object is not encoded as zero bytes: under
    [partial(struct({ toString: Uint8 }))] the built-in [toString] is
    read, and encoded as a field that is present. *)
Lemma partial_reads_inherited_members :
  partial (struct [("toString"%string, Uint8)]) = Ok maybe_toString /\
  encode maybe_toString (VObj []) = Ok [x01; x00].
Proof. split; reflexivity. Qed.

(** ** intersection *)

Lemma set_all_other {A} (l : list (string * A)) (o0 : obj A) (k : string) :
  ~ In k (map fst l) ->
  obj_get (fold_left (fun o ka => obj_set o (fst ka) (snd ka)) l o0) k = obj_get o0 k.
Proof.
  revert o0. induction l as [| [k' a'] rest IH]; intros o0 Hk; simpl; [reflexivity |].
  rewrite IH by (intros Hin; apply Hk; right; exact Hin).
  rewrite obj_get_set.
  destruct (String.eqb_spec k k') as [-> | _]; [| reflexivity].
  exfalso. apply Hk. left. reflexivity.
Qed.

Lemma set_all_same {A} (l : list (string * A)) (o0 : obj A) (k : string) (a : A) :
  In k (map fst l) ->
  (forall a', In (k, a') l -> a' = a) ->
  obj_get (fold_left (fun o ka => obj_set o (fst ka) (snd ka)) l o0) k = Some a.
Proof.
  revert o0. induction l as [| [k' a'] rest IH]; intros o0 Hin Hall; simpl.
  - destruct Hin.
  - destruct (in_dec string_dec k (map fst rest)) as [Hrest | Hrest].
    + apply IH; [exact Hrest |]. intros a0 H0. apply Hall. right. exact H0.
    + rewrite set_all_other by exact Hrest.
      rewrite obj_get_set.
      destruct Hin as [Hk | Hk]; [| contradiction]. simpl in Hk. subst k'.
      rewrite String.eqb_refl. f_equal. apply Hall. left. reflexivity.
Qed.

Lemma set_entries (shape : obj Codec) (o0 : obj Codec) (k : string) :
  obj_get (fold_left (fun o ka => obj_set o (fst ka) (snd ka)) (entries shape) o0) k
  = match obj_get shape k with
    | Some c => Some c
    | None => obj_get o0 k
    end.
Proof.
  destruct (obj_get shape k) as [c |] eqn:Hget.
  - apply set_all_same.
    + apply entries_keys. apply in_map_iff. exists (k, c).
      split; [reflexivity | apply obj_get_Some_In; exact Hget].
    + intros c' Hin. apply entries_In in Hin. congruence.
  - apply set_all_other. intros Hin. apply (proj1 (entries_keys shape k)) in Hin.
    destruct (obj_get_In shape k Hin) as [c Hc]. congruence.
Qed.

Lemma all_entries_of (schemas : list Codec) (shapes : list (obj Codec)) :
  Forall2 (fun c shape => schema c = Fields shape) schemas shapes ->
  all_entries schemas = Ok (concat (map entries shapes)).
Proof.
  intros H. induction H as [| c shape cs rest Hc Hrest IH]; [reflexivity |].
  cbn [all_entries]. unfold schema_entries. rewrite Hc, IH. reflexivity.
Qed.

Lemma set_all_entries (shapes : list (obj Codec)) (o0 : obj Codec) (k : string) :
  obj_get (fold_left (fun o ka => obj_set o (fst ka) (snd ka))
                     (concat (map entries shapes)) o0) k
  = match last_field shapes k with
    | Some c => Some c
    | None => obj_get o0 k
    end.
Proof.
  revert o0. induction shapes as [| shape rest IH]; intros o0; [reflexivity |].
  cbn [map concat last_field]. rewrite fold_left_app, IH, set_entries.
  destruct (last_field rest k); reflexivity.
Qed.

(** X17.  [intersection(schemas)] is one struct over all the fields of
    the schemas: a key has a field in it exactly when some schema has
    one, and when several schemas have the key, the codec is the one of
    the last of them. *)
Theorem intersection_later_schema_wins :
  forall (schemas : list Codec) (shapes : list (obj Codec)),
    Forall2 (fun c shape => schema c = Fields shape) schemas shapes ->
    exists shape' : obj Codec,
      intersection schemas = Ok (struct shape') /\
      forall k, obj_get shape' k = last_field shapes k.
Proof.
  intros schemas shapes H.
  exists (fromEntries (concat (map entries shapes))). split.
  - unfold intersection. rewrite (all_entries_of schemas shapes H). reflexivity.
  - intros k. unfold fromEntries. rewrite set_all_entries.
    destruct (last_field shapes k); reflexivity.
Qed.

Lemma intersection_later_schema_wins_witness :
  exists shape' : obj Codec,
    intersection [ab_struct; ac_struct] = Ok (struct shape') /\
    forall k, obj_get shape' k = last_field [ab_shape; ac_shape] k.
Proof.
  apply (intersection_later_schema_wins [ab_struct; ac_struct] [ab_shape; ac_shape]).
  apply Forall2_cons; [reflexivity |].
  apply Forall2_cons; [reflexivity | apply Forall2_nil].
Defined.

(** ** discriminatedUnion *)




(** ** The drivers [write] and [read] *)

Lemma sound_at (c : Codec) (T R : dom) (v : Value) (bs : bytes) :
  sound false c T R -> T v -> R v -> encode c v = Ok bs ->
  writes c v bs /\ reads c bs v.
Proof.
  intros Hc HT HR He. destruct (Hc v HT) as [bs' [Hw [_ Hr]]].
  assert (Hbs : bs' = bs) by (apply encode_writes in Hw; congruence). subst bs'.
  split; [exact Hw | apply Hr; exact HR].
Qed.

Lemma write_values_push (items : list (Codec * Value)) (chunks : list bytes) :
  Forall2 (fun cv bs => writes (fst cv) (snd cv) bs) items chunks ->
  pushes (write_values items) (concat chunks).
Proof.
  intros H. induction H as [| [c v] bs rest chunks' Hw Hrest IH]; simpl.
  - apply pushes_ret.
  - apply pushes_bind; [exact Hw | exact IH].
Qed.

Lemma read_values_take (items : list (Codec * Value)) (chunks : list bytes) :
  Forall2 (fun cv bs => reads (fst cv) bs (snd cv)) items chunks ->
  takes (read_values (map fst items)) (concat chunks)
        (fun vs => Forall2 deep_equal vs (map snd items)).
Proof.
  intros H. induction H as [| [c v] bs rest chunks' Hr Hrest IH]; simpl.
  - apply takes_ret. constructor.
  - apply (takes_bind _ _ _ _ (fun x => deep_equal x v)); [exact Hr |].
    intros x Hx.
    apply (takes_map _ _ _ (fun vs => Forall2 deep_equal vs (map snd rest))); [exact IH |].
    intros vs Hvs. constructor; assumption.
Qed.

(** X19.  The driver [write] appends and the driver [read] consumes in
    sequence: writing values one after the other to one growable writer
    and flushing gives the concatenation of their encodings, and
    [read(reader, c1, ..., cn)] on a buffer that starts with that
    concatenation returns the values, each decoded by its codec from where
    the one before stopped, and leaves the reader at the end of the last
    encoding. *)
Theorem write_and_read_in_sequence :
  forall (items : list (Codec * Value)) (chunks : list bytes) (rest : bytes),
    Forall2 (fun cv bs => writes (fst cv) (snd cv) bs /\ reads (fst cv) bs (snd cv))
            items chunks ->
    fst (write_values items (writer None)) = Ok tt /\
    flush (snd (write_values items (writer None))) = Ok (concat chunks) /\
    exists vs : list Value,
      read_values (map fst items) (reader (concat chunks ++ rest) 0)
      = (Ok vs, reader (concat chunks ++ rest) (length (concat chunks))) /\
      Forall2 deep_equal vs (map snd items).
Proof.
  intros items chunks rest H.
  assert (Hw : Forall2 (fun cv bs => writes (fst cv) (snd cv) bs) items chunks)
    by (eapply Forall2_impl; [| exact H]; intros cv bs [Hcv _]; exact Hcv).
  assert (Hr : Forall2 (fun cv bs => reads (fst cv) bs (snd cv)) items chunks)
    by (eapply Forall2_impl; [| exact H]; intros cv bs [_ Hcv]; exact Hcv).
  destruct (write_values_push items chunks Hw) as [pieces [Hp He]].
  unfold writer. rewrite (He [] 0). cbn [fst snd app Nat.add].
  split; [reflexivity | split].
  - rewrite <- Hp. apply flush_growable.
  - destruct (read_values_take items chunks Hr (reader (concat chunks ++ rest) 0))
      as [vs [Hd Hvs]].
    + exists [], rest. split; reflexivity.
    + exists vs. split; [exact Hd | exact Hvs].
Qed.

Lemma write_and_read_in_sequence_witness :
  fst (write_values [(Utf8, VStr "hi"); (Uint8, VNum 7)] (writer None)) = Ok tt /\
  flush (snd (write_values [(Utf8, VStr "hi"); (Uint8, VNum 7)] (writer None)))
  = Ok (concat [[x00; x00; x00; x02; x68; x69]; [x07]]) /\
  exists vs : list Value,
    read_values (map fst [(Utf8, VStr "hi"); (Uint8, VNum 7)])
                (reader (concat [[x00; x00; x00; x02; x68; x69]; [x07]] ++ [xff]) 0)
    = (Ok vs, reader (concat [[x00; x00; x00; x02; x68; x69]; [x07]] ++ [xff])
                     (length (concat [[x00; x00; x00; x02; x68; x69]; [x07]]))) /\
    Forall2 deep_equal vs (map snd [(Utf8, VStr "hi"); (Uint8, VNum 7)]).
Proof.
  apply (write_and_read_in_sequence [(Utf8, VStr "hi"); (Uint8, VNum 7)]
           [[x00; x00; x00; x02; x68; x69]; [x07]] [xff]).
  apply Forall2_cons; [| apply Forall2_cons; [| apply Forall2_nil]].
  - apply (sound_at Utf8 any_string (text_below 4294967296)).
    + apply Utf8_sound.
    + exists "hi"%string. reflexivity.
    + exists "hi"%string. split; [reflexivity | split; [apply plain_hi | simpl; lia]].
    + reflexivity.
  - apply (sound_at Uint8 any_number (number_in 0 256)).
    + apply uint8_sound.
    + exists 7%Z. reflexivity.
    + exists 7%Z. split; [reflexivity | lia].
    + reflexivity.
Defined.

(** ** The envelope *)

(** X20.  [envelope(inner)] encodes the value with [inner] into a buffer
    of its own and writes the 4-byte magic number, the 2-byte version 1,
    the length of that buffer on 4 bytes and the buffer, whatever [inner]
    is; its size is the size with [inner] plus those 10 bytes.  An
    exception of the inner encoding is the exception of [encode]. *)
Theorem envelope_layout :
  forall (inner : Codec) (v : Value),
    (forall bs : bytes,
        encode inner v = Ok bs ->
        encode (envelope inner) v
        = Ok ([xb1; x6e; xc0; xde] ++ [x00; x01]
              ++ int_bytes 4 false (Z.of_nat (length bs)) ++ bs)) /\
    (forall x : exn,
        encode inner v = Throw x -> encode (envelope inner) v = Throw x) /\
    (forall n : nat,
        size inner v = Ok n -> size (envelope inner) v = Ok (10 + n)).
Proof.
  intros inner v. split; [| split].
  - intros bs He.
    apply encode_writes. unfold writes, envelope. cbn [e codec].
    change ([xb1; x6e; xc0; xde] ++ [x00; x01]
            ++ int_bytes 4 false (Z.of_nat (length bs)) ++ bs) with (framed bs).
    unfold framed. push_steps.
  - intros x He. unfold encode at 1, envelope. cbn [e codec].
    unfold writer, bind. rewrite e_Uint32, e_Uint16. unfold lift. rewrite He. reflexivity.
  - intros n Hn. unfold size at 1, envelope. cbn [s codec]. rewrite Hn. reflexivity.
Qed.

Lemma envelope_layout_witness :
  encode framed_text (VStr "hi")
  = Ok ([xb1; x6e; xc0; xde] ++ [x00; x01]
        ++ int_bytes 4 false (Z.of_nat (length [x00; x00; x00; x02; x68; x69]))
        ++ [x00; x00; x00; x02; x68; x69]) /\
  encode (envelope two_bytes_text) (VStr "abc") = Throw (Error "utf8 too long: 3") /\
  size framed_text (VStr "hi") = Ok (10 + 6).
Proof.
  pose proof (envelope_layout Utf8 (VStr "hi")) as [Hok [_ Hsize]].
  split; [| split].
  - apply (Hok [x00; x00; x00; x02; x68; x69]). reflexivity.
  - apply (proj1 (proj2 (envelope_layout two_bytes_text (VStr "abc")))). reflexivity.
  - apply (Hsize 6). reflexivity.
Defined.

Lemma envelope_d_framed (inner : Codec) (payload : bytes) (r : Reader) :
  (Z.of_nat (length payload) < 4294967296)%Z ->
  holds r (framed payload) ->
  d (envelope inner) r
  = (fst (d inner (reader payload 0)), advance r (10 + length payload)).
Proof.
  intros Hlen Hr. unfold framed in Hr.
  unfold envelope. cbn [d codec].
  pose proof (holds_app_l _ _ _ Hr) as H1.
  pose proof (holds_app_r _ _ _ Hr) as H2. rewrite int_bytes_length in H2.
  pose proof (holds_app_l _ _ _ H2) as H3.
  pose proof (holds_app_r _ _ _ H2) as H4. rewrite int_bytes_length in H4.
  pose proof (holds_app_l _ _ _ H4) as H5.
  pose proof (holds_app_r _ _ _ H4) as H6. rewrite int_bytes_length in H6.
  rewrite (bind_d_num _ _ _ _ _ (d_num_Uint32 r _ H1 (int_bytes_length 4 false HEADER))).
  rewrite (uint_roundtrip 4) by (unfold HEADER; simpl; lia).
  rewrite Z.eqb_refl. cbn [negb].
  rewrite (bind_d_num _ _ _ _ _ (d_num_Uint16 _ _ H3 (int_bytes_length 2 false VERSION))).
  rewrite (uint_roundtrip 2) by (unfold VERSION; simpl; lia).
  unfold VERSION. cbn [Z.eqb Pos.eqb negb].
  rewrite (bind_d_num _ _ _ _ _ (d_num_Uint32 _ _ H5 (int_bytes_length 4 false _))).
  rewrite (uint_roundtrip 4) by (change (256 ^ Z.of_nat 4)%Z with 4294967296%Z; lia).
  rewrite Nat2Z.id.
  rewrite <- (app_nil_r payload) in H6. apply holds_app_l in H6.
  rewrite (bind_ok _ _ _ payload _
             (read_holds (fun b o en => Ok (u8_slice b o en)) _ payload payload H6
                         (f_equal Ok (holds_slice _ _ H6)))).
  unfold lift. rewrite !advance_advance. reflexivity.
Qed.

Lemma Bytes_decode_short (n : nat) (data : bytes) :
  length data < n -> (Z.of_nat n < 4294967296)%Z ->
  decode Bytes (prefixed n data) = Ok (VBytes data).
Proof.
  intros Hshort Hn.
  assert (Hslice : u8_slice (prefixed n data) 4 (4 + n) = data).
  { unfold prefixed.
    apply (u8_slice_short (int_bytes 4 false (Z.of_nat n)) data n). lia. }
  unfold decode, Bytes. cbn [d codec].
  rewrite (bind_d_num _ _ _ _ _
             (d_num_Uint32 _ _ (holds_count false n data) (int_bytes_length 4 false _))).
  rewrite (count_value n Hn).
  unfold read, advance, reader, slice_fn. cbn [checked buf pos].
  change (0 + 4) with 4. rewrite Hslice. reflexivity.
Qed.

(** X21.  The decoder of [envelope(inner)] hands [inner] a new unchecked
    reader over a copy of the payload.  So the result of [tryDecode] on an
    envelope is the one of the unchecked [decode] of [inner] on the
    payload: the bounds check of [tryDecode] covers the frame, not what
    [inner] reads.  With [Bytes] inside, a payload whose own length field
    announces more bytes than the payload has is accepted by [tryDecode],
    which returns the bytes that are there. *)
Theorem envelope_payload_is_unchecked :
  forall (inner : Codec) (payload rest : bytes),
    (Z.of_nat (length payload) < 4294967296)%Z ->
    decode (envelope inner) (framed payload ++ rest) = decode inner payload /\
    tryDecode (envelope inner) (framed payload ++ rest)
    = match decode inner payload with
      | Ok v => IsOk v
      | Throw x => IsErr (exn_message x)
      end /\
    (forall (n : nat) (data : bytes),
        payload = prefixed n data -> length data < n ->
        (Z.of_nat n < 4294967296)%Z ->
        tryDecode (envelope Bytes) (framed payload ++ rest) = IsOk (VBytes data) /\
        tryDecode Bytes payload
        = IsErr (exn_message (out_of_bounds n 4 (length payload)))).
Proof.
  intros inner payload rest Hlen.
  assert (Hh : forall chk, holds (mkReader chk (framed payload ++ rest) 0) (framed payload))
    by (intros chk; exists [], rest; split; reflexivity).
  assert (Htry : forall c : Codec,
             tryDecode (envelope c) (framed payload ++ rest)
             = match decode c payload with
               | Ok v => IsOk v
               | Throw x => IsErr (exn_message x)
               end).
  { intros c. unfold tryDecode, checkedReader, decode.
    rewrite (envelope_d_framed c payload _ Hlen (Hh true)). reflexivity. }
  split; [| split; [apply Htry |]].
  - unfold decode at 1, reader.
    rewrite (envelope_d_framed inner payload _ Hlen (Hh false)). reflexivity.
  - intros n data Hp Hshort Hn. subst payload.
    split.
    + rewrite Htry, (Bytes_decode_short n data Hshort Hn). reflexivity.
    + unfold tryDecode, Bytes. cbn [d codec].
      rewrite (bind_d_num _ _ _ _ _
                 (d_num_Uint32 _ _ (holds_count true n data) (int_bytes_length 4 false _))).
      rewrite (count_value n Hn).
      unfold read, ensure. cbn [checked advance checkedReader buf pos].
      rewrite prefixed_length.
      destruct (Nat.ltb_spec (4 + length data) (0 + 4 + n)); [reflexivity | lia].
Qed.

Lemma envelope_payload_is_unchecked_witness :
  tryDecode framed_bytes (framed [x00; x00; x00; x05; x01; x02] ++ [])
  = IsOk (VBytes [x01; x02]) /\
  tryDecode Bytes [x00; x00; x00; x05; x01; x02]
  = IsErr (exn_message (out_of_bounds 5 4 (length [x00; x00; x00; x05; x01; x02]))).
Proof.
  apply (proj2 (proj2 (envelope_payload_is_unchecked
                         Bytes [x00; x00; x00; x05; x01; x02] [] ltac:(simpl; lia)))
               5 [x01; x02]); [reflexivity | simpl; lia | lia].
Defined.

(** ** validate *)

(** X22.  [validate(codec, pre, post)] runs [pre] on the value before
    anything is written: when [pre] throws, the writer is left as it was
    and [encode] throws that exception; the size descriptor is the one of
    [codec] and runs no check, so [size] still answers for a value that
    [pre] rejects.  [post] runs on the decoded value: when it throws, the
    decoder throws that exception with the reader already past the bytes
    of the value.  When the checks pass, the codec encodes and decodes as
    [codec] does. *)
Theorem validate_runs_checks :
  forall (c : Codec) (pre post : option (Value -> outcome unit)),
    (forall (v : Value) (x : exn),
        run_check pre v = Throw x ->
        (forall w : Writer, e (validate c pre post) v w = (Throw x, w)) /\
        encode (validate c pre post) v = Throw x /\
        size (validate c pre post) v = size c v) /\
    (forall v : Value,
        run_check pre v = Ok tt ->
        (forall w : Writer, e (validate c pre post) v w = e c v w) /\
        encode (validate c pre post) v = encode c v) /\
    (forall (r r' : Reader) (v : Value),
        d c r = (Ok v, r') ->
        d (validate c pre post) r
        = match run_check post v with
          | Ok _ => (Ok v, r')
          | Throw x => (Throw x, r')
          end) /\
    (forall (r r' : Reader) (x : exn),
        d c r = (Throw x, r') -> d (validate c pre post) r = (Throw x, r')).
Proof.
  intros c pre post. split; [| split; [| split]].
  - intros v x Hpre.
    assert (He : forall w : Writer, e (validate c pre post) v w = (Throw x, w)).
    { intros w. unfold validate. cbn [e]. unfold bind, lift. rewrite Hpre. reflexivity. }
    split; [exact He | split; [| reflexivity]].
    unfold encode. rewrite He. reflexivity.
  - intros v Hpre.
    assert (He : forall w : Writer, e (validate c pre post) v w = e c v w).
    { intros w. unfold validate. cbn [e]. unfold bind, lift. rewrite Hpre. reflexivity. }
    split; [exact He |]. unfold encode. rewrite He. reflexivity.
  - intros r r' v Hd. unfold validate. cbn [d].
    rewrite (bind_ok _ _ _ _ _ Hd). unfold bind, lift, ret.
    destruct (run_check post v) as [[] | x]; reflexivity.
  - intros r r' x Hd. unfold validate. cbn [d].
    apply bind_throw. exact Hd.
Qed.

Lemma validate_runs_checks_witness :
  e small_number (VNum 12) (writer None) = (Throw (Error "too big"), writer None) /\
  encode small_number (VNum 12) = Throw (Error "too big") /\
  size small_number (VNum 12) = size Uint8 (VNum 12) /\
  encode small_number (VNum 7) = encode Uint8 (VNum 7) /\
  d small_number (reader [x0c; x07] 0) = (Throw (Error "too big"), reader [x0c; x07] 1) /\
  d small_number (reader [] 0)
  = (Throw (RangeError "Offset is outside the bounds of the DataView"), reader [] 0).
Proof.
  pose proof (validate_runs_checks Uint8 (Some below_ten) (Some below_ten))
    as [Hpre [Hok [Hpost Hfail]]].
  destruct (Hpre (VNum 12) (Error "too big") eq_refl) as [H1 [H2 H3]].
  split; [apply H1 | split; [exact H2 | split; [exact H3 | split; [| split]]]].
  - apply (Hok (VNum 7)). reflexivity.
  - apply (Hpost (reader [x0c; x07] 0) (reader [x0c; x07] 1) (VNum 12)). reflexivity.
  - apply (Hfail (reader [] 0) (reader [] 0)). reflexivity.
Defined.

(** ** A fixed writer that is larger than needed *)

(** X23.  A fixed writer never shrinks its buffer.  For every sequence
    of write operations that each act on their slot only (in a buffer
    with room for [size] bytes at the offset, the callback returns
    normally, changes only those bytes, and leaves there bytes that depend
    only on the ones that were there), when the fixed writer is allocated
    with [k] bytes more than the operations fill, [flush] returns the
    bytes that the growable writer returns followed by [k] zero bytes, so
    its length is the allocated size, not the size written. *)
Theorem oversized_fixed_writer_pads :
  forall (ops : list (nat * WriteFn)) (k : nat),
    Forall acts_on_slot ops ->
    exists out : bytes,
      fst (write_all ops (writer None)) = Ok tt /\
      flush (snd (write_all ops (writer None))) = Ok out /\
      length out = total_size ops /\
      fst (write_all ops (writer (Some (total_size ops + k)))) = Ok tt /\
      flush (snd (write_all ops (writer (Some (total_size ops + k))))) = Ok (out ++ zeros k).
Proof.
  intros ops k H.
  destruct (write_all_slots ops H) as [chunks [Hsize [Hfix Hgrow]]].
  exists (concat chunks).
  specialize (Hfix [] k). specialize (Hgrow [] 0).
  simpl in Hfix, Hgrow.
  unfold writer. rewrite Hfix, Hgrow. simpl.
  rewrite <- Hsize.
  repeat split; try reflexivity.
  apply flush_growable.
Qed.

Lemma oversized_fixed_writer_pads_witness :
  exists out : bytes,
    fst (write_all small_writes (writer None)) = Ok tt /\
    flush (snd (write_all small_writes (writer None))) = Ok out /\
    length out = total_size small_writes /\
    fst (write_all small_writes (writer (Some (total_size small_writes + 2)))) = Ok tt /\
    flush (snd (write_all small_writes (writer (Some (total_size small_writes + 2)))))
    = Ok (out ++ zeros 2).
Proof.
  exact (oversized_fixed_writer_pads small_writes 2 small_writes_act).
Defined.

(** ** Encoders as sequences of write operations *)












(** *** The primitive codecs *)














(** *** The combinators *)

















(** ** Truncated input and the checked reader *)

Lemma pushes_unique (m : M Writer unit) (bs1 bs2 : bytes) :
  pushes m bs1 -> pushes m bs2 -> bs1 = bs2.
Proof.
  intros [c1 [H1 E1]] [c2 [H2 E2]].
  specialize (E1 [] 0). specialize (E2 [] 0). rewrite E1 in E2.
  injection E2 as Hc _. simpl in Hc. subst c2. congruence.
Qed.

Lemma tight_of sized (c : Codec) (T R : dom) :
  sound sized c T R -> starving c T R -> tight c T R.
Proof.
  intros Hsound Hst v HT HR.
  destruct (Hsound v HT) as [bs [Hw [_ Hr]]].
  destruct (Hst v HT HR) as [bs' [Hw' Hs]].
  rewrite (pushes_unique _ _ _ Hw' Hw) in Hs.
  exists bs. split; [exact Hw | split; [apply Hr; exact HR | exact Hs]].
Qed.

Lemma starves_nil {A} (m : M Reader A) : starves m [].
Proof.
  intros r pre p q _ _ _ Hbs Hq. exfalso.
  symmetry in Hbs. apply app_eq_nil in Hbs. destruct Hbs as [_ ->]. apply Hq. reflexivity.
Qed.

Lemma starves_read {A} (n : nat) (fn : ReadFn A) (bs : bytes) :
  length bs = n -> starves (read n fn) bs.
Proof.
  intros Hn r pre p q Hchk Hbuf Hpos Hbs Hq.
  exists n, (pos r), r. unfold read, ensure. rewrite Hchk.
  assert (Hlt : length (buf r) < pos r + n).
  { rewrite Hbuf, Hpos, length_app, <- Hn, Hbs, length_app.
    destruct q; [congruence | simpl; lia]. }
  apply Nat.ltb_lt in Hlt. rewrite Hlt. reflexivity.
Qed.

Lemma starves_first {A B} (m : M Reader A) (k : A -> M Reader B) (bs : bytes) :
  starves m bs -> starves (bind m k) bs.
Proof.
  intros H r pre p q Hchk Hbuf Hpos Hbs Hq.
  destruct (H r pre p q Hchk Hbuf Hpos Hbs Hq) as [n [at_ [r' Hm]]].
  exists n, at_, r'. unfold bind. rewrite Hm. reflexivity.
Qed.

Lemma starves_lift {A B} (o : outcome A) (a : A) (k : A -> M Reader B) (bs : bytes) :
  o = Ok a -> starves (k a) bs -> starves (bind (lift o) k) bs.
Proof.
  intros -> H r pre p q Hchk Hbuf Hpos Hbs Hq.
  destruct (H r pre p q Hchk Hbuf Hpos Hbs Hq) as [n [at_ [r' Hm]]].
  exists n, at_, r'. unfold bind, lift. exact Hm.
Qed.

Lemma app_split {A} (a b p q : list A) :
  a ++ b = p ++ q ->
  (exists l, l <> [] /\ a = p ++ l) \/ (exists l, p = a ++ l /\ b = l ++ q).
Proof.
  revert p. induction a as [| x a IH]; intros p H.
  - right. exists p. split; [reflexivity | exact H].
  - destruct p as [| y p].
    + left. exists (x :: a). split; [discriminate | reflexivity].
    + simpl in H. injection H as -> H.
      destruct (IH p H) as [[l [Hl ->]] | [l [-> ->]]].
      * left. exists l. split; [exact Hl | reflexivity].
      * right. exists l. split; reflexivity.
Qed.

Lemma starves_bind {A B} (m : M Reader A) (k : A -> M Reader B)
    (bs1 bs2 : bytes) (P : A -> Prop) :
  takes m bs1 P -> starves m bs1 ->
  (forall a, P a -> starves (k a) bs2) ->
  starves (bind m k) (bs1 ++ bs2).
Proof.
  intros Ht Hs Hk r pre p q Hchk Hbuf Hpos Hbs Hq.
  destruct (app_split bs1 bs2 p q Hbs) as [[l [Hl H1]] | [l [Hp H2]]].
  - destruct (Hs r pre p l Hchk Hbuf Hpos H1 Hl) as [n [at_ [r' Hm]]].
    exists n, at_, r'. unfold bind. rewrite Hm. reflexivity.
  - subst p.
    assert (Hr : holds r bs1) by (exists pre, l; split; [exact Hbuf | exact Hpos]).
    destruct (Ht r Hr) as [a [Hm Pa]].
    destruct (Hk a Pa (advance r (length bs1)) (pre ++ bs1) l q) as [n [at_ [r' Hka]]].
    + exact Hchk.
    + simpl. rewrite Hbuf, app_assoc. reflexivity.
    + simpl. rewrite Hpos, length_app. reflexivity.
    + exact H2.
    + exact Hq.
    + exists n, at_, r'. unfold bind. rewrite Hm. exact Hka.
Qed.

Lemma starves_d_num (c : Codec) (bs : bytes) : starves (d c) bs -> starves (d_num c) bs.
Proof. intros H. unfold d_num. apply starves_first. exact H. Qed.

Lemma starves_count (x : Z) : starves (d_num Uint32) (int_bytes 4 false x).
Proof. apply starves_d_num, starves_read, int_bytes_length. Qed.

Lemma starves_Uint16 (x : Z) : starves (d_num Uint16) (int_bytes 2 false x).
Proof. apply starves_d_num, starves_read, int_bytes_length. Qed.

Lemma starves_flag (x : Z) : starves (d_num Uint8) (int_bytes 1 false x).
Proof. apply starves_d_num, starves_read, int_bytes_length. Qed.

(** A length field followed by a read of that length. *)
Lemma starves_prefixed {A} (data : bytes) (k : Z -> M Reader A) :
  (Z.of_nat (length data) < 4294967296)%Z ->
  starves (k (Z.of_nat (length data))) data ->
  starves (bind (d_num Uint32) k) (prefixed (length data) data).
Proof.
  intros Hlen Hk. unfold prefixed.
  apply (starves_bind _ _ _ _ (eq (Z.of_nat (length data)))).
  - apply takes_count. lia.
  - apply starves_count.
  - intros a <-. exact Hk.
Qed.

(** *** The primitive codecs *)

Lemma numCodec_starving (n : nat)
    (getter : bytes -> nat -> bool -> outcome Value)
    (setter : bytes -> nat -> Value -> bool -> outcome bytes)
    (endian : Endian) (T R : dom) :
  sound true (numCodec n getter setter endian) T R ->
  starving (numCodec n getter setter endian) T R.
Proof.
  intros Hsound v HT _. destruct (Hsound v HT) as [bs [Hw [Hsz _]]].
  specialize (Hsz eq_refl). unfold size in Hsz. cbn [s numCodec codec] in Hsz.
  injection Hsz as Hn.
  exists bs. split; [exact Hw |].
  cbn [d numCodec codec]. apply starves_read. symmetry. exact Hn.
Qed.

Lemma Bool_starving : starving Bool any_boolean any_boolean.
Proof.
  intros v [b ->] _. exists (int_bytes 1 false (if b then 1 else 0)). split.
  - unfold writes, Bool. cbn [e codec].
    eapply pushes_lift; [reflexivity |]. apply pushes_Uint8.
  - unfold Bool. cbn [d codec]. apply starves_first, starves_flag.
Qed.

Lemma Utf8_starving : starving Utf8 any_string (text_below 4294967296).
Proof.
  intros v [x ->] [x' [Hx [_ Hlen]]]. injection Hx as <-.
  exists (prefixed (String.length x) (list_byte_of_string x)).
  split; [apply Utf8_writes |].
  rewrite <- list_byte_of_string_length in *.
  unfold Utf8. cbn [d codec].
  apply starves_prefixed; [exact Hlen |].
  rewrite Nat2Z.id. apply starves_read. reflexivity.
Qed.

Lemma utf8_fixed_starving (p : Utf8Params) (fixed : nat) :
  utf8_fixed p = Some fixed ->
  starving (utf8 p) (string_within (Some fixed)) unpadded_text.
Proof.
  intros Hp v HT _.
  destruct (utf8_fixed_sound false p fixed Hp v HT) as [bs [Hw _]].
  exists bs. split; [exact Hw |].
  destruct HT as [x [-> Hx]]. apply exceeds_false in Hx.
  rewrite <- list_byte_of_string_length in Hx.
  assert (Hbs : bs = list_byte_of_string x ++ zeros (fixed - length (list_byte_of_string x))).
  { apply (pushes_unique _ _ _ Hw). apply writes_chunk.
    intros bufs len. unfold utf8. rewrite Hp. cbn [e codec].
    rewrite padded_length by exact Hx.
    apply write_chunk. cbn [ENC_encode obind]. apply u8_set_zeros. exact Hx. }
  unfold utf8. rewrite Hp. cbn [d codec].
  apply starves_read. rewrite Hbs. apply padded_length. exact Hx.
Qed.

Lemma utf8_dynamic_starving (p : Utf8Params) :
  utf8_fixed p = None ->
  starving (utf8 p) (string_within (maxBytes p)) (text_below 4294967296).
Proof.
  intros Hp v HT [x' [Hx' [_ Hlen]]].
  destruct (utf8_dynamic_sound false p Hp v HT) as [bs [Hw _]].
  destruct HT as [x [-> Hx]]. injection Hx' as <-.
  exists (prefixed (String.length x) (list_byte_of_string x)). split.
  - rewrite <- (list_byte_of_string_length x) in *.
    unfold utf8. rewrite Hp.
    eexists. split; [apply concat_prefixed |].
    intros bufs len. simpl e. unfold bind at 1, lift. simpl ENC_encode. cbv iota beta.
    rewrite Hx. apply write_prefixed.
  - rewrite <- list_byte_of_string_length in *.
    unfold utf8. rewrite Hp. cbn [d codec].
    apply starves_prefixed; [exact Hlen |].
    rewrite Nat2Z.id, Hx. apply starves_read. reflexivity.
Qed.

Lemma json_starving (JSON_stringify : Value -> outcome string)
    (JSON_parse : string -> outcome Value) :
  starving (json JSON_stringify JSON_parse)
           (stringified JSON_stringify) (parsed_back JSON_stringify JSON_parse).
Proof.
  intros v [x Hx] [x' [v' [Hx' [Hplain [Hlen _]]]]].
  rewrite Hx in Hx'. injection Hx' as <-.
  destruct (Utf8_starving (VStr x)) as [bs [Hw Hs]].
  { exists x. reflexivity. }
  { exists x. auto. }
  exists bs. split.
  - unfold writes, json. cbn [e codec].
    eapply pushes_lift; [exact Hx | exact Hw].
  - unfold json. cbn [d codec]. apply starves_first. exact Hs.
Qed.

Lemma Bytes_starving : starving Bytes any_bytes (bytes_below 4294967296).
Proof.
  intros v [b ->] [b' [Hb Hlen]]. injection Hb as <-.
  exists (prefixed (length b) b). split.
  - eexists. split; [apply concat_prefixed |].
    intros bufs len. simpl e. unfold bind at 1, lift. simpl as_bytes.
    apply write_prefixed.
  - unfold Bytes. cbn [d codec].
    apply starves_prefixed; [exact Hlen |].
    rewrite Nat2Z.id. apply starves_read. reflexivity.
Qed.

Lemma bytes_fixed_starving (p : BytesParams) (fixed : nat) :
  bytes_fixed p = Some fixed ->
  starving (bytes_ p) (bytes_within (Some fixed)) (bytes_of_length fixed).
Proof.
  intros Hp v [b [-> Hb]] _. apply exceeds_false in Hb.
  exists (b ++ zeros (fixed - length b)). split.
  - apply writes_chunk. intros bufs len.
    unfold bytes_. rewrite Hp. cbn [e codec].
    rewrite padded_length by exact Hb.
    apply write_chunk. cbn [as_bytes obind]. apply u8_set_zeros. exact Hb.
  - unfold bytes_. rewrite Hp. cbn [d codec].
    apply starves_read, padded_length. exact Hb.
Qed.

Lemma bytes_dynamic_starving (p : BytesParams) :
  bytes_fixed p = None ->
  starving (bytes_ p) (bytes_within (max p)) (bytes_below 4294967296).
Proof.
  intros Hp v HT HR.
  destruct (bytes_dynamic_sound false p Hp v HT) as [bs [Hw _]].
  exists bs. split; [exact Hw |].
  destruct HT as [b [-> Hb]]. destruct HR as [b' [Hb' Hlen]]. injection Hb' as <-.
  revert Hw. unfold bytes_. rewrite Hp.
  destruct (max p) as [mx |]; intros Hw.
  - assert (Hbs : bs = prefixed (length b) b).
    { apply (pushes_unique _ _ _ Hw).
      eexists. split; [apply concat_prefixed |].
      intros bufs len. simpl e. unfold bind at 1, lift. simpl as_bytes. cbv iota beta.
      simpl in Hb. rewrite Hb. apply write_prefixed. }
    subst bs. cbn [d codec].
    apply starves_prefixed; [exact Hlen |].
    rewrite Nat2Z.id. simpl in Hb. rewrite Hb. apply starves_read. reflexivity.
  - destruct (Bytes_starving (VBytes b)) as [bs' [Hw' Hs]].
    { exists b. reflexivity. }
    { exists b. auto. }
    rewrite (pushes_unique _ _ _ Hw Hw'). exact Hs.
Qed.

Lemma literal_starving (val : Value) :
  starving (literal val) (fun _ => True) (fun v => deep_equal val v).
Proof.
  intros v _ _. exists []. split; [apply pushes_ret | apply starves_nil].
Qed.

(** *** The combinators *)

Lemma optional_starving (inner : Codec) (T R : dom) :
  tight inner T R -> starving (optional inner) (optional_of T) (optional_of R).
Proof.
  intros Hin v HT HR.
  destruct (is_undefined v) eqn:Hu.
  - exists (int_bytes 1 false 0). split.
    + unfold writes, optional. cbn [e]. rewrite Hu. apply pushes_Uint8.
    + unfold optional. cbn [d]. apply starves_first, starves_flag.
  - pose proof (is_undefined_false v Hu) as Hne.
    destruct HT as [-> | HT]; [congruence |].
    destruct HR as [-> | HR]; [congruence |].
    destruct (Hin v HT HR) as [bs [Hw [Hr Hs]]].
    exists (int_bytes 1 false 1 ++ bs). split.
    + unfold writes, optional. cbn [e]. rewrite Hu.
      apply pushes_bind; [apply pushes_Uint8 | exact Hw].
    + unfold optional. cbn [d].
      apply (starves_bind _ _ _ _ (eq 1%Z)); [apply takes_flag; lia | apply starves_flag |].
      intros a <-. exact Hs.
Qed.

Lemma nullable_starving (inner : Codec) (T R : dom) :
  tight inner T R -> starving (nullable inner) (nullable_of T) (nullable_of R).
Proof.
  intros Hin v HT HR.
  destruct (is_null v) eqn:Hu.
  - exists (int_bytes 1 false 0). split.
    + unfold writes, nullable. cbn [e codec]. rewrite Hu. apply pushes_Uint8.
    + unfold nullable. cbn [d codec]. apply starves_first, starves_flag.
  - pose proof (is_null_false v Hu) as Hne.
    destruct HT as [-> | HT]; [congruence |].
    destruct HR as [-> | HR]; [congruence |].
    destruct (Hin v HT HR) as [bs [Hw [Hr Hs]]].
    exists (int_bytes 1 false 1 ++ bs). split.
    + unfold writes, nullable. cbn [e codec]. rewrite Hu.
      apply pushes_bind; [apply pushes_Uint8 | exact Hw].
    + unfold nullable. cbn [d codec].
      apply (starves_bind _ _ _ _ (eq 1%Z)); [apply takes_flag; lia | apply starves_flag |].
      intros a <-. exact Hs.
Qed.

Lemma each_starving (inner : Codec) (T R : dom) (l : list Value) :
  tight inner T R -> Forall T l -> Forall R l ->
  exists bs,
    pushes (encode_each inner l) bs /\
    starves (decode_n inner (length l)) bs.
Proof.
  intros Hin. induction l as [| x rest IH]; intros HT HR.
  - exists []. split; [apply pushes_ret | apply starves_nil].
  - inversion HT as [| ? ? HTx HTrest]; subst.
    inversion HR as [| ? ? HRx HRrest]; subst.
    destruct (Hin x HTx HRx) as [bs [Hw [Hr Hs]]].
    destruct (IH HTrest HRrest) as [bs' [Hw' Hs']].
    exists (bs ++ bs'). split.
    + cbn [encode_each]. apply pushes_bind; assumption.
    + cbn [length decode_n].
      apply (starves_bind _ _ _ _ (fun x' => deep_equal x' x)); [exact Hr | exact Hs |].
      intros a _. apply starves_first. exact Hs'.
Qed.

Lemma array_starving (inner : Codec) (maxLength : option nat) (T R : dom) :
  tight inner T R ->
  starving (array inner maxLength) (array_within maxLength T) (array_below 4294967296 R).
Proof.
  intros Hin v [l [-> [HT Hmax]]] [l' [Hl [HR Hlen]]]. injection Hl as <-.
  destruct (each_starving inner T R l Hin HT HR) as [bs [Hw Hs]].
  exists (int_bytes 4 false (Z.of_nat (length l)) ++ bs).
  destruct maxLength as [mx |]; simpl in Hmax; unfold array; split.
  - unfold writes. cbn [e codec]. eapply pushes_lift; [reflexivity |].
    rewrite Hmax. apply pushes_bind; [apply pushes_Uint32 | exact Hw].
  - cbn [d codec].
    apply (starves_bind _ _ _ _ (eq (Z.of_nat (length l))));
      [apply takes_count; lia | apply starves_count |].
    intros a <-. rewrite Nat2Z.id, Hmax. apply starves_first. exact Hs.
  - unfold writes. cbn [e codec]. eapply pushes_lift; [reflexivity |].
    apply pushes_bind; [apply pushes_Uint32 | exact Hw].
  - cbn [d codec].
    apply (starves_bind _ _ _ _ (eq (Z.of_nat (length l))));
      [apply takes_count; lia | apply starves_count |].
    intros a <-. rewrite Nat2Z.id. apply starves_first. exact Hs.
Qed.

Lemma fields_starving (shape : obj Codec) (FT FR : string -> dom)
    (o : obj Value) (ks : list string) :
  (forall k c, obj_get shape k = Some c -> tight c (FT k) (FR k)) ->
  (forall k, In k ks -> exists c, obj_get shape k = Some c) ->
  (forall k, In k ks -> FT k (lookup o k)) ->
  (forall k, In k ks -> FR k (lookup o k)) ->
  (forall k, In k ks -> lookup o k = get o k) ->
  (In "__proto__"%string ks -> get o "__proto__" = VUndefined) ->
  exists bs,
    pushes (encode_fields shape ks (VObj o)) bs /\
    forall res0, starves (decode_fields shape ks res0) bs.
Proof.
  intros Hshape. induction ks as [| key rest IH]; intros Hks HT HR Hown Hproto.
  - exists []. split; [apply pushes_ret | intros res0; apply starves_nil].
  - destruct (Hks key (or_introl eq_refl)) as [c Hc].
    destruct (Hshape key c Hc (lookup o key) (HT key (or_introl eq_refl))
                     (HR key (or_introl eq_refl))) as [bs [Hw [Hr Hs]]].
    destruct IH as [bs' [Hw' Hs']].
    { intros k Hk. apply Hks. right. exact Hk. }
    { intros k Hk. apply HT. right. exact Hk. }
    { intros k Hk. apply HR. right. exact Hk. }
    { intros k Hk. apply Hown. right. exact Hk. }
    { intros Hk. apply Hproto. right. exact Hk. }
    exists (bs ++ bs'). split.
    + cbn [encode_fields]. unfold field. rewrite Hc.
      eapply pushes_lift; [reflexivity |].
      eapply pushes_lift; [reflexivity |].
      apply pushes_bind; [exact Hw | exact Hw'].
    + intros res0. cbn [decode_fields]. unfold field. rewrite Hc.
      eapply starves_lift; [reflexivity |].
      apply (starves_bind _ _ _ _ (fun x => deep_equal x (lookup o key)));
        [exact Hr | exact Hs |].
      intros a Ha.
      destruct (assign_get res0 key a) as [res1 [Hassign _]].
      { intros ->. apply undefined_of_deep_equal.
        rewrite <- (Hproto (or_introl eq_refl)), <- (Hown _ (or_introl eq_refl)).
        exact Ha. }
      eapply starves_lift; [exact Hassign |]. apply Hs'.
Qed.

Lemma struct_starving (shape : obj Codec) (FT FR : string -> dom) :
  (forall k c, obj_get shape k = Some c -> tight c (FT k) (FR k)) ->
  starving (struct shape) (struct_of shape FT) (struct_only shape FR).
Proof.
  intros Hshape v [o [-> HT]] [o' [Ho [HR [Hown [Hproto _]]]]]. injection Ho as <-.
  destruct (fields_starving shape FT FR o (own_keys shape) Hshape
              (own_keys_field shape) HT HR Hown Hproto) as [bs [Hw Hs]].
  exists bs. split; [exact Hw |].
  unfold struct. cbn [d]. apply starves_first. apply Hs.
Qed.

Lemma items_starving (shape : list Codec) (FT FR : nat -> dom) (l : list Value) :
  forall (rest : list Codec) (i : nat),
    (forall j c, nth_error rest j = Some c -> tight c (FT (i + j)) (FR (i + j))) ->
    (forall j, j < length rest -> FT (i + j) (nth (i + j) l VUndefined)) ->
    (forall j, j < length rest -> FR (i + j) (nth (i + j) l VUndefined)) ->
    exists bs,
      pushes (encode_items rest (VArr l) i) bs /\
      starves (decode_items rest) bs.
Proof.
  induction rest as [| c rest IH]; intros i Hshape HT HR.
  - exists []. split; [apply pushes_ret | apply starves_nil].
  - pose proof (Hshape 0 c eq_refl) as Hc.
    pose proof (HT 0 ltac:(simpl; lia)) as HTx.
    pose proof (HR 0 ltac:(simpl; lia)) as HRx.
    rewrite Nat.add_0_r in Hc, HTx, HRx.
    destruct (Hc _ HTx HRx) as [bs [Hw [Hr Hs]]].
    destruct (IH (S i)) as [bs' [Hw' Hs']].
    { intros j c' Hj. rewrite Nat.add_succ_comm. apply (Hshape (S j)). exact Hj. }
    { intros j Hj. rewrite Nat.add_succ_comm. apply (HT (S j)). simpl. lia. }
    { intros j Hj. rewrite Nat.add_succ_comm. apply (HR (S j)). simpl. lia. }
    exists (bs ++ bs'). split.
    + cbn [encode_items item]. eapply pushes_lift; [reflexivity |].
      apply pushes_bind; [exact Hw | exact Hw'].
    + cbn [decode_items].
      apply (starves_bind _ _ _ _ (fun x => deep_equal x (nth i l VUndefined)));
        [exact Hr | exact Hs |].
      intros a _. apply starves_first. exact Hs'.
Qed.

Lemma tuple_starving (shape : list Codec) (FT FR : nat -> dom) :
  (forall i c, nth_error shape i = Some c -> tight c (FT i) (FR i)) ->
  starving (tuple shape) (tuple_of shape FT) (tuple_of shape FR).
Proof.
  intros Hshape v [l [-> [Hlen HT]]] [l' [Hl [_ HR]]]. injection Hl as <-.
  destruct (items_starving shape FT FR l shape 0) as [bs [Hw Hs]].
  - intros j c Hj. apply Hshape. exact Hj.
  - intros j Hj. simpl. apply HT. apply nth_error_nth'. lia.
  - intros j Hj. simpl. apply HR. apply nth_error_nth'. lia.
  - exists bs. split; [exact Hw |].
    unfold tuple. cbn [d]. apply starves_first. exact Hs.
Qed.

Lemma taggedUnion_starving (shape : obj Codec) (FT FR : string -> dom) :
  (forall k c, obj_get shape k = Some c -> tight c (FT k) (FR k)) ->
  starving (taggedUnion shape) (tagged_of shape FT) (tagged_below shape FR).
Proof.
  intros Hshape v [name [payload [-> [Hin HT]]]]
         [name' [payload' [idx [Hv [Hidx [Hlt HR]]]]]].
  injection Hv as <- <-.
  destruct (own_keys_field shape name Hin) as [c Hc].
  destruct (Hshape name c Hc payload HT HR) as [bs [Hw [Hr Hs]]].
  destruct (index_of_nth name _ idx Hidx) as [Hlen Hnth].
  exists (int_bytes 1 false (Z.of_nat idx) ++ bs). split.
  - unfold writes, taggedUnion. cbn [e].
    do 3 (eapply pushes_lift; [reflexivity |]). rewrite Hidx.
    apply pushes_bind; [apply pushes_Uint8 |].
    unfold field. rewrite Hc. eapply pushes_lift; [reflexivity | exact Hw].
  - unfold taggedUnion. cbn [d].
    apply (starves_bind _ _ _ _ (eq (Z.of_nat idx)));
      [apply takes_flag; lia | apply starves_flag |].
    intros a <-. rewrite (index_in_range idx _ Hlen), Nat2Z.id. cbv zeta. rewrite Hnth.
    unfold field. rewrite Hc. eapply starves_lift; [reflexivity |].
    apply starves_first. exact Hs.
Qed.

Lemma discriminatedUnion_starving (tag : string) (candidates : list Codec)
    (c : Codec) (FT FR : nat -> dom) :
  discriminatedUnion tag candidates = Ok c ->
  (forall i cand, nth_error candidates i = Some cand -> tight cand (FT i) (FR i)) ->
  starving c (union_of tag candidates FT) (union_below tag candidates FR).
Proof.
  unfold discriminatedUnion.
  intros Hc Hcands v [o [keys [i [-> [Hkeys [Hi HT]]]]]]
         [o' [keys' [i' [Hv [Hkeys' [Hi' [Hlt' HR]]]]]]].
  injection Hv as <-. rewrite Hkeys in Hkeys'. injection Hkeys' as <-.
  rewrite Hi in Hi'. injection Hi' as <-.
  rewrite Hkeys in Hc. simpl in Hc. injection Hc as <-.
  pose proof (index_of_value_lt _ _ _ Hi) as Hlt.
  rewrite (literals_at_length _ _ _ Hkeys) in Hlt.
  destruct (nth_error candidates i) as [cand |] eqn:Hcand;
    [| apply nth_error_None in Hcand; lia].
  destruct (Hcands i cand Hcand _ HT HR) as [bs [Hw [Hr Hs]]].
  exists (int_bytes 1 false (Z.of_nat i) ++ bs). split.
  - unfold writes. cbn [e].
    eapply pushes_lift; [reflexivity |]. rewrite Hi. cbv zeta.
    apply pushes_bind; [apply pushes_Uint8 |].
    unfold candidate. rewrite Hcand. eapply pushes_lift; [reflexivity | exact Hw].
  - cbn [d].
    apply (starves_bind _ _ _ _ (eq (Z.of_nat i)));
      [apply takes_flag; lia | apply starves_flag |].
    intros a <-. rewrite Nat2Z.id. unfold candidate. rewrite Hcand.
    eapply starves_lift; [reflexivity | exact Hs].
Qed.

Lemma envelope_starving (inner : Codec) (T R : dom) :
  tight inner T R -> starving (envelope inner) T (payload_fits inner R).
Proof.
  intros Hin v HT [HR Hfit].
  destruct (Hin v HT HR) as [bs [Hw [Hr Hs]]].
  pose proof (pushes_encode _ _ Hw) as Henc. fold (encode inner v) in Henc.
  specialize (Hfit bs Henc).
  exists (framed bs). split.
  - unfold writes, envelope, framed. cbn [e codec]. push_steps.
  - unfold envelope, framed. cbn [d codec].
    apply (starves_bind _ _ _ _ (eq HEADER));
      [apply takes_count; unfold HEADER; lia | apply starves_count |].
    intros a <-. rewrite Z.eqb_refl. cbn [negb].
    apply (starves_bind _ _ _ _ (eq VERSION));
      [apply takes_Uint16; unfold VERSION; lia | apply starves_Uint16 |].
    intros a <-. unfold VERSION. cbn [Z.eqb Pos.eqb negb].
    apply (starves_bind _ _ _ _ (eq (Z.of_nat (length bs))));
      [apply takes_count; lia | apply starves_count |].
    intros a <-. rewrite Nat2Z.id.
    apply starves_first, starves_read. reflexivity.
Qed.

Lemma validate_starving (c : Codec) (pre post : option (Value -> outcome unit))
    (T R : dom) :
  tight c T R -> starving (validate c pre post) (checked_by pre T) (accepted_by post R).
Proof.
  intros Hc v [Hpre HT] [HR _].
  destruct (Hc v HT HR) as [bs [Hw [_ Hs]]].
  exists bs. split.
  - unfold writes, validate. cbn [e]. eapply pushes_lift; [exact Hpre | exact Hw].
  - unfold validate. cbn [d]. apply starves_first. exact Hs.
Qed.

Lemma map_starving (c : Codec) (f g : Value -> outcome Value) (T R : dom) :
  tight c T R -> starving (map_ c f g) (projected f T) (inverted f g R).
Proof.
  intros Hc v [x [Hf HT]] [x' [Hf' [HR _]]].
  rewrite Hf in Hf'. injection Hf' as <-.
  destruct (Hc x HT HR) as [bs [Hw [_ Hs]]].
  exists bs. split.
  - unfold writes, map_. cbn [e]. eapply pushes_lift; [exact Hf | exact Hw].
  - unfold map_. cbn [d]. apply starves_first. exact Hs.
Qed.

Ltac component sized :=
  intros; eapply (tight_of sized); [apply Built_sound; eauto | eauto].

Lemma Built_starving sized (c : Codec) (T R : dom) :
  Built sized c T R -> starving c T R.
Proof.
  induction 1.
  - apply numCodec_starving, uint8_sound.
  - apply numCodec_starving, int8_sound.
  - apply numCodec_starving, uint16_sound.
  - apply numCodec_starving, int16_sound.
  - apply numCodec_starving, uint32_sound.
  - apply numCodec_starving, int32_sound.
  - apply numCodec_starving, float32_sound.
  - apply numCodec_starving, float64_sound.
  - apply numCodec_starving, bigUint64_sound.
  - apply numCodec_starving, bigInt64_sound.
  - apply Bool_starving.
  - apply Utf8_starving.
  - apply utf8_fixed_starving; assumption.
  - apply utf8_dynamic_starving; assumption.
  - apply json_starving.
  - apply Bytes_starving.
  - apply bytes_fixed_starving; assumption.
  - apply bytes_dynamic_starving; assumption.
  - apply literal_starving.
  - apply optional_starving. component sized.
  - apply nullable_starving. component sized.
  - apply array_starving. component sized.
  - apply struct_starving. component sized.
  - apply tuple_starving. component sized.
  - apply taggedUnion_starving. component sized.
  - eapply discriminatedUnion_starving; [eassumption |]. component sized.
  - apply envelope_starving. component sized.
  - apply validate_starving. component sized.
  - apply map_starving. component sized.
  - intros v HT' HR'. apply IHBuilt; auto.
Qed.

(** X25.  A truncated encoding never decodes under [tryDecode]: for
    every codec built from the primitives and the combinators and every
    value of its round-trip domain, [tryDecode] on a proper prefix of the
    encoding of the value, the empty one included, returns the error
    "Out of bounds: need n at p, len=l" of the checked reader, [l] being
    the length of the prefix. *)
Theorem tryDecode_rejects_truncated_input :
  forall (sized : bool) (c : Codec) (T R : dom) (v : Value) (bs p q : bytes),
    Built sized c T R -> T v -> R v ->
    encode c v = Ok bs ->
    bs = p ++ q -> q <> [] ->
    exists n at_ : nat,
      tryDecode c p = IsErr (exn_message (out_of_bounds n at_ (length p))).
Proof.
  intros sized c T R v bs p q HB HT HR He Hbs Hq.
  destruct (Built_starving sized c T R HB v HT HR) as [bs' [Hw Hs]].
  assert (Heq : bs' = bs) by (apply encode_writes in Hw; congruence). subst bs'.
  destruct (Hs (checkedReader p 0) [] p q eq_refl eq_refl eq_refl Hbs Hq)
    as [n [at_ [r' Hd]]].
  exists n, at_. unfold tryDecode. rewrite Hd. reflexivity.
Qed.

Lemma tryDecode_rejects_truncated_input_witness :
  exists n at_ : nat,
    tryDecode items_struct
      [x00; x00; x00; x03; x01; x00; x07; x00; x01; x01; x00; x00; x00; x02; x68]
    = IsErr (exn_message
               (out_of_bounds n at_
                  (length [x00; x00; x00; x03; x01; x00; x07; x00; x01; x01;
                           x00; x00; x00; x02; x68]))).
Proof.
  apply (tryDecode_rejects_truncated_input false items_struct _ _ items_value
           [x00; x00; x00; x03; x01; x00; x07; x00; x01; x01; x00; x00; x00; x02; x68; x69]
           [x00; x00; x00; x03; x01; x00; x07; x00; x01; x01; x00; x00; x00; x02; x68]
           [x69]
           (items_struct_built false) items_value_T items_value_R).
  - reflexivity.
  - reflexivity.
  - discriminate.
Defined.

(** ** Checked and unchecked decoding *)

Lemma agrees_ret {A} (a : A) : agrees (ret a).
Proof.
  intros b p a' r' H. unfold ret in H. injection H as <- <-.
  exists p. split; reflexivity.
Qed.

Lemma agrees_throw {A} (x : exn) : agrees (@throw Reader A x).
Proof. intros b p a r' H. discriminate H. Qed.

Lemma agrees_lift {A} (o : outcome A) : agrees (lift o).
Proof.
  intros b p a r' H. unfold lift in H. injection H as -> <-.
  exists p. split; reflexivity.
Qed.

Lemma agrees_bind {A B} (m : M Reader A) (k : A -> M Reader B) :
  agrees m -> (forall a, agrees (k a)) -> agrees (bind m k).
Proof.
  intros Hm Hk b p x r' H.
  apply bind_inv_ok in H. destruct H as [a [r1 [H1 H2]]].
  destruct (Hm b p a r1 H1) as [p1 [-> H1']].
  destruct (Hk a b p1 x r' H2) as [p2 [-> H2']].
  exists p2. split; [reflexivity |].
  unfold bind. rewrite H1'. exact H2'.
Qed.

Lemma agrees_read {A} (n : nat) (fn : ReadFn A) : agrees (read n fn).
Proof.
  intros b p a r' H.
  destruct (read_ok_inv n fn _ r' a H) as [Hfn ->].
  exists (p + n). split; [reflexivity |].
  unfold checkedReader in Hfn. cbn [buf pos] in Hfn.
  unfold read, reader. cbn [checked buf pos]. rewrite Hfn. reflexivity.
Qed.

Lemma agrees_d_num (c : Codec) : agrees (d c) -> agrees (d_num c).
Proof.
  intros H. unfold d_num. apply agrees_bind; [exact H |].
  intros v. apply agrees_lift.
Qed.

Lemma agrees_Uint8 : agrees (d_num Uint8).
Proof. apply agrees_d_num, agrees_read. Qed.

Lemma agrees_Uint16 : agrees (d_num Uint16).
Proof. apply agrees_d_num, agrees_read. Qed.

Lemma agrees_Uint32 : agrees (d_num Uint32).
Proof. apply agrees_d_num, agrees_read. Qed.

Lemma agrees_if {A} (t : bool) (m1 m2 : M Reader A) :
  agrees m1 -> agrees m2 -> agrees (if t then m1 else m2).
Proof. intros H1 H2. destruct t; assumption. Qed.

Lemma agrees_decode_n (inner : Codec) (n : nat) :
  agrees (d inner) -> agrees (decode_n inner n).
Proof.
  intros Hin. induction n as [| n IH]; cbn [decode_n].
  - apply agrees_ret.
  - apply agrees_bind; [exact Hin |]. intros x.
    apply agrees_bind; [exact IH |]. intros rest. apply agrees_ret.
Qed.

Lemma agrees_lift_bind {A B} (o : outcome A) (k : A -> M Reader B) :
  (forall a, o = Ok a -> agrees (k a)) -> agrees (bind (lift o) k).
Proof.
  intros Hk b p x r' H. destruct o as [a | er].
  - exact (Hk a eq_refl b p x r' H).
  - discriminate H.
Qed.

Lemma agrees_decode_fields (shape : obj Codec) (ks : list string) :
  (forall k c, obj_get shape k = Some c -> agrees (d c)) ->
  forall res0, agrees (decode_fields shape ks res0).
Proof.
  intros Hshape. induction ks as [| key rest IH]; intros res0; cbn [decode_fields].
  - apply agrees_ret.
  - apply agrees_lift_bind. intros c Hc.
    unfold field in Hc. destruct (obj_get shape key) as [c0 |] eqn:Hget; [| discriminate Hc].
    injection Hc as ->.
    apply agrees_bind; [apply (Hshape key c Hget) |]. intros x.
    apply agrees_lift_bind. intros res1 _. apply IH.
Qed.

Lemma agrees_decode_items (shape : list Codec) :
  (forall c, In c shape -> agrees (d c)) -> agrees (decode_items shape).
Proof.
  induction shape as [| c rest IH]; intros Hshape; cbn [decode_items].
  - apply agrees_ret.
  - apply agrees_bind; [apply Hshape; left; reflexivity |]. intros x.
    apply agrees_bind; [apply IH; intros c' Hc'; apply Hshape; right; exact Hc' |].
    intros xs. apply agrees_ret.
Qed.

Lemma Built_agrees sized (c : Codec) (T R : dom) :
  Built sized c T R -> agrees (d c).
Proof.
  induction 1.
  - apply agrees_read.
  - apply agrees_read.
  - apply agrees_read.
  - apply agrees_read.
  - apply agrees_read.
  - apply agrees_read.
  - apply agrees_read.
  - apply agrees_read.
  - apply agrees_read.
  - apply agrees_read.
  - unfold Bool. cbn [d codec].
    apply agrees_bind; [apply agrees_Uint8 | intros x; apply agrees_ret].
  - unfold Utf8. cbn [d codec].
    apply agrees_bind; [apply agrees_Uint32 | intros n; apply agrees_read].
  - unfold utf8. rewrite H. apply agrees_read.
  - unfold utf8. rewrite H. cbn [d codec].
    apply agrees_bind; [apply agrees_Uint32 |]. intros n.
    apply agrees_if; [apply agrees_throw | apply agrees_read].
  - unfold json. cbn [d codec].
    apply agrees_bind.
    + unfold Utf8. cbn [d codec].
      apply agrees_bind; [apply agrees_Uint32 | intros n; apply agrees_read].
    + intros x. apply agrees_bind; [apply agrees_lift | intros y; apply agrees_lift].
  - unfold Bytes. cbn [d codec].
    apply agrees_bind; [apply agrees_Uint32 | intros n; apply agrees_read].
  - unfold bytes_. rewrite H. apply agrees_read.
  - unfold bytes_. rewrite H. destruct (max p) as [mx |]; cbn [d codec Bytes].
    + apply agrees_bind; [apply agrees_Uint32 |]. intros n.
      apply agrees_if; [apply agrees_throw | apply agrees_read].
    + apply agrees_bind; [apply agrees_Uint32 | intros n; apply agrees_read].
  - apply agrees_ret.
  - unfold optional. cbn [d].
    apply agrees_bind; [apply agrees_Uint8 |]. intros flag.
    apply agrees_if; [apply agrees_ret | exact IHBuilt].
  - unfold nullable. cbn [d codec].
    apply agrees_bind; [apply agrees_Uint8 |]. intros flag.
    apply agrees_if; [apply agrees_ret | exact IHBuilt].
  - unfold array. destruct maxLength as [mx |]; cbn [d codec].
    + apply agrees_bind; [apply agrees_Uint32 |]. intros n.
      apply agrees_if; [apply agrees_throw |].
      apply agrees_bind; [apply agrees_decode_n; exact IHBuilt |].
      intros out. apply agrees_ret.
    + apply agrees_bind; [apply agrees_Uint32 |]. intros n.
      apply agrees_bind; [apply agrees_decode_n; exact IHBuilt |].
      intros out. apply agrees_ret.
  - unfold struct. cbn [d].
    apply agrees_bind; [apply agrees_decode_fields; assumption |].
    intros res. apply agrees_ret.
  - unfold tuple. cbn [d].
    apply agrees_bind; [| intros res; apply agrees_ret].
    apply agrees_decode_items. intros c Hc.
    apply In_nth_error in Hc. destruct Hc as [i Hi]. eauto.
  - unfold taggedUnion. cbn [d].
    apply agrees_bind; [apply agrees_Uint8 |]. intros idx.
    apply agrees_if; [apply agrees_throw |]. cbv zeta.
    apply agrees_lift_bind. intros c Hc.
    unfold field in Hc.
    destruct (obj_get shape _) as [c0 |] eqn:Hget; [| discriminate Hc].
    injection Hc as ->.
    apply agrees_bind; [eauto | intros x; apply agrees_ret].
  - unfold discriminatedUnion in H.
    destruct (literals_at tag candidates) as [keys |]; [| discriminate H].
    cbn [obind] in H. injection H as <-. cbn [d].
    apply agrees_bind; [apply agrees_Uint8 |]. intros idx.
    apply agrees_lift_bind. intros cand Hcand.
    unfold candidate in Hcand.
    destruct (nth_error candidates (Z.to_nat idx)) as [c0 |] eqn:Hnth; [| discriminate Hcand].
    injection Hcand as ->. eauto.
  - unfold envelope. cbn [d codec].
    apply agrees_bind; [apply agrees_Uint32 |]. intros h.
    apply agrees_if; [apply agrees_throw |].
    apply agrees_bind; [apply agrees_Uint16 |]. intros ver.
    apply agrees_if; [apply agrees_throw |].
    apply agrees_bind; [apply agrees_Uint32 |]. intros n.
    apply agrees_bind; [apply agrees_read |]. intros payload.
    apply agrees_lift.
  - unfold validate. cbn [d].
    apply agrees_bind; [exact IHBuilt |]. intros out.
    apply agrees_bind; [apply agrees_lift | intros u; apply agrees_ret].
  - unfold map_. cbn [d].
    apply agrees_bind; [exact IHBuilt | intros x; apply agrees_lift].
  - exact IHBuilt.
Qed.

(** X26.  [tryDecode] never accepts what [decode] would not return: for
    every codec built from the primitives and the combinators and every
    input, well-formed or not, when [tryDecode] returns a value, [decode]
    returns that same value on that input, having read the same number of
    bytes.  (The converse fails: see the truncated inputs that only
    [decode] accepts.) *)
Theorem tryDecode_refines_decode :
  forall (sized : bool) (c : Codec) (T R : dom) (data : bytes) (v : Value),
    Built sized c T R ->
    tryDecode c data = IsOk v ->
    decode c data = Ok v /\
    pos (snd (d c (reader data 0))) = pos (snd (d c (checkedReader data 0))).
Proof.
  intros sized c T R data v HB Htry.
  unfold tryDecode in Htry.
  destruct (d c (checkedReader data 0)) as [[a | x] r'] eqn:Hd; [| discriminate Htry].
  cbn [fst] in Htry. injection Htry as ->.
  destruct (Built_agrees sized c T R HB data 0 v r' Hd) as [p' [-> Hu]].
  unfold decode. rewrite Hu. split; reflexivity.
Qed.

Lemma tryDecode_refines_decode_witness :
  decode items_struct
    [x00; x00; x00; x03; x01; x00; x07; x00; x01; x01; x00; x00; x00; x02; x68; x69]
  = Ok (VObj [("items"%string,
               VArr [VArr [VStr "a"; VNum 7]; VUndefined; VArr [VStr "b"; VStr "hi"]])]).
Proof.
  apply (tryDecode_refines_decode false items_struct _ _ _ _ (items_struct_built false)).
  reflexivity.
Defined.

(** ** Limits on what is decoded *)

Lemma decode_n_length (inner : Codec) (n : nat) :
  forall (r r' : Reader) (out : list Value),
    decode_n inner n r = (Ok out, r') -> length out = n.
Proof.
  induction n as [| n IH]; intros r r' out H; cbn [decode_n] in H.
  - unfold ret in H. injection H as <- _. reflexivity.
  - apply bind_inv_ok in H. destruct H as [x [r1 [_ H]]].
    apply bind_inv_ok in H. destruct H as [rest [r2 [Hrest H]]].
    unfold ret in H. injection H as <- _.
    simpl. rewrite (IH _ _ _ Hrest). reflexivity.
Qed.

Lemma u8_slice_length (b : bytes) (o n : nat) : length (u8_slice b o (o + n)) <= n.
Proof.
  unfold u8_slice. rewrite length_firstn. lia.
Qed.

Lemma strip_bom_length (bs : bytes) : length (strip_bom bs) <= length bs.
Proof.
  unfold strip_bom. destruct (has_bom bs); [rewrite length_skipn |]; lia.
Qed.

(** X27.  The limits are guarantees on every input: whatever the buffer
    holds and whichever reader is used, when the decoder of
    [array(inner, { maxLength })] returns, it returns an array of at most
    [maxLength] items; the one of [bytes({ max })] a byte array of at most
    [max] bytes; the one of [utf8({ maxBytes })] a string of at most
    [maxBytes] UTF-8 bytes. *)
Theorem decoded_values_respect_limits :
  forall (m : nat) (r r' : Reader) (v : Value),
    (forall inner : Codec,
        d (array inner (Some m)) r = (Ok v, r') ->
        exists l, v = VArr l /\ length l <= m) /\
    (forall p : BytesParams,
        bytes_fixed p = None -> max p = Some m ->
        d (bytes_ p) r = (Ok v, r') ->
        exists b, v = VBytes b /\ length b <= m) /\
    (forall p : Utf8Params,
        utf8_fixed p = None -> maxBytes p = Some m ->
        d (utf8 p) r = (Ok v, r') ->
        exists x, v = VStr x /\ length (list_byte_of_string x) <= m).
Proof.
  intros m r r' v. split; [| split].
  - intros inner H. unfold array in H. cbn [d codec] in H.
    apply bind_inv_ok in H. destruct H as [n [r1 [_ H]]].
    destruct (Nat.ltb_spec m (Z.to_nat n)) as [Hlt | Hle]; [discriminate H |].
    apply bind_inv_ok in H. destruct H as [out [r2 [Hout H]]].
    unfold ret in H. injection H as <- _.
    exists out. split; [reflexivity |].
    rewrite (decode_n_length _ _ _ _ _ Hout). exact Hle.
  - intros p Hfixed Hmax H. unfold bytes_ in H. rewrite Hfixed, Hmax in H.
    cbn [d codec] in H.
    apply bind_inv_ok in H. destruct H as [n [r1 [_ H]]].
    destruct (Nat.ltb_spec m (Z.to_nat n)) as [Hlt | Hle]; [discriminate H |].
    apply read_ok_inv in H. destruct H as [H _].
    unfold slice_fn in H. injection H as <-.
    eexists. split; [reflexivity |].
    pose proof (u8_slice_length (buf r1) (pos r1) (Z.to_nat n)). lia.
  - intros p Hfixed Hmax H. unfold utf8 in H. rewrite Hfixed, Hmax in H.
    cbn [d codec] in H.
    apply bind_inv_ok in H. destruct H as [n [r1 [_ H]]].
    unfold exceeds in H.
    destruct (Nat.ltb_spec m (Z.to_nat n)) as [Hlt | Hle]; [discriminate H |].
    apply read_ok_inv in H. destruct H as [H _].
    unfold DEC_decode in H.
    destruct (utf8_valid (u8_slice (buf r1) (pos r1) (pos r1 + Z.to_nat n)));
      [| discriminate H].
    cbn [obind] in H. injection H as <-.
    eexists. split; [reflexivity |].
    rewrite list_byte_of_string_of_list_byte.
    pose proof (strip_bom_length (u8_slice (buf r1) (pos r1) (pos r1 + Z.to_nat n))).
    pose proof (u8_slice_length (buf r1) (pos r1) (Z.to_nat n)). lia.
Qed.

Lemma decoded_values_respect_limits_witness :
  (exists l, VArr [VNum 1; VNum 2] = VArr l /\ length l <= 2) /\
  (exists b, VBytes [x01; x02] = VBytes b /\ length b <= 2) /\
  (exists x, VStr (string_of_list_byte [x01; x02]) = VStr x
             /\ length (list_byte_of_string x) <= 2).
Proof.
  split; [| split].
  - apply (proj1 (decoded_values_respect_limits 2 (reader two_items 0) (reader two_items 6)
                    (VArr [VNum 1; VNum 2])) Uint8).
    reflexivity.
  - apply (proj1 (proj2 (decoded_values_respect_limits 2 (reader two_items 0)
                           (reader two_items 6) (VBytes [x01; x02])))
                 {| bytes_fixed := None; max := Some 2 |}); reflexivity.
  - apply (proj2 (proj2 (decoded_values_respect_limits 2 (reader two_items 0)
                           (reader two_items 6) (VStr (string_of_list_byte [x01; x02]))))
                 {| utf8_fixed := None; maxBytes := Some 2 |}); reflexivity.
Defined.

(** ** Byte order of the integer codecs *)

Lemma byte_of_Z_mod (z : Z) : byte_of_Z (z mod 256) = byte_of_Z z.
Proof. unfold byte_of_Z. rewrite Z.mod_mod by lia. reflexivity. Qed.

Lemma encode_numCodec (n : nat)
    (getter : bytes -> nat -> bool -> outcome Value)
    (setter : bytes -> nat -> Value -> bool -> outcome bytes)
    (endian : Endian) (image : bytes) (x : Z) :
  setter (zeros n) 0 (VNum x) (is_le endian) = Ok image ->
  length image = n ->
  encode (numCodec n getter setter endian) (VNum x) = Ok image.
Proof.
  intros Hset Hlen. apply encode_writes, writes_chunk. intros bufs len.
  simpl. unfold write. rewrite Hset, Hlen. reflexivity.
Qed.

Lemma encode_int_bytes (n : nat) (getter : bytes -> nat -> bool -> outcome Value)
    (endian : Endian) (x : Z) :
  encode (numCodec n getter (setInt n) endian) (VNum x) = Ok (int_bytes n (is_le endian) x).
Proof. apply encode_numCodec; [apply setInt_zeros | apply int_bytes_length]. Qed.

(** X28.  The multi-byte integer codecs are big-endian unless ['le'] is
    asked for: [uint16] writes the value divided by 256 and then the
    value, each modulo 256, [uint32] the four bytes from the most to the
    least significant; with ['le'] the same bytes are written in the
    reverse order.  A signed codec writes the bytes of the unsigned codec
    of its width (two's complement). *)
Theorem integer_byte_order :
  forall v : Z,
    encode (uint16 be) (VNum v) = Ok [byte_of_Z (v / 256); byte_of_Z v] /\
    encode (uint16 le) (VNum v) = Ok [byte_of_Z v; byte_of_Z (v / 256)] /\
    encode (uint32 be) (VNum v)
    = Ok [byte_of_Z (v / 16777216); byte_of_Z (v / 65536); byte_of_Z (v / 256); byte_of_Z v] /\
    encode (uint32 le) (VNum v)
    = Ok [byte_of_Z v; byte_of_Z (v / 256); byte_of_Z (v / 65536); byte_of_Z (v / 16777216)] /\
    encode int8 (VNum v) = encode uint8 (VNum v) /\
    (forall en, encode (int16 en) (VNum v) = encode (uint16 en) (VNum v)) /\
    (forall en, encode (int32 en) (VNum v) = encode (uint32 en) (VNum v)) /\
    (forall en, encode (bigInt64 en) (VBigInt v) = encode (bigUint64 en) (VBigInt v)).
Proof.
  intros v.
  assert (H2 : le_bytes 2 v = [byte_of_Z v; byte_of_Z (v / 256)]).
  { cbn [le_bytes]. rewrite !byte_of_Z_mod. reflexivity. }
  assert (H4 : le_bytes 4 v
               = [byte_of_Z v; byte_of_Z (v / 256); byte_of_Z (v / 65536);
                  byte_of_Z (v / 16777216)]).
  { cbn [le_bytes]. rewrite !byte_of_Z_mod.
    rewrite !Z.div_div by lia. reflexivity. }
  repeat split.
  - unfold uint16. rewrite encode_int_bytes. unfold int_bytes. cbn [is_le].
    rewrite H2. reflexivity.
  - unfold uint16. rewrite encode_int_bytes. unfold int_bytes. cbn [is_le].
    rewrite H2. reflexivity.
  - unfold uint32. rewrite encode_int_bytes. unfold int_bytes. cbn [is_le].
    rewrite H4. reflexivity.
  - unfold uint32. rewrite encode_int_bytes. unfold int_bytes. cbn [is_le].
    rewrite H4. reflexivity.
Qed.

(** ** map *)

(** X29.  [map] composes: a codec mapped twice encodes and decodes as
    the codec mapped once with the composed projections, the outer
    encoding projection running first and the outer decoding projection
    last, an exception of either stopping the other; mapping with the
    identity changes nothing.  However many times a codec is mapped, its
    size is still computed by the innermost codec on the value as it is
    given. *)
Theorem map_composes :
  forall (c : Codec) (f1 g1 f2 g2 : Value -> outcome Value),
    (forall (v : Value) (w : Writer),
        e (map_ (map_ c f1 g1) f2 g2) v w
        = e (map_ c (fun x => obind (f2 x) f1) (fun y => obind (g1 y) g2)) v w) /\
    (forall r : Reader,
        d (map_ (map_ c f1 g1) f2 g2) r
        = d (map_ c (fun x => obind (f2 x) f1) (fun y => obind (g1 y) g2)) r) /\
    (forall v : Value, size (map_ (map_ c f1 g1) f2 g2) v = size c v) /\
    (forall (v : Value) (w : Writer), e (map_ c Ok Ok) v w = e c v w) /\
    (forall r : Reader, d (map_ c Ok Ok) r = d c r).
Proof.
  intros c f1 g1 f2 g2. split; [| split; [| split; [| split]]].
  - intros v w. unfold map_. cbn [e]. unfold bind, lift.
    destruct (f2 v) as [x | er]; [| reflexivity]. cbn [obind].
    destruct (f1 x); reflexivity.
  - intros r. unfold map_. cbn [d]. unfold bind, lift.
    destruct (d c r) as [[y | er] r']; [| reflexivity]. cbn [obind].
    destruct (g1 y); reflexivity.
  - intros v. reflexivity.
  - intros v w. reflexivity.
  - intros r. unfold map_. cbn [d]. unfold bind, lift.
    destruct (d c r) as [[y | er] r']; reflexivity.
Qed.
